(** * The WhatsApp transcript cleaner ([clean_raw_chats.py]), embedded in Rocq

    The development follows the Python module top to bottom: Python text
    is a list of Unicode code points, the regular expressions of the module
    are terms of a small regex datatype run by a backtracking matcher with
    the priorities of Python's [re], and the file-level functions are
    written in a state-and-exception monad over the log files, the output
    files and the console. *)

From Stdlib Require Import List NArith Bool String Ascii Lia Arith.
Import ListNotations.

Set Implicit Arguments.

(** ** Text *)

(** A Python [str] is a sequence of code points. *)
Definition char := N.
Definition text := list char.

(** ASCII literals of the source. *)
Definition str (s : string) : text := map N_of_ascii (list_ascii_of_string s).

Definition NL : char := 10%N.

Definition in_range (lo hi c : char) : bool := (lo <=? c)%N && (c <=? hi)%N.
Arguments in_range (lo hi c)%_N.

Definition text_eqb (a b : text) : bool :=
  if list_eq_dec N.eq_dec a b then true else false.

(** [sep.join(parts)] *)
Fixpoint join (sep : text) (parts : list text) : text :=
  match parts with
  | [] => []
  | [p] => p
  | p :: ps => p ++ sep ++ join sep ps
  end.

(** ** The Unicode database

    The character tables of the Python runtime are not part of the
    repository; the functions below take them as a parameter.  Whitespace is
    the one table short enough to be written out. *)

Record Unicode := {
  isprintable : char -> bool;       (* str.isprintable, one character *)
  decimal : char -> option N;       (* value of a decimal digit: [\d], int() *)
  isalnum : char -> bool;           (* alphanumeric: [\w] without the underscore *)
  lower : char -> text;             (* str.lower, one character *)
  ieq : char -> char -> bool        (* [ieq l c]: pattern literal [l] matches [c] under re.IGNORECASE *)
}.

(** [str.isspace] of one character, which is also [\s] and what [strip]
    removes. *)
Definition isspace (c : char) : bool :=
  in_range 9 13 c || in_range 28 32 c || (c =? 133)%N || (c =? 160)%N
  || (c =? 5760)%N || in_range 8192 8202 c || (c =? 8232)%N || (c =? 8233)%N
  || (c =? 8239)%N || (c =? 8287)%N || (c =? 12288)%N.

Fixpoint lstrip (s : text) : text :=
  match s with
  | c :: s' => if isspace c then lstrip s' else s
  | [] => []
  end.

Definition rstrip (s : text) : text := rev (lstrip (rev s)).

(** [s.strip()] *)
Definition strip (s : text) : text := rstrip (lstrip s).

(** ** Regular expressions

    The constructors cover what the patterns of the module use.  [Rep a lo
    extra] is the greedy bounded repeat [a{lo,lo+extra}]; [Many p lo g] is
    the unbounded repeat of a one-character set, greedy ([p{lo,}]) or lazy
    ([p{lo,}?]). *)

Inductive regex :=
| Eps
| Chr (p : char -> bool)
| Seq (a b : regex)
| Alt (a b : regex)
| Rep (a : regex) (lo extra : nat)
| Many (p : char -> bool) (lo : nat) (greedy : bool)
| Grp (a : regex)
| Bnd
| Bol
| Eol.

(** The matcher's position: the character before it (none at the start of
    the string), the text after it, the number of characters consumed since
    the match started, and the groups closed so far. *)
Record mstate := MState {
  prev : option char;
  rest : text;
  pos : nat;
  caps : list text
}.

Definition advance (c : char) (s' : text) (st : mstate) : mstate :=
  MState (Some c) s' (S (pos st)) (caps st).

(** Closing a group that was opened at [st0]. *)
Definition capture (st0 st : mstate) : mstate :=
  MState (prev st) (rest st) (pos st)
         (caps st ++ [firstn (pos st - pos st0) (rest st0)]).

Definition orelse {A} (a b : option A) : option A :=
  match a with Some x => Some x | None => b end.

Definition cont := mstate -> option mstate.

Fixpoint rep_opt (step : mstate -> cont -> option mstate) (extra : nat)
  (st : mstate) (k : cont) : option mstate :=
  match extra with
  | O => k st
  | S e => orelse (step st (fun st' => rep_opt step e st' k)) (k st)
  end.

Fixpoint rep_req (step : mstate -> cont -> option mstate) (lo : nat)
  (st : mstate) (k : cont) : option mstate :=
  match lo with
  | O => k st
  | S l => step st (fun st' => rep_req step l st' k)
  end.

Fixpoint many_greedy (p : char -> bool) (lo : nat) (pr : option char) (s : text)
  (n : nat) (cs : list text) (k : cont) : option mstate :=
  let stop := match lo with O => k (MState pr s n cs) | S _ => None end in
  match s with
  | c :: s' =>
      if p c then orelse (many_greedy p (Nat.pred lo) (Some c) s' (S n) cs k) stop
      else stop
  | [] => stop
  end.

Fixpoint many_lazy (p : char -> bool) (lo : nat) (pr : option char) (s : text)
  (n : nat) (cs : list text) (k : cont) : option mstate :=
  let more := match s with
              | c :: s' => if p c then many_lazy p (Nat.pred lo) (Some c) s' (S n) cs k
                           else None
              | [] => None
              end in
  match lo with
  | O => match k (MState pr s n cs) with
         | Some r => Some r
         | None => more
         end
  | S _ => more
  end.

Section WithUnicode.

Variable U : Unicode.

(** [\d], [\w], [\s] and [.] *)
Definition is_digit (c : char) : bool :=
  match decimal U c with Some _ => true | None => false end.
Definition is_word (c : char) : bool := isalnum U c || (c =? 95)%N.
Definition dot (c : char) : bool := negb (c =? NL)%N.

Definition word_at (o : option char) : bool :=
  match o with Some c => is_word c | None => false end.

(** The backtracking matcher, in continuation-passing style: [m r st k] is
    the first way, in the order Python's engine tries them, of matching [r]
    at [st] such that [k] accepts what follows. *)
Fixpoint m (r : regex) (st : mstate) (k : cont) : option mstate :=
  match r with
  | Eps => k st
  | Chr p =>
      match rest st with
      | c :: s' => if p c then k (advance c s' st) else None
      | [] => None
      end
  | Seq a b => m a st (fun st' => m b st' k)
  | Alt a b => orelse (m a st k) (m b st k)
  | Rep a lo extra =>
      rep_req (m a) lo st (fun st' => rep_opt (m a) extra st' k)
  | Many p lo g =>
      if g then many_greedy p lo (prev st) (rest st) (pos st) (caps st) k
      else many_lazy p lo (prev st) (rest st) (pos st) (caps st) k
  | Grp a => m a st (fun st' => k (capture st st'))
  | Bnd =>
      if xorb (word_at (prev st)) (word_at (hd_error (rest st))) then k st else None
  | Bol => match prev st with None => k st | Some _ => None end
  | Eol =>
      match rest st with
      | [] => k st
      | [c] => if (c =? NL)%N then k st else None
      | _ => None
      end
  end.

Definition start (s : text) : mstate := MState None s 0 [].

(** [re.match(r, s)]: the groups of the match, if there is one. *)
Definition re_match (r : regex) (s : text) : option (list text) :=
  option_map caps (m r (start s) Some).

(** [re.fullmatch(r, s)] as a truth value. *)
Definition re_fullmatch (r : regex) (s : text) : bool :=
  match m r (start s) (fun st => match rest st with [] => Some st | _ => None end) with
  | Some _ => true
  | None => false
  end.

(** [re.sub(r, repl, s)] for a replacement without group references.  The
    scan goes left to right; [skip] counts the characters of the last match
    still to be dropped.  An empty match is replaced and the scan moves one
    character on. *)
Fixpoint sub_scan (r : regex) (repl : text) (pr : option char) (s : text)
  (skip : nat) : text :=
  match s with
  | [] =>
      match skip with
      | O => match m r (MState pr [] 0 []) Some with
             | Some _ => repl
             | None => []
             end
      | S _ => []
      end
  | c :: s' =>
      match skip with
      | S n => sub_scan r repl (Some c) s' n
      | O =>
          match m r (MState pr s 0 []) Some with
          | Some st' =>
              match pos st' with
              | O => repl ++ c :: sub_scan r repl (Some c) s' 0
              | S n => repl ++ sub_scan r repl (Some c) s' n
              end
          | None => c :: sub_scan r repl (Some c) s' 0
          end
      end
  end.

Definition re_sub (r : regex) (repl : text) (s : text) : text :=
  sub_scan r repl None s 0.

(** *** Pattern syntax *)

Definition chr (c : char) : regex := Chr (N.eqb c).
Arguments chr c%_N.
Definition lit (s : string) : regex :=
  fold_right (fun c r => Seq (chr c) r) Eps (str s).
(** A literal under re.IGNORECASE. *)
Definition ilit (s : string) : regex :=
  fold_right (fun c r => Seq (Chr (ieq U c)) r) Eps (str s).
Definition opt (a : regex) : regex := Rep a 0 1.
Definition times (n : nat) (a : regex) : regex := Rep a n 0.
Definition seqs (l : list regex) : regex := fold_right Seq Eps l.

Definition upper_az : char -> bool := in_range 65 90.
Definition lower_az : char -> bool := in_range 97 122.
Definition digit_09 : char -> bool := in_range 48 57.
Definition upper_or_digit (c : char) : bool := upper_az c || digit_09 c.

(** ** The patterns of the module *)

(** The header line: r"\[(\d{2}/\d{2}/\d{4}), (\d{2}:\d{2}:\d{2})\] (.+?): " followed by
    a fourth group holding the rest of the line (a greedy run of [.]). *)
Definition TIMESTAMP_PATTERN : regex :=
  seqs [ chr 91;
         Grp (seqs [times 2 (Chr is_digit); chr 47; times 2 (Chr is_digit); chr 47;
                    times 4 (Chr is_digit)]);
         lit ", ";
         Grp (seqs [times 2 (Chr is_digit); chr 58; times 2 (Chr is_digit); chr 58;
                    times 2 (Chr is_digit)]);
         lit "] ";
         Grp (Many dot 1 false);
         lit ": ";
         Grp (Many dot 0 true) ].

(** r"https?://\S+" *)
Definition LINK_PATTERN : regex :=
  seqs [ lit "http"; opt (chr 115); lit "://"; Many (fun c => negb (isspace c)) 1 true ].

(** r"<This message was edited>", under re.IGNORECASE *)
Definition EDITED_PATTERN : regex := ilit "<This message was edited>".

(** The dots of the two deletion notices are unescaped in the source. *)
Definition MEDIA_PATTERNS : list regex :=
  [ ilit "image omitted"; ilit "video omitted"; ilit "GIF omitted";
    ilit "sticker omitted"; ilit "audio omitted"; ilit "document omitted";
    ilit "media omitted"; ilit "file omitted"; ilit "Contact card omitted";
    ilit "Location omitted"; ilit "Live location ended"; ilit "Live location shared";
    Seq (ilit "You deleted this message") (Chr dot);
    Seq (ilit "This message was deleted") (Chr dot);
    Seq (ilit "Messages and calls are end-to-end encrypted") (Many dot 0 true) ].

(** r"(Missed )?(Voice|Video) call" followed by an optional group (a comma,
    a space and a greedy run of [.]), under re.IGNORECASE. *)
Definition CALL_PATTERN : regex :=
  seqs [ opt (Grp (ilit "Missed "));
         Grp (Alt (ilit "Voice") (ilit "Video"));
         ilit " call";
         opt (Grp (Seq (ilit ", ") (Many dot 0 true))) ].

(** r"^[\W\s]+$" *)
Definition EMOJI_ONLY_PATTERN : regex :=
  seqs [ Bol; Many (fun c => negb (is_word c) || isspace c) 1 true; Eol ].

Definition emoji (c : char) : bool :=
  in_range 128512 128591 c      (* U+1F600..U+1F64F emoticons *)
  || in_range 127744 128511 c   (* U+1F300..U+1F5FF symbols & pictographs *)
  || in_range 128640 128767 c   (* U+1F680..U+1F6FF transport & map symbols *)
  || in_range 127456 127487 c   (* U+1F1E0..U+1F1FF flags *)
  || in_range 9984 10175 c      (* U+2700..U+27BF dingbats *)
  || in_range 129280 129535 c   (* U+1F900..U+1F9FF supplemental symbols *)
  || in_range 129648 129791 c   (* U+1FA70..U+1FAFF extended-A *)
  || in_range 9728 9983 c.      (* U+2600..U+26FF misc symbols *)

(** The character set of the source, repeated once or more. *)
Definition EMOJI_PATTERN : regex := Many emoji 1 true.

(** r"\b[A-Z]{2}[0-9]{2}(?:[ ]?[A-Z0-9]){11,30}\b" *)
Definition IBAN_PATTERN : regex :=
  seqs [ Bnd; times 2 (Chr upper_az); times 2 (Chr digit_09);
         Rep (Seq (opt (chr 32)) (Chr upper_or_digit)) 11 19; Bnd ].

(** r"\b[0-9A-Z]{10,34}\b" *)
Definition RIB_PATTERN : regex :=
  seqs [ Bnd; Rep (Chr upper_or_digit) 10 24; Bnd ].

Definition space_or_hyphen (c : char) : bool := (c =? 32)%N || (c =? 45)%N.
Definition ws_or_hyphen (c : char) : bool := isspace c || (c =? 45)%N.

(** r"\b(?:\d[ -]?){13,19}\d\b" *)
Definition CREDIT_CARD_PATTERN : regex :=
  seqs [ Bnd; Rep (Seq (Chr is_digit) (opt (Chr space_or_hyphen))) 13 6;
         Chr is_digit; Bnd ].

(** r"\b(?:\+?\d{1,3}[\s-]?)?(?:\(?\d{2,4}\)?[\s-]?)?\d{3,4}[\s-]?\d{3,4}\b" *)
Definition PHONE_PATTERN : regex :=
  seqs [ Bnd;
         opt (seqs [opt (chr 43); Rep (Chr is_digit) 1 2; opt (Chr ws_or_hyphen)]);
         opt (seqs [opt (chr 40); Rep (Chr is_digit) 2 2; opt (chr 41);
                    opt (Chr ws_or_hyphen)]);
         Rep (Chr is_digit) 3 1; opt (Chr ws_or_hyphen); Rep (Chr is_digit) 3 1;
         Bnd ].

Definition email_local (c : char) : bool :=
  lower_az c || upper_az c || digit_09 c
  || (c =? 46)%N || (c =? 95)%N || (c =? 37)%N || (c =? 43)%N || (c =? 45)%N.
Definition email_domain (c : char) : bool :=
  lower_az c || upper_az c || digit_09 c || (c =? 46)%N || (c =? 45)%N.

(** r"[a-zA-Z0-9._%+-]+@[a-zA-Z0-9.-]+\.[a-z]{2,}" *)
Definition EMAIL_PATTERN : regex :=
  seqs [ Many email_local 1 true; chr 64; Many email_domain 1 true; chr 46;
         Many lower_az 2 true ].

(** r"\b[A-Z]{4}[ ]?[A-Z]{2}[ ]?[A-Z0-9]{2}([ ]?[A-Z0-9]{3})?\b" *)
Definition BIC_PATTERN : regex :=
  seqs [ Bnd; times 4 (Chr upper_az); opt (chr 32); times 2 (Chr upper_az);
         opt (chr 32); times 2 (Chr upper_or_digit);
         opt (Grp (Seq (opt (chr 32)) (times 3 (Chr upper_or_digit)))); Bnd ].

(** r"\n?\[\d{2}/\d{2}/\d{4}, \d{2}:\d{2}:\d{2}\].+?:\s*$", the safeguard of parse_message_block *)
Definition TRAILING_TIMESTAMP : regex :=
  seqs [ opt (chr NL); chr 91;
         times 2 (Chr is_digit); chr 47; times 2 (Chr is_digit); chr 47;
         times 4 (Chr is_digit); lit ", ";
         times 2 (Chr is_digit); chr 58; times 2 (Chr is_digit); chr 58;
         times 2 (Chr is_digit); chr 93;
         Many dot 1 false; chr 58; Many isspace 0 true; Eol ].

(** ** Helper functions *)

Definition strip_invisible (t : text) : text :=
  strip (filter (isprintable U) t).

Definition remove_emojis (t : text) : text := re_sub EMOJI_PATTERN [] t.

Definition clean_message (t : text) : text :=
  let t := remove_emojis t in
  let t := re_sub LINK_PATTERN [] t in
  let t := re_sub EDITED_PATTERN [] t in
  let t := re_sub IBAN_PATTERN (str "[REDACTED_IBAN]") t in
  let t := re_sub RIB_PATTERN (str "[REDACTED_RIB]") t in
  let t := re_sub CREDIT_CARD_PATTERN (str "[REDACTED_CARD]") t in
  let t := re_sub PHONE_PATTERN (str "[REDACTED_PHONE]") t in
  let t := re_sub EMAIL_PATTERN (str "[REDACTED_EMAIL]") t in
  let t := re_sub BIC_PATTERN (str "[REDACTED_BIC]") t in
  strip t.

Definition lower_text (t : text) : text := flat_map (lower U) t.

(** The acknowledgment list of [is_irrelevant].  Its third and fourth
    entries are, in the source file, the four code points U+F8FF U+00FC
    U+00EB U+00E7 and U+F8FF U+00FC U+00EB U+00E5. *)
Definition ACK_TOKENS : list text :=
  [ str "ok"; str "lol"; [63743; 252; 235; 231]%N; [63743; 252; 235; 229]%N;
    str "yes"; str "no" ].

Definition is_irrelevant (t : text) : bool :=
  let stripped := strip t in
  if existsb (fun pattern => re_fullmatch pattern stripped) MEDIA_PATTERNS then true
  else if re_fullmatch CALL_PATTERN stripped then true
  else
    let no_emoji := remove_emojis stripped in
    if re_fullmatch EMOJI_ONLY_PATTERN no_emoji then true
    else if existsb (text_eqb (lower_text stripped)) ACK_TOKENS then true
    else false.

(** ** [datetime.strptime(s, "%d/%m/%Y %H:%M:%S")]

    The standard library turns the format into a regular expression with one
    named group per directive, matches it at the start of the text, refuses
    unconverted trailing data, converts the groups with [int] and hands them
    to the [date] and [datetime] constructors, which check the calendar.
    Every failure is a [ValueError]. *)

Record datetime := DateTime {
  year : N; month : N; day : N; hour : N; minute : N; second : N
}.

Definition is_leap (y : N) : bool :=
  ((y mod 4 =? 0) && (negb (y mod 100 =? 0) || (y mod 400 =? 0)))%N.

Definition days_in_month (y mo : N) : N :=
  (if mo =? 2 then (if is_leap y then 29 else 28)
   else if (mo =? 4) || (mo =? 6) || (mo =? 9) || (mo =? 11) then 30
   else 31)%N.

Definition valid_date (y mo d : N) : bool :=
  ((1 <=? y) && (y <=? 9999) && (1 <=? mo) && (mo <=? 12)
   && (1 <=? d) && (d <=? days_in_month y mo))%N.

Definition valid_time (h mi s : N) : bool :=
  ((h <=? 23) && (mi <=? 59) && (s <=? 59))%N.

Fixpoint digits_value (acc : N) (t : text) : option N :=
  match t with
  | [] => Some acc
  | c :: t' =>
      match decimal U c with
      | Some v => digits_value (10 * acc + v)%N t'
      | None => None
      end
  end.

(** [int(t)] on what the groups of the format can hold: decimal digits,
    possibly with whitespace around them. *)
Definition py_int (t : text) : option N :=
  match strip t with
  | [] => None
  | d => digits_value 0 d
  end.

Definition one_of (lo hi : char) : regex := Chr (in_range lo hi).
Arguments one_of (lo hi)%_N.

Definition STRPTIME_REGEX : regex :=
  seqs [ Grp (Alt (Seq (chr 51) (one_of 48 49))
             (Alt (Seq (one_of 49 50) (Chr is_digit))
             (Alt (Seq (chr 48) (one_of 49 57))
             (Alt (one_of 49 57)
                  (Seq (chr 32) (one_of 49 57))))));
         chr 47;
         Grp (Alt (Seq (chr 49) (one_of 48 50))
             (Alt (Seq (chr 48) (one_of 49 57))
                  (one_of 49 57)));
         chr 47;
         Grp (times 4 (Chr is_digit));
         Many isspace 1 true;
         Grp (Alt (Seq (chr 50) (one_of 48 51))
             (Alt (Seq (one_of 48 49) (Chr is_digit))
                  (Chr is_digit)));
         chr 58;
         Grp (Alt (Seq (one_of 48 53) (Chr is_digit)) (Chr is_digit));
         chr 58;
         Grp (Alt (Seq (chr 54) (one_of 48 49))
             (Alt (Seq (one_of 48 53) (Chr is_digit))
                  (Chr is_digit))) ].

Definition make_datetime (y mo d h mi s : N) : option datetime :=
  if valid_date y mo d && valid_time h mi s then Some (DateTime y mo d h mi s)
  else None.

Definition strptime (s : text) : option datetime :=
  match m STRPTIME_REGEX (start s) Some with
  | None => None
  | Some st =>
      match rest st with
      | _ :: _ => None
      | [] =>
          match map py_int (caps st) with
          | [Some d; Some mo; Some y; Some h; Some mi; Some sec] =>
              make_datetime y mo d h mi sec
          | _ => None
          end
      end
  end.

End WithUnicode.

Arguments chr c%_N.
Arguments one_of (lo hi)%_N.

(** [n] written with [width] ASCII digits, zero-padded as by [%02d], [%04d]. *)
Fixpoint zero_padded (width : nat) (n : N) : text :=
  match width with
  | O => []
  | S w => zero_padded w (n / 10)%N ++ [(48 + n mod 10)%N]
  end.

(** [dt.date().isoformat()] *)
Definition isoformat (dt : datetime) : text :=
  zero_padded 4 (year dt) ++ str "-" ++ zero_padded 2 (month dt) ++ str "-"
  ++ zero_padded 2 (day dt).

(** ** Configuration *)

Definition USER_NAME : text := str "Iomar".
Definition SOURCE : text := str "whatsapp".
Definition CHAT_FOLDER : text := str "raw_chats".
Definition OUT_FOLDER : text := str "cleaned_chats".
Definition LOGS_FOLDER : text := str "logs".

(** ** Records *)

Inductive role := user | assistant.

Definition role_eqb (a b : role) : bool :=
  match a, b with
  | user, user | assistant, assistant => true
  | _, _ => false
  end.

(** What [parse_message_block] returns for an accepted block. *)
Record CleanedMessage := {
  msg_role : role;
  msg_text : text;
  msg_date : text;
  msg_peer : text
}.

Record DialogueEntry := { entry_role : role; entry_text : text }.

Record Meta := { meta_source : text; meta_date : text; meta_peer : text }.

Record ConversationRecord := { dialogue : list DialogueEntry; meta : Meta }.

(** ** Files, logs and exceptions

    A file system is an association list from paths to contents.  The
    functions of the module run in a monad that threads the log files, the
    written output files and the console, and that stops at the first
    exception: nothing in the module catches one. *)

Inductive exn := ValueError | IndexError | FileNotFoundError.

Inductive outcome (A : Type) :=
| Return (a : A)
| Raise (e : exn).
Arguments Return {A} a.
Arguments Raise {A} e.

Definition files (A : Type) := list (text * A).

Fixpoint lookup {A} (path : text) (fs : files A) : option A :=
  match fs with
  | [] => None
  | (p, x) :: fs' => if text_eqb p path then Some x else lookup path fs'
  end.

(** Replace the content at [path], or create the file. *)
Fixpoint write {A} (path : text) (x : A) (fs : files A) : files A :=
  match fs with
  | [] => [(path, x)]
  | (p, y) :: fs' => if text_eqb p path then (p, x) :: fs' else (p, y) :: write path x fs'
  end.

Record world := World {
  logs : files text;                          (* LOGS_FOLDER *)
  outputs : files (list ConversationRecord);  (* OUT_FOLDER, as dumped by json.dump *)
  console : list (text * text)                (* print: the file parsed and where it was saved *)
}.

Definition M (A : Type) := world -> outcome A * world.

Definition ret {A} (a : A) : M A := fun w => (Return a, w).
Definition raise {A} (e : exn) : M A := fun w => (Raise e, w).
Definition bind {A B} (c : M A) (f : A -> M B) : M B :=
  fun w => match c w with
           | (Return a, w') => f a w'
           | (Raise e, w') => (Raise e, w')
           end.

Notation "x <- c ;; k" := (bind c (fun x => k))
  (at level 61, c at next level, right associativity).
Notation "c ;;; k" := (bind c (fun _ => k))
  (at level 61, right associativity).

(** [open(path, "w").close()] on a log file *)
Definition truncate_log (path : text) : M unit :=
  fun w => (Return tt, World (write path [] (logs w)) (outputs w) (console w)).

(** [open(path, "a")] followed by one [write] *)
Definition append_log (path : text) (s : text) : M unit :=
  fun w =>
    let old := match lookup path (logs w) with Some t => t | None => [] end in
    (Return tt, World (write path (old ++ s) (logs w)) (outputs w) (console w)).

Definition write_output (path : text) (c : list ConversationRecord) : M unit :=
  fun w => (Return tt, World (logs w) (write path c (outputs w)) (console w)).

Definition print (filename output_file : text) : M unit :=
  fun w => (Return tt, World (logs w) (outputs w) (console w ++ [(filename, output_file)])).

(** [os.path.join(a, b)] for a relative [b] *)
Definition path_join (a b : text) : text := a ++ str "/" ++ b.

(** The text after the last ['/']. *)
Fixpoint basename (p : text) : text :=
  match p with
  | [] => []
  | c :: p' =>
      if existsb (N.eqb 47) p' then basename p'
      else if (c =? 47)%N then p' else p
  end.

(** [os.path.splitext(name)[0]] for a name without directory: the name up to
    its last dot, unless only dots come before it. *)
Fixpoint splitext_root (name : text) (seen_other : bool) : text :=
  match name with
  | [] => []
  | c :: name' =>
      if (c =? 46)%N then
        if seen_other && negb (existsb (N.eqb 46) name') then []
        else c :: splitext_root name' seen_other
      else c :: splitext_root name' true
  end.

(** f"[{reason}] {block.strip()}\n\n" appended to the log file *)
Definition log_skip (reason : text) (block : text) (log_file_path : text) : M unit :=
  append_log log_file_path
    (str "[" ++ reason ++ str "] " ++ strip block ++ [NL; NL]).

(** Lexicographic order on code points, the order of Python's [str]. *)
Fixpoint text_leb (a b : text) : bool :=
  match a, b with
  | [], _ => true
  | _ :: _, [] => false
  | x :: a', y :: b' => if (x =? y)%N then text_leb a' b' else (x <? y)%N
  end.

(** [sorted(d.items())] for a dictionary whose values need not be compared:
    the keys of a dictionary are pairwise different. *)
Fixpoint insert_sorted {A} (kv : text * A) (l : list (text * A)) : list (text * A) :=
  match l with
  | [] => [kv]
  | kv' :: l' =>
      if text_leb (fst kv) (fst kv') then kv :: l else kv' :: insert_sorted kv l'
  end.

Definition sorted_items {A} (d : files A) : list (text * A) :=
  fold_right insert_sorted [] d.

Fixpoint starts_with (pre s : text) : bool :=
  match pre, s with
  | [], _ => true
  | _ :: _, [] => false
  | x :: pre', y :: s' => (x =? y)%N && starts_with pre' s'
  end.

Definition ends_with (suf s : text) : bool := starts_with (rev suf) (rev s).

(** [needle in s] *)
Fixpoint contains (needle s : text) : bool :=
  starts_with needle s
  || match s with
     | [] => false
     | _ :: s' => contains needle s'
     end.

(** [os.listdir(folder)] over a disk given by its paths. *)
Definition listdir {A} (folder : text) (disk : files A) : list text :=
  flat_map (fun '(p, _) =>
              let pre := folder ++ str "/" in
              let name := skipn (List.length pre) p in
              if starts_with pre p && negb (existsb (N.eqb 47) name)
                 && negb (text_eqb name [])
              then [name] else [])
           disk.

(** The state of the two loops of [process_chat_file]. *)
Record aggregate := Aggregate {
  daily_conversations : files (list DialogueEntry);
  peers_by_date : files text;
  peer_name : option text
}.

(** [not peer_name]: no name yet, or an empty one. *)
Definition falsy (o : option text) : bool :=
  match o with
  | None | Some [] => true
  | Some (_ :: _) => false
  end.

(** [peer_name or "Unknown"] *)
Definition or_unknown (o : option text) : text :=
  match o with
  | None | Some [] => str "Unknown"
  | Some n => n
  end.

(** [d[key].append(x)] on a [defaultdict(list)] *)
Definition append_at {A} (key : text) (x : A) (d : files (list A)) : files (list A) :=
  match lookup key d with
  | Some l => write key (l ++ [x]) d
  | None => d ++ [(key, [x])]
  end.

Section Pipeline.

Variable U : Unicode.

(** [re.match(TIMESTAMP_PATTERN, stripped)] as a truth value *)
Definition matches_header (stripped : text) : bool :=
  match re_match U (TIMESTAMP_PATTERN U) stripped with
  | Some _ => true
  | None => false
  end.

(** The loop over [lines] inside [parse_message_block]. *)
Fixpoint filter_lines (lines : list text) : list text :=
  match lines with
  | [] => []
  | l :: ls =>
      let stripped := strip_invisible U l in
      if matches_header stripped then filter_lines ls
      else
        match clean_message U stripped with
        | [] => filter_lines ls
        | cleaned => cleaned :: filter_lines ls
        end
  end.

Definition parse_message_block (block : list text) (log_file_path : text)
  : M (option CleanedMessage) :=
  match block with
  | [] => raise IndexError
  | first :: more =>
      let line := strip_invisible U first in
      match re_match U (TIMESTAMP_PATTERN U) line with
      | None =>
          log_skip (str "No match") (join [NL] block) log_file_path ;;;
          ret None
      | Some [date_str; time_str; sender; first_line] =>
          match strptime U (date_str ++ str " " ++ time_str) with
          | None => raise ValueError
          | Some dt =>
              let lines := first_line :: more in
              let filtered_lines := filter_lines lines in
              let full_text := join [NL] filtered_lines in
              let full_text := strip (re_sub U (TRAILING_TIMESTAMP U) [] full_text) in
              match full_text with
              | [] =>
                  log_skip (str "Empty after cleaning") (join [NL] block) log_file_path ;;;
                  ret None
              | _ :: _ =>
                  if is_irrelevant U full_text then
                    log_skip (str "Irrelevant content") (join [NL] block) log_file_path ;;;
                    ret None
                  else
                    let role := if text_eqb (strip sender) USER_NAME then user
                                else assistant in
                    let peer := match role with
                                | assistant => strip sender
                                | user => USER_NAME
                                end in
                    ret (Some {| msg_role := role; msg_text := full_text;
                                 msg_date := isoformat dt; msg_peer := peer |})
              end
          end
      | Some _ => raise ValueError   (* unpacking other than four groups *)
      end
  end.

(** The first loop of [process_chat_file]: the open block is empty as long
    as no header has been seen. *)
Definition segment_step (st : list (list text) * list text) (line : text)
  : list (list text) * list text :=
  let '(message_blocks, current_block) := st in
  if matches_header (strip_invisible U line) then
    (match current_block with
     | [] => message_blocks
     | _ :: _ => message_blocks ++ [current_block]
     end, [line])
  else
    (message_blocks,
     match current_block with
     | [] => []
     | _ :: _ => current_block ++ [line]
     end).

Definition segment (lines : list text) : list (list text) :=
  let '(message_blocks, current_block) := fold_left segment_step lines ([], []) in
  match current_block with
  | [] => message_blocks
  | _ :: _ => message_blocks ++ [current_block]
  end.

Definition is_header (line : text) : bool := matches_header (strip_invisible U line).

(** What the two variables of the loop hold once the input is exhausted. *)
Definition close_block (st : list (list text) * list text) : list (list text) :=
  match snd st with
  | [] => fst st
  | _ :: _ => fst st ++ [snd st]
  end.

(** A file ends mid-block when its last block is open and the line that
    follows the file is a continuation line, not a header. *)
Definition ends_mid_block (A following : list text) : bool :=
  match segment A, following with
  | _ :: _, l :: _ => negb (is_header l)
  | _, _ => false
  end.

(** The body of the second loop, for an accepted message. *)
Definition aggregate_step (a : aggregate) (parsed : CleanedMessage) : aggregate :=
  let date := msg_date parsed in
  let peer := msg_peer parsed in
  let is_assistant := role_eqb (msg_role parsed) assistant in
  let peer_name' := if is_assistant && falsy (peer_name a) then Some peer
                    else peer_name a in
  let peers' := if is_assistant
                   && match lookup date (peers_by_date a) with Some _ => false | None => true end
                then peers_by_date a ++ [(date, peer)]
                else peers_by_date a in
  Aggregate
    (append_at date {| entry_role := msg_role parsed; entry_text := msg_text parsed |}
               (daily_conversations a))
    peers' peer_name'.

Fixpoint aggregate_blocks (message_blocks : list (list text)) (log_file_path : text)
  (a : aggregate) : M aggregate :=
  match message_blocks with
  | [] => ret a
  | block :: blocks =>
      parsed <- parse_message_block block log_file_path ;;
      match parsed with
      | None => aggregate_blocks blocks log_file_path a
      | Some p => aggregate_blocks blocks log_file_path (aggregate_step a p)
      end
  end.

(** The third loop: one record per date, in the order of the dates. *)
Definition conversations_of (a : aggregate) : list ConversationRecord :=
  map (fun '(date, messages) =>
         let peer := match lookup date (peers_by_date a) with
                     | Some p => p
                     | None => or_unknown (peer_name a)
                     end in
         {| dialogue := messages;
            meta := {| meta_source := SOURCE; meta_date := date; meta_peer := peer |} |})
      (sorted_items (daily_conversations a)).

(** The chat files on disk, by path, each as [readlines] returns it. *)
Variable disk : files (list text).

Definition process_chat_file (file_path : text)
  : M (list ConversationRecord * text) :=
  let base_name := splitext_root (basename file_path) false in
  let log_file_path := path_join LOGS_FOLDER (base_name ++ str "_skipped.log") in
  truncate_log log_file_path ;;;
  match lookup file_path disk with
  | None => raise FileNotFoundError
  | Some lines =>
      let message_blocks := segment lines in
      a <- aggregate_blocks message_blocks log_file_path (Aggregate [] [] None) ;;
      ret (conversations_of a, or_unknown (peer_name a))
  end.

(** r"[^\w\s-]" *)
Definition UNSAFE_NAME_CHAR : regex :=
  Chr (fun c => negb (is_word U c || isspace c || (c =? 45)%N)).

Definition safe_name_of (peer_name : text) : text :=
  map (fun c => if (c =? 32)%N then 95%N else c)
      (strip (re_sub U UNSAFE_NAME_CHAR [] peer_name)).

(** filename.endswith(".txt") and ("chat" in filename.lower()) *)
Definition is_chat_file (filename : text) : bool :=
  ends_with (str ".txt") filename && contains (str "chat") (lower_text U filename).

Fixpoint process_files (filenames : list text) : M unit :=
  match filenames with
  | [] => ret tt
  | filename :: more =>
      if is_chat_file filename then
        let file_path := path_join CHAT_FOLDER filename in
        r <- process_chat_file file_path ;;
        let '(conversations, peer_name) := r in
        let output_file := path_join OUT_FOLDER (safe_name_of peer_name ++ str ".json") in
        write_output output_file conversations ;;;
        print filename output_file ;;;
        process_files more
      else process_files more
  end.

Definition process_all_chats : M unit :=
  process_files (listdir CHAT_FOLDER disk).

End Pipeline.

(** ** What a match is

    The matcher is a search; [matches r st st'] says that [r] can take the
    position [st] to the position [st'], whatever the order of the search. *)

Definition last_char (pr : option char) (run : text) : option char :=
  fold_left (fun _ c => Some c) run pr.

(** Moving from [st] to [st'] over the characters [run]. *)
Definition consumed (run : text) (st st' : mstate) : Prop :=
  rest st = run ++ rest st'
  /\ prev st' = last_char (prev st) run
  /\ pos st' = pos st + List.length run.

Fixpoint iter (n : nat) (R : mstate -> mstate -> Prop) (st st' : mstate) : Prop :=
  match n with
  | O => st' = st
  | S n' => exists mid, R st mid /\ iter n' R mid st'
  end.

Section Matches.

Variable U : Unicode.

Fixpoint matches (r : regex) (st st' : mstate) : Prop :=
  match r with
  | Eps => st' = st
  | Chr p => exists c s', rest st = c :: s' /\ p c = true /\ st' = advance c s' st
  | Seq a b => exists mid, matches a st mid /\ matches b mid st'
  | Alt a b => matches a st st' \/ matches b st st'
  | Rep a lo extra => exists n, lo <= n <= lo + extra /\ iter n (matches a) st st'
  | Many p lo _ =>
      exists run, forallb p run = true /\ lo <= List.length run
                  /\ consumed run st st' /\ caps st' = caps st
  | Grp a => exists st1, matches a st st1 /\ st' = capture st st1
  | Bnd => xorb (word_at U (prev st)) (word_at U (hd_error (rest st))) = true /\ st' = st
  | Bol => prev st = None /\ st' = st
  | Eol => (rest st = [] \/ rest st = [NL]) /\ st' = st
  end.

End Matches.

(** Every character set of [r] lies within [q]. *)
Fixpoint chars_in (q : char -> bool) (r : regex) : Prop :=
  match r with
  | Chr p | Many p _ _ => forall c, p c = true -> q c = true
  | Seq a b | Alt a b => chars_in q a /\ chars_in q b
  | Rep a _ _ | Grp a => chars_in q a
  | Eps | Bnd | Bol | Eol => True
  end.

(** The least number of characters a match of [r] takes. *)
Fixpoint min_len (r : regex) : nat :=
  match r with
  | Chr _ => 1
  | Seq a b => min_len a + min_len b
  | Alt a b => Nat.min (min_len a) (min_len b)
  | Rep a lo _ => lo * min_len a
  | Many _ lo _ => lo
  | Grp a => min_len a
  | Eps | Bnd | Bol | Eol => 0
  end.

(** ** Notions used to state the properties *)

Section Notions.

Variable U : Unicode.
Variable disk : files (list text).

(** The messages [parse_message_block] accepts among [blocks], in order. *)
Fixpoint accepted_messages (blocks : list (list text)) (log_file_path : text)
  : M (list CleanedMessage) :=
  match blocks with
  | [] => ret []
  | block :: more =>
      parsed <- parse_message_block U block log_file_path ;;
      others <- accepted_messages more log_file_path ;;
      ret (match parsed with Some p => p :: others | None => others end)
  end.

(** The accepted messages of a chat file, read as [process_chat_file] reads
    it. *)
Definition accepted_in_file (file_path : text) : M (list CleanedMessage) :=
  let base_name := splitext_root (basename file_path) false in
  let log_file_path := path_join LOGS_FOLDER (base_name ++ str "_skipped.log") in
  truncate_log log_file_path ;;;
  match lookup file_path disk with
  | None => raise FileNotFoundError
  | Some lines => accepted_messages (segment U lines) log_file_path
  end.

End Notions.

Definition is_assistant (p : CleanedMessage) : bool := role_eqb (msg_role p) assistant.

Definition first_assistant_on (date : text) (msgs : list CleanedMessage)
  : option CleanedMessage :=
  find (fun p => is_assistant p && text_eqb (msg_date p) date) msgs.

Definition first_assistant (msgs : list CleanedMessage) : option CleanedMessage :=
  find is_assistant msgs.

Definition has_name (p : CleanedMessage) : bool :=
  match msg_peer p with [] => false | _ :: _ => true end.

Definition first_named_assistant (msgs : list CleanedMessage) : option CleanedMessage :=
  find (fun p => is_assistant p && has_name p) msgs.

(** The peer of a date as the specification words it: the first assistant
    sender of the date, else the first assistant sender of the file, else
    "Unknown". *)
Definition claimed_peer (msgs : list CleanedMessage) (date : text) : text :=
  match first_assistant_on date msgs with
  | Some p => msg_peer p
  | None =>
      match first_assistant msgs with
      | Some p => msg_peer p
      | None => str "Unknown"
      end
  end.

(** The peer of a date as the code resolves it: the file-wide fallback is
    the first assistant sender whose trimmed name is not empty. *)
Definition resolved_peer (msgs : list CleanedMessage) (date : text) : text :=
  match first_assistant_on date msgs with
  | Some p => msg_peer p
  | None =>
      match first_named_assistant msgs with
      | Some p => msg_peer p
      | None => str "Unknown"
      end
  end.

(** The invariant of the second loop: the two peer tables after the
    messages [msgs]. *)
Definition peers_resolved (msgs : list CleanedMessage) (a : aggregate) : Prop :=
  (forall date, lookup date (peers_by_date a)
                = option_map msg_peer (first_assistant_on date msgs))
  /\ match first_named_assistant msgs with
     | Some p => peer_name a = Some (msg_peer p) /\ msg_peer p <> []
     | None => falsy (peer_name a) = true
     end.

(** Every date of the dictionary has a dialogue, and no entry of a dialogue
    has an empty text. *)
Definition dialogue_ok (l : list DialogueEntry) : Prop :=
  l <> [] /\ Forall (fun e => entry_text e <> []) l.

Definition dialogues_ok (d : files (list DialogueEntry)) : Prop :=
  Forall (fun kv => dialogue_ok (snd kv)) d.

(** ** An excerpt of the Unicode database

    Basic Latin and Latin-1 Supplement, with the controls, format
    characters, surrogates and private-use characters that are not
    printable.  It serves to run the functions on concrete transcripts. *)

Definition latin1_isprintable (c : char) : bool :=
  in_range 32 126 c
  || (in_range 161 255 c && negb (c =? 173)%N)
  || ((256 <=? c)%N
      && negb (isspace c || in_range 8203 8207 c || in_range 8234 8238 c
               || in_range 8288 8303 c || (c =? 65279)%N
               || in_range 55296 57343 c || in_range 57344 63743 c)).

Definition latin1_decimal (c : char) : option N :=
  if in_range 48 57 c then Some (c - 48)%N else None.

Definition latin1_isalnum (c : char) : bool :=
  in_range 48 57 c || in_range 65 90 c || in_range 97 122 c
  || (c =? 170)%N || (c =? 178)%N || (c =? 179)%N || (c =? 181)%N
  || (c =? 185)%N || (c =? 186)%N || in_range 188 190 c
  || in_range 192 214 c || in_range 216 246 c || in_range 248 255 c.

Definition latin1_lower1 (c : char) : char :=
  if in_range 65 90 c || in_range 192 214 c || in_range 216 222 c
  then (c + 32)%N else c.

Definition latin1 : Unicode := {|
  isprintable := latin1_isprintable;
  decimal := latin1_decimal;
  isalnum := latin1_isalnum;
  lower := fun c => [latin1_lower1 c];
  ieq := fun l c => (latin1_lower1 c =? latin1_lower1 l)%N
|}.

(** The characters on which every table of the Unicode database is known
    here: ASCII and the whitespace characters. *)
Definition plain (c : char) : bool := (c <? 128)%N || isspace c.

(** A Unicode database that is the standard one on those characters. *)
Record standard (U : Unicode) : Prop := {
  std_printable : forall c, (c < 128)%N -> isprintable U c = latin1_isprintable c;
  std_decimal : forall c, plain c = true -> decimal U c = latin1_decimal c;
  std_alnum : forall c, plain c = true -> isalnum U c = latin1_isalnum c;
  std_lower : forall c, (c < 128)%N -> lower U c = [latin1_lower1 c];
  std_ieq : forall l c, (l < 128)%N -> plain c = true ->
            ieq U l c = (latin1_lower1 c =? latin1_lower1 l)%N
}.

(** No capturing group inside. *)
Fixpoint no_groups (r : regex) : Prop :=
  match r with
  | Grp _ => False
  | Seq a b | Alt a b => no_groups a /\ no_groups b
  | Rep a _ _ => no_groups a
  | Eps | Chr _ | Many _ _ _ | Bnd | Bol | Eol => True
  end.

(** ** Calendar dates as the header writes them *)

Section Calendar.

Variable U : Unicode.

(** [t] is a string of decimal digits that denotes [n]. *)
Definition numeral (t : text) (n : N) : Prop :=
  t <> [] /\ digits_value U 0 t = Some n.

(** [date_str] is day/month/year, [time_str] is hour:minute:second. *)
Definition reads_date (date_str : text) (d mo y : N) : Prop :=
  exists dd mm yyyy,
    date_str = dd ++ str "/" ++ mm ++ str "/" ++ yyyy
    /\ numeral dd d /\ numeral mm mo /\ numeral yyyy y.

Definition reads_time (time_str : text) (h mi s : N) : Prop :=
  exists hh mm ss,
    time_str = hh ++ str ":" ++ mm ++ str ":" ++ ss
    /\ numeral hh h /\ numeral mm mi /\ numeral ss s.

End Calendar.

(** What the day group of the [strptime] format can hold. *)
Definition digit_or_space (U : Unicode) (c : char) : bool :=
  is_digit U c || (c =? 32)%N.

(** ** Placeholders and where patterns can match *)

Definition PLACEHOLDERS : list text :=
  [ str "[REDACTED_IBAN]"; str "[REDACTED_RIB]"; str "[REDACTED_CARD]";
    str "[REDACTED_PHONE]"; str "[REDACTED_EMAIL]"; str "[REDACTED_BIC]" ].

(** A text of placeholders with whitespace between them. *)
Inductive redacted_only : text -> Prop :=
| redacted_empty : redacted_only []
| redacted_one tok : In tok PLACEHOLDERS -> redacted_only tok
| redacted_more tok ws t :
    In tok PLACEHOLDERS -> forallb isspace ws = true ->
    redacted_only t -> t <> [] -> redacted_only (tok ++ ws ++ t).

(** What may stand between placeholders below: whitespace and lower-case
    letters. *)
Definition filler (c : char) : bool := isspace c || lower_az c.

(** Placeholders and filler characters in any order. *)
Inductive placeholder_stream : text -> Prop :=
| stream_end : placeholder_stream []
| stream_token tok t :
    In tok PLACEHOLDERS -> placeholder_stream t -> placeholder_stream (tok ++ t)
| stream_filler c t :
    filler c = true -> placeholder_stream t -> placeholder_stream (c :: t).

(** [r] matches at no position of [t]. *)
Definition no_match_in (U : Unicode) (r : regex) (t : text) : Prop :=
  forall pre suf pr st', t = pre ++ suf -> ~ matches U r (MState pr suf 0 []) st'.

(** What the IBAN and BIC patterns have between their word boundaries. *)
Definition IBAN_BODY : list regex :=
  [times 2 (Chr upper_az); times 2 (Chr digit_09);
   Rep (Seq (opt (chr 32)) (Chr upper_or_digit)) 11 19].

Definition BIC_BODY : list regex :=
  [times 4 (Chr upper_az); opt (chr 32); times 2 (Chr upper_az);
   opt (chr 32); times 2 (Chr upper_or_digit);
   opt (Grp (Seq (opt (chr 32)) (times 3 (Chr upper_or_digit))))].

(** The number of leading characters of [l] that are in [q]. *)
Fixpoint span_len (q : char -> bool) (l : text) : nat :=
  match l with
  | c :: l' => if q c then S (span_len q l') else 0
  | [] => 0
  end.

Fixpoint tails (l : text) : list text :=
  l :: match l with
       | [] => []
       | _ :: l' => tails l'
       end.

Definition upper_digit_space (c : char) : bool := upper_or_digit c || (c =? 32)%N.
(** Every match of [r] that takes a character takes first one in [q]. *)
Fixpoint first_ok (q : char -> bool) (r : regex) : Prop :=
  match r with
  | Chr p | Many p _ _ => forall c, p c = true -> q c = true
  | Seq a b => first_ok q a /\ (min_len a = 0 -> first_ok q b)
  | Alt a b => first_ok q a /\ first_ok q b
  | Rep a _ _ | Grp a => first_ok q a
  | Eps | Bnd | Bol | Eol => True
  end.

(** The characters of the placeholders, and the filler characters. *)
Definition placeholder_char (c : char) : bool :=
  upper_az c || (c =? 91)%N || (c =? 93)%N || (c =? 95)%N || filler c.
(** A step that takes no character, or takes first one in [q]. *)
Definition starts_in (q : char -> bool) (st st' : mstate) : Prop :=
  consumed [] st st' \/ exists c s', rest st = c :: s' /\ q c = true.

(** ** Transcripts used as examples *)

Definition empty_world : world := World [] [] [].

Definition a_log : text := str "logs/chat_skipped.log".

(** Lines as [readlines] returns them, with their newline. *)
Definition scenario1_line : text :=
  str "[05/03/2024, 14:22:10] Iomar: Call me at 06 12 34 56 78" ++ [NL].

Definition feb31_line : text :=
  str "[31/02/2024, 14:22:10] Alice: see you tomorrow" ++ [NL].

Definition good_line : text :=
  str "[05/03/2024, 14:22:10] Alice: see you tomorrow" ++ [NL].

Definition bad_then_good : files (list text) :=
  [ (str "raw_chats/chat_1.txt", [feb31_line]);
    (str "raw_chats/chat_2.txt", [good_line]) ].

Definition good_only : files (list text) :=
  [ (str "raw_chats/chat_2.txt", [good_line]) ].

(** A sender whose name is a single space, then a message of the owner on
    the next day. *)
Definition unnamed_sender_chat : files (list text) :=
  [ (str "raw_chats/chat.txt",
     [ str "[05/03/2024, 10:00:00]  : hello there" ++ [NL];
       str "[06/03/2024, 10:00:00] Iomar: good morning" ++ [NL] ]) ].

Definition two_days_chat : files (list text) :=
  [ (str "raw_chats/chat.txt",
     [ str "[05/03/2024, 10:00:00] Alice: hello there" ++ [NL];
       str "how are you?" ++ [NL];
       str "[06/03/2024, 10:00:00] Iomar: good morning" ++ [NL] ]) ].

Definition redacted_example : text :=
  str "[REDACTED_IBAN] [REDACTED_PHONE]" ++ [NL] ++ str "[REDACTED_EMAIL]".

(** ** The phone pattern, and two IBANs *)

(** What the phone pattern has between its word boundaries. *)
Definition PHONE_BODY (U : Unicode) : list regex :=
  [ opt (seqs [opt (chr 43); Rep (Chr (is_digit U)) 1 2; opt (Chr ws_or_hyphen)]);
    opt (seqs [opt (chr 40); Rep (Chr (is_digit U)) 2 2; opt (chr 41);
               opt (Chr ws_or_hyphen)]);
    Rep (Chr (is_digit U)) 3 1; opt (Chr ws_or_hyphen); Rep (Chr (is_digit U)) 3 1 ].

Definition iban_example : text := str "FR7630006000011234567890189".

(** The IBAN of the examples of the standard, then a ten-digit number. *)
Definition iban_then_number : text := str "DE89370400440532013000 0612345678".

(** ** Trimmed texts *)

Definition space_at (o : option char) : bool :=
  match o with Some c => isspace c | None => false end.

(** No whitespace at either end. *)
Definition trimmed (t : text) : Prop :=
  space_at (hd_error t) = false /\ space_at (last_char None t) = false.

(** ** The parts of a header line *)

(** [t] is [n] decimal digits. *)
Definition digits (U : Unicode) (n : nat) (t : text) : Prop :=
  List.length t = n /\ forallb (is_digit U) t = true.

(** Nothing, or a newline first. *)
Definition line_end (tail : text) : Prop :=
  match tail with [] => True | c :: _ => c = NL end.

(** The four groups of a header and the line they come from: the last
    group runs to the end of the line. *)
Inductive header_parts (U : Unicode) : text -> list text -> Prop :=
| HeaderParts dd mm yyyy hh mi ss sender first_line tail :
    digits U 2 dd -> digits U 2 mm -> digits U 4 yyyy ->
    digits U 2 hh -> digits U 2 mi -> digits U 2 ss ->
    sender <> [] -> forallb dot sender = true -> forallb dot first_line = true ->
    line_end tail ->
    header_parts U
      (str "[" ++ (dd ++ str "/" ++ mm ++ str "/" ++ yyyy) ++ str ", "
       ++ (hh ++ str ":" ++ mi ++ str ":" ++ ss) ++ str "] "
       ++ sender ++ str ": " ++ first_line ++ tail)
      [ dd ++ str "/" ++ mm ++ str "/" ++ yyyy;
        hh ++ str ":" ++ mi ++ str ":" ++ ss;
        sender; first_line ].

(** The three reasons [parse_message_block] gives for skipping a block. *)
Definition SKIP_REASONS : list text :=
  [ str "No match"; str "Empty after cleaning"; str "Irrelevant content" ].

(** A header line of the examples in a leap year. *)
Definition leap_day_line : text :=
  str "[29/02/2024, 23:59:59] Alice: see you tomorrow" ++ [NL].

(** ** Notions about blocks *)

(** The lines of a file from its first header line on. *)
Fixpoint from_first_header (U : Unicode) (lines : list text) : list text :=
  match lines with
  | [] => []
  | l :: ls => if is_header U l then lines else from_first_header U ls
  end.

(** A header line followed by lines that are not headers. *)
Definition block_ok (U : Unicode) (b : list text) : bool :=
  match b with
  | [] => false
  | h :: more => is_header U h && forallb (fun l => negb (is_header U l)) more
  end.

(** ** Notions about dialogues *)

(** The dialogue entry of an accepted message. *)
Definition entry_of (p : CleanedMessage) : DialogueEntry :=
  {| entry_role := msg_role p; entry_text := msg_text p |}.

(** The entries of the messages of one date, in the order of the messages. *)
Definition dialogue_on (date : text) (msgs : list CleanedMessage) : list DialogueEntry :=
  map entry_of (filter (fun p => text_eqb (msg_date p) date) msgs).

(** Strictly before, in the order of Python's [str]. *)
Definition text_ltb (a b : text) : bool := text_leb a b && negb (text_eqb a b).

(** Each text strictly before the next. *)
Fixpoint increasing (l : list text) : bool :=
  match l with
  | [] => true
  | a :: l' =>
      match l' with
      | [] => true
      | b :: _ => text_ltb a b && increasing l'
      end
  end.

(** The dates of the records, in the order of the records. *)
Definition record_dates (convs : list ConversationRecord) : list text :=
  map (fun r => meta_date (meta r)) convs.

(** The invariant of the second loop on the dictionary of dialogues. *)
Definition grouped (msgs : list CleanedMessage) (d : files (list DialogueEntry)) : Prop :=
  NoDup (map fst d)
  /\ forall date, lookup date d = match dialogue_on date msgs with
                                  | [] => None
                                  | l => Some l
                                  end.

(** Three messages over two days, the second day first in the file. *)
Definition unordered_days_chat : files (list text) :=
  [ (str "raw_chats/chat.txt",
     [ str "[06/03/2024, 10:00:00] Alice: hello there" ++ [NL];
       str "[05/03/2024, 09:00:00] Iomar: good morning" ++ [NL];
       str "[06/03/2024, 11:00:00] Iomar: how are you?" ++ [NL] ]) ].

(** ** Notions about the files written *)

(** The log file of a chat file. *)
Definition log_path_of (file_path : text) : text :=
  path_join LOGS_FOLDER (splitext_root (basename file_path) false ++ str "_skipped.log").

(** [w'] differs from [w] in the log file [log] at most. *)
Definition same_but_log (log : text) (w w' : world) : Prop :=
  outputs w' = outputs w
  /\ console w' = console w
  /\ forall path, path <> log -> lookup path (logs w') = lookup path (logs w).

(** The two worlds hold the same log file [log]. *)
Definition same_log (log : text) (w1 w2 : world) : Prop :=
  lookup log (logs w1) = lookup log (logs w2).

(** A world with an old log and an old output. *)
Definition used_world : world :=
  World [(str "logs/chat_skipped.log", str "[No match] an old entry" ++ [NL; NL])]
        [(str "cleaned_chats/Alice.json", [])]
        [(str "chat.txt", str "cleaned_chats/Alice.json")].

(** A chat file whose second block is skipped. *)
Definition chat_with_skipped_block : files (list text) :=
  [ (str "raw_chats/chat.txt",
     [ str "[05/03/2024, 10:00:00] Alice: hello there" ++ [NL];
       str "[05/03/2024, 10:01:00] Alice: ok" ++ [NL] ]) ].

(** A chat file without any header line. *)
Definition chat_without_header : files (list text) :=
  [ (str "raw_chats/chat.txt", [ str "hello there" ++ [NL]; str "how are you?" ++ [NL] ]) ].

(** ** Notions about the batch *)

(** The output file of a peer name. *)
Definition output_path_of (U : Unicode) (peer_name : text) : text :=
  path_join OUT_FOLDER (safe_name_of U peer_name ++ str ".json").

(** Two chats with the same peer. *)
Definition two_chats_one_peer : files (list text) :=
  [ (str "raw_chats/chat_1.txt",
     [ str "[05/03/2024, 10:00:00] Alice: hello there" ++ [NL] ]);
    (str "raw_chats/chat_2.txt",
     [ str "[06/03/2024, 10:00:00] Alice: see you tomorrow" ++ [NL] ]);
    (str "raw_chats/notes.md", [ str "nothing" ++ [NL] ]) ].

(** ** Notions about texts *)

(** One character at least, and none that is a word character, whitespace
    aside. *)
Definition punctuation_only (U : Unicode) (s : text) : bool :=
  match s with
  | [] => false
  | _ :: _ => forallb (fun c => negb (is_word U c) || isspace c) s
  end.

(** The characters a pattern of [clean_message] needs to match: an emoji, a
    capital letter, a digit, a colon, an at sign, or what matches ['<']
    whatever the case. *)
Definition redactable (U : Unicode) (c : char) : bool :=
  emoji c || upper_az c || digit_09 c || is_digit U c
  || (c =? 58)%N || (c =? 64)%N || ieq U 60%N c.

(** The characters of [r"[^\w\s-]"], complemented. *)
Definition name_char (U : Unicode) (c : char) : bool :=
  is_word U c || isspace c || (c =? 45)%N.

(** ** Lines with an e-mail address *)

(** A local part, a domain label and a top-level domain in lower-case
    letters. *)
Definition email_shaped (t : text) : Prop :=
  exists loc label tld : text,
    t = loc ++ 64%N :: label ++ 46%N :: tld
    /\ loc <> [] /\ forallb lower_az loc = true
    /\ label <> [] /\ forallb lower_az label = true
    /\ forallb lower_az tld = true /\ 2 <= List.length tld.

(** Whitespace, or nothing, at the end and at the start of a text. *)
Definition ends_with_space (t : text) : bool :=
  match last_char None t with Some c => isspace c | None => true end.

Definition starts_with_space (t : text) : bool :=
  match t with c :: _ => isspace c | [] => true end.

(** The characters of such a line. *)
Definition email_line_char (c : char) : bool :=
  filler c || (c =? 64)%N || (c =? 46)%N.

Definition email_example : text := str "alice@example.org".

(** ** Records of the examples *)

Definition an_entry (r : role) (t : string) : DialogueEntry :=
  {| entry_role := r; entry_text := str t |}.

Definition a_record (date peer : string) (entries : list DialogueEntry) : ConversationRecord :=
  {| dialogue := entries;
     meta := {| meta_source := SOURCE; meta_date := str date; meta_peer := str peer |} |}.

Definition leap_day_message : CleanedMessage :=
  {| msg_role := assistant; msg_text := str "see you tomorrow";
     msg_date := str "2024-02-29"; msg_peer := str "Alice" |}.

Definition unordered_days_records : list ConversationRecord :=
  [ a_record "2024-03-05" "Alice" [an_entry user "good morning"];
    a_record "2024-03-06" "Alice" [an_entry assistant "hello there";
                                   an_entry user "how are you?"] ].

Definition chat_log_emptied : world := World [(str "logs/chat_skipped.log", [])] [] [].

(** A header line from its parts. *)
Definition header_line (date_str time_str sender first_line : text) : text :=
  str "[" ++ date_str ++ str ", " ++ time_str ++ str "] " ++ sender ++ str ": " ++ first_line.

(** ** Well-formed messages *)

(** [n] ASCII digits. *)
Definition ascii_digits (n : nat) (t : text) : Prop :=
  List.length t = n /\ forallb digit_09 t = true.

(** The printable characters of ASCII. *)
Definition ascii_printable : char -> bool := in_range 32 126.

(** A text of printable ASCII characters, with one character at least and
    no whitespace at either end. *)
Definition ascii_trimmed (t : text) : Prop :=
  t <> [] /\ forallb ascii_printable t = true /\ trimmed t.

(** The number that ASCII digits denote. *)
Definition ascii_value (t : text) : N :=
  fold_left (fun acc c => (10 * acc + (c - 48))%N) t 0%N.

(** ** Lines of prose with an IBAN and a phone number *)

(** The punctuation of ASCII but for ['('], ['+'], ['/'], ['<'], ['@'] and
    ['_']: no pattern of [clean_message] starts with one of these
    characters, and the underscore aside they are no word characters. *)
Definition prose_punct (c : char) : bool :=
  in_range 33 39 c || in_range 41 42 c || in_range 44 46 c || in_range 58 59 c
  || in_range 61 63 c || in_range 91 94 c || (c =? 96)%N || in_range 123 126 c.

(** What sets words apart: whitespace and that punctuation. *)
Definition apart_char (c : char) : bool := isspace c || prose_punct c.

Definition prose_char (c : char) : bool := lower_az c || upper_az c || apart_char c.

(** Every capital letter is followed by a lower-case letter. *)
Fixpoint capitalised (t : text) : bool :=
  match t with
  | [] => true
  | c :: t' =>
      (negb (upper_az c) || match t' with d :: _ => lower_az d | [] => false end)
      && capitalised t'
  end.

(** Prose: words in lower-case letters, capitalised or not, whitespace and
    punctuation. *)
Definition prose (t : text) : bool := forallb prose_char t && capitalised t.

(** No word character at the start, or at the end; so of the empty text. *)
Definition starts_apart (t : text) : bool :=
  match t with c :: _ => apart_char c | [] => true end.

Definition ends_apart (t : text) : bool :=
  match last_char None t with Some c => apart_char c | None => true end.

(** One of the 11 to 30 characters that end an IBAN, after a space or not. *)
Definition unit_text (u : bool * char) : text :=
  if fst u then [32%N; snd u] else [snd u].

(** Two capitals, two digits and 11 to 30 capitals or digits, each after a
    space or not. *)
Definition spaced_iban (t : text) : Prop :=
  exists l1 l2 d1 d2 units,
    t = l1 :: l2 :: d1 :: d2 :: flat_map unit_text units
    /\ upper_az l1 = true /\ upper_az l2 = true
    /\ digit_09 d1 = true /\ digit_09 d2 = true
    /\ forallb (fun u => upper_or_digit (snd u)) units = true
    /\ 11 <= List.length units <= 30.

(** The capitals and digits of a token: an IBAN has 34 at most. *)
Definition letters_and_digits (t : text) : nat := List.length (filter upper_or_digit t).

(** [lo] to [hi] digits. *)
Definition digit_group (lo hi : nat) (g : text) : Prop :=
  forallb digit_09 g = true /\ lo <= List.length g <= hi.

(** Two groups of three or four digits, with one whitespace character or
    hyphen between them, or nothing. *)
Definition two_groups (t : text) : Prop :=
  exists g1 sep g2,
    t = g1 ++ sep ++ g2
    /\ forallb digit_09 g1 = true /\ forallb digit_09 g2 = true
    /\ 3 <= List.length g1 <= 4 /\ 3 <= List.length g2 <= 4
    /\ forallb ws_or_hyphen sep = true /\ List.length sep <= 1.

(** Three groups, the first of one to four digits and the others of three
    or four, with one whitespace character or hyphen after the first and
    after the second. *)
Definition three_groups (t : text) : Prop :=
  exists a s1 c s2 d,
    t = a ++ s1 :: c ++ s2 :: d
    /\ digit_group 1 4 a /\ digit_group 3 4 c /\ digit_group 3 4 d
    /\ ws_or_hyphen s1 = true /\ ws_or_hyphen s2 = true.

(** Four groups: one to three digits, two to four, and two groups of three
    or four, with one whitespace character or hyphen after each but the
    last, and thirteen digits at most in all, a card number having
    fourteen. *)
Definition four_groups (t : text) : Prop :=
  exists a s1 b s2 c s3 d,
    t = a ++ s1 :: b ++ s2 :: c ++ s3 :: d
    /\ digit_group 1 3 a /\ digit_group 2 4 b
    /\ digit_group 3 4 c /\ digit_group 3 4 d
    /\ ws_or_hyphen s1 = true /\ ws_or_hyphen s2 = true /\ ws_or_hyphen s3 = true
    /\ List.length a + List.length b + List.length c + List.length d <= 13.

(** A plain phone number: digits in two, three or four groups. *)
Definition plain_phone (t : text) : Prop :=
  two_groups t \/ three_groups t \/ four_groups t.

(** No run of characters of the class [p] in [t] is longer than [n]. *)
Definition runs_within (p : char -> bool) (n : nat) (t : text) : Prop :=
  forall pre run x,
    t = pre ++ run ++ x -> forallb p run = true -> List.length run <= n.

(** No match of [r] starts inside [A] when [B] follows [A]. *)
Definition no_match_from (U : Unicode) (r : regex) (A B : text) : Prop :=
  forall pre s1 pr st',
    A = pre ++ s1 -> s1 <> [] -> ~ matches U r (MState pr (s1 ++ B) 0 []) st'.

(** A capital or a digit that comes one space after the start of [T] is
    followed by a lower-case letter: the IBAN pattern cannot run on over
    it. *)
Definition stops_iban (T : text) : Prop :=
  forall c s', T = 32%N :: c :: s' -> upper_or_digit c = true ->
               exists l s'', s' = l :: s'' /\ lower_az l = true.

(** Prose and placeholders, in any order. *)
Inductive calm : text -> Prop :=
| calm_end : calm []
| calm_prose p t : prose p = true -> calm t -> calm (p ++ t)
| calm_token tok t : In tok PLACEHOLDERS -> calm t -> calm (tok ++ t).

(** The characters of a line of prose with an IBAN and a phone number. *)
Definition raw_char (c : char) : bool := prose_char c || upper_or_digit c.

(** An IBAN written in groups of four. *)
Definition spaced_iban_example : text := str "DE89 3704 0044 0532 0130 00".

(** ** Texts without words *)

(** The text that [parse_message_block] tests: the first line and the lines
    after it, filtered, joined, freed of a trailing timestamp and stripped. *)
Definition full_text_of (U : Unicode) (first_line : text) (more : list text) : text :=
  strip (re_sub U (TRAILING_TIMESTAMP U) [] (join [NL] (filter_lines U (first_line :: more)))).

(** Nothing, or whitespace and characters that are no word characters. *)
Definition wordless (U : Unicode) (t : text) : bool :=
  forallb (fun c => negb (is_word U c) || isspace c) t.

(** A message made of one emoji. *)
Definition emoji_only_line : text :=
  str "[05/03/2024, 14:22:10] Alice: " ++ [128512%N; NL].

(** A chat that is fine, one with an invalid date, and one that is fine. *)
Definition good_bad_good : files (list text) :=
  [ (str "raw_chats/chat_0.txt", [str "[04/03/2024, 09:00:00] Bob: hello there" ++ [NL]]);
    (str "raw_chats/chat_1.txt", [feb31_line]);
    (str "raw_chats/chat_2.txt", [good_line]) ].

(** The world that the first of these chats leaves. *)
Definition after_first_chat : world :=
  World [(str "logs/chat_0_skipped.log", [])]
        [(str "cleaned_chats/Bob.json",
          [a_record "2024-03-04" "Bob" [an_entry assistant "hello there"]])]
        [(str "chat_0.txt", str "cleaned_chats/Bob.json")].

(** * Properties *)

Lemma text_eqb_eq a b : text_eqb a b = true <-> a = b.
Proof. unfold text_eqb. destruct (list_eq_dec N.eq_dec a b); split; congruence. Qed.

Lemma text_eqb_refl a : text_eqb a a = true.
Proof. now apply text_eqb_eq. Qed.

(** ** The monad *)

Lemma bind_return {A B} (c : M A) (f : A -> M B) w a w' :
  c w = (Return a, w') -> bind c f w = f a w'.
Proof. unfold bind. now intros ->. Qed.

Lemma bind_raise {A B} (c : M A) (f : A -> M B) w e w' :
  c w = (Raise e, w') -> bind c f w = (Raise e, w').
Proof. unfold bind. now intros ->. Qed.

Lemma bind_inv_return {A B} (c : M A) (f : A -> M B) w b w' :
  bind c f w = (Return b, w') ->
  exists a w1, c w = (Return a, w1) /\ f a w1 = (Return b, w').
Proof.
  unfold bind. destruct (c w) as [[a|e] w1]; intros H.
  - now exists a, w1.
  - discriminate.
Qed.

(** ** Block segmentation *)

Section Segmentation.

Variable U : Unicode.

Lemma segment_fold lines :
  segment U lines = close_block (fold_left (segment_step U) lines ([], [])).
Proof.
  unfold segment, close_block.
  now destruct (fold_left (segment_step U) lines ([], [])).
Qed.

(** The blocks already closed are never touched again. *)
Lemma fold_segment_prefix lines : forall mb cb,
  fold_left (segment_step U) lines (mb, cb) =
  (mb ++ fst (fold_left (segment_step U) lines ([], cb)),
   snd (fold_left (segment_step U) lines ([], cb))).
Proof.
  induction lines as [|l lines IH]; intros mb cb; simpl.
  - now rewrite app_nil_r.
  - destruct (matches_header U (strip_invisible U l)).
    + destruct cb as [|c cb].
      * apply IH.
      * rewrite (IH (mb ++ [c :: cb])), (IH ([] ++ [c :: cb])). simpl.
        now rewrite <- app_assoc.
    + apply IH.
Qed.

(** Without an open block, lines up to the first header are dropped. *)
Lemma fold_segment_closed lines mb :
  close_block (fold_left (segment_step U) lines (mb, [])) = mb ++ segment U lines.
Proof.
  rewrite segment_fold, fold_segment_prefix. unfold close_block. simpl.
  destruct (snd (fold_left (segment_step U) lines ([], []))); simpl.
  - reflexivity.
  - now rewrite app_assoc.
Qed.

(** A header line closes the open block, whatever it is. *)
Lemma fold_segment_header h lines mb cb :
  is_header U h = true ->
  close_block (fold_left (segment_step U) (h :: lines) (mb, cb))
  = close_block (mb, cb) ++ segment U (h :: lines).
Proof.
  intros Hh. rewrite segment_fold. simpl. unfold is_header in Hh. rewrite Hh.
  rewrite (fold_segment_prefix lines (match cb with [] => mb | _ :: _ => mb ++ [cb] end)).
  unfold close_block at 1 3. simpl.
  assert (Hc : match cb with [] => mb | _ :: _ => mb ++ [cb] end = close_block (mb, cb))
    by (unfold close_block; now destruct cb).
  rewrite Hc.
  destruct (snd (fold_left (segment_step U) lines ([], [h]))); simpl.
  - reflexivity.
  - now rewrite app_assoc.
Qed.

Lemma segment_nil_fold A :
  segment U A = [] -> fold_left (segment_step U) A ([], []) = ([], []).
Proof.
  rewrite segment_fold. unfold close_block.
  destruct (fold_left (segment_step U) A ([], [])) as [mb [|c cb]]; simpl.
  - now intros ->.
  - intros H. now destruct mb.
Qed.

Lemma segment_app_when A B :
  ends_mid_block U A B = false ->
  segment U (A ++ B) = segment U A ++ segment U B.
Proof.
  unfold ends_mid_block. intros H.
  rewrite (segment_fold (A ++ B)), fold_left_app.
  destruct (segment U A) as [|b bs] eqn:HA.
  - rewrite (segment_nil_fold A HA). now rewrite <- segment_fold.
  - rewrite <- HA. destruct B as [|l B].
    + simpl. rewrite app_nil_r. now rewrite <- segment_fold.
    + apply negb_false_iff in H.
      destruct (fold_left (segment_step U) A ([], [])) as [mb cb] eqn:HF.
      rewrite (fold_segment_header l B mb cb H).
      now rewrite (segment_fold A), HF.
Qed.

End Segmentation.

(** ** What [parse_message_block] can return *)

Ltac unfold_parse :=
  unfold parse_message_block, log_skip, append_log, bind, ret, raise.

Lemma parse_accepted U block log w msg w' :
  parse_message_block U block log w = (Return (Some msg), w') ->
  exists first more date_str time_str sender first_line dt,
    block = first :: more
    /\ re_match U (TIMESTAMP_PATTERN U) (strip_invisible U first)
       = Some [date_str; time_str; sender; first_line]
    /\ strptime U (date_str ++ str " " ++ time_str) = Some dt
    /\ msg_text msg
       = strip (re_sub U (TRAILING_TIMESTAMP U) []
                  (join [NL] (filter_lines U (first_line :: more))))
    /\ msg_text msg <> []
    /\ is_irrelevant U (msg_text msg) = false
    /\ msg_role msg = (if text_eqb (strip sender) USER_NAME then user else assistant)
    /\ msg_peer msg = strip sender
    /\ msg_date msg = isoformat dt
    /\ w' = w.
Proof.
  unfold_parse. destruct block as [|first more]; [discriminate|].
  destruct (re_match U (TIMESTAMP_PATTERN U) (strip_invisible U first))
    as [[|d [|t [|sd [|fl [|x l]]]]]|] eqn:Hm; try discriminate.
  destruct (strptime U (d ++ str " " ++ t)) as [dt|] eqn:Hdt; [|discriminate].
  destruct (strip (re_sub U (TRAILING_TIMESTAMP U) []
                     (join [NL] (filter_lines U (fl :: more))))) as [|c full] eqn:Hfull;
    [discriminate|].
  destruct (is_irrelevant U (c :: full)) eqn:Hirr; [discriminate|].
  intros H. injection H as Hmsg Hw. subst msg w'.
  exists first, more, d, t, sd, fl, dt. cbn [msg_text msg_role msg_peer msg_date].
  repeat split; try reflexivity; try assumption; try discriminate;
    try (symmetry; exact Hfull).
  destruct (text_eqb (strip sd) USER_NAME) eqn:E; [|reflexivity].
  apply text_eqb_eq in E. now rewrite E.
Qed.

(** Nothing but [ValueError] leaves the parser of a non-empty block. *)
Lemma parse_raises_only_value_error U first more log w e w' :
  parse_message_block U (first :: more) log w = (Raise e, w') -> e = ValueError /\ w' = w.
Proof.
  unfold_parse.
  destruct (re_match U (TIMESTAMP_PATTERN U) (strip_invisible U first))
    as [[|d [|t [|sd [|fl [|x l]]]]]|] eqn:Hm; try (intros H; now inversion H).
  destruct (strptime U (d ++ str " " ++ t)) as [dt|] eqn:Hdt;
    [|intros H; now inversion H].
  destruct (strip (re_sub U (TRAILING_TIMESTAMP U) []
                     (join [NL] (filter_lines U (fl :: more))))) as [|c full];
    [discriminate|].
  destruct (is_irrelevant U (c :: full)); discriminate.
Qed.

(** A header that [strptime] refuses raises, and nothing is logged. *)
Lemma parse_raises_on_bad_timestamp U first more log w date_str time_str sender first_line :
  re_match U (TIMESTAMP_PATTERN U) (strip_invisible U first)
  = Some [date_str; time_str; sender; first_line] ->
  strptime U (date_str ++ str " " ++ time_str) = None ->
  parse_message_block U (first :: more) log w = (Raise ValueError, w).
Proof. unfold_parse. now intros -> ->. Qed.

(** ** The aggregator *)

Lemma aggregate_blocks_spec U blocks log : forall a w a' w',
  aggregate_blocks U blocks log a w = (Return a', w') ->
  exists msgs,
    accepted_messages U blocks log w = (Return msgs, w')
    /\ a' = fold_left aggregate_step msgs a.
Proof.
  induction blocks as [|b blocks IH]; intros a w a' w' H; simpl in *.
  - injection H as <- <-. now exists [].
  - apply bind_inv_return in H. destruct H as (parsed & w1 & Hp & H).
    unfold bind at 1. rewrite Hp.
    destruct parsed as [p|]; apply IH in H; destruct H as (msgs & Hm & ->).
    + exists (p :: msgs). unfold bind. now rewrite Hm.
    + exists msgs. unfold bind. now rewrite Hm.
Qed.

Lemma accepted_messages_nonempty U blocks log : forall w msgs w',
  accepted_messages U blocks log w = (Return msgs, w') ->
  Forall (fun p => msg_text p <> []) msgs.
Proof.
  induction blocks as [|b blocks IH]; intros w msgs w' H; simpl in *.
  - injection H as <- <-. constructor.
  - apply bind_inv_return in H. destruct H as (parsed & w1 & Hp & H).
    apply bind_inv_return in H. destruct H as (others & w2 & Ho & H).
    injection H as <- <-. apply IH in Ho.
    destruct parsed as [p|]; [|assumption].
    constructor; [|assumption].
    apply parse_accepted in Hp. now destruct Hp as (? & ? & ? & ? & ? & ? & ? & _ & _ & _ & _ & Hne & _).
Qed.

Lemma lookup_app {A} key (d1 d2 : files A) :
  lookup key (d1 ++ d2) = match lookup key d1 with Some x => Some x | None => lookup key d2 end.
Proof.
  induction d1 as [|[k x] d1 IH]; simpl; [reflexivity|].
  now destruct (text_eqb k key).
Qed.

Lemma find_snoc {A} (f : A -> bool) l x :
  find f (l ++ [x]) = match find f l with
                      | Some y => Some y
                      | None => if f x then Some x else None
                      end.
Proof.
  induction l as [|y l IH]; simpl; [reflexivity|].
  now destruct (f y).
Qed.

Lemma peers_resolved_step msgs a x :
  peers_resolved msgs a -> peers_resolved (msgs ++ [x]) (aggregate_step a x).
Proof.
  intros [Hd Hn]. split.
  - intros date. unfold first_assistant_on. rewrite find_snoc.
    fold (first_assistant_on date msgs). specialize (Hd date) as Hdate.
    unfold aggregate_step; simpl. fold (is_assistant x).
    destruct (is_assistant x) eqn:Ha; simpl;
      [|rewrite Hdate; now destruct (first_assistant_on date msgs)].
    destruct (lookup (msg_date x) (peers_by_date a)) eqn:Hl; simpl.
    + rewrite Hdate. destruct (first_assistant_on date msgs) eqn:Hf; simpl; [reflexivity|].
      destruct (text_eqb (msg_date x) date) eqn:E; [|reflexivity].
      apply text_eqb_eq in E. subst date. rewrite Hl in Hdate. discriminate.
    + rewrite lookup_app, Hdate. simpl.
      destruct (first_assistant_on date msgs); simpl; [reflexivity|].
      now destruct (text_eqb (msg_date x) date).
  - unfold first_named_assistant in *. rewrite find_snoc.
    unfold aggregate_step; simpl. fold (is_assistant x).
    destruct (find (fun p => is_assistant p && has_name p) msgs) as [p|].
    + destruct Hn as [Hn Hp]. rewrite Hn. simpl.
      destruct (msg_peer p); [contradiction|].
      rewrite andb_false_r. now split.
    + rewrite Hn, andb_true_r. unfold has_name.
      destruct (is_assistant x); simpl; [|exact Hn].
      destruct (msg_peer x) eqn:E; simpl; [reflexivity|].
      rewrite E. split; [reflexivity|discriminate].
Qed.

Lemma peers_resolved_fold msgs : forall seen a,
  peers_resolved seen a ->
  peers_resolved (seen ++ msgs) (fold_left aggregate_step msgs a).
Proof.
  induction msgs as [|x msgs IH]; intros seen a H; simpl.
  - now rewrite app_nil_r.
  - replace (seen ++ x :: msgs) with ((seen ++ [x]) ++ msgs)
      by (now rewrite <- app_assoc).
    apply IH. now apply peers_resolved_step.
Qed.

Lemma peers_resolved_init : peers_resolved [] (Aggregate [] [] None).
Proof. split; [reflexivity|]. reflexivity. Qed.

Lemma conversations_peer msgs a r :
  peers_resolved msgs a ->
  In r (conversations_of a) ->
  meta_peer (meta r) = resolved_peer msgs (meta_date (meta r)).
Proof.
  intros [Hd Hn] Hin. unfold conversations_of in Hin.
  apply in_map_iff in Hin. destruct Hin as ([date messages] & <- & _). simpl.
  unfold resolved_peer. rewrite Hd.
  destruct (first_assistant_on date msgs); simpl; [reflexivity|].
  destruct (first_named_assistant msgs) as [p|].
  - destruct Hn as [-> Hp]. simpl. now destruct (msg_peer p).
  - now destruct (peer_name a) as [[|c n]|].
Qed.

Lemma process_chat_file_returns U disk file_path w convs pn w' :
  process_chat_file U disk file_path w = (Return (convs, pn), w') ->
  exists msgs,
    accepted_in_file U disk file_path w = (Return msgs, w')
    /\ convs = conversations_of (fold_left aggregate_step msgs (Aggregate [] [] None))
    /\ pn = or_unknown (peer_name (fold_left aggregate_step msgs (Aggregate [] [] None))).
Proof.
  unfold process_chat_file, accepted_in_file. intros H.
  apply bind_inv_return in H. destruct H as ([] & w1 & Ht & H).
  unfold bind at 1. rewrite Ht.
  destruct (lookup file_path disk) as [lines|]; [|discriminate].
  apply bind_inv_return in H. destruct H as (a & w2 & Ha & H).
  injection H as <- <- <-.
  apply aggregate_blocks_spec in Ha. destruct Ha as (msgs & Hm & ->).
  now exists msgs.
Qed.

(** ** Dialogues are never empty *)

Lemma write_values {A} (Q : A -> Prop) key x (d : files A) :
  Forall (fun kv => Q (snd kv)) d -> Q x -> Forall (fun kv => Q (snd kv)) (write key x d).
Proof.
  intros Hd Hx. induction d as [|[k y] d IH]; simpl.
  - now constructor.
  - inversion Hd; subst. destruct (text_eqb k key); constructor; auto.
Qed.

Lemma lookup_value {A} (Q : A -> Prop) key (d : files A) x :
  Forall (fun kv => Q (snd kv)) d -> lookup key d = Some x -> Q x.
Proof.
  intros Hd. induction d as [|[k y] d IH]; simpl; [discriminate|].
  inversion Hd; subst. destruct (text_eqb k key).
  - now intros [= <-].
  - auto.
Qed.

Lemma append_at_ok key e d :
  dialogues_ok d -> entry_text e <> [] -> dialogues_ok (append_at key e d).
Proof.
  intros Hd He. unfold append_at.
  destruct (lookup key d) as [l|] eqn:Hl.
  - apply write_values; [assumption|].
    destruct (@lookup_value _ dialogue_ok key d l Hd Hl) as [_ Hall].
    split.
    + now destruct l.
    + apply Forall_app. split; [assumption|now constructor].
  - apply Forall_app. split; [assumption|].
    constructor; [|constructor]. split; [discriminate|now constructor].
Qed.

Lemma aggregate_dialogues_ok msgs : forall a,
  Forall (fun p => msg_text p <> []) msgs ->
  dialogues_ok (daily_conversations a) ->
  dialogues_ok (daily_conversations (fold_left aggregate_step msgs a)).
Proof.
  induction msgs as [|x msgs IH]; intros a Hm Ha; simpl; [assumption|].
  inversion Hm; subst. apply IH; [assumption|].
  unfold aggregate_step; simpl. now apply append_at_ok.
Qed.

Lemma in_insert_sorted {A} (kv x : text * A) l :
  In x (insert_sorted kv l) -> x = kv \/ In x l.
Proof.
  induction l as [|y l IH]; simpl.
  - intros [<-|[]]. now left.
  - destruct (text_leb (fst kv) (fst y)); simpl.
    + intros [<-|H]; auto.
    + intros [<-|H]; auto. destruct (IH H); auto.
Qed.

Lemma in_sorted_items {A} (x : text * A) d : In x (sorted_items d) -> In x d.
Proof.
  induction d as [|kv d IH]; simpl; [auto|].
  intros H. apply in_insert_sorted in H. destruct H as [->|H]; auto.
Qed.

Lemma conversations_dialogue_ok a r :
  dialogues_ok (daily_conversations a) ->
  In r (conversations_of a) -> dialogue_ok (dialogue r).
Proof.
  intros Ha Hin. unfold conversations_of in Hin.
  apply in_map_iff in Hin. destruct Hin as ([date messages] & <- & Hin). simpl.
  apply in_sorted_items in Hin.
  unfold dialogues_ok in Ha. rewrite Forall_forall in Ha.
  exact (Ha _ Hin).
Qed.

(** ** The batch *)

Lemma process_files_skip U disk f more w :
  is_chat_file U f = false ->
  process_files U disk (f :: more) w = process_files U disk more w.
Proof. simpl. now intros ->. Qed.

Lemma process_files_raise U disk f more w e w' :
  is_chat_file U f = true ->
  process_chat_file U disk (path_join CHAT_FOLDER f) w = (Raise e, w') ->
  process_files U disk (f :: more) w = (Raise e, w').
Proof. simpl. intros -> H. unfold bind. now rewrite H. Qed.

Lemma process_files_app U disk pre post : forall w w1,
  process_files U disk pre w = (Return tt, w1) ->
  process_files U disk (pre ++ post) w = process_files U disk post w1.
Proof.
  induction pre as [|f pre IH]; intros w w1 H; simpl in *.
  - now injection H as <-.
  - destruct (is_chat_file U f); [|now apply IH].
    unfold bind in *.
    destruct (process_chat_file U disk (path_join CHAT_FOLDER f) w)
      as [[[convs pn]|e] w2]; [|discriminate].
    simpl in *. now apply IH.
Qed.

(** ** The matcher finds matches only *)

Lemma last_char_app pr a b : last_char pr (a ++ b) = last_char (last_char pr a) b.
Proof. unfold last_char. apply fold_left_app. Qed.

Lemma consumed_refl st : consumed [] st st.
Proof. unfold consumed. simpl. repeat split. lia. Qed.

Lemma consumed_trans a b st mid st' :
  consumed a st mid -> consumed b mid st' -> consumed (a ++ b) st st'.
Proof.
  intros (H1 & H2 & H3) (H4 & H5 & H6). unfold consumed.
  rewrite H1, H4, H5, H2, H6, H3, last_char_app, length_app, app_assoc.
  repeat split. lia.
Qed.

Lemma iter_add R a : forall b st mid st',
  iter a R st mid -> iter b R mid st' -> iter (a + b) R st st'.
Proof.
  induction a as [|a IH]; intros b st mid st' H1 H2; simpl in *.
  - now subst mid.
  - destruct H1 as (x & Hx & H1). exists x. split; [assumption|]. eauto.
Qed.

Section StepSound.

Variable step : mstate -> cont -> option mstate.
Variable R : mstate -> mstate -> Prop.
Hypothesis step_sound : forall st k res,
  step st k = Some res -> exists st', R st st' /\ k st' = Some res.

Lemma rep_req_sound lo : forall st k res,
  rep_req step lo st k = Some res ->
  exists st', iter lo R st st' /\ k st' = Some res.
Proof.
  induction lo as [|lo IH]; intros st k res H; simpl in *.
  - now exists st.
  - apply step_sound in H. destruct H as (mid & Hmid & H).
    apply IH in H. destruct H as (st' & Hit & Hk).
    exists st'. split; [|assumption]. now exists mid.
Qed.

Lemma rep_opt_sound extra : forall st k res,
  rep_opt step extra st k = Some res ->
  exists n st', n <= extra /\ iter n R st st' /\ k st' = Some res.
Proof.
  induction extra as [|e IH]; intros st k res H; simpl in *.
  - exists 0, st. repeat split; auto.
  - unfold orelse in H.
    destruct (step st (fun st' => rep_opt step e st' k)) as [x|] eqn:Hs.
    + injection H as ->. apply step_sound in Hs. destruct Hs as (mid & Hmid & Hs).
      apply IH in Hs. destruct Hs as (n & st' & Hn & Hit & Hk).
      exists (S n), st'. repeat split; [lia| |assumption]. now exists mid.
    + exists 0, st. repeat split; [lia|assumption].
Qed.

End StepSound.

Lemma many_greedy_sound p k : forall s lo pr n cs res,
  many_greedy p lo pr s n cs k = Some res ->
  exists run s',
    s = run ++ s' /\ forallb p run = true /\ lo <= List.length run
    /\ k (MState (last_char pr run) s' (n + List.length run) cs) = Some res.
Proof.
  assert (Hstop : forall s lo pr n cs res,
             match lo with O => k (MState pr s n cs) | S _ => None end = Some res ->
             exists run s',
               s = run ++ s' /\ forallb p run = true /\ lo <= List.length run
               /\ k (MState (last_char pr run) s' (n + List.length run) cs) = Some res).
  { intros s lo pr n cs res H. destruct lo; [|discriminate].
    exists [], s. simpl. rewrite Nat.add_0_r. auto. }
  induction s as [|c s IH]; intros lo pr n cs res H; simpl in H.
  - now apply Hstop.
  - destruct (p c) eqn:Hp; [|now apply Hstop].
    unfold orelse in H.
    destruct (many_greedy p (Nat.pred lo) (Some c) s (S n) cs k) as [x|] eqn:Hg;
      [|now apply Hstop].
    injection H as ->. apply IH in Hg.
    destruct Hg as (run & s' & -> & Hall & Hlo & Hk).
    exists (c :: run), s'. simpl. rewrite Hp, Hall.
    repeat split; [lia|]. now rewrite Nat.add_succ_r.
Qed.

Lemma many_lazy_sound p k : forall s lo pr n cs res,
  many_lazy p lo pr s n cs k = Some res ->
  exists run s',
    s = run ++ s' /\ forallb p run = true /\ lo <= List.length run
    /\ k (MState (last_char pr run) s' (n + List.length run) cs) = Some res.
Proof.
  induction s as [|c s IH]; intros lo pr n cs res H; simpl in H.
  - destruct lo; [|discriminate].
    destruct (k (MState pr [] n cs)) eqn:Hk; [|discriminate].
    exists [], []. simpl. rewrite Nat.add_0_r, Hk. auto.
  - assert (Hmore : (if p c then many_lazy p (Nat.pred lo) (Some c) s (S n) cs k else None)
                    = Some res ->
                    exists run s',
                      c :: s = run ++ s' /\ forallb p run = true /\ lo <= List.length run
                      /\ k (MState (last_char pr run) s' (n + List.length run) cs) = Some res).
    { intros Hm. destruct (p c) eqn:Hp; [|discriminate].
      apply IH in Hm. destruct Hm as (run & s' & -> & Hall & Hlo & Hk).
      exists (c :: run), s'. simpl. rewrite Hp, Hall.
      repeat split; [lia|]. now rewrite Nat.add_succ_r. }
    destruct lo; [|now apply Hmore].
    destruct (k (MState pr (c :: s) n cs)) eqn:Hk; [|now apply Hmore].
    exists [], (c :: s). simpl. rewrite Nat.add_0_r, Hk. auto.
Qed.

Lemma m_sound U r : forall st k res,
  m U r st k = Some res -> exists st', matches U r st st' /\ k st' = Some res.
Proof.
  induction r as [|p|a IHa b IHb|a IHa b IHb|a IHa lo extra|p lo g|a IHa| | |];
    intros st k res H; simpl in H.
  - now exists st.
  - destruct (rest st) as [|c s'] eqn:Hr; [discriminate|].
    destruct (p c) eqn:Hp; [|discriminate].
    exists (advance c s' st). split; [|assumption]. now exists c, s'.
  - apply IHa in H. destruct H as (mid & Ha & H).
    apply IHb in H. destruct H as (st' & Hb & H).
    exists st'. split; [|assumption]. now exists mid.
  - unfold orelse in H. destruct (m U a st k) as [x|] eqn:Ha.
    + injection H as ->. apply IHa in Ha. destruct Ha as (st' & Ha & Hk).
      exists st'. split; [now left|assumption].
    + apply IHb in H. destruct H as (st' & Hb & Hk).
      exists st'. split; [now right|assumption].
  - apply (@rep_req_sound (m U a) (matches U a) IHa) in H. destruct H as (mid & H1 & H).
    apply (@rep_opt_sound (m U a) (matches U a) IHa) in H.
    destruct H as (n & st' & Hn & H2 & Hk).
    exists st'. split; [|assumption].
    exists (lo + n). split; [lia|]. now apply iter_add with mid.
  - assert (Hrun : exists run s',
               rest st = run ++ s' /\ forallb p run = true /\ lo <= List.length run
               /\ k (MState (last_char (prev st) run) s' (pos st + List.length run) (caps st))
                  = Some res)
      by (destruct g; [now apply many_greedy_sound|now apply many_lazy_sound]).
    destruct Hrun as (run & s' & Hs & Hall & Hlo & Hk).
    eexists. split; [|exact Hk].
    exists run. unfold consumed. simpl. repeat split; auto.
  - apply IHa in H. destruct H as (st1 & Ha & H).
    exists (capture st st1). split; [|assumption]. now exists st1.
  - destruct (xorb _ _) eqn:Hx; [|discriminate]. now exists st.
  - destruct (prev st) eqn:Hp; [discriminate|]. now exists st.
  - destruct (rest st) as [|c [|c' s']] eqn:Hr.
    + exists st. repeat split; auto.
    + destruct (c =? NL)%N eqn:Hc; [|discriminate].
      apply N.eqb_eq in Hc. subst c. exists st. repeat split; auto.
    + discriminate.
Qed.

(** A match takes a prefix of the text, drawn from the character sets of the
    pattern, and at least [min_len] long. *)
Lemma iter_consumed (P : text -> Prop) R :
  P [] -> (forall a b, P a -> P b -> P (a ++ b)) ->
  (forall st st', R st st' -> exists run, consumed run st st' /\ P run) ->
  forall n st st', iter n R st st' -> exists run, consumed run st st' /\ P run.
Proof.
  intros Hnil Happ HR. induction n as [|n IH]; intros st st' H; simpl in H.
  - subst st'. exists []. split; [apply consumed_refl|assumption].
  - destruct H as (mid & H1 & H2). apply HR in H1. apply IH in H2.
    destruct H1 as (r1 & C1 & P1), H2 as (r2 & C2 & P2).
    exists (r1 ++ r2). split; [now apply consumed_trans with mid|auto].
Qed.

Lemma matches_consumed U q r : chars_in q r -> forall st st',
  matches U r st st' -> exists run, consumed run st st' /\ forallb q run = true.
Proof.
  induction r as [|p|a IHa b IHb|a IHa b IHb|a IHa lo extra|p lo g|a IHa| | |];
    simpl; intros Hq st st' H.
  - subst st'. exists []. split; [apply consumed_refl|reflexivity].
  - destruct H as (c & s' & Hr & Hp & ->). exists [c]. split.
    + unfold consumed. simpl. rewrite Hr. repeat split. lia.
    + simpl. now rewrite (Hq c Hp).
  - destruct Hq as [Hqa Hqb]. destruct H as (mid & Ha & Hb).
    destruct (IHa Hqa _ _ Ha) as (r1 & C1 & P1), (IHb Hqb _ _ Hb) as (r2 & C2 & P2).
    exists (r1 ++ r2). split; [now apply consumed_trans with mid|].
    now rewrite forallb_app, P1, P2.
  - destruct Hq as [Hqa Hqb]. destruct H as [H|H]; eauto.
  - destruct H as (n & _ & H).
    apply (iter_consumed (fun run => forallb q run = true) (matches U a)) with n; auto.
    intros x y Hx Hy. now rewrite forallb_app, Hx, Hy.
  - destruct H as (run & Hall & _ & Hc & _). exists run. split; [assumption|].
    rewrite forallb_forall in *. auto.
  - destruct H as (st1 & Ha & ->). destruct (IHa Hq _ _ Ha) as (run & Hc & Hp).
    exists run. split; [exact Hc|assumption].
  - destruct H as [_ ->]. exists []. split; [apply consumed_refl|reflexivity].
  - destruct H as [_ ->]. exists []. split; [apply consumed_refl|reflexivity].
  - destruct H as [_ ->]. exists []. split; [apply consumed_refl|reflexivity].
Qed.

Lemma iter_min_len R k :
  (forall st st', R st st' -> pos st + k <= pos st') ->
  forall n st st', iter n R st st' -> pos st + n * k <= pos st'.
Proof.
  intros HR. induction n as [|n IH]; intros st st' H; simpl in H.
  - subst st'. simpl. lia.
  - destruct H as (mid & H1 & H2). apply HR in H1. apply IH in H2. simpl. lia.
Qed.

Lemma matches_min_len U r : forall st st',
  matches U r st st' -> pos st + min_len r <= pos st'.
Proof.
  induction r as [|p|a IHa b IHb|a IHa b IHb|a IHa lo extra|p lo g|a IHa| | |];
    simpl; intros st st' H.
  - subst st'. lia.
  - destruct H as (c & s' & _ & _ & ->). simpl. lia.
  - destruct H as (mid & Ha & Hb). apply IHa in Ha. apply IHb in Hb. lia.
  - destruct H as [H|H]; [apply IHa in H|apply IHb in H]; lia.
  - destruct H as (n & Hn & H). apply (iter_min_len _ _ IHa) in H. nia.
  - destruct H as (run & _ & Hlo & (_ & _ & Hp) & _). lia.
  - destruct H as (st1 & Ha & ->). apply IHa in Ha. simpl. lia.
  - destruct H as [_ ->]. lia.
  - destruct H as [_ ->]. lia.
  - destruct H as [_ ->]. lia.
Qed.

Lemma matches_caps U r : no_groups r -> forall st st',
  matches U r st st' -> caps st' = caps st.
Proof.
  induction r as [|p|a IHa b IHb|a IHa b IHb|a IHa lo extra|p lo g|a IHa| | |];
    simpl; intros Hn st st' H.
  - now subst.
  - destruct H as (c & s' & _ & _ & ->). reflexivity.
  - destruct Hn as [Ha Hb]. destruct H as (mid & H1 & H2).
    rewrite (IHb Hb _ _ H2). now apply IHa.
  - destruct Hn as [Ha Hb]. destruct H as [H|H]; auto.
  - destruct H as (n & _ & H). revert st st' H.
    induction n as [|n IHn]; intros st st' H; simpl in H.
    + now subst.
    + destruct H as (mid & H1 & H2). rewrite (IHn _ _ H2). now apply IHa.
  - now destruct H as (_ & _ & _ & _ & H).
  - contradiction.
  - now destruct H as [_ ->].
  - now destruct H as [_ ->].
  - now destruct H as [_ ->].
Qed.

Lemma matches_group U q a st st' :
  no_groups a -> chars_in q a ->
  matches U (Grp a) st st' ->
  exists run, consumed run st st' /\ forallb q run = true
              /\ caps st' = caps st ++ [run] /\ min_len a <= List.length run.
Proof.
  intros Hn Hq (st1 & Ha & ->).
  destruct (matches_consumed U q a Hq _ _ Ha) as (run & (Hr & Hp & Hpos) & Hall).
  pose proof (matches_min_len U a _ _ Ha) as Hmin.
  pose proof (matches_caps U a Hn _ _ Ha) as Hc.
  exists run. unfold consumed, capture. simpl.
  repeat split; auto; [|lia].
  rewrite Hc, Hr, Hpos.
  replace (pos st + List.length run - pos st) with (List.length run + 0) by lia.
  now rewrite firstn_app_2, app_nil_r.
Qed.

Lemma matches_chr U c st st' :
  matches U (chr c) st st' -> consumed [c] st st' /\ caps st' = caps st.
Proof.
  intros (x & s' & Hr & Hx & ->). apply N.eqb_eq in Hx. subst x.
  unfold consumed. simpl. rewrite Hr. repeat split. lia.
Qed.

Lemma matches_many U p lo g st st' :
  matches U (Many p lo g) st st' ->
  exists run, consumed run st st' /\ forallb p run = true
              /\ lo <= List.length run /\ caps st' = caps st.
Proof. intros (run & H1 & H2 & H3 & H4). now exists run. Qed.

(** ** [strptime] accepts valid calendar dates only *)

Lemma ascii_digit_is_digit U (HU : standard U) c :
  in_range 48 57 c = true -> is_digit U c = true.
Proof.
  intros H. unfold is_digit. rewrite (std_decimal HU).
  - unfold latin1_decimal. now rewrite H.
  - unfold plain, in_range in *. apply andb_true_iff in H. destruct H as [_ H].
    apply N.leb_le in H. apply orb_true_iff. left. apply N.ltb_lt. lia.
Qed.

Lemma in_range_weaken lo hi lo' hi' c :
  (lo' <= lo)%N -> (hi <= hi')%N -> in_range lo hi c = true -> in_range lo' hi' c = true.
Proof.
  unfold in_range. intros H1 H2 H. apply andb_true_iff in H. destruct H as [Ha Hb].
  apply N.leb_le in Ha, Hb. apply andb_true_iff. split; apply N.leb_le; lia.
Qed.

Lemma eqb_in_range k lo hi c :
  (lo <= k)%N -> (k <= hi)%N -> (k =? c)%N = true -> in_range lo hi c = true.
Proof.
  intros H1 H2 H. apply N.eqb_eq in H. subst c. unfold in_range.
  apply andb_true_iff. split; apply N.leb_le; lia.
Qed.

Ltac digit_class HU :=
  match goal with
  | H : (32 =? _)%N = true |- digit_or_space _ _ = true =>
      unfold digit_or_space; apply N.eqb_eq in H; subst; apply orb_true_r
  | |- digit_or_space _ _ = true =>
      unfold digit_or_space; apply orb_true_iff; left; digit_class HU
  | H : is_digit _ _ = true |- is_digit _ _ = true => exact H
  | H : in_range _ _ _ = true |- _ =>
      apply (ascii_digit_is_digit HU); eapply in_range_weaken; [| |exact H]; lia
  | H : (_ =? _)%N = true |- _ =>
      apply (ascii_digit_is_digit HU); eapply eqb_in_range; [| |exact H]; lia
  end.

Ltac group_facts HU :=
  unfold one_of, chr, times; cbn [chars_in no_groups];
  repeat split; try (intros c Hc; digit_class HU).

Lemma strptime_sound U (HU : standard U) s dt :
  strptime U s = Some dt ->
  exists rD rMo rY ws rH rMi rS,
    s = rD ++ 47%N :: rMo ++ 47%N :: rY ++ ws ++ rH ++ 58%N :: rMi ++ 58%N :: rS
    /\ forallb (digit_or_space U) rD = true
    /\ forallb (is_digit U) rMo = true
    /\ forallb (is_digit U) rY = true
    /\ forallb isspace ws = true /\ ws <> []
    /\ forallb (is_digit U) rH = true
    /\ forallb (is_digit U) rMi = true
    /\ forallb (is_digit U) rS = true
    /\ py_int U rD = Some (day dt) /\ py_int U rMo = Some (month dt)
    /\ py_int U rY = Some (year dt) /\ py_int U rH = Some (hour dt)
    /\ py_int U rMi = Some (minute dt) /\ py_int U rS = Some (second dt)
    /\ valid_date (year dt) (month dt) (day dt) = true
    /\ valid_time (hour dt) (minute dt) (second dt) = true.
Proof.
  unfold strptime. intros H.
  destruct (m U (STRPTIME_REGEX U) (start s) Some) as [st|] eqn:Hm; [|discriminate].
  destruct (rest st) eqn:Hrest; [|discriminate].
  apply m_sound in Hm. destruct Hm as (st' & Hm & [= ->]).
  unfold STRPTIME_REGEX, seqs in Hm. cbn [fold_right] in Hm.
  destruct Hm as (m1 & G1 & Hm).
  apply (@matches_group U (digit_or_space U)) in G1; [| group_facts HU ..].
  destruct G1 as (rD & (R1 & _) & A1 & C1 & _).
  destruct Hm as (m2 & G2 & Hm). apply matches_chr in G2.
  destruct G2 as ((R2 & _) & C2).
  destruct Hm as (m3 & G3 & Hm).
  apply (@matches_group U (is_digit U)) in G3; [| group_facts HU ..].
  destruct G3 as (rMo & (R3 & _) & A3 & C3 & _).
  destruct Hm as (m4 & G4 & Hm). apply matches_chr in G4.
  destruct G4 as ((R4 & _) & C4).
  destruct Hm as (m5 & G5 & Hm).
  apply (@matches_group U (is_digit U)) in G5; [| group_facts HU ..].
  destruct G5 as (rY & (R5 & _) & A5 & C5 & _).
  destruct Hm as (m6 & G6 & Hm). apply matches_many in G6.
  destruct G6 as (ws & (R6 & _) & A6 & L6 & C6).
  destruct Hm as (m7 & G7 & Hm).
  apply (@matches_group U (is_digit U)) in G7; [| group_facts HU ..].
  destruct G7 as (rH & (R7 & _) & A7 & C7 & _).
  destruct Hm as (m8 & G8 & Hm). apply matches_chr in G8.
  destruct G8 as ((R8 & _) & C8).
  destruct Hm as (m9 & G9 & Hm).
  apply (@matches_group U (is_digit U)) in G9; [| group_facts HU ..].
  destruct G9 as (rMi & (R9 & _) & A9 & C9 & _).
  destruct Hm as (m10 & G10 & Hm). apply matches_chr in G10.
  destruct G10 as ((R10 & _) & C10).
  destruct Hm as (m11 & G11 & Hm).
  apply (@matches_group U (is_digit U)) in G11; [| group_facts HU ..].
  destruct G11 as (rS & (R11 & _) & A11 & C11 & _).
  simpl in Hm. subst m11.
  rewrite C11, C10, C9, C8, C7, C6, C5, C4, C3, C2, C1 in H. simpl in H.
  destruct (py_int U rD) as [d|] eqn:ED; [|discriminate].
  destruct (py_int U rMo) as [mo|] eqn:EMo; [|discriminate].
  destruct (py_int U rY) as [y|] eqn:EY; [|discriminate].
  destruct (py_int U rH) as [h|] eqn:EH; [|discriminate].
  destruct (py_int U rMi) as [mi|] eqn:EMi; [|discriminate].
  destruct (py_int U rS) as [sec|] eqn:ES; [|discriminate].
  unfold make_datetime in H.
  destruct (valid_date y mo d && valid_time h mi sec) eqn:V; [|discriminate].
  injection H as <-. apply andb_true_iff in V. destruct V as [V1 V2].
  exists rD, rMo, rY, ws, rH, rMi, rS. simpl.
  repeat split; auto.
  - simpl in R1. rewrite R1, R2, R3, R4, R5, R6, R7, R8, R9, R10, R11, Hrest.
    simpl. now rewrite app_nil_r.
  - intros ->. simpl in L6. lia.
Qed.

(** Facts about sets of characters, by arithmetic on code points. *)
Ltac bool_to_prop :=
  repeat match goal with
         | H : (_ || _) = true |- _ => apply orb_true_iff in H; destruct H as [H|H]
         | H : (_ && _) = true |- _ => apply andb_true_iff in H; destruct H
         | H : (_ || _) = false |- _ => apply orb_false_iff in H; destruct H
         | H : (_ && _) = false |- _ => apply andb_false_iff in H; destruct H as [H|H]
         | H : negb _ = true |- _ => apply negb_true_iff in H
         | H : negb _ = false |- _ => apply negb_false_iff in H
         | H : (_ <=? _)%N = true |- _ => apply N.leb_le in H
         | H : (_ <=? _)%N = false |- _ => apply N.leb_gt in H
         | H : (_ <? _)%N = true |- _ => apply N.ltb_lt in H
         | H : (_ <? _)%N = false |- _ => apply N.ltb_ge in H
         | H : (_ =? _)%N = true |- _ => apply N.eqb_eq in H
         | H : (_ =? _)%N = false |- _ => apply N.eqb_neq in H
         end.

Ltac unfold_sets :=
  unfold upper_digit_space, placeholder_char, filler, plain, isspace, emoji, upper_or_digit, upper_az, lower_az, digit_09,
    space_or_hyphen, ws_or_hyphen, email_local, email_domain, dot, NL,
    latin1_isalnum, latin1_lower1, in_range in *.

Ltac char_arith := unfold_sets; bool_to_prop; subst; try lia; try discriminate.

Ltac decide_bool :=
  match goal with
  | |- ?b = true =>
      let E := fresh "E" in destruct b eqn:E; [reflexivity|exfalso; char_arith]
  | |- ?b = false =>
      let E := fresh "E" in destruct b eqn:E; [exfalso; char_arith|reflexivity]
  end.

Lemma isspace_not_ascii_digit c : isspace c = true -> in_range 48 57 c = false.
Proof. intros H. decide_bool. Qed.

Lemma isspace_plain c : isspace c = true -> plain c = true.
Proof. intros H. unfold plain. rewrite H. apply orb_true_r. Qed.

Lemma digit_not_space U (HU : standard U) c :
  is_digit U c = true -> isspace c = false.
Proof.
  intros H. destruct (isspace c) eqn:E; [|reflexivity].
  unfold is_digit in H. rewrite (std_decimal HU _ (isspace_plain _ E)) in H.
  unfold latin1_decimal in H. now rewrite (isspace_not_ascii_digit _ E) in H.
Qed.

Lemma digit_not_punct U (HU : standard U) c :
  is_digit U c = true -> c <> 47%N /\ c <> 58%N.
Proof.
  intros H. unfold is_digit in H.
  split; intros ->; rewrite (std_decimal HU) in H by reflexivity; discriminate.
Qed.

Lemma digits_value_all U t : forall acc n,
  digits_value U acc t = Some n -> forallb (is_digit U) t = true.
Proof.
  induction t as [|c t IH]; intros acc n H; simpl in *; [reflexivity|].
  unfold is_digit at 1. destruct (decimal U c); [|discriminate].
  simpl. eauto.
Qed.

Lemma lstrip_id s : (forall c s', s = c :: s' -> isspace c = false) -> lstrip s = s.
Proof. destruct s as [|c s]; simpl; [reflexivity|]. intros H. now rewrite (H c s eq_refl). Qed.

Lemma strip_digits U (HU : standard U) t :
  forallb (is_digit U) t = true -> strip t = t.
Proof.
  intros H. unfold strip, rstrip.
  rewrite (@lstrip_id t).
  - rewrite lstrip_id; [apply rev_involutive|].
    intros c s' E. apply (digit_not_space HU).
    rewrite forallb_forall in H. apply H. apply in_rev. rewrite E. now left.
  - intros c s' ->. apply (digit_not_space HU). simpl in H.
    now apply andb_true_iff in H.
Qed.

Lemma py_int_numeral U (HU : standard U) t n : numeral U t n -> py_int U t = Some n.
Proof.
  intros [Hne Hv]. unfold py_int.
  rewrite (strip_digits HU t (digits_value_all _ _ _ Hv)).
  now destruct t.
Qed.

Lemma split_at_sep (x : char) : forall a a' b b',
  ~ In x a -> ~ In x a' -> a ++ x :: b = a' ++ x :: b' -> a = a' /\ b = b'.
Proof.
  induction a as [|c a IH]; intros [|c' a'] b b' Ha Ha' H; simpl in *.
  - injection H as <-. auto.
  - injection H as -> _. exfalso. apply Ha'. now left.
  - injection H as -> _. exfalso. apply Ha. now left.
  - injection H as <- H. apply IH in H; [|tauto|tauto]. destruct H as [-> ->]. auto.
Qed.

Lemma span_unique (P : char -> bool) : forall a a' b b',
  forallb P a = true -> forallb P a' = true ->
  (forall c t, b = c :: t -> P c = false) ->
  (forall c t, b' = c :: t -> P c = false) ->
  b <> [] -> b' <> [] ->
  a ++ b = a' ++ b' -> a = a' /\ b = b'.
Proof.
  induction a as [|c a IH]; intros [|c' a'] b b' Ha Ha' Hb Hb' Nb Nb' H; simpl in *.
  - auto.
  - subst b. apply andb_true_iff in Ha'. destruct Ha' as [Hc _].
    rewrite (Hb c' _ eq_refl) in Hc. discriminate.
  - subst b'. apply andb_true_iff in Ha. destruct Ha as [Hc _].
    rewrite (Hb' c _ eq_refl) in Hc. discriminate.
  - injection H as <- H. apply andb_true_iff in Ha, Ha'.
    destruct Ha as [_ Ha], Ha' as [_ Ha'].
    destruct (IH a' b b' Ha Ha' Hb Hb' Nb Nb' H) as [-> ->]. auto.
Qed.

Lemma digits_no_sep U (HU : standard U) t :
  forallb (is_digit U) t = true -> ~ In 47%N t /\ ~ In 58%N t.
Proof.
  intros H. rewrite forallb_forall in H.
  split; intros Hin; apply H in Hin; apply (digit_not_punct HU) in Hin; tauto.
Qed.

Lemma digit_or_space_no_sep U (HU : standard U) t :
  forallb (digit_or_space U) t = true -> ~ In 47%N t.
Proof.
  intros H Hin. rewrite forallb_forall in H. apply H in Hin.
  unfold digit_or_space in Hin. apply orb_true_iff in Hin. destruct Hin as [Hd|Hd].
  - apply (digit_not_punct HU) in Hd. tauto.
  - discriminate.
Qed.

Lemma spaces_no_colon t : forallb isspace t = true -> ~ In 58%N t.
Proof. intros H Hin. rewrite forallb_forall in H. apply H in Hin. discriminate. Qed.

Lemma strptime_valid U (HU : standard U) date_str time_str d mo y h mi s dt :
  reads_date U date_str d mo y -> reads_time U time_str h mi s ->
  strptime U (date_str ++ str " " ++ time_str) = Some dt ->
  dt = DateTime y mo d h mi s
  /\ valid_date y mo d = true /\ valid_time h mi s = true.
Proof.
  intros (dd & mm & yyyy & -> & Nd & Nmo & Ny) (hh & mi' & ss & -> & Nh & Nmi & Ns) H.
  apply (strptime_sound HU) in H.
  destruct H as (rD & rMo & rY & ws & rH & rMi & rS & E & AD & AMo & AY & Aws & Nws
                 & AH & AMi & AS & ID & IMo & IY & IH & IMi & IS & V1 & V2).
  pose proof (digits_value_all _ _ _ (proj2 Nd)) as Dd.
  pose proof (digits_value_all _ _ _ (proj2 Nmo)) as Dmo.
  pose proof (digits_value_all _ _ _ (proj2 Ny)) as Dy.
  pose proof (digits_value_all _ _ _ (proj2 Nh)) as Dh.
  pose proof (digits_value_all _ _ _ (proj2 Nmi)) as Dmi.
  pose proof (digits_value_all _ _ _ (proj2 Ns)) as Ds.
  change (str "/") with [47%N] in E. change (str ":") with [58%N] in E.
  change (str " ") with [32%N] in E.
  repeat rewrite <- app_assoc in E. simpl in E.
  apply split_at_sep in E;
    [|apply (digits_no_sep HU _ Dd)|apply (digit_or_space_no_sep HU _ AD)].
  destruct E as [<- E].
  apply split_at_sep in E;
    [|apply (digits_no_sep HU _ Dmo)|apply (digits_no_sep HU _ AMo)].
  destruct E as [<- E].
  apply span_unique with (P := is_digit U) in E; auto.
  - destruct E as [<- E].
    destruct ws as [|w ws]; [contradiction|]. simpl in E. injection E as <- E.
    simpl in Aws.
    replace (ws ++ rH ++ 58%N :: rMi ++ 58%N :: rS)
      with ((ws ++ rH) ++ 58%N :: rMi ++ 58%N :: rS) in E by now rewrite <- app_assoc.
    apply split_at_sep in E.
    + destruct E as [Ehh E].
      apply split_at_sep in E;
        [|apply (digits_no_sep HU _ Dmi)|apply (digits_no_sep HU _ AMi)].
      destruct E as [<- <-].
      destruct ws as [|w' ws].
      * simpl in Ehh. subst rH.
        rewrite (py_int_numeral HU Nd) in ID. rewrite (py_int_numeral HU Nmo) in IMo.
        rewrite (py_int_numeral HU Ny) in IY. rewrite (py_int_numeral HU Nh) in IH.
        rewrite (py_int_numeral HU Nmi) in IMi. rewrite (py_int_numeral HU Ns) in IS.
        injection ID as ->. injection IMo as ->. injection IY as ->.
        injection IH as ->. injection IMi as ->. injection IS as ->.
        destruct dt. simpl in *. auto.
      * exfalso. subst hh. simpl in Dh, Aws.
        apply andb_true_iff in Dh. destruct Dh as [Dw _].
        apply (digit_not_space HU) in Dw. rewrite Dw in Aws. discriminate.
    + apply (digits_no_sep HU _ Dh).
    + intros Hin. apply in_app_or in Hin. destruct Hin as [Hin|Hin].
      * revert Hin. now apply spaces_no_colon.
      * revert Hin. apply (digits_no_sep HU _ AH).
  - intros c t [= <- _]. destruct (is_digit U 32%N) eqn:E32; [|reflexivity].
    apply (digit_not_space HU) in E32. discriminate.
  - intros c t Hc. destruct ws as [|w ws]; [contradiction|].
    simpl in Hc. injection Hc as <- _. simpl in Aws.
    apply andb_true_iff in Aws. destruct Aws as [Hw _].
    destruct (is_digit U w) eqn:Ew; [|reflexivity].
    apply (digit_not_space HU) in Ew. congruence.
  - discriminate.
  - destruct ws; [contradiction|discriminate].
Qed.

(** ** Headers read as numbers *)

Lemma digits_value_total U t : forall acc,
  forallb (is_digit U) t = true -> exists n, digits_value U acc t = Some n.
Proof.
  induction t as [|c t IH]; intros acc H; simpl in *.
  - now exists acc.
  - apply andb_true_iff in H. destruct H as [Hc Ht]. unfold is_digit in Hc.
    destruct (decimal U c); [|discriminate]. now apply IH.
Qed.

Lemma consumed_unique a b st st' : consumed a st st' -> consumed b st st' -> a = b.
Proof.
  intros (R1 & _ & P1) (R2 & _ & P2).
  rewrite R1 in R2. apply app_inv_tail in R2. exact R2.
Qed.

Lemma matches_run U q r st st' :
  no_groups r -> chars_in q r -> matches U r st st' ->
  exists run, consumed run st st' /\ forallb q run = true
              /\ min_len r <= List.length run /\ caps st' = caps st.
Proof.
  intros Hn Hq H.
  destruct (matches_consumed U q r Hq _ _ H) as (run & Hc & Hall).
  exists run. split; [exact Hc|]. split; [exact Hall|]. split.
  - pose proof (matches_min_len U r _ _ H). destruct Hc as (_ & _ & Hp). lia.
  - now apply matches_caps with U r.
Qed.

Lemma numeral_of_digits U t :
  forallb (is_digit U) t = true -> 1 <= List.length t -> exists n, numeral U t n.
Proof.
  intros H L. destruct (digits_value_total U t 0%N H) as (n & Hn).
  exists n. split; [|assumption]. intros ->. simpl in L. lia.
Qed.

Ltac digits_run U H run C A L K :=
  apply (@matches_run U (is_digit U)) in H;
  [destruct H as (run & C & A & L & K)
  |exact I
  |intros ? Hc; exact Hc].

Lemma date_group_reads U st st' :
  matches U (seqs [times 2 (Chr (is_digit U)); chr 47; times 2 (Chr (is_digit U)); chr 47;
                   times 4 (Chr (is_digit U))]) st st' ->
  exists run d mo y, consumed run st st' /\ reads_date U run d mo y /\ caps st' = caps st.
Proof.
  unfold seqs. cbn [fold_right]. intros (m1 & H1 & m2 & H2 & m3 & H3 & m4 & H4 & m5 & H5 & E).
  simpl in E. subst m5.
  digits_run U H1 dd C1 A1 L1 K1. apply matches_chr in H2. destruct H2 as [C2 K2].
  digits_run U H3 mm C3 A3 L3 K3. apply matches_chr in H4. destruct H4 as [C4 K4].
  digits_run U H5 yyyy C5 A5 L5 K5. simpl in L1, L3, L5.
  destruct (numeral_of_digits U dd A1) as (d & Hd); [lia|].
  destruct (numeral_of_digits U mm A3) as (mo & Hmo); [lia|].
  destruct (numeral_of_digits U yyyy A5) as (y & Hy); [lia|].
  exists (dd ++ [47%N] ++ mm ++ [47%N] ++ yyyy), d, mo, y. split; [|split].
  - eapply consumed_trans; [exact C1|]. eapply consumed_trans; [exact C2|].
    eapply consumed_trans; [exact C3|]. eapply consumed_trans; [exact C4|exact C5].
  - unfold reads_date. now exists dd, mm, yyyy.
  - congruence.
Qed.

Lemma time_group_reads U st st' :
  matches U (seqs [times 2 (Chr (is_digit U)); chr 58; times 2 (Chr (is_digit U)); chr 58;
                   times 2 (Chr (is_digit U))]) st st' ->
  exists run h mi s, consumed run st st' /\ reads_time U run h mi s /\ caps st' = caps st.
Proof.
  unfold seqs. cbn [fold_right]. intros (m1 & H1 & m2 & H2 & m3 & H3 & m4 & H4 & m5 & H5 & E).
  simpl in E. subst m5.
  digits_run U H1 hh C1 A1 L1 K1. apply matches_chr in H2. destruct H2 as [C2 K2].
  digits_run U H3 mm C3 A3 L3 K3. apply matches_chr in H4. destruct H4 as [C4 K4].
  digits_run U H5 ss C5 A5 L5 K5. simpl in L1, L3, L5.
  destruct (numeral_of_digits U hh A1) as (h & Hh); [lia|].
  destruct (numeral_of_digits U mm A3) as (mi & Hmi); [lia|].
  destruct (numeral_of_digits U ss A5) as (s & Hs); [lia|].
  exists (hh ++ [58%N] ++ mm ++ [58%N] ++ ss), h, mi, s. split; [|split].
  - eapply consumed_trans; [exact C1|]. eapply consumed_trans; [exact C2|].
    eapply consumed_trans; [exact C3|]. eapply consumed_trans; [exact C4|exact C5].
  - unfold reads_time. now exists hh, mm, ss.
  - congruence.
Qed.

Lemma capture_run run st st1 :
  consumed run st st1 ->
  caps (capture st st1) = caps st1 ++ [run].
Proof.
  intros (R & _ & P). unfold capture. simpl. rewrite R, P.
  replace (pos st + List.length run - pos st) with (List.length run + 0) by lia.
  now rewrite firstn_app_2, app_nil_r.
Qed.

(** The first two groups of a header are a date and a time of day in
    digits. *)
Lemma header_reads U line date_str time_str sender first_line :
  re_match U (TIMESTAMP_PATTERN U) line = Some [date_str; time_str; sender; first_line] ->
  exists d mo y h mi s, reads_date U date_str d mo y /\ reads_time U time_str h mi s.
Proof.
  unfold re_match. destruct (m U (TIMESTAMP_PATTERN U) (start line) Some) as [st|] eqn:Hm;
    [|discriminate].
  simpl. intros [= Hcaps].
  apply m_sound in Hm. destruct Hm as (st' & Hm & [= ->]).
  unfold TIMESTAMP_PATTERN in Hm. unfold seqs at 1 in Hm. cbn [fold_right] in Hm.
  destruct Hm as (m1 & H1 & m2 & H2 & m3 & H3 & m4 & H4 & m5 & H5 & m6 & H6 & m7 & H7
                  & m8 & H8 & E).
  simpl in E. subst m8.
  apply matches_chr in H1. destruct H1 as [_ K1].
  destruct H2 as (i2 & H2 & ->). apply date_group_reads in H2.
  destruct H2 as (drun & d & mo & y & C2 & Rd & K2).
  apply (@matches_run _ (fun _ => true)) in H3; [|simpl; tauto|simpl; tauto].
  destruct H3 as (_ & _ & _ & _ & K3).
  destruct H4 as (i4 & H4 & ->). apply time_group_reads in H4.
  destruct H4 as (trun & h & mi & s & C4 & Rt & K4).
  apply (@matches_run _ (fun _ => true)) in H5; [|simpl; tauto|simpl; tauto].
  destruct H5 as (_ & _ & _ & _ & K5).
  destruct H6 as (i6 & H6 & ->).
  apply (@matches_run _ (fun _ => true)) in H6; [|simpl; tauto|simpl; tauto].
  destruct H6 as (srun & C6 & _ & _ & K6).
  apply (@matches_run _ (fun _ => true)) in H7; [|simpl; tauto|simpl; tauto].
  destruct H7 as (_ & _ & _ & _ & K7).
  destruct H8 as (i8 & H8 & ->).
  apply (@matches_run _ (fun _ => true)) in H8; [|simpl; tauto|simpl; tauto].
  destruct H8 as (frun & C8 & _ & _ & K8).
  rewrite (capture_run C8), K8, K7, (capture_run C6), K6, K5, (capture_run C4), K4, K3,
    (capture_run C2), K2, K1 in Hcaps.
  simpl in Hcaps. injection Hcaps as <- <- _ _.
  now exists d, mo, y, h, mi, s.
Qed.

(** ** A raising block stops the file *)

Section Blocks.

Variable U : Unicode.

Lemma closed_blocks_kept b lines mb cb :
  In b mb -> In b (close_block (fold_left (segment_step U) lines (mb, cb))).
Proof.
  intros H. rewrite fold_segment_prefix. unfold close_block. simpl.
  destruct (snd (fold_left (segment_step U) lines ([], cb)));
    repeat (apply in_or_app; left); assumption.
Qed.

Lemma open_block_kept lines : forall mb c cb,
  exists more, In (c :: more) (close_block (fold_left (segment_step U) lines (mb, c :: cb))).
Proof.
  induction lines as [|l lines IH]; intros mb c cb; simpl.
  - exists cb. unfold close_block. simpl. apply in_or_app. right. now left.
  - destruct (matches_header U (strip_invisible U l)).
    + exists cb. apply closed_blocks_kept. apply in_or_app. right. now left.
    + apply IH.
Qed.

Lemma header_starts_block l lines : forall mb cb,
  In l lines -> is_header U l = true ->
  exists more, In (l :: more) (close_block (fold_left (segment_step U) lines (mb, cb))).
Proof.
  induction lines as [|x lines IH]; intros mb cb Hin Hl; [contradiction|].
  destruct Hin as [->|Hin].
  - simpl. unfold is_header in Hl. rewrite Hl. apply open_block_kept.
  - simpl. destruct (matches_header U (strip_invisible U x)); now apply IH.
Qed.

Lemma blocks_nonempty lines : forall mb cb,
  Forall (fun b => b <> []) mb ->
  Forall (fun b => b <> []) (close_block (fold_left (segment_step U) lines (mb, cb))).
Proof.
  induction lines as [|x lines IH]; intros mb cb H; simpl.
  - unfold close_block. simpl. destruct cb; [assumption|].
    apply Forall_app. split; [assumption|]. constructor; [discriminate|constructor].
  - destruct (matches_header U (strip_invisible U x)); apply IH; [|assumption].
    destruct cb; [assumption|].
    apply Forall_app. split; [assumption|]. constructor; [discriminate|constructor].
Qed.

Lemma aggregate_blocks_raises log bad blocks :
  Forall (fun b => b <> []) blocks ->
  In bad blocks ->
  (forall w, parse_message_block U bad log w = (Raise ValueError, w)) ->
  forall a w, exists w', aggregate_blocks U blocks log a w = (Raise ValueError, w').
Proof.
  intros Hne Hin Hbad. induction blocks as [|b blocks IH]; intros a w; [contradiction|].
  inversion Hne as [|? ? Hb Hrest]; subst. simpl. unfold bind.
  destruct (parse_message_block U b log w) as [[parsed|e] w1] eqn:Hp.
  - destruct Hin as [->|Hin]; [rewrite Hbad in Hp; discriminate|].
    destruct parsed; now apply IH.
  - destruct b as [|first more]; [contradiction|].
    apply parse_raises_only_value_error in Hp. destruct Hp as [-> ->]. now exists w.
Qed.

End Blocks.

Lemma bad_header_raises U (HU : standard U) first date_str time_str sender first_line
      d mo y h mi s :
  re_match U (TIMESTAMP_PATTERN U) (strip_invisible U first)
  = Some [date_str; time_str; sender; first_line] ->
  reads_date U date_str d mo y -> reads_time U time_str h mi s ->
  valid_date y mo d && valid_time h mi s = false ->
  forall more log w, parse_message_block U (first :: more) log w = (Raise ValueError, w).
Proof.
  intros Hm Rd Rt Hv more log w.
  apply parse_raises_on_bad_timestamp with date_str time_str sender first_line; [assumption|].
  destruct (strptime U (date_str ++ str " " ++ time_str)) as [dt|] eqn:E; [|reflexivity].
  destruct (strptime_valid HU Rd Rt E) as (_ & V1 & V2).
  rewrite V1, V2 in Hv. discriminate.
Qed.

Lemma bad_header_stops_file U first disk file_path lines :
  is_header U first = true ->
  (forall more log w, parse_message_block U (first :: more) log w = (Raise ValueError, w)) ->
  lookup file_path disk = Some lines -> In first lines ->
  forall w, exists w', process_chat_file U disk file_path w = (Raise ValueError, w').
Proof.
  intros Hh Hbad Hl Hin w. unfold process_chat_file. rewrite Hl.
  unfold bind at 1. unfold truncate_log at 1.
  set (log := path_join LOGS_FOLDER (splitext_root (basename file_path) false
                                     ++ str "_skipped.log")).
  set (w1 := World _ _ _).
  destruct (header_starts_block U first lines [] [] Hin Hh) as (more & Hmore).
  rewrite <- segment_fold in Hmore.
  destruct (@aggregate_blocks_raises U log (first :: more) (segment U lines)) with
    (a := Aggregate [] [] None) (w := w1) as (w' & Hw'); auto.
  - rewrite segment_fold. apply blocks_nonempty. constructor.
  - exists w'. unfold bind. now rewrite Hw'.
Qed.

(** ** Substitution where nothing matches *)

Lemma no_match U r st k : (forall st', ~ matches U r st st') -> m U r st k = None.
Proof.
  intros H. destruct (m U r st k) as [res|] eqn:E; [|reflexivity].
  apply m_sound in E. destruct E as (st' & Hm & _). now apply H in Hm.
Qed.

Lemma sub_scan_unchanged U r repl : forall s pr,
  (forall pre suf, s = pre ++ suf ->
                   m U r (MState (last_char pr pre) suf 0 []) Some = None) ->
  sub_scan U r repl pr s 0 = s.
Proof.
  induction s as [|c s IH]; intros pr H; simpl.
  - pose proof (H [] [] eq_refl) as H0. simpl in H0. now rewrite H0.
  - pose proof (H [] (c :: s) eq_refl) as H0. simpl in H0. rewrite H0.
    f_equal. apply IH.
    intros pre suf ->. apply (H (c :: pre) suf eq_refl).
Qed.

Lemma re_sub_unchanged U r repl t : no_match_in U r t -> re_sub U r repl t = t.
Proof.
  intros H. unfold re_sub. apply sub_scan_unchanged.
  intros pre suf E. apply no_match. intros st'. now apply H with pre.
Qed.

Lemma no_match_in_chars U r (bad : char -> bool) t :
  (forall st st', matches U r st st' -> exists c, In c (rest st) /\ bad c = true) ->
  forallb (fun c => negb (bad c)) t = true ->
  no_match_in U r t.
Proof.
  intros Hr Ht pre suf pr st' -> Hm.
  apply Hr in Hm. destruct Hm as (c & Hin & Hbad). simpl in Hin.
  rewrite forallb_forall in Ht.
  assert (In c (pre ++ suf)) as Hc by (apply in_or_app; now right).
  apply Ht in Hc. now rewrite Hbad in Hc.
Qed.

(** Sequences *)

Lemma matches_seqs_app U l1 : forall l2 st st',
  matches U (seqs (l1 ++ l2)) st st' ->
  exists mid, matches U (seqs l1) st mid /\ matches U (seqs l2) mid st'.
Proof.
  induction l1 as [|a l1 IH]; intros l2 st st' H.
  - exists st. split; [reflexivity|exact H].
  - destruct H as (m1 & Ha & H). apply IH in H. destruct H as (mid & H1 & H2).
    exists mid. split; [|assumption]. now exists m1.
Qed.

(** A pattern between two word boundaries. *)
Lemma matches_bounded U q body st st' :
  chars_in q (seqs body) ->
  matches U (seqs (Bnd :: body ++ [Bnd])) st st' ->
  exists run,
    consumed run st st' /\ forallb q run = true
    /\ min_len (seqs body) <= List.length run
    /\ xorb (word_at U (prev st)) (word_at U (hd_error (rest st))) = true
    /\ xorb (word_at U (prev st')) (word_at U (hd_error (rest st'))) = true
    /\ matches U (seqs body) st st'.
Proof.
  intros Hq (m1 & (Hb1 & ->) & H).
  apply matches_seqs_app in H. destruct H as (mid & Hbody & (m2 & (Hb2 & ->) & E)).
  simpl in E. subst st'.
  destruct (matches_consumed U q (seqs body) Hq _ _ Hbody) as (run & Hc & Hall).
  exists run. split; [exact Hc|]. split; [exact Hall|]. split; [|auto].
  pose proof (matches_min_len U _ _ _ Hbody). destruct Hc as (_ & _ & Hp). lia.
Qed.

Lemma prefix_span q : forall run x l,
  run ++ x = l -> forallb q run = true -> List.length run <= span_len q l.
Proof.
  induction run as [|c run IH]; intros x l E H; simpl in *; [lia|].
  subst l. simpl. apply andb_true_iff in H. destruct H as [Hc Hr]. rewrite Hc.
  apply le_n_S. now apply IH with x.
Qed.

Lemma tails_suffix : forall l p s, l = p ++ s -> In s (tails l).
Proof.
  induction l as [|c l IH]; intros p s E.
  - destruct p; [|discriminate]. simpl in E. subst s. now left.
  - destruct p as [|c' p]; simpl in E.
    + subst s. now left.
    + injection E as _ E. right. now apply IH with p.
Qed.

Lemma split_app (a b pre suf : text) :
  a ++ b = pre ++ suf ->
  (exists s1, s1 <> [] /\ a = pre ++ s1 /\ suf = s1 ++ b)
  \/ (exists p2, pre = a ++ p2 /\ b = p2 ++ suf).
Proof.
  revert pre. induction a as [|c a IH]; intros pre E; simpl in E.
  - right. now exists pre.
  - destruct pre as [|c' pre]; simpl in E.
    + left. exists (c :: a). subst suf. repeat split. discriminate.
    + injection E as <- E. destruct (IH _ E) as [(s1 & N & -> & ->)|(p2 & -> & ->)].
      * left. now exists s1.
      * right. now exists p2.
Qed.

(** No match in a stream of placeholders followed by [Z], from what happens
    inside one placeholder, at a filler character and in [Z]. *)
Lemma no_match_in_stream U r Z :
  (forall tok s1 tail pr st',
      In tok PLACEHOLDERS -> In s1 (tails tok) -> s1 <> [] ->
      ~ matches U r (MState pr (s1 ++ tail) 0 []) st') ->
  (forall c tail pr st', filler c = true -> ~ matches U r (MState pr (c :: tail) 0 []) st') ->
  no_match_in U r Z ->
  forall t, placeholder_stream t -> no_match_in U r (t ++ Z).
Proof.
  intros Htok Hws Hend t Ht. induction Ht as [|tok t Hin Ht IH|c t Hc Ht IH];
    intros pre suf pr st' E.
  - now apply Hend with pre.
  - rewrite <- app_assoc in E.
    apply split_app in E. destruct E as [(s1 & N & E1 & ->)|(p2 & -> & E2)].
    + apply Htok with tok; [assumption| |assumption]. now apply tails_suffix with pre.
    + now apply IH with p2.
  - destruct pre as [|c' pre]; simpl in E.
    + subst suf. now apply Hws.
    + injection E as _ E. now apply IH with pre.
Qed.

Lemma no_match_in_empty U r : 1 <= min_len r -> no_match_in U r [].
Proof.
  intros Hmin pre suf pr st' E H.
  destruct pre; [|discriminate]. simpl in E. subst suf.
  pose proof (matches_min_len U r _ _ H) as Hp.
  destruct (matches_consumed U (fun _ => true) r) with (st := MState pr [] 0 []) (st' := st')
    as (run & (R & _ & P) & _); [|assumption|].
  - clear. induction r; simpl; auto.
  - simpl in *. destruct run; [simpl in P; lia|discriminate].
Qed.

(** The first character of a match *)

Lemma consumed_nil_rest st st' : consumed [] st st' -> rest st' = rest st /\ prev st' = prev st.
Proof. intros (R & P & _). simpl in *. auto. Qed.

Lemma starts_in_trans q st mid st' :
  starts_in q st mid -> (consumed [] st mid -> starts_in q mid st') -> starts_in q st st'.
Proof.
  intros [H1|H1] H2; [|now right].
  destruct (H2 H1) as [H3|(c & s' & Hr & Hq)].
  - left. exact (consumed_trans H1 H3).
  - right. exists c, s'. destruct H1 as (R & _). simpl in R. rewrite R. auto.
Qed.

Lemma matches_first U q r : first_ok q r -> forall st st',
  matches U r st st' -> starts_in q st st'.
Proof.
  induction r as [|p|a IHa b IHb|a IHa b IHb|a IHa lo extra|p lo g|a IHa| | |];
    simpl; intros Hq st st' H.
  - subst. left. apply consumed_refl.
  - destruct H as (c & s' & Hr & Hp & _). right. exists c, s'. auto.
  - destruct Hq as [Hqa Hqb]. destruct H as (mid & Ha & Hb).
    apply starts_in_trans with mid; [now apply IHa|].
    intros Hnil. apply IHb; [|assumption]. apply Hqb.
    pose proof (matches_min_len U a _ _ Ha). destruct Hnil as (_ & _ & Hp).
    simpl in Hp. lia.
  - destruct Hq as [Hqa Hqb]. destruct H as [H|H]; auto.
  - destruct H as (n & _ & H). revert st st' H.
    induction n as [|n IHn]; intros st st' H; simpl in H.
    + subst. left. apply consumed_refl.
    + destruct H as (mid & H1 & H2).
      apply starts_in_trans with mid; [now apply IHa|]. intros _. now apply IHn.
  - destruct H as (run & Hall & _ & Hc & _). destruct run as [|c run].
    + now left.
    + right. destruct Hc as (R & _). simpl in R, Hall.
      apply andb_true_iff in Hall. destruct Hall as [Hp _]. exists c, (run ++ rest st'). auto.
  - destruct H as (st1 & Ha & ->). destruct (IHa Hq _ _ Ha) as [Hn|Hf]; [|now right].
    left. exact Hn.
  - destruct H as [_ ->]. left. apply consumed_refl.
  - destruct H as [_ ->]. left. apply consumed_refl.
  - destruct H as [_ ->]. left. apply consumed_refl.
Qed.

Lemma matches_first_char U q r st st' :
  first_ok q r -> 1 <= min_len r -> matches U r st st' ->
  exists c s', rest st = c :: s' /\ q c = true.
Proof.
  intros Hq Hmin H. destruct (matches_first U q r Hq _ _ H) as [(_ & _ & Hp)|Hf]; [|assumption].
  pose proof (matches_min_len U r _ _ H). simpl in Hp. lia.
Qed.

Lemma no_match_first U q r t :
  first_ok q r -> 1 <= min_len r ->
  forallb (fun c => negb (q c)) t = true -> no_match_in U r t.
Proof.
  intros Hq Hmin Ht. apply no_match_in_chars with q; [|assumption].
  intros st st' H. destruct (@matches_first_char U q r st st' Hq Hmin H) as (c & s' & Hr & Hc).
  exists c. split; [|assumption]. rewrite Hr. now left.
Qed.

(** ** Sanitizing a text of placeholders *)

Lemma PLACEHOLDERS_eq :
  PLACEHOLDERS =
  [ [91; 82; 69; 68; 65; 67; 84; 69; 68; 95; 73; 66; 65; 78; 93];
    [91; 82; 69; 68; 65; 67; 84; 69; 68; 95; 82; 73; 66; 93];
    [91; 82; 69; 68; 65; 67; 84; 69; 68; 95; 67; 65; 82; 68; 93];
    [91; 82; 69; 68; 65; 67; 84; 69; 68; 95; 80; 72; 79; 78; 69; 93];
    [91; 82; 69; 68; 65; 67; 84; 69; 68; 95; 69; 77; 65; 73; 76; 93];
    [91; 82; 69; 68; 65; 67; 84; 69; 68; 95; 66; 73; 67; 93] ]%N.
Proof. reflexivity. Qed.

Lemma is_word_std U (HU : standard U) c : plain c = true -> is_word U c = is_word latin1 c.
Proof. intros H. unfold is_word. now rewrite (std_alnum HU c H). Qed.

Lemma is_digit_std U (HU : standard U) c : plain c = true -> is_digit U c = is_digit latin1 c.
Proof. intros H. unfold is_digit. now rewrite (std_decimal HU c H). Qed.

Lemma placeholder_char_plain c : placeholder_char c = true -> plain c = true.
Proof. intros H. unfold placeholder_char in H. decide_bool. Qed.

Lemma stream_chars t : placeholder_stream t -> forallb placeholder_char t = true.
Proof.
  induction 1 as [|tok t Hin _ IH|c t Hc _ IH]; simpl.
  - reflexivity.
  - rewrite forallb_app, IH, andb_true_r.
    rewrite PLACEHOLDERS_eq in Hin. simpl in Hin.
    repeat destruct Hin as [<-|Hin]; try contradiction; reflexivity.
  - rewrite IH, andb_true_r. unfold placeholder_char. rewrite Hc. apply orb_true_r.
Qed.

Lemma forallb_impl (p q : char -> bool) t :
  (forall c, p c = true -> q c = true) -> forallb p t = true -> forallb q t = true.
Proof.
  intros Hpq H. rewrite forallb_forall in *. auto.
Qed.

Lemma redacted_stream t : redacted_only t -> placeholder_stream t.
Proof.
  induction 1 as [|tok Hin|tok ws t Hin Hws _ IH _].
  - constructor.
  - rewrite <- (app_nil_r tok). constructor; [assumption|constructor].
  - constructor; [assumption|].
    induction ws as [|c ws IHws]; simpl; [assumption|].
    simpl in Hws. apply andb_true_iff in Hws. destruct Hws as [Hc Hws].
    constructor; auto. unfold filler. now rewrite Hc.
Qed.

Lemma token_ends tok :
  In tok PLACEHOLDERS -> exists x, tok = 91%N :: x ++ [93%N].
Proof.
  rewrite PLACEHOLDERS_eq. simpl. intros H.
  repeat destruct H as [<-|H]; try contradiction;
    match goal with
    | |- exists x, _ :: ?l = _ => exists (removelast l); reflexivity
    end.
Qed.

Lemma redacted_ends t :
  redacted_only t -> t = [] \/ exists x, t = 91%N :: x ++ [93%N].
Proof.
  induction 1 as [|tok Hin|tok ws t Hin Hws _ IH Hne].
  - now left.
  - right. now apply token_ends.
  - right. destruct IH as [->|(y & ->)]; [contradiction|].
    destruct (token_ends Hin) as (x & ->).
    exists (x ++ [93%N] ++ ws ++ 91%N :: y). simpl.
    f_equal. repeat rewrite <- app_assoc. simpl. do 2 f_equal.
    now rewrite <- app_assoc.
Qed.

Lemma strip_redacted t : redacted_only t -> strip t = t.
Proof.
  intros H. destruct (redacted_ends H) as [->|(x & ->)]; [reflexivity|].
  unfold strip, rstrip. simpl lstrip.
  replace (91%N :: x ++ [93%N]) with ((91%N :: x) ++ [93%N]) by reflexivity.
  rewrite rev_app_distr. simpl lstrip. simpl rev.
  now rewrite rev_app_distr, rev_involutive.
Qed.

Ltac chars_in_tac :=
  unfold seqs, opt, times, chr; cbn [chars_in fold_right];
  repeat split; intros c Hc; decide_bool.

Ltac first_ok_tac :=
  cbn;
  repeat match goal with
         | |- _ /\ _ => split
         | |- S _ = 0 -> _ => let H := fresh in intros H; discriminate H
         | |- 0 = 0 -> _ => intros _
         | |- True => exact I
         end.

Section Redacted.

Variable U : Unicode.
Hypothesis HU : standard U.

Lemma placeholder_not_emoji c : placeholder_char c = true -> emoji c = false.
Proof. intros H. unfold placeholder_char in H. decide_bool. Qed.

Lemma placeholder_not_digit c : placeholder_char c = true -> is_digit U c = false.
Proof.
  intros H. rewrite (is_digit_std HU c (placeholder_char_plain c H)).
  unfold is_digit, latin1, decimal, latin1_decimal.
  assert (in_range 48 57 c = false) as -> by (unfold placeholder_char in H; decide_bool).
  reflexivity.
Qed.

Lemma placeholder_not_lt c : placeholder_char c = true -> ieq U 60%N c = false.
Proof.
  intros H. rewrite (std_ieq HU); [|reflexivity|now apply placeholder_char_plain].
  change (latin1_lower1 60%N) with 60%N. unfold latin1_lower1.
  unfold placeholder_char in H.
  destruct (in_range 65 90 c || in_range 192 214 c || in_range 216 222 c) eqn:E; decide_bool.
Qed.

(** A link has a colon after its scheme. *)
Lemma link_needs_colon st st' :
  matches U LINK_PATTERN st st' -> exists c, In c (rest st) /\ (58 =? c)%N = true.
Proof.
  unfold LINK_PATTERN, seqs. cbn [fold_right].
  intros (m1 & H1 & m2 & H2 & m3 & H3 & _).
  apply (@matches_consumed U (fun _ => true)) in H1;
    [|unfold lit; cbn; repeat split; auto].
  apply (@matches_consumed U (fun _ => true)) in H2;
    [|unfold opt, chr; cbn; auto].
  destruct H1 as (r1 & (R1 & _) & _), H2 as (r2 & (R2 & _) & _).
  destruct H3 as (m4 & H3 & _). apply matches_chr in H3. destruct H3 as ((R3 & _) & _).
  exists 58%N. split; [|reflexivity]. rewrite R1, R2, R3.
  apply in_or_app. right. apply in_or_app. right. now left.
Qed.

Variable t : text.
Hypothesis Ht : placeholder_stream t.

Lemma stream_avoids (q : char -> bool) :
  (forall c, placeholder_char c = true -> q c = false) ->
  forallb (fun c => negb (q c)) t = true.
Proof.
  intros H. apply forallb_impl with placeholder_char; [|now apply stream_chars].
  intros c Hc. now rewrite (H c Hc).
Qed.

Lemma emoji_pass : no_match_in U EMOJI_PATTERN t.
Proof.
  apply no_match_first with emoji.
  - first_ok_tac. auto.
  - cbn. lia.
  - apply stream_avoids. apply placeholder_not_emoji.
Qed.

Lemma link_pass : no_match_in U LINK_PATTERN t.
Proof.
  apply no_match_in_chars with (N.eqb 58); [apply link_needs_colon|].
  apply stream_avoids. intros c H. unfold placeholder_char in H. decide_bool.
Qed.

Lemma edited_pass : no_match_in U (EDITED_PATTERN U) t.
Proof.
  apply no_match_first with (ieq U 60%N).
  - first_ok_tac. auto.
  - cbn. lia.
  - apply stream_avoids. apply placeholder_not_lt.
Qed.

Lemma card_pass : no_match_in U (CREDIT_CARD_PATTERN U) t.
Proof.
  apply no_match_first with (is_digit U).
  - first_ok_tac. auto.
  - cbn. lia.
  - apply stream_avoids. apply placeholder_not_digit.
Qed.

Lemma phone_pass : no_match_in U (PHONE_PATTERN U) t.
Proof.
  apply no_match_first with (fun c => (43 =? c)%N || (40 =? c)%N || is_digit U c).
  - first_ok_tac; intros c Hc; rewrite Hc; now rewrite ?orb_true_r.
  - cbn. lia.
  - apply stream_avoids. intros c H. rewrite (placeholder_not_digit c H).
    unfold placeholder_char in H. decide_bool.
Qed.

Lemma email_needs_at st st' :
  matches U EMAIL_PATTERN st st' -> exists c, In c (rest st) /\ (64 =? c)%N = true.
Proof.
  intros (m1 & H1 & m2 & H2 & _).
  apply matches_many in H1. destruct H1 as (run & (R & _) & _).
  apply matches_chr in H2. destruct H2 as ((R2 & _) & _).
  exists 64%N. split; [|reflexivity]. rewrite R, R2. apply in_or_app. right. now left.
Qed.

Lemma email_pass : no_match_in U EMAIL_PATTERN t.
Proof.
  apply no_match_in_chars with (N.eqb 64); [apply email_needs_at|].
  apply stream_avoids. intros c H. unfold placeholder_char in H. decide_bool.
Qed.

End Redacted.

(** Runs of capitals inside a placeholder: never more than the eight of
    REDACTED, which the underscore follows. *)
Lemma token_span tok s1 tail :
  In tok PLACEHOLDERS -> In s1 (tails tok) -> s1 <> [] ->
  span_len upper_digit_space (s1 ++ tail) <= 8
  /\ (span_len upper_digit_space (s1 ++ tail) = 8 ->
      exists tail', s1 ++ tail = [82; 69; 68; 65; 67; 84; 69; 68; 95]%N ++ tail').
Proof.
  rewrite PLACEHOLDERS_eq. intros Htok Hs Hne. simpl in Htok.
  repeat destruct Htok as [<-|Htok]; try contradiction;
    simpl in Hs; repeat destruct Hs as [<-|Hs]; try contradiction;
    (split; [cbn; lia|cbn; intros E; try discriminate E; eexists; reflexivity]).
Qed.

Section RedactedBounded.

Variable U : Unicode.
Hypothesis HU : standard U.

Lemma filler_not_upper_digit c : filler c = true -> upper_or_digit c = false.
Proof. intros H. decide_bool. Qed.

Lemma all_chars_in r : chars_in (fun _ => true) r.
Proof. induction r; simpl; auto. Qed.

Lemma bounded_at_filler body c tail pr st' :
  first_ok upper_or_digit (seqs body) -> 1 <= min_len (seqs body) ->
  filler c = true ->
  ~ matches U (seqs (Bnd :: body ++ [Bnd])) (MState pr (c :: tail) 0 []) st'.
Proof.
  intros Hf Hmin Hc H.
  apply (@matches_bounded U (fun _ => true)) in H; [|apply all_chars_in].
  destruct H as (_ & _ & _ & _ & _ & _ & H).
  apply (@matches_first_char U upper_or_digit) in H; auto.
  destruct H as (x & s' & [= <- _] & Hx). rewrite (filler_not_upper_digit c Hc) in Hx.
  discriminate.
Qed.

Lemma long_pattern_pass body Z t :
  chars_in upper_digit_space (seqs body) ->
  first_ok upper_or_digit (seqs body) ->
  9 <= min_len (seqs body) ->
  no_match_in U (seqs (Bnd :: body ++ [Bnd])) Z ->
  placeholder_stream t ->
  no_match_in U (seqs (Bnd :: body ++ [Bnd])) (t ++ Z).
Proof.
  intros Hq Hf Hmin HZ. apply no_match_in_stream; [| |assumption].
  - intros tok s1 tail pr st' Htok Hs Hne H.
    apply (@matches_bounded U upper_digit_space) in H; [|assumption].
    destruct H as (run & (R & _) & Hall & L & _). simpl in R.
    pose proof (prefix_span upper_digit_space run _ (eq_sym R) Hall) as Hspan.
    destruct (token_span tail Htok Hs Hne) as [H8 _]. lia.
  - intros c tail pr st' Hc. apply bounded_at_filler; auto. lia.
Qed.

Lemma iban_chars : chars_in upper_digit_space (seqs IBAN_BODY).
Proof. unfold IBAN_BODY. chars_in_tac. Qed.

Lemma iban_pass Z t :
  no_match_in U IBAN_PATTERN Z -> placeholder_stream t ->
  no_match_in U IBAN_PATTERN (t ++ Z).
Proof.
  apply (@long_pattern_pass IBAN_BODY).
  - apply iban_chars.
  - first_ok_tac. intros c Hc. unfold upper_or_digit. now rewrite Hc.
  - cbn. lia.
Qed.

Lemma rib_pass Z t :
  no_match_in U RIB_PATTERN Z -> placeholder_stream t ->
  no_match_in U RIB_PATTERN (t ++ Z).
Proof.
  apply (@long_pattern_pass [Rep (Chr upper_or_digit) 10 24]).
  - chars_in_tac.
  - first_ok_tac. auto.
  - cbn. lia.
Qed.

Lemma app_length_split (run x l : text) n :
  run ++ x = l -> List.length run = n -> run = firstn n l /\ x = skipn n l.
Proof.
  intros <- <-. now rewrite firstn_app, Nat.sub_diag, firstn_all, skipn_app, Nat.sub_diag,
                  skipn_all, app_nil_r.
Qed.

Lemma bic_pass Z t :
  no_match_in U BIC_PATTERN Z -> placeholder_stream t ->
  no_match_in U BIC_PATTERN (t ++ Z).
Proof.
  change BIC_PATTERN with (seqs (Bnd :: BIC_BODY ++ [Bnd])).
  assert (Hq : chars_in upper_digit_space (seqs BIC_BODY))
    by (unfold BIC_BODY; chars_in_tac).
  assert (Hf : first_ok upper_or_digit (seqs BIC_BODY)).
  { first_ok_tac. intros c Hc. unfold upper_or_digit. now rewrite Hc. }
  intros HZ. apply no_match_in_stream; [| |assumption].
  - intros tok s1 tail pr st' Htok Hs Hne H.
    apply (@matches_bounded U upper_digit_space) in H; [|assumption].
    destruct H as (run & (R & P & _) & Hall & L & _ & B & _). simpl in R, P, L.
    pose proof (prefix_span upper_digit_space run _ (eq_sym R) Hall) as Hspan.
    destruct (token_span tail Htok Hs Hne) as [H8 Heq].
    destruct Heq as (tail' & E); [lia|]. rewrite E in R.
    destruct (app_length_split run (rest st') (n := 8) (eq_sym R)) as [-> Hrest]; [lia|].
    simpl in Hrest, P. rewrite Hrest, P in B. simpl in B.
    rewrite (is_word_std HU 68%N eq_refl), (is_word_std HU 95%N eq_refl) in B.
    discriminate.
  - intros c tail pr st' Hc. apply bounded_at_filler; auto. cbn. lia.
Qed.

End RedactedBounded.

Lemma clean_message_stream U (HU : standard U) t :
  placeholder_stream t ->
  clean_message U t = strip t.
Proof.
  intros Hs. unfold clean_message, remove_emojis.
  rewrite (re_sub_unchanged _ (@emoji_pass U t Hs)).
  rewrite (re_sub_unchanged _ (@link_pass U t Hs)).
  rewrite (re_sub_unchanged _ (@edited_pass U HU t Hs)).
  assert (E : forall r, 1 <= min_len r ->
                        (no_match_in U r [] -> placeholder_stream t -> no_match_in U r (t ++ [])) ->
                        no_match_in U r t).
  { intros r Hmin H. rewrite <- (app_nil_r t). apply H; [|assumption].
    now apply no_match_in_empty. }
  rewrite (re_sub_unchanged _ (E IBAN_PATTERN ltac:(cbn; lia) (@iban_pass U [] t))).
  rewrite (re_sub_unchanged _ (E RIB_PATTERN ltac:(cbn; lia) (@rib_pass U [] t))).
  rewrite (re_sub_unchanged _ (@card_pass U HU t Hs)).
  rewrite (re_sub_unchanged _ (@phone_pass U HU t Hs)).
  rewrite (re_sub_unchanged _ (@email_pass U t Hs)).
  rewrite (re_sub_unchanged _ (E BIC_PATTERN ltac:(cbn; lia) (@bic_pass U HU [] t))).
  reflexivity.
Qed.

Lemma clean_message_redacted U (HU : standard U) t :
  redacted_only t -> clean_message U t = t.
Proof.
  intros H. rewrite (clean_message_stream HU (redacted_stream H)).
  now apply strip_redacted.
Qed.

(** ** The matcher finds a match when there is one *)

Lemma orelse_some {A} (a b : option A) : a <> None \/ b <> None -> orelse a b <> None.
Proof. destruct a; simpl; [intros _; discriminate|]. intros [H|H]; auto. Qed.

Lemma iter_split R a : forall b st st',
  iter (a + b) R st st' -> exists mid, iter a R st mid /\ iter b R mid st'.
Proof.
  induction a as [|a IH]; intros b st st' H; simpl in *.
  - now exists st.
  - destruct H as (x & Hx & H). apply IH in H. destruct H as (mid & H1 & H2).
    exists mid. split; [|assumption]. now exists x.
Qed.

Section StepComplete.

Variable step : mstate -> cont -> option mstate.
Variable R : mstate -> mstate -> Prop.
Hypothesis step_complete : forall st st' k,
  R st st' -> k st' <> None -> step st k <> None.

Lemma rep_req_complete lo : forall st st' k,
  iter lo R st st' -> k st' <> None -> rep_req step lo st k <> None.
Proof.
  induction lo as [|lo IH]; intros st st' k H Hk; simpl in *.
  - now subst.
  - destruct H as (mid & Hmid & H). apply step_complete with mid; [assumption|].
    now apply IH with st'.
Qed.

Lemma rep_opt_complete extra : forall j st st' k,
  j <= extra -> iter j R st st' -> k st' <> None -> rep_opt step extra st k <> None.
Proof.
  induction extra as [|e IH]; intros j st st' k Hj H Hk; simpl.
  - assert (j = 0) by lia. subst j. simpl in H. now subst.
  - apply orelse_some. destruct j as [|j]; simpl in H.
    + right. now subst.
    + left. destruct H as (mid & Hmid & H). apply step_complete with mid; [assumption|].
      apply IH with j st'; auto. lia.
Qed.

End StepComplete.

Lemma many_greedy_complete p k : forall run lo pr s' n cs,
  forallb p run = true -> lo <= List.length run ->
  k (MState (last_char pr run) s' (n + List.length run) cs) <> None ->
  many_greedy p lo pr (run ++ s') n cs k <> None.
Proof.
  induction run as [|c run IH]; intros lo pr s' n cs Hall Hlo Hk; simpl in *.
  - assert (lo = 0) by lia. subst lo. rewrite Nat.add_0_r in Hk.
    destruct s' as [|c s']; simpl; [assumption|].
    destruct (p c); [|assumption]. apply orelse_some. now right.
  - apply andb_true_iff in Hall. destruct Hall as [Hc Hall]. rewrite Hc.
    apply orelse_some. left. apply IH; [assumption|lia|].
    now rewrite Nat.add_succ_r in Hk.
Qed.

Lemma many_lazy_complete p k : forall run lo pr s' n cs,
  forallb p run = true -> lo <= List.length run ->
  k (MState (last_char pr run) s' (n + List.length run) cs) <> None ->
  many_lazy p lo pr (run ++ s') n cs k <> None.
Proof.
  induction run as [|c run IH]; intros lo pr s' n cs Hall Hlo Hk; simpl in *.
  - assert (lo = 0) by lia. subst lo. rewrite Nat.add_0_r in Hk.
    destruct s' as [|c s']; simpl;
      destruct (k (MState pr _ n cs)); try discriminate; contradiction.
  - apply andb_true_iff in Hall. destruct Hall as [Hc Hall]. rewrite Hc.
    assert (Hrec : many_lazy p (Nat.pred lo) (Some c) (run ++ s') (S n) cs k <> None).
    { apply IH; [assumption|lia|]. now rewrite Nat.add_succ_r in Hk. }
    destruct lo; [|assumption].
    destruct (k (MState pr (c :: run ++ s') n cs)); [discriminate|assumption].
Qed.

Lemma mstate_eta st : st = MState (prev st) (rest st) (pos st) (caps st).
Proof. now destruct st. Qed.

Lemma m_complete U r : forall st st' k,
  matches U r st st' -> k st' <> None -> m U r st k <> None.
Proof.
  induction r as [|p|a IHa b IHb|a IHa b IHb|a IHa lo extra|p lo g|a IHa| | |];
    intros st st' k H Hk; simpl in *.
  - now subst.
  - destruct H as (c & s' & -> & -> & ->). assumption.
  - destruct H as (mid & Ha & Hb). apply IHa with mid; [assumption|]. now apply IHb with st'.
  - apply orelse_some. destruct H as [H|H]; [left; now apply IHa with st'|].
    destruct (m U a st k); [left; discriminate|right; now apply IHb with st'].
  - destruct H as (n & Hn & H).
    replace n with (lo + (n - lo)) in H by lia.
    apply iter_split in H. destruct H as (mid & H1 & H2).
    apply (@rep_req_complete (m U a) (matches U a) IHa lo st mid); [assumption|].
    apply (@rep_opt_complete (m U a) (matches U a) IHa extra (n - lo) mid st'); auto. lia.
  - destruct H as (run & Hall & Hlo & (Hr & Hp & Hpos) & Hc).
    rewrite (mstate_eta st'), Hp, Hpos, Hc in Hk. rewrite Hr.
    destruct g; [now apply many_greedy_complete|now apply many_lazy_complete].
  - destruct H as (st1 & Ha & ->). now apply IHa with st1.
  - destruct H as [-> ->]. assumption.
  - destruct H as [-> ->]. assumption.
  - destruct H as [[->| ->] ->]; assumption.
Qed.

(** ** Substitution where one match is known *)

Lemma sub_scan_skip U r repl : forall a b pr,
  sub_scan U r repl pr (a ++ b) (List.length a) = sub_scan U r repl (last_char pr a) b 0.
Proof.
  induction a as [|c a IH]; intros b pr; simpl; [reflexivity|].
  apply IH.
Qed.

Lemma sub_scan_no_match U r repl t : no_match_in U r t ->
  forall pr, sub_scan U r repl pr t 0 = t.
Proof.
  intros H pr. apply sub_scan_unchanged.
  intros pre suf E. apply no_match. intros st'. now apply H with pre.
Qed.

(** Nothing matches inside [A], whatever follows [A]: the scan copies [A]. *)
Lemma sub_scan_pass U r repl B : forall A pr,
  (forall pre s1 pr' st', A = pre ++ s1 -> s1 <> [] ->
                          ~ matches U r (MState pr' (s1 ++ B) 0 []) st') ->
  sub_scan U r repl pr (A ++ B) 0 = A ++ sub_scan U r repl (last_char pr A) B 0.
Proof.
  induction A as [|c A IH]; intros pr H; simpl; [reflexivity|].
  rewrite no_match.
  - f_equal. apply IH. intros pre s1 pr' st' -> Hne. now apply (H (c :: pre) s1).
  - intros st'. apply (H [] (c :: A)); [reflexivity|discriminate].
Qed.

(** ** Building matches *)

Lemma iter_last R n : forall st st',
  iter (S n) R st st' -> exists mid, iter n R st mid /\ R mid st'.
Proof.
  induction n as [|n IH]; intros st st' H.
  - destruct H as (mid & H1 & H2). simpl in H2. subst mid. exists st. split; [reflexivity|assumption].
  - destruct H as (x & Hx & H). apply IH in H. destruct H as (mid & H1 & H2).
    exists mid. split; [|assumption]. now exists x.
Qed.

(** A run of characters of the set [p], one [Chr p] at a time. *)
Lemma iter_chr U p run : forall pr tail n cs,
  forallb p run = true ->
  iter (List.length run) (matches U (Chr p))
       (MState pr (run ++ tail) n cs)
       (MState (last_char pr run) tail (n + List.length run) cs).
Proof.
  induction run as [|c run IH]; intros pr tail n cs H; simpl in *.
  - now rewrite Nat.add_0_r.
  - apply andb_true_iff in H. destruct H as [Hc H].
    exists (MState (Some c) (run ++ tail) (S n) cs). split.
    + exists c, (run ++ tail). auto.
    + rewrite <- Nat.add_succ_comm. now apply IH.
Qed.

Lemma matches_rep_chr U p lo extra run pr tail n cs :
  forallb p run = true -> lo <= List.length run <= lo + extra ->
  matches U (Rep (Chr p) lo extra)
          (MState pr (run ++ tail) n cs)
          (MState (last_char pr run) tail (n + List.length run) cs).
Proof. intros H L. exists (List.length run). split; [assumption|]. now apply iter_chr. Qed.

Lemma matches_opt_skip U a st : matches U (opt a) st st.
Proof. exists 0. split; [lia|reflexivity]. Qed.

Lemma matches_opt_take U a st st' : matches U a st st' -> matches U (opt a) st st'.
Proof. intros H. exists 1. split; [lia|]. exists st'. split; [assumption|reflexivity]. Qed.

(** ** Characters that are words *)

Section WordFacts.

Variable U : Unicode.
Hypothesis HU : standard U.

Lemma upper_digit_word c : upper_or_digit c = true -> is_word U c = true.
Proof.
  intros H. rewrite (is_word_std HU).
  - unfold is_word, latin1, isalnum. decide_bool.
  - decide_bool.
Qed.

Lemma lower_word c : lower_az c = true -> is_word U c = true.
Proof.
  intros H. rewrite (is_word_std HU).
  - unfold is_word, latin1, isalnum. decide_bool.
  - decide_bool.
Qed.

Lemma ascii_digit_word c : digit_09 c = true -> is_word U c = true.
Proof. intros H. apply upper_digit_word. unfold upper_or_digit. rewrite H. apply orb_true_r. Qed.

End WordFacts.

(** ** The last character of a run *)

Lemma last_char_last pr run c : last_char pr (run ++ [c]) = Some c.
Proof. now rewrite last_char_app. Qed.

Lemma last_char_in pr run c :
  run <> [] -> last_char pr run = Some c -> In c run.
Proof.
  intros Hne. destruct (exists_last Hne) as (run' & x & ->).
  rewrite last_char_last. intros [= ->]. apply in_or_app. right. now left.
Qed.

(** ** The digits of the phone pattern *)

Section PhoneNumber.

Variable U : Unicode.
Hypothesis HU : standard U.

Lemma ascii_digits_are_digits t :
  forallb digit_09 t = true -> forallb (is_digit U) t = true.
Proof.
  apply forallb_impl. intros c Hc. now apply (ascii_digit_is_digit HU).
Qed.

Lemma phone_body_last st st' :
  matches U (seqs (PHONE_BODY U)) st st' ->
  exists c, prev st' = Some c /\ is_digit U c = true.
Proof.
  unfold PHONE_BODY. unfold seqs at 1. cbn [fold_right].
  intros (m1 & _ & m2 & _ & m3 & _ & m4 & _ & m5 & (n & Hn & Hi) & E). simpl in E. subst m5.
  destruct n as [|n]; [lia|]. apply iter_last in Hi.
  destruct Hi as (mid & _ & (c & s' & _ & Hc & ->)).
  exists c. auto.
Qed.

End PhoneNumber.

(** ** Texts in which a pattern finds nothing *)

Lemma pass_by_first_char U q r A B :
  first_ok q r -> 1 <= min_len r ->
  forallb (fun c => negb (q c)) A = true ->
  forall pre s1 pr' st', A = pre ++ s1 -> s1 <> [] ->
                         ~ matches U r (MState pr' (s1 ++ B) 0 []) st'.
Proof.
  intros Hq Hmin HA pre s1 pr' st' -> Hne H.
  destruct (@matches_first_char U q r _ _ Hq Hmin H) as (c & s' & Hr & Hc). simpl in Hr.
  destruct s1 as [|x s1]; [contradiction|]. simpl in Hr. injection Hr as <- _.
  rewrite forallb_forall in HA.
  assert (In x (pre ++ x :: s1)) as Hin by (apply in_or_app; right; now left).
  apply HA in Hin. now rewrite Hc in Hin.
Qed.

Lemma stream_app a b :
  placeholder_stream a -> placeholder_stream b -> placeholder_stream (a ++ b).
Proof.
  induction 1 as [|tok t Hin _ IH|c t Hc _ IH]; intros Hb; simpl.
  - assumption.
  - rewrite <- app_assoc. constructor; auto.
  - constructor; auto.
Qed.

Lemma stream_fillers t : forallb filler t = true -> placeholder_stream t.
Proof.
  induction t as [|c t IH]; simpl; intros H; [constructor|].
  apply andb_true_iff in H. destruct H. constructor; auto.
Qed.

Lemma chars_avoid (p q : char -> bool) t :
  (forall c, p c = true -> q c = false) ->
  forallb p t = true ->
  forallb (fun c => negb (q c)) t = true.
Proof.
  intros H. apply forallb_impl. intros c Hc. now rewrite (H c Hc).
Qed.

(** ** Segmentation across a file that ends mid-block *)

Section MidBlock.

Variable U : Unicode.

(** The open block is empty only before the first header. *)
Lemma fold_segment_no_header lines : forall mb cb,
  (cb = [] -> mb = []) ->
  snd (fold_left (segment_step U) lines (mb, cb)) = [] ->
  fst (fold_left (segment_step U) lines (mb, cb)) = [].
Proof.
  induction lines as [|l lines IH]; intros mb cb Hinv; simpl.
  - exact Hinv.
  - destruct (matches_header U (strip_invisible U l)).
    + apply IH. discriminate.
    + apply IH. destruct cb; [assumption|]. intros H. now destruct cb.
Qed.

(** Once a block is open, every line is kept. *)
Lemma fold_segment_open lines : forall mb cb,
  cb <> [] ->
  List.length (List.concat (close_block (fold_left (segment_step U) lines (mb, cb))))
  = List.length (List.concat mb) + List.length cb + List.length lines.
Proof.
  induction lines as [|l lines IH]; intros mb cb Hcb; simpl.
  - unfold close_block. simpl. destruct cb as [|c cb]; [contradiction|].
    rewrite concat_app, length_app. simpl. rewrite app_nil_r. simpl. lia.
  - destruct cb as [|c cb]; [contradiction|].
    destruct (matches_header U (strip_invisible U l)).
    + rewrite IH by discriminate. rewrite concat_app, length_app. simpl.
      rewrite app_nil_r. simpl. lia.
    + rewrite IH by discriminate. simpl. rewrite length_app. simpl. lia.
Qed.

(** The blocks hold no more lines than the file, and fewer when the file
    begins with a continuation line. *)
Lemma segment_count lines :
  List.length (List.concat (segment U lines)) <= List.length lines.
Proof.
  induction lines as [|l lines IH]; [apply Nat.le_refl|].
  rewrite segment_fold. simpl.
  destruct (matches_header U (strip_invisible U l)).
  - rewrite fold_segment_open by discriminate. simpl. lia.
  - rewrite <- segment_fold. simpl. lia.
Qed.

Lemma segment_count_continuation l lines :
  is_header U l = false ->
  List.length (List.concat (segment U (l :: lines))) <= List.length lines.
Proof.
  intros Hl. rewrite segment_fold. simpl. unfold is_header in Hl. rewrite Hl.
  rewrite <- segment_fold. apply segment_count.
Qed.

(** The proviso of [segment_app_when] cannot be dropped: when the first file
    ends mid-block, the line that follows joins its last block. *)
Lemma segment_app_mid_block A B :
  ends_mid_block U A B = true ->
  segment U (A ++ B) <> segment U A ++ segment U B.
Proof.
  unfold ends_mid_block. intros H E.
  destruct (segment U A) as [|b bs] eqn:HA; [discriminate|].
  destruct B as [|l B]; [discriminate|].
  apply negb_true_iff in H.
  apply (f_equal (fun x => List.length (List.concat x))) in E.
  rewrite concat_app, length_app in E.
  pose proof (@segment_count_continuation l B H) as HB.
  assert (Hne : segment U A <> []) by (rewrite HA; discriminate).
  rewrite <- HA in E. clear HA b bs.
  rewrite (segment_fold U (A ++ l :: B)), fold_left_app in E.
  rewrite (segment_fold U A) in E, Hne.
  destruct (fold_left (segment_step U) A ([], [])) as [mb cb] eqn:HF.
  destruct cb as [|c cb].
  - pose proof (@fold_segment_no_header A [] [] (fun _ => eq_refl)) as Hn.
    rewrite HF in Hn. simpl in Hn. rewrite (Hn eq_refl) in Hne.
    now apply Hne.
  - rewrite fold_segment_open in E by discriminate.
    unfold close_block in E. simpl in E.
    rewrite concat_app, length_app in E. simpl in E. rewrite app_nil_r in E.
    simpl in E. lia.
Qed.

End MidBlock.

(** ** The check for texts without words *)

(** The pattern of the check wants one character at least. *)
Lemma emoji_only_pattern_refuses_empty U : re_fullmatch U (EMOJI_ONLY_PATTERN U) [] = false.
Proof. reflexivity. Qed.

(** So a text with nothing left once its emojis are removed is irrelevant
    only as a media notice, a call notice or an acknowledgment. *)
Lemma is_irrelevant_nothing_left U t :
  remove_emojis U (strip t) = [] ->
  is_irrelevant U t
  = existsb (fun pattern => re_fullmatch U pattern (strip t)) (MEDIA_PATTERNS U)
    || re_fullmatch U (CALL_PATTERN U) (strip t)
    || existsb (text_eqb (lower_text U (strip t))) ACK_TOKENS.
Proof.
  intros H. unfold is_irrelevant. rewrite H, emoji_only_pattern_refuses_empty.
  destruct (existsb _ (MEDIA_PATTERNS U)); [reflexivity|].
  destruct (re_fullmatch U (CALL_PATTERN U) (strip t)); [reflexivity|].
  now destruct (existsb _ ACK_TOKENS).
Qed.

(** A text that leaves whitespace and punctuation only, and one character
    at least, is irrelevant. *)
Lemma is_irrelevant_no_words U t :
  remove_emojis U (strip t) <> [] ->
  forallb (fun c => negb (is_word U c) || isspace c) (remove_emojis U (strip t)) = true ->
  is_irrelevant U t = true.
Proof.
  intros Hne Hall. unfold is_irrelevant.
  destruct (existsb _ (MEDIA_PATTERNS U)); [reflexivity|].
  destruct (re_fullmatch U (CALL_PATTERN U) (strip t)); [reflexivity|].
  set (s := remove_emojis U (strip t)) in *.
  assert (E : re_fullmatch U (EMOJI_ONLY_PATTERN U) s = true); [|now rewrite E].
  unfold re_fullmatch.
  destruct (m U (EMOJI_ONLY_PATTERN U) (start s) _) eqn:E; [reflexivity|].
  exfalso. revert E.
  apply (@m_complete U (EMOJI_ONLY_PATTERN U) (start s)
           (MState (last_char None s) [] (List.length s) [])); [|discriminate].
  simpl. exists (start s). split; [now split|].
  exists (MState (last_char None s) [] (List.length s) []). split.
  - exists s. split; [assumption|]. split.
    + destruct s; [contradiction|simpl; lia].
    + split; [|reflexivity]. split; [simpl; now rewrite app_nil_r|]. now split.
  - eexists. split; [|reflexivity]. split; [now left|reflexivity].
Qed.

(** ** Deleting the characters of a set *)

(** A greedy run followed by something that always succeeds takes every
    leading character of the set. *)
Lemma many_greedy_commit p (f : mstate -> mstate) : forall s lo pr n cs,
  many_greedy p lo pr s n cs (fun st => Some (f st))
  = if lo <=? span_len p s
    then Some (f (MState (last_char pr (firstn (span_len p s) s)) (skipn (span_len p s) s)
                         (n + span_len p s) cs))
    else None.
Proof.
  induction s as [|c s IH]; intros lo pr n cs; simpl.
  - destruct lo; simpl; [now rewrite Nat.add_0_r|reflexivity].
  - destruct (p c) eqn:Hc.
    + rewrite IH. destruct lo as [|lo]; simpl.
      * now rewrite Nat.add_succ_r.
      * destruct (lo <=? span_len p s); simpl; [now rewrite Nat.add_succ_r|reflexivity].
    + destruct lo; simpl; [now rewrite Nat.add_0_r|reflexivity].
Qed.

Lemma many_greedy_all p s lo pr n cs :
  many_greedy p lo pr s n cs Some
  = if lo <=? span_len p s
    then Some (MState (last_char pr (firstn (span_len p s) s)) (skipn (span_len p s) s)
                      (n + span_len p s) cs)
    else None.
Proof. exact (many_greedy_commit p (fun st => st) s lo pr n cs). Qed.

Lemma span_len_firstn p : forall s, forallb p (firstn (span_len p s) s) = true.
Proof.
  induction s as [|c s IH]; simpl; [reflexivity|].
  destruct (p c) eqn:Hc; simpl; [now rewrite Hc|reflexivity].
Qed.

Lemma span_len_skipn p : forall s,
  match skipn (span_len p s) s with c :: _ => p c = false | [] => True end.
Proof.
  induction s as [|c s IH]; simpl; [exact I|].
  destruct (p c) eqn:Hc; simpl; [exact IH|exact Hc].
Qed.

(** Substituting nothing for the runs of a set of characters deletes these
    characters and keeps the others, in order. *)
Lemma sub_scan_many_delete U p : forall s pr skip,
  skip <= span_len p s ->
  sub_scan U (Many p 1 true) [] pr s skip = filter (fun c => negb (p c)) s.
Proof.
  induction s as [|c s IH]; intros pr skip Hs; simpl in *.
  - destruct skip; reflexivity.
  - destruct skip as [|k].
    + rewrite many_greedy_all. simpl. destruct (p c) eqn:Hc; simpl.
      * apply IH. apply Nat.le_refl.
      * f_equal. apply IH. apply Nat.le_0_l.
    + destruct (p c) eqn:Hc; [|lia]. simpl. apply IH. lia.
Qed.

Lemma re_sub_many_delete U p t :
  re_sub U (Many p 1 true) [] t = filter (fun c => negb (p c)) t.
Proof. apply sub_scan_many_delete. apply Nat.le_0_l. Qed.

(** The same for a set that is not repeated. *)
Lemma re_sub_chr_delete U p t :
  re_sub U (Chr p) [] t = filter (fun c => negb (p c)) t.
Proof.
  unfold re_sub. generalize (@None char).
  induction t as [|c t IH]; intros pr; simpl; [reflexivity|].
  destruct (p c); simpl; [apply IH|f_equal; apply IH].
Qed.

Lemma remove_emojis_filter U t :
  remove_emojis U t = filter (fun c => negb (emoji c)) t.
Proof. apply re_sub_many_delete. Qed.

(** What a substitution returns is made of characters of the text and of
    the replacement. *)
Lemma sub_scan_chars U r repl c : forall s pr skip,
  In c (sub_scan U r repl pr s skip) -> In c s \/ In c repl.
Proof.
  induction s as [|x s IH]; intros pr skip H; simpl in H.
  - destruct skip; [|contradiction].
    destruct (m U r _ Some); [now right|contradiction].
  - destruct skip as [|k].
    + destruct (m U r _ Some) as [st'|].
      * destruct (pos st').
        -- apply in_app_or in H. destruct H as [H|[H|H]]; [now right|left; now left|].
           apply IH in H. destruct H; [left; now right|now right].
        -- apply in_app_or in H. destruct H as [H|H]; [now right|].
           apply IH in H. destruct H; [left; now right|now right].
      * destruct H as [H|H]; [left; now left|].
        apply IH in H. destruct H; [left; now right|now right].
    + apply IH in H. destruct H; [left; now right|now right].
Qed.

Lemma re_sub_chars U r repl t c :
  In c (re_sub U r repl t) -> In c t \/ In c repl.
Proof. apply sub_scan_chars. Qed.

(** ** Stripping *)

Lemma lstrip_suffix s : exists ws, s = ws ++ lstrip s /\ forallb isspace ws = true.
Proof.
  induction s as [|c s (ws & E & H)]; simpl.
  - now exists [].
  - destruct (isspace c) eqn:Hc.
    + exists (c :: ws). simpl. rewrite Hc, H. split; [now f_equal|reflexivity].
    + now exists [].
Qed.

Lemma lstrip_head s : space_at (hd_error (lstrip s)) = false.
Proof.
  induction s as [|c s IH]; simpl; [reflexivity|].
  destruct (isspace c) eqn:Hc; [assumption|]. simpl. exact Hc.
Qed.

Lemma lstrip_fixed s : space_at (hd_error s) = false -> lstrip s = s.
Proof. destruct s as [|c s]; simpl; [reflexivity|]. now intros ->. Qed.

Lemma lstrip_snoc c : isspace c = false -> forall a, lstrip (a ++ [c]) = lstrip a ++ [c].
Proof.
  intros Hc. induction a as [|x a IH]; simpl.
  - now rewrite Hc.
  - destruct (isspace x); [assumption|reflexivity].
Qed.

Lemma rstrip_cons c r : isspace c = false -> rstrip (c :: r) = c :: rstrip r.
Proof.
  intros Hc. unfold rstrip. simpl. rewrite lstrip_snoc by assumption. rewrite rev_app_distr. reflexivity.
Qed.

Lemma last_char_rev pr t : last_char pr t = match rev t with c :: _ => Some c | [] => pr end.
Proof.
  revert pr. induction t as [|c t IH]; intros pr; simpl; [reflexivity|].
  unfold last_char in *. simpl. rewrite IH.
  destruct (rev t); reflexivity.
Qed.

Lemma rstrip_last s : space_at (last_char None (rstrip s)) = false.
Proof.
  unfold rstrip. rewrite last_char_rev, rev_involutive.
  pose proof (lstrip_head (rev s)). now destruct (lstrip (rev s)).
Qed.

Lemma rstrip_fixed s : space_at (last_char None s) = false -> rstrip s = s.
Proof.
  unfold rstrip. rewrite last_char_rev. intros H.
  rewrite lstrip_fixed; [apply rev_involutive|]. now destruct (rev s).
Qed.

Lemma rstrip_head s : space_at (hd_error s) = false -> space_at (hd_error (rstrip s)) = false.
Proof.
  destruct s as [|c s]; simpl; [intros _; reflexivity|].
  intros Hc. now rewrite rstrip_cons by assumption.
Qed.

Lemma rstrip_prefix s : exists ws, s = rstrip s ++ ws /\ forallb isspace ws = true.
Proof.
  unfold rstrip. destruct (lstrip_suffix (rev s)) as (ws & E & H).
  exists (rev ws). split.
  - rewrite <- rev_app_distr, <- E. symmetry. apply rev_involutive.
  - rewrite forallb_forall in *. intros c Hc. apply H. now apply in_rev.
Qed.

Lemma strip_trimmed t : trimmed (strip t).
Proof.
  split; [|apply rstrip_last]. apply rstrip_head, lstrip_head.
Qed.

Lemma trimmed_strip t : trimmed t -> strip t = t.
Proof.
  intros [Hh Hl]. unfold strip. rewrite lstrip_fixed by assumption. now apply rstrip_fixed.
Qed.

Lemma strip_idempotent t : strip (strip t) = strip t.
Proof. apply trimmed_strip, strip_trimmed. Qed.

(** A text is its stripped form with whitespace on both sides. *)
Lemma strip_middle t :
  exists ws1 ws2, t = ws1 ++ strip t ++ ws2
                  /\ forallb isspace ws1 = true /\ forallb isspace ws2 = true.
Proof.
  destruct (lstrip_suffix t) as (ws1 & E1 & H1).
  destruct (rstrip_prefix (lstrip t)) as (ws2 & E2 & H2).
  exists ws1, ws2. unfold strip. now rewrite <- E2.
Qed.

Lemma strip_incl t c : In c (strip t) -> In c t.
Proof.
  destruct (strip_middle t) as (ws1 & ws2 & E & _). intros H. rewrite E.
  apply in_or_app. right. apply in_or_app. now left.
Qed.

Lemma strip_forallb (P : char -> bool) t : forallb P t = true -> forallb P (strip t) = true.
Proof.
  rewrite !forallb_forall. intros H c Hc. apply H. now apply strip_incl.
Qed.

Lemma strip_nil t : strip t = [] <-> forallb isspace t = true.
Proof.
  split.
  - intros E. destruct (strip_middle t) as (ws1 & ws2 & Et & H1 & H2).
    rewrite E in Et. simpl in Et. rewrite Et, forallb_app, H1, H2. reflexivity.
  - intros H. assert (L : lstrip t = []).
    { induction t as [|c t IH]; simpl in *; [reflexivity|].
      apply andb_true_iff in H. destruct H as [-> H]. now apply IH. }
    unfold strip. now rewrite L.
Qed.

Lemma filter_fixed {A} (P : A -> bool) l : forallb P l = true -> filter P l = l.
Proof.
  induction l as [|x l IH]; simpl; [reflexivity|].
  intros H. apply andb_true_iff in H. destruct H as [-> H]. f_equal. now apply IH.
Qed.

Lemma filter_forallb {A} (P : A -> bool) l : forallb P (filter P l) = true.
Proof.
  induction l as [|x l IH]; simpl; [reflexivity|].
  destruct (P x) eqn:E; simpl; [now rewrite E|assumption].
Qed.

(** The placeholders hold no emoji. *)
Lemma placeholder_text_no_emoji tok c : In tok PLACEHOLDERS -> In c tok -> emoji c = false.
Proof.
  intros Ht Hc. apply placeholder_not_emoji.
  pose proof (stream_chars (stream_token Ht stream_end)) as H.
  rewrite app_nil_r in H. rewrite forallb_forall in H. now apply H.
Qed.

Lemma clean_message_chars U t c :
  In c (clean_message U t) -> emoji c = false.
Proof.
  unfold clean_message. intros H. apply strip_incl in H.
  assert (P : forall tok, In tok PLACEHOLDERS -> In c tok -> emoji c = false)
    by (intros tok; apply placeholder_text_no_emoji).
  repeat match type of H with
         | In _ (re_sub _ _ [] _) => apply re_sub_chars in H; destruct H as [H|[]]
         | In _ (re_sub _ _ (str ?s) _) =>
             apply re_sub_chars in H; destruct H as [H|H];
             [|apply (P (str s)); [simpl; tauto|exact H]]
         end.
  rewrite remove_emojis_filter in H.
  apply filter_In in H. destruct H as [_ H]. now apply negb_true_iff in H.
Qed.

(** ** The shape of a header line *)

Lemma matches_lit_chars U l : forall st st',
  matches U (fold_right (fun c r => Seq (chr c) r) Eps l) st st' ->
  consumed l st st' /\ caps st' = caps st.
Proof.
  induction l as [|c l IH]; intros st st' H; simpl in H.
  - subst. split; [apply consumed_refl|reflexivity].
  - destruct H as (mid & H1 & H2). apply (@matches_chr U) in H1. destruct H1 as [C1 K1].
    apply IH in H2. destruct H2 as [C2 K2]. split; [|congruence].
    exact (consumed_trans C1 C2). 
Qed.

Lemma matches_lit U s st st' :
  matches U (lit s) st st' -> consumed (str s) st st' /\ caps st' = caps st.
Proof. apply matches_lit_chars. Qed.

Lemma iter_chr_run U p n : forall st st',
  iter n (matches U (Chr p)) st st' ->
  exists run, consumed run st st' /\ forallb p run = true
              /\ List.length run = n /\ caps st' = caps st.
Proof.
  induction n as [|n IH]; intros st st' H; simpl in H.
  - subst. exists []. split; [apply consumed_refl|]. split; [reflexivity|]. split; reflexivity.
  - destruct H as (mid & (c & s' & Hr & Hp & ->) & H2).
    apply IH in H2. destruct H2 as (run & C & A & L & K).
    exists (c :: run). split; [|split; [|split]].
    + apply (@consumed_trans [c] run st (advance c s' st) st'); [|assumption].
      split; [assumption|]. split; [reflexivity|]. simpl. lia.
    + simpl. now rewrite Hp.
    + simpl. now rewrite L.
    + rewrite K. reflexivity.
Qed.

Lemma matches_times_chr U p n st st' :
  matches U (times n (Chr p)) st st' ->
  exists run, consumed run st st' /\ forallb p run = true
              /\ List.length run = n /\ caps st' = caps st.
Proof.
  intros (k & Hk & H). assert (k = n) by lia. subst k. now apply (@iter_chr_run U p n).
Qed.

Lemma matches_digits U n st st' :
  matches U (times n (Chr (is_digit U))) st st' ->
  exists run, consumed run st st' /\ digits U n run /\ caps st' = caps st.
Proof.
  intros H. apply matches_times_chr in H. destruct H as (run & C & A & L & K).
  exists run. split; [assumption|]. split; [split; assumption|assumption].
Qed.

Lemma m_seqs_sound U l1 l2 : forall st k res,
  m U (seqs (l1 ++ l2)) st k = Some res ->
  exists mid, matches U (seqs l1) st mid /\ m U (seqs l2) mid k = Some res.
Proof.
  induction l1 as [|a l1 IH]; intros st k res H.
  - exists st. split; [reflexivity|exact H].
  - change (m U a st (fun st' => m U (seqs (l1 ++ l2)) st' k) = Some res) in H.
    apply m_sound in H. destruct H as (st1 & Ha & H). apply IH in H.
    destruct H as (mid & Hl & H). exists mid. split; [|assumption]. now exists st1.
Qed.

Lemma dot_false c : dot c = false -> c = NL.
Proof. unfold dot. intros H. apply negb_false_iff in H. now apply N.eqb_eq in H. Qed.

Lemma header_shape U line groups :
  re_match U (TIMESTAMP_PATTERN U) line = Some groups -> header_parts U line groups.
Proof.
  unfold re_match. destruct (m U (TIMESTAMP_PATTERN U) (start line) Some) as [st|] eqn:Hm;
    [|discriminate].
  simpl. intros [= Hcaps].
  change (TIMESTAMP_PATTERN U)
    with (seqs ([ chr 91;
                  Grp (seqs [times 2 (Chr (is_digit U)); chr 47; times 2 (Chr (is_digit U));
                             chr 47; times 4 (Chr (is_digit U))]);
                  lit ", ";
                  Grp (seqs [times 2 (Chr (is_digit U)); chr 58; times 2 (Chr (is_digit U));
                             chr 58; times 2 (Chr (is_digit U))]);
                  lit "] ";
                  Grp (Many dot 1 false);
                  lit ": " ] ++ [Grp (Many dot 0 true)])) in Hm.
  apply m_seqs_sound in Hm. destruct Hm as (m7 & Hm & Hlast).
  unfold seqs at 1 in Hm. cbn [fold_right] in Hm.
  destruct Hm as (m1 & H1 & m2 & H2 & m3 & H3 & m4 & H4 & m5 & H5 & m6 & H6 & m7' & H7 & E).
  simpl in E. subst m7'.
  apply matches_chr in H1. destruct H1 as [C1 K1].
  destruct H2 as (i2 & H2 & ->).
  unfold seqs in H2. cbn [fold_right] in H2.
  destruct H2 as (a1 & D1 & a2 & D2 & a3 & D3 & a4 & D4 & a5 & D5 & E). simpl in E. subst a5.
  apply matches_digits in D1, D3, D5.
  destruct D1 as (dd & Cdd & Ddd & Kdd), D3 as (mm & Cmm & Dmm & Kmm),
           D5 as (yyyy & Cyy & Dyy & Kyy).
  apply matches_chr in D2, D4. destruct D2 as [Cs1 Ks1], D4 as [Cs2 Ks2].
  pose proof (consumed_trans Cdd (consumed_trans Cs1 (consumed_trans Cmm (consumed_trans Cs2 Cyy))))
    as Cdate.
  apply matches_lit in H3. destruct H3 as [C3 K3].
  destruct H4 as (i4 & H4 & ->).
  unfold seqs in H4. cbn [fold_right] in H4.
  destruct H4 as (b1 & T1 & b2 & T2 & b3 & T3 & b4 & T4 & b5 & T5 & E). simpl in E. subst b5.
  apply matches_digits in T1, T3, T5.
  destruct T1 as (hh & Chh & Dhh & Khh), T3 as (mi & Cmi & Dmi & Kmi),
           T5 as (ss & Css & Dss & Kss).
  apply matches_chr in T2, T4. destruct T2 as [Ct1 Kt1], T4 as [Ct2 Kt2].
  pose proof (consumed_trans Chh (consumed_trans Ct1 (consumed_trans Cmi (consumed_trans Ct2 Css))))
    as Ctime.
  apply matches_lit in H5. destruct H5 as [C5 K5].
  destruct H6 as (i6 & H6 & ->).
  apply matches_many in H6. destruct H6 as (sender & C6 & A6 & L6 & K6).
  apply matches_lit in H7. destruct H7 as [C7 K7].
  (* the last group takes every character up to the end of the line *)
  unfold seqs in Hlast. cbn [fold_right m] in Hlast.
  rewrite (many_greedy_commit dot (fun st' => capture m7 st')) in Hlast.
  cbn [Nat.leb] in Hlast. injection Hlast as <-.
  set (n := span_len dot (rest m7)) in *.
  assert (C8 : consumed (firstn n (rest m7)) m7
                 (MState (last_char (prev m7) (firstn n (rest m7))) (skipn n (rest m7))
                         (pos m7 + n) (caps m7))).
  { split; [simpl; symmetry; apply firstn_skipn|]. split; [reflexivity|]. simpl.
    f_equal. symmetry. apply firstn_length_le. unfold n.
    clear. induction (rest m7) as [|c s IH]; simpl; [lia|]. destruct (dot c); simpl; lia. }
  rewrite (capture_run C8) in Hcaps. cbn [caps] in Hcaps.
  rewrite K7, (capture_run C6), K6, K5, (capture_run Ctime),
    Kss, Kt2, Kmi, Kt1, Khh, K3, (capture_run Cdate), Kyy, Ks2, Kmm, Ks1, Kdd, K1 in Hcaps.
  simpl in Hcaps.
  assert (Cdate' : consumed (dd ++ [47%N] ++ mm ++ [47%N] ++ yyyy) m1
                            (capture m1 i2)).
  { destruct Cdate as (R & P & N). split; [exact R|]. split; [exact P|exact N]. }
  assert (Ctime' : consumed (hh ++ [58%N] ++ mi ++ [58%N] ++ ss) m3 (capture m3 i4)).
  { destruct Ctime as (R & P & N). split; [exact R|]. split; [exact P|exact N]. }
  assert (C6' : consumed sender m5 (capture m5 i6)).
  { destruct C6 as (R & P & N). split; [exact R|]. split; [exact P|exact N]. }
  pose proof (consumed_trans C1 (consumed_trans Cdate' (consumed_trans C3 (consumed_trans Ctime'
               (consumed_trans C5 (consumed_trans C6' (consumed_trans C7 C8))))))) as (R & _).
  simpl rest in R.
  assert (El : line = str "[" ++ (dd ++ str "/" ++ mm ++ str "/" ++ yyyy) ++ str ", "
                     ++ (hh ++ str ":" ++ mi ++ str ":" ++ ss) ++ str "] "
                     ++ sender ++ str ": " ++ firstn n (rest m7) ++ skipn n (rest m7)).
  { rewrite R. repeat (simpl; rewrite <- app_assoc). reflexivity. }
  rewrite El, <- Hcaps. constructor; try assumption.
  - destruct sender; [simpl in L6; lia|discriminate].
  - apply span_len_firstn.
  - unfold line_end. pose proof (span_len_skipn dot (rest m7)) as Hs. fold n in Hs.
    destruct (skipn n (rest m7)); [exact I|]. now apply dot_false.
Qed.

(** ** What [parse_message_block] does to the log *)

Lemma header_groups U line groups :
  re_match U (TIMESTAMP_PATTERN U) line = Some groups ->
  exists date_str time_str sender first_line, groups = [date_str; time_str; sender; first_line].
Proof. intros H. apply header_shape in H. destruct H. eauto. Qed.

Lemma parse_outcome U block log w r w' :
  parse_message_block U block log w = (r, w') ->
  match r with
  | Return (Some _) => w' = w
  | Return None =>
      exists reason, In reason SKIP_REASONS
                     /\ log_skip reason (join [NL] block) log w = (Return tt, w')
  | Raise e =>
      w' = w
      /\ match block with
         | [] => e = IndexError
         | first :: _ =>
             e = ValueError
             /\ exists date_str time_str sender first_line,
                 re_match U (TIMESTAMP_PATTERN U) (strip_invisible U first)
                 = Some [date_str; time_str; sender; first_line]
                 /\ strptime U (date_str ++ str " " ++ time_str) = None
         end
  end.
Proof.
  destruct block as [|first more].
  - unfold_parse. intros [= <- <-]. auto.
  - unfold_parse.
    destruct (re_match U (TIMESTAMP_PATTERN U) (strip_invisible U first)) as [groups|] eqn:Hm.
    + destruct (header_groups _ _ Hm) as (d & t & sd & fl & ->).
      destruct (strptime U (d ++ str " " ++ t)) as [dt|] eqn:Hdt.
      * destruct (strip (re_sub U (TRAILING_TIMESTAMP U) []
                           (join [NL] (filter_lines U (fl :: more))))) as [|c full].
        -- intros [= <- <-]. exists (str "Empty after cleaning"). split; [simpl; tauto|].
           reflexivity.
        -- destruct (is_irrelevant U (c :: full)).
           ++ intros [= <- <-]. exists (str "Irrelevant content"). split; [simpl; tauto|].
              reflexivity.
           ++ now intros [= <- <-].
      * intros [= <- <-]. split; [reflexivity|]. split; [reflexivity|].
        now exists d, t, sd, fl.
    + intros [= <- <-]. exists (str "No match"). split; [simpl; tauto|]. reflexivity.
Qed.

(** ** The date of an accepted message *)

Lemma digits_value_snoc U t c : forall acc,
  digits_value U acc (t ++ [c])
  = match digits_value U acc t with
    | Some v => match decimal U c with Some d => Some (10 * v + d)%N | None => None end
    | None => None
    end.
Proof.
  induction t as [|x t IH]; intros acc; simpl.
  - now destruct (decimal U c).
  - destruct (decimal U x); [apply IH|reflexivity].
Qed.

(** Printing the value of ASCII digits with as many digits gives them
    back. *)
Lemma zero_padded_digits U (HU : standard U) t : forall n,
  forallb digit_09 t = true -> digits_value U 0 t = Some n ->
  zero_padded (List.length t) n = t.
Proof.
  induction t as [|c t IH] using rev_ind; intros n Ha Hn.
  - reflexivity.
  - rewrite forallb_app in Ha. apply andb_true_iff in Ha. destruct Ha as [Ht Hc].
    simpl in Hc. rewrite andb_true_r in Hc.
    rewrite digits_value_snoc in Hn.
    destruct (digits_value U 0 t) as [v|] eqn:Hv; [|discriminate].
    rewrite (std_decimal HU) in Hn by (unfold plain; decide_bool).
    unfold latin1_decimal in Hn. unfold digit_09 in Hc. rewrite Hc in Hn.
    assert (Hn' : n = (10 * v + (c - 48))%N) by congruence. clear Hn. subst n.
    rewrite length_app, Nat.add_1_r. cbn [zero_padded].
    assert (Hlo : (48 <= c)%N /\ (c <= 57)%N) by (unfold in_range in Hc; bool_to_prop; lia).
    assert (E1 : ((10 * v + (c - 48)) / 10 = v)%N).
    { rewrite N.mul_comm, N.div_add_l by lia. rewrite N.div_small by lia. lia. }
    assert (E2 : ((10 * v + (c - 48)) mod 10 = c - 48)%N).
    { rewrite N.add_comm, N.mul_comm, N.Div0.mod_add. apply N.mod_small. lia. }
    rewrite E1, E2, (IH v Ht eq_refl). f_equal. f_equal. lia.
Qed.

Lemma digits_numeral U n t : digits U n t -> 1 <= n -> exists v, numeral U t v.
Proof. intros [L A] Hn. apply numeral_of_digits; [assumption|lia]. Qed.

Lemma forallb_app3 (P : char -> bool) a b c :
  forallb P (a ++ b ++ c) = true ->
  forallb P a = true /\ forallb P b = true /\ forallb P c = true.
Proof.
  rewrite !forallb_app. intros H. apply andb_true_iff in H. destruct H as [Ha H].
  apply andb_true_iff in H. tauto.
Qed.

(** ** The text of an accepted message *)

Lemma join_chars sep c : forall parts,
  In c (join sep parts) -> In c sep \/ exists p, In p parts /\ In c p.
Proof.
  induction parts as [|p ps IH]; simpl; [contradiction|].
  destruct ps as [|q ps].
  - intros H. right. exists p. auto.
  - intros H. apply in_app_or in H. destruct H as [H|H].
    + right. exists p. auto.
    + apply in_app_or in H. destruct H as [H|H]; [now left|].
      apply IH in H. destruct H as [H|(x & Hx & Hc)]; [now left|].
      right. exists x. split; [now right|assumption].
Qed.

Lemma filter_lines_cleaned U l : forall lines,
  In l (filter_lines U lines) -> exists x, l = clean_message U x /\ l <> [].
Proof.
  induction lines as [|x lines IH]; simpl; [contradiction|].
  destruct (matches_header U (strip_invisible U x)); [exact IH|].
  destruct (clean_message U (strip_invisible U x)) as [|c cl] eqn:E; [exact IH|].
  intros [<-|H]; [|now apply IH].
  exists (strip_invisible U x). split; [now symmetry|discriminate].
Qed.

Lemma accepted_text_chars U block log w msg w' c :
  parse_message_block U block log w = (Return (Some msg), w') ->
  In c (msg_text msg) -> emoji c = false.
Proof.
  intros H Hc. apply parse_accepted in H.
  destruct H as (first & more & d & t & sd & fl & dt & _ & _ & _ & Ht & _).
  rewrite Ht in Hc. apply strip_incl in Hc. apply re_sub_chars in Hc.
  destruct Hc as [Hc|[]]. apply join_chars in Hc.
  destruct Hc as [[<-|[]]|(p & Hp & Hc)]; [reflexivity|].
  apply filter_lines_cleaned in Hp. destruct Hp as (x & -> & _).
  now apply clean_message_chars with U x.
Qed.

(** ** The blocks of a file *)

Section BlockShape.

Variable U : Unicode.

Lemma fold_segment_lines lines : forall mb c cb,
  List.concat (close_block (fold_left (segment_step U) lines (mb, c :: cb)))
  = List.concat mb ++ (c :: cb) ++ lines.
Proof.
  induction lines as [|l lines IH]; intros mb c cb; simpl.
  - unfold close_block. simpl. rewrite concat_app. simpl. now rewrite !app_nil_r.
  - destruct (matches_header U (strip_invisible U l)).
    + rewrite IH, concat_app. simpl. rewrite app_nil_r, <- !app_assoc. reflexivity.
    + rewrite IH. simpl. rewrite <- !app_assoc. reflexivity.
Qed.

Lemma segment_lines lines :
  List.concat (segment U lines) = from_first_header U lines.
Proof.
  induction lines as [|l lines IH]; [reflexivity|].
  rewrite segment_fold. simpl. unfold is_header.
  destruct (matches_header U (strip_invisible U l)).
  - now rewrite fold_segment_lines.
  - rewrite <- segment_fold. exact IH.
Qed.

Lemma fold_segment_shape lines : forall mb cb,
  forallb (block_ok U) mb = true ->
  (cb = [] \/ block_ok U cb = true) ->
  forallb (block_ok U) (close_block (fold_left (segment_step U) lines (mb, cb))) = true.
Proof.
  induction lines as [|l lines IH]; intros mb cb Hmb Hcb; simpl.
  - unfold close_block. simpl. destruct cb as [|c cb]; [assumption|].
    destruct Hcb as [Hcb|Hcb]; [discriminate|].
    rewrite forallb_app, Hmb. cbn [forallb andb]. now rewrite Hcb.
  - destruct (matches_header U (strip_invisible U l)) eqn:Hl.
    + apply IH.
      * destruct cb as [|c cb]; [assumption|].
        destruct Hcb as [Hcb|Hcb]; [discriminate|].
        rewrite forallb_app, Hmb. cbn [forallb andb]. now rewrite Hcb.
      * right. simpl. unfold is_header. now rewrite Hl.
    + apply IH; [assumption|].
      destruct cb as [|c cb]; [now left|]. right.
      destruct Hcb as [Hcb|Hcb]; [discriminate|].
      simpl in *. apply andb_true_iff in Hcb. destruct Hcb as [-> Hcb].
      rewrite forallb_app, Hcb. simpl. unfold is_header. now rewrite Hl.
Qed.

Lemma segment_shape lines : forallb (block_ok U) (segment U lines) = true.
Proof. rewrite segment_fold. apply fold_segment_shape; [reflexivity|now left]. Qed.

Lemma from_first_header_none lines :
  forallb (fun l => negb (is_header U l)) lines = true -> from_first_header U lines = [].
Proof.
  induction lines as [|l lines IH]; simpl; [reflexivity|].
  intros H. apply andb_true_iff in H. destruct H as [Hl H].
  apply negb_true_iff in Hl. rewrite Hl. now apply IH.
Qed.

Lemma concat_nil_blocks (bs : list (list text)) :
  Forall (fun b => b <> []) bs -> List.concat bs = [] -> bs = [].
Proof.
  destruct bs as [|b bs]; [reflexivity|].
  intros H E. inversion H as [|? ? Hb _]. simpl in E.
  apply app_eq_nil in E. destruct E as [E _]. contradiction.
Qed.

Lemma segment_no_header lines :
  forallb (fun l => negb (is_header U l)) lines = true -> segment U lines = [].
Proof.
  intros H. apply concat_nil_blocks.
  - pose proof (segment_shape lines) as Hs. rewrite forallb_forall in Hs.
    apply Forall_forall. intros b Hb E. apply Hs in Hb. subst b. discriminate.
  - rewrite segment_lines. now apply from_first_header_none.
Qed.

End BlockShape.

(** ** Dictionaries *)

Lemma text_eqb_neq a b : a <> b -> text_eqb a b = false.
Proof.
  intros H. destruct (text_eqb a b) eqn:E; [|reflexivity].
  apply text_eqb_eq in E. contradiction.
Qed.

Lemma lookup_write_same {A} key (x : A) d : lookup key (write key x d) = Some x.
Proof.
  induction d as [|[p y] d IH]; simpl.
  - now rewrite text_eqb_refl.
  - destruct (text_eqb p key) eqn:E; simpl; rewrite E; [reflexivity|exact IH].
Qed.

Lemma lookup_write_other {A} key key' (x : A) d :
  key' <> key -> lookup key' (write key x d) = lookup key' d.
Proof.
  intros Hne. induction d as [|[p y] d IH]; simpl.
  - rewrite text_eqb_neq; [reflexivity|]. congruence.
  - destruct (text_eqb p key) eqn:E; simpl.
    + apply text_eqb_eq in E. subst p. rewrite text_eqb_neq; [reflexivity|]. congruence.
    + now rewrite IH.
Qed.

Lemma write_keys {A} key (x y : A) d :
  lookup key d = Some y -> map fst (write key x d) = map fst d.
Proof.
  induction d as [|[p z] d IH]; simpl; [discriminate|].
  destruct (text_eqb p key); [reflexivity|].
  intros H. simpl. now rewrite IH.
Qed.

Lemma lookup_none_keys {A} key (d : files A) :
  lookup key d = None <-> ~ In key (map fst d).
Proof.
  induction d as [|[p z] d IH]; simpl; [tauto|].
  destruct (text_eqb p key) eqn:E.
  - apply text_eqb_eq in E. split; [discriminate|]. intros H. exfalso. apply H. now left.
  - rewrite IH. split.
    + intros H [Hp|Hin]; [|contradiction]. subst p. now rewrite text_eqb_refl in E.
    + tauto.
Qed.

Lemma lookup_in {A} key (v : A) d : lookup key d = Some v -> In (key, v) d.
Proof.
  induction d as [|[p z] d IH]; simpl; [discriminate|].
  destruct (text_eqb p key) eqn:E.
  - apply text_eqb_eq in E. intros [= ->]. left. now rewrite E.
  - intros H. right. now apply IH.
Qed.

Lemma in_lookup {A} key (v : A) d :
  NoDup (map fst d) -> In (key, v) d -> lookup key d = Some v.
Proof.
  induction d as [|[p z] d IH]; simpl; [contradiction|].
  intros Hnd [H|H].
  - injection H as -> ->. now rewrite text_eqb_refl.
  - inversion Hnd as [|? ? Hp Hd]. subst.
    destruct (text_eqb p key) eqn:E; [|now apply IH].
    apply text_eqb_eq in E. subst p. exfalso. apply Hp.
    change key with (fst (key, v)). now apply in_map.
Qed.

(** ** Messages grouped by date *)

Lemma dialogue_on_snoc date msgs x :
  dialogue_on date (msgs ++ [x])
  = dialogue_on date msgs ++ (if text_eqb (msg_date x) date then [entry_of x] else []).
Proof.
  unfold dialogue_on. rewrite filter_app, map_app. simpl.
  now destruct (text_eqb (msg_date x) date).
Qed.

Lemma grouped_step msgs d x :
  grouped msgs d -> grouped (msgs ++ [x]) (append_at (msg_date x) (entry_of x) d).
Proof.
  intros [Hnd Hl]. unfold append_at.
  destruct (lookup (msg_date x) d) as [l|] eqn:E.
  - split.
    + now rewrite (write_keys _ _ _ E).
    + intros date. rewrite dialogue_on_snoc.
      destruct (text_eqb (msg_date x) date) eqn:Ed.
      * apply text_eqb_eq in Ed. subst date. rewrite lookup_write_same.
        rewrite Hl in E. destruct (dialogue_on (msg_date x) msgs) as [|e0 l0]; [discriminate|].
        injection E as <-. reflexivity.
      * rewrite lookup_write_other, app_nil_r; [apply Hl|].
        intros ->. now rewrite text_eqb_refl in Ed.
  - split.
    + rewrite map_app. simpl. apply NoDup_app.
      * assumption.
      * constructor; [intros []|constructor].
      * intros k Hk [<-|[]]. now apply lookup_none_keys in E.
    + intros date. rewrite dialogue_on_snoc, lookup_app.
      destruct (text_eqb (msg_date x) date) eqn:Ed.
      * apply text_eqb_eq in Ed. subst date. rewrite E. simpl. rewrite text_eqb_refl.
        rewrite Hl in E. now destruct (dialogue_on (msg_date x) msgs).
      * rewrite app_nil_r. simpl. rewrite Ed. rewrite Hl.
        now destruct (dialogue_on date msgs).
Qed.

Lemma grouped_fold msgs : forall seen a,
  grouped seen (daily_conversations a) ->
  grouped (seen ++ msgs) (daily_conversations (fold_left aggregate_step msgs a)).
Proof.
  induction msgs as [|x msgs IH]; intros seen a H; simpl.
  - now rewrite app_nil_r.
  - replace (seen ++ x :: msgs) with ((seen ++ [x]) ++ msgs)
      by (rewrite <- app_assoc; reflexivity).
    apply IH. apply (grouped_step x H).
Qed.

Lemma grouped_init : grouped [] [].
Proof. split; [constructor|reflexivity]. Qed.

(** ** Sorting by date *)

Lemma text_leb_total a : forall b, text_leb a b = false -> text_leb b a = true.
Proof.
  induction a as [|x a IH]; intros [|y b]; simpl; try discriminate; [reflexivity|].
  destruct (x =? y)%N eqn:E.
  - rewrite N.eqb_sym, E. apply IH.
  - rewrite N.eqb_sym, E. intros H. apply N.ltb_ge in H. apply N.eqb_neq in E.
    apply N.ltb_lt. lia.
Qed.

Lemma insert_sorted_in {A} (kv x : text * A) l :
  In x (insert_sorted kv l) <-> x = kv \/ In x l.
Proof.
  induction l as [|kv' l IH]; simpl.
  - split; [intros [H|[]]; auto|intros [H|[]]; auto].
  - destruct (text_leb (fst kv) (fst kv')); simpl.
    + split; [intros [H|H]; auto|intros [H|H]; auto].
    + rewrite IH. intuition.
Qed.

Lemma sorted_items_in {A} (x : text * A) d : In x (sorted_items d) <-> In x d.
Proof.
  induction d as [|kv d IH]; simpl; [tauto|].
  rewrite insert_sorted_in, IH. split; intros [H|H]; auto.
Qed.

Lemma sorted_items_keys {A} k (d : files A) :
  In k (map fst (sorted_items d)) <-> In k (map fst d).
Proof.
  rewrite !in_map_iff. split; intros ((k', v) & E & H); exists (k', v); split; trivial;
    now apply sorted_items_in.
Qed.

Lemma increasing_cons a b l :
  increasing (a :: b :: l) = text_ltb a b && increasing (b :: l).
Proof. reflexivity. Qed.

Lemma increasing_tail a l : increasing (a :: l) = true -> increasing l = true.
Proof.
  destruct l as [|b l]; [reflexivity|]. rewrite increasing_cons.
  intros H. now apply andb_true_iff in H.
Qed.

Lemma text_ltb_after a b : text_leb a b = false -> text_ltb b a = true.
Proof.
  intros H. unfold text_ltb. rewrite (text_leb_total _ _ H).
  rewrite text_eqb_neq; [reflexivity|]. intros ->.
  assert (R : forall t, text_leb t t = true)
    by (induction t as [|x t IH]; simpl; [reflexivity|now rewrite N.eqb_refl]).
  now rewrite R in H.
Qed.

Lemma insert_sorted_increasing {A} (kv : text * A) : forall l,
  ~ In (fst kv) (map fst l) ->
  increasing (map fst l) = true ->
  increasing (map fst (insert_sorted kv l)) = true.
Proof.
  induction l as [|kv' l IH]; intros Hk Hl; [reflexivity|].
  cbn [insert_sorted]. destruct (text_leb (fst kv) (fst kv')) eqn:E.
  - cbn [map] in *. rewrite increasing_cons, Hl, andb_true_r.
    unfold text_ltb. rewrite E, text_eqb_neq; [reflexivity|].
    intros Eq. apply Hk. left. now rewrite Eq.
  - assert (Hk' : ~ In (fst kv) (map fst l)) by (intros H; apply Hk; now right).
    cbn [map] in Hl. specialize (IH Hk' (increasing_tail _ _ Hl)).
    cbn [map]. destruct l as [|kv'' l].
    + cbn [insert_sorted map]. rewrite increasing_cons, (text_ltb_after _ _ E). reflexivity.
    + cbn [insert_sorted] in *. destruct (text_leb (fst kv) (fst kv'')).
      * cbn [map] in *. rewrite increasing_cons, IH, andb_true_r.
        apply (text_ltb_after _ _ E).
      * cbn [map] in *. rewrite increasing_cons in Hl |- *.
        apply andb_true_iff in Hl. destruct Hl as [-> _]. exact IH.
Qed.

Lemma sorted_items_increasing {A} (d : files A) :
  NoDup (map fst d) -> increasing (map fst (sorted_items d)) = true.
Proof.
  induction d as [|kv d IH]; simpl; [reflexivity|].
  intros H. inversion H as [|? ? Hk Hd]. subst.
  apply insert_sorted_increasing; [|now apply IH].
  now rewrite sorted_items_keys.
Qed.

Lemma conversations_dates a :
  record_dates (conversations_of a) = map fst (sorted_items (daily_conversations a)).
Proof.
  unfold record_dates, conversations_of. rewrite map_map.
  apply map_ext. now intros [date messages].
Qed.

Lemma conversations_grouped msgs a r :
  grouped msgs (daily_conversations a) ->
  In r (conversations_of a) ->
  dialogue r = dialogue_on (meta_date (meta r)) msgs.
Proof.
  intros [Hnd Hl] Hr. unfold conversations_of in Hr. apply in_map_iff in Hr.
  destruct Hr as ((date & messages) & <- & Hin). simpl.
  apply (proj1 (sorted_items_in _ _)) in Hin. apply in_lookup in Hin; [|assumption].
  rewrite Hl in Hin. destruct (dialogue_on date msgs); [discriminate|]. congruence.
Qed.

Lemma conversations_cover msgs a p :
  grouped msgs (daily_conversations a) ->
  In p msgs -> In (msg_date p) (record_dates (conversations_of a)).
Proof.
  intros [Hnd Hl] Hp. rewrite conversations_dates, sorted_items_keys.
  destruct (lookup (msg_date p) (daily_conversations a)) as [l|] eqn:E.
  - apply lookup_in in E. change (msg_date p) with (fst (msg_date p, l)). now apply in_map.
  - exfalso. rewrite Hl in E.
    assert (Hin : In (entry_of p) (dialogue_on (msg_date p) msgs)).
    { unfold dialogue_on. apply in_map. apply filter_In. split; [assumption|].
      apply text_eqb_refl. }
    destruct (dialogue_on (msg_date p) msgs); [contradiction|discriminate].
Qed.

(** ** What [process_chat_file] writes *)

Lemma same_but_log_refl log w : same_but_log log w w.
Proof. repeat split. Qed.

Lemma same_but_log_trans log w1 w2 w3 :
  same_but_log log w1 w2 -> same_but_log log w2 w3 -> same_but_log log w1 w3.
Proof.
  intros (O1 & C1 & L1) (O2 & C2 & L2). split; [congruence|]. split; [congruence|].
  intros path Hp. rewrite (L2 path Hp). now apply L1.
Qed.

Lemma write_log_frame log x w :
  same_but_log log w (World (write log x (logs w)) (outputs w) (console w)).
Proof.
  split; [reflexivity|]. split; [reflexivity|].
  intros path Hp. simpl. now apply lookup_write_other.
Qed.

Lemma parse_frame U block log w r w' :
  parse_message_block U block log w = (r, w') -> same_but_log log w w'.
Proof.
  intros H. apply parse_outcome in H. destruct r as [[msg|]|e].
  - subst. apply same_but_log_refl.
  - destruct H as (reason & _ & H). unfold log_skip, append_log in H.
    injection H as <-. apply write_log_frame.
  - destruct H as [-> _]. apply same_but_log_refl.
Qed.

Lemma aggregate_blocks_frame U log blocks : forall a w r w',
  aggregate_blocks U blocks log a w = (r, w') -> same_but_log log w w'.
Proof.
  induction blocks as [|b blocks IH]; intros a w r w'; simpl.
  - intros [= <- <-]. apply same_but_log_refl.
  - unfold bind. destruct (parse_message_block U b log w) as [[parsed|e] w1] eqn:Hp.
    + apply parse_frame in Hp. intros H.
      apply same_but_log_trans with w1; [assumption|].
      destruct parsed; now apply IH in H.
    + apply parse_frame in Hp. now intros [= <- <-].
Qed.

Lemma process_chat_file_frame U disk file_path w r w' :
  process_chat_file U disk file_path w = (r, w') ->
  same_but_log (log_path_of file_path) w w'.
Proof.
  unfold process_chat_file, bind, truncate_log. fold (log_path_of file_path).
  set (w0 := World (write (log_path_of file_path) [] (logs w)) (outputs w) (console w)).
  assert (F0 : same_but_log (log_path_of file_path) w w0) by apply write_log_frame.
  destruct (lookup file_path disk) as [lines|].
  - destruct (aggregate_blocks U (segment U lines) (log_path_of file_path)
                (Aggregate [] [] None) w0) as [[a|e] w1] eqn:Ha.
    + apply aggregate_blocks_frame in Ha. intros [= <- <-].
      now apply same_but_log_trans with w0.
    + apply aggregate_blocks_frame in Ha. intros [= <- <-].
      now apply same_but_log_trans with w0.
  - now intros [= <- <-].
Qed.

(** ** The log of a run does not depend on earlier runs *)

Lemma parse_same_log U block log w1 w2 :
  same_log log w1 w2 ->
  fst (parse_message_block U block log w1) = fst (parse_message_block U block log w2)
  /\ same_log log (snd (parse_message_block U block log w1))
                  (snd (parse_message_block U block log w2)).
Proof.
  intros Hs. destruct block as [|first more]; [now split|].
  unfold_parse.
  destruct (re_match U (TIMESTAMP_PATTERN U) (strip_invisible U first)) as [groups|] eqn:Hm.
  - destruct (header_groups _ _ Hm) as (d & t & sd & fl & ->).
    destruct (strptime U (d ++ str " " ++ t)) as [dt|]; [|now split].
    destruct (strip (re_sub U (TRAILING_TIMESTAMP U) []
                       (join [NL] (filter_lines U (fl :: more))))) as [|c full].
    + split; [reflexivity|]. unfold same_log in *. simpl.
      rewrite !lookup_write_same. now rewrite Hs.
    + destruct (is_irrelevant U (c :: full)); [|now split].
      split; [reflexivity|]. unfold same_log in *. simpl.
      rewrite !lookup_write_same. now rewrite Hs.
  - split; [reflexivity|]. unfold same_log in *. simpl.
    rewrite !lookup_write_same. now rewrite Hs.
Qed.

Lemma aggregate_blocks_same_log U log blocks : forall a w1 w2,
  same_log log w1 w2 ->
  fst (aggregate_blocks U blocks log a w1) = fst (aggregate_blocks U blocks log a w2)
  /\ same_log log (snd (aggregate_blocks U blocks log a w1))
                  (snd (aggregate_blocks U blocks log a w2)).
Proof.
  induction blocks as [|b blocks IH]; intros a w1 w2 Hs; simpl; [now split|].
  unfold bind. destruct (parse_same_log U b Hs) as [E1 E2].
  destruct (parse_message_block U b log w1) as [r1 v1],
           (parse_message_block U b log w2) as [r2 v2].
  simpl in E1, E2. subst r2. destruct r1 as [[p|]|e]; [now apply IH|now apply IH|now split].
Qed.

Lemma process_chat_file_same_log U disk file_path w1 w2 :
  fst (process_chat_file U disk file_path w1) = fst (process_chat_file U disk file_path w2)
  /\ same_log (log_path_of file_path) (snd (process_chat_file U disk file_path w1))
                                      (snd (process_chat_file U disk file_path w2)).
Proof.
  unfold process_chat_file, bind, truncate_log. fold (log_path_of file_path).
  set (v1 := World (write (log_path_of file_path) [] (logs w1)) (outputs w1) (console w1)).
  set (v2 := World (write (log_path_of file_path) [] (logs w2)) (outputs w2) (console w2)).
  assert (Hs : same_log (log_path_of file_path) v1 v2)
    by (unfold same_log; simpl; now rewrite !lookup_write_same).
  destruct (lookup file_path disk) as [lines|]; [|now split].
  destruct (aggregate_blocks_same_log U (segment U lines) (Aggregate [] [] None) Hs)
    as [E1 E2].
  destruct (aggregate_blocks U (segment U lines) (log_path_of file_path)
              (Aggregate [] [] None) v1) as [r1 u1],
           (aggregate_blocks U (segment U lines) (log_path_of file_path)
              (Aggregate [] [] None) v2) as [r2 u2].
  simpl in E1, E2. subst r2. now destruct r1.
Qed.

(** ** Files without a header, missing files *)

Lemma process_chat_file_no_header U disk file_path lines w :
  lookup file_path disk = Some lines ->
  forallb (fun l => negb (is_header U l)) lines = true ->
  process_chat_file U disk file_path w
  = (Return ([], str "Unknown"),
     World (write (log_path_of file_path) [] (logs w)) (outputs w) (console w)).
Proof.
  intros Hl Hn. unfold process_chat_file, bind, truncate_log. rewrite Hl.
  now rewrite (segment_no_header U lines Hn).
Qed.

(** ** The batch *)

Lemma process_files_chat U disk f more w convs pn w1 :
  is_chat_file U f = true ->
  process_chat_file U disk (path_join CHAT_FOLDER f) w = (Return (convs, pn), w1) ->
  process_files U disk (f :: more) w
  = process_files U disk more
      (World (logs w1) (write (output_path_of U pn) convs (outputs w1))
             (console w1 ++ [(f, output_path_of U pn)])).
Proof.
  intros Hf Hp. simpl. rewrite Hf. unfold bind at 1. rewrite Hp. reflexivity.
Qed.

Lemma process_files_filter U disk fs : forall w,
  process_files U disk fs w = process_files U disk (filter (is_chat_file U) fs) w.
Proof.
  induction fs as [|f fs IH]; intros w; [reflexivity|].
  cbn [filter]. destruct (is_chat_file U f) eqn:Hf.
  - destruct (process_chat_file U disk (path_join CHAT_FOLDER f) w)
      as [[[convs pn]|e] w1] eqn:Hp.
    + rewrite !(@process_files_chat U disk f _ w convs pn w1 Hf Hp). apply IH.
    + now rewrite !(@process_files_raise U disk f _ w e w1 Hf Hp).
  - rewrite process_files_skip by assumption. apply IH.
Qed.

Lemma process_files_console U disk fs : forall w w',
  process_files U disk fs w = (Return tt, w') ->
  map fst (console w') = map fst (console w) ++ filter (is_chat_file U) fs.
Proof.
  induction fs as [|f fs IH]; intros w w' H.
  - simpl in H. injection H as <-. now rewrite app_nil_r.
  - cbn [filter]. destruct (is_chat_file U f) eqn:Hf.
    + destruct (process_chat_file U disk (path_join CHAT_FOLDER f) w)
        as [[[convs pn]|e] w1] eqn:Hp.
      * rewrite (@process_files_chat U disk f _ w convs pn w1 Hf Hp) in H. apply IH in H. rewrite H. simpl.
        apply process_chat_file_frame in Hp. destruct Hp as (_ & C & _).
        rewrite map_app, C. simpl. now rewrite <- app_assoc.
      * rewrite (@process_files_raise U disk f _ w e w1 Hf Hp) in H. discriminate.
    + rewrite process_files_skip in H by assumption. now apply IH.
Qed.

(** ** The check for texts without words, in full *)

Lemma emoji_only_fullmatch U s :
  re_fullmatch U (EMOJI_ONLY_PATTERN U) s = punctuation_only U s.
Proof.
  unfold re_fullmatch.
  destruct (m U (EMOJI_ONLY_PATTERN U) (start s) _) as [res|] eqn:E.
  - apply m_sound in E. destruct E as (st' & Hm & Hk).
    destruct Hm as (m1 & (_ & ->) & m2 & Hmany & m3 & (_ & ->) & E3). simpl in E3. subst st'.
    destruct Hmany as (run & Hall & Hlen & (R & _) & _).
    destruct (rest m2); [|discriminate]. simpl in R. rewrite app_nil_r in R. subst s.
    destruct run; [simpl in Hlen; lia|]. symmetry. exact Hall.
  - destruct s as [|c s]; [reflexivity|]. unfold punctuation_only.
    destruct (forallb _ (c :: s)) eqn:Hall; [|reflexivity].
    exfalso. revert E.
    apply (@m_complete U (EMOJI_ONLY_PATTERN U) (start (c :: s))
             (MState (last_char None (c :: s)) [] (List.length (c :: s)) []));
      [|discriminate].
    exists (start (c :: s)). split; [now split|].
    exists (MState (last_char None (c :: s)) [] (List.length (c :: s)) []). split.
    + exists (c :: s). split; [assumption|]. split; [simpl; lia|].
      split; [|reflexivity]. split; [simpl; now rewrite app_nil_r|]. now split.
    + eexists. split; [|reflexivity]. split; [now left|reflexivity].
Qed.

Lemma is_irrelevant_cases U t :
  is_irrelevant U t
  = existsb (fun pattern => re_fullmatch U pattern (strip t)) (MEDIA_PATTERNS U)
    || re_fullmatch U (CALL_PATTERN U) (strip t)
    || punctuation_only U (filter (fun c => negb (emoji c)) (strip t))
    || existsb (text_eqb (lower_text U (strip t))) ACK_TOKENS.
Proof.
  unfold is_irrelevant. rewrite remove_emojis_filter, emoji_only_fullmatch.
  destruct (existsb _ (MEDIA_PATTERNS U)); [reflexivity|].
  destruct (re_fullmatch U (CALL_PATTERN U) (strip t)); [reflexivity|].
  destruct (punctuation_only U _); [reflexivity|].
  now destruct (existsb _ ACK_TOKENS).
Qed.

(** ** Names of output files *)

Lemma safe_name_filter U name :
  safe_name_of U name
  = map (fun c => if (c =? 32)%N then 95%N else c) (strip (filter (name_char U) name)).
Proof.
  unfold safe_name_of, UNSAFE_NAME_CHAR. rewrite re_sub_chr_delete.
  do 2 f_equal. apply filter_ext. intros c. unfold name_char. apply negb_involutive.
Qed.

Lemma safe_name_chars U name c :
  In c (safe_name_of U name) ->
  c <> 32%N /\ name_char U c = true /\ (c = 95%N \/ In c name).
Proof.
  rewrite safe_name_filter. intros H. apply in_map_iff in H.
  destruct H as (c0 & E & H). apply strip_incl in H. apply filter_In in H.
  destruct H as [Hin Hc]. destruct (c0 =? 32)%N eqn:E32.
  - subst c. split; [discriminate|]. split; [|now left].
    unfold name_char, is_word. simpl. now rewrite orb_true_r.
  - subst c0. apply N.eqb_neq in E32. auto.
Qed.

Lemma basename_join a x :
  existsb (N.eqb 47) x = false -> basename (a ++ 47%N :: x) = x.
Proof.
  intros Hx. induction a as [|c a IH].
  - cbn [app basename]. now rewrite Hx.
  - assert (E : existsb (N.eqb 47) (a ++ 47%N :: x) = true).
    { rewrite existsb_app. cbn [existsb]. rewrite N.eqb_refl. apply orb_true_r. }
    cbn [app basename]. now rewrite E.
Qed.

(** ** Texts that no pattern of [clean_message] touches *)

Lemma phone_needs_digit U st st' :
  matches U (PHONE_PATTERN U) st st' -> exists c, In c (rest st) /\ is_digit U c = true.
Proof.
  unfold PHONE_PATTERN. unfold seqs at 1. cbn [fold_right].
  intros (m1 & (_ & ->) & m2 & H2 & m3 & H3 & m4 & H4 & _).
  apply (@matches_consumed U (fun _ => true)) in H2; [|apply all_chars_in].
  apply (@matches_consumed U (fun _ => true)) in H3; [|apply all_chars_in].
  destruct H2 as (r2 & (R2 & _) & _), H3 as (r3 & (R3 & _) & _).
  apply (@matches_run U (is_digit U)) in H4; [|exact I|intros c Hc; exact Hc].
  destruct H4 as (run & (R4 & _) & A & L & _).
  destruct run as [|d run]; [simpl in L; lia|].
  exists d. split.
  - rewrite R2, R3, R4. apply in_or_app. right. apply in_or_app. right. now left.
  - simpl in A. now apply andb_true_iff in A.
Qed.

Section Untouched.

Variable U : Unicode.
Variable t : text.
Hypothesis Ht : forallb (fun c => negb (redactable U c)) t = true.

Lemma untouched_avoids (q : char -> bool) :
  (forall c, q c = true -> redactable U c = true) ->
  forallb (fun c => negb (q c)) t = true.
Proof.
  intros H. rewrite forallb_forall in *. intros c Hc. specialize (Ht c Hc).
  destruct (q c) eqn:E; [|reflexivity]. now rewrite (H c E) in Ht.
Qed.

Lemma untouched_by U' r (q : char -> bool) :
  first_ok q r -> 1 <= min_len r ->
  (forall c, q c = true -> redactable U c = true) ->
  no_match_in U' r t.
Proof.
  intros Hq Hmin H. apply no_match_first with q; [assumption|assumption|].
  now apply untouched_avoids.
Qed.

Lemma clean_message_untouched : clean_message U t = strip t.
Proof.
  unfold clean_message, remove_emojis.
  rewrite (@re_sub_unchanged U EMOJI_PATTERN).
  2:{ apply untouched_by with emoji; [first_ok_tac; auto|cbn; lia|].
      intros c Hc. unfold redactable. now rewrite Hc. }
  rewrite (@re_sub_unchanged U LINK_PATTERN).
  2:{ apply no_match_in_chars with (N.eqb 58); [apply link_needs_colon|].
      apply untouched_avoids. intros c Hc. apply N.eqb_eq in Hc. subst c.
      unfold redactable. simpl. now rewrite !orb_true_r. }
  rewrite (@re_sub_unchanged U (EDITED_PATTERN U)).
  2:{ apply untouched_by with (ieq U 60%N); [first_ok_tac; auto|cbn; lia|].
      intros c Hc. unfold redactable. rewrite Hc. now rewrite !orb_true_r. }
  rewrite (@re_sub_unchanged U IBAN_PATTERN).
  2:{ apply untouched_by with upper_az; [first_ok_tac; auto|cbn; lia|].
      intros c Hc. unfold redactable. rewrite Hc. now rewrite !orb_true_r. }
  rewrite (@re_sub_unchanged U RIB_PATTERN).
  2:{ apply untouched_by with upper_or_digit; [first_ok_tac; auto|cbn; lia|].
      intros c Hc. unfold redactable. unfold upper_or_digit in Hc.
      apply orb_true_iff in Hc. destruct Hc as [-> | ->]; now rewrite !orb_true_r. }
  rewrite (@re_sub_unchanged U (CREDIT_CARD_PATTERN U)).
  2:{ apply untouched_by with (is_digit U); [first_ok_tac; auto|cbn; lia|].
      intros c Hc. unfold redactable. rewrite Hc. now rewrite !orb_true_r. }
  rewrite (@re_sub_unchanged U (PHONE_PATTERN U)).
  2:{ apply no_match_in_chars with (is_digit U); [apply phone_needs_digit|].
      apply untouched_avoids. intros c Hc. unfold redactable. rewrite Hc.
      now rewrite !orb_true_r. }
  rewrite (@re_sub_unchanged U EMAIL_PATTERN).
  2:{ apply no_match_in_chars with (N.eqb 64); [apply email_needs_at|].
      apply untouched_avoids. intros c Hc. apply N.eqb_eq in Hc. subst c.
      unfold redactable. simpl. now rewrite !orb_true_r. }
  rewrite (@re_sub_unchanged U BIC_PATTERN).
  2:{ apply untouched_by with upper_az; [first_ok_tac; auto|cbn; lia|].
      intros c Hc. unfold redactable. rewrite Hc. now rewrite !orb_true_r. }
  reflexivity.
Qed.

End Untouched.

(** ** Greedy runs that give characters back *)

Section GreedyRun.

Variable p : char -> bool.
Variable k : cont.
Variable cs : list text.
Variable s' : text.
Hypothesis maximal : match s' with c :: _ => p c = false | [] => True end.

Lemma many_greedy_fail : forall run lo pr n,
  forallb p run = true ->
  (forall r r', run = r ++ r' ->
                k (MState (last_char pr r) (r' ++ s') (n + List.length r) cs) = None) ->
  many_greedy p lo pr (run ++ s') n cs k = None.
Proof.
  induction run as [|c run IH]; intros lo pr n Hall Hk.
  - pose proof (Hk [] [] eq_refl) as H0. simpl in H0. rewrite Nat.add_0_r in H0.
    simpl. destruct s' as [|c s'']; simpl.
    + destruct lo; [exact H0|reflexivity].
    + rewrite maximal. destruct lo; [exact H0|reflexivity].
  - simpl in Hall. apply andb_true_iff in Hall. destruct Hall as [Hc Hall].
    simpl. rewrite Hc. rewrite IH; [| assumption |].
    + simpl. destruct lo; [|reflexivity].
      pose proof (Hk [] (c :: run) eq_refl) as H0. simpl in H0.
      now rewrite Nat.add_0_r in H0.
    + intros r r' E. pose proof (Hk (c :: r) r') as H1. simpl in H1.
      rewrite Nat.add_succ_r in H1. apply H1. now rewrite E.
Qed.

Lemma many_greedy_backtrack res : forall run1 run2 lo pr n,
  forallb p run1 = true -> forallb p run2 = true -> lo <= List.length run1 ->
  (forall r r', run2 = r ++ r' -> r <> [] ->
                k (MState (last_char pr (run1 ++ r)) (r' ++ s')
                          (n + List.length (run1 ++ r)) cs) = None) ->
  k (MState (last_char pr run1) (run2 ++ s') (n + List.length run1) cs) = Some res ->
  many_greedy p lo pr (run1 ++ run2 ++ s') n cs k = Some res.
Proof.
  induction run1 as [|c run1 IH]; intros run2 lo pr n H1 H2 Hlo Hfail Hk.
  - simpl in Hlo. assert (lo = 0) by lia. subst lo.
    simpl in Hk. rewrite Nat.add_0_r in Hk. simpl app.
    destruct run2 as [|c run2].
    + simpl. destruct s' as [|c s'']; simpl; [exact Hk|]. now rewrite maximal.
    + simpl in H2. apply andb_true_iff in H2. destruct H2 as [Hc H2].
      simpl. rewrite Hc. rewrite many_greedy_fail; [exact Hk|assumption|].
      intros r r' E. pose proof (Hfail (c :: r) r') as H0. simpl in H0.
      rewrite Nat.add_succ_r in H0. apply H0; [now rewrite E|discriminate].
  - simpl in H1. apply andb_true_iff in H1. destruct H1 as [Hc H1].
    simpl. rewrite Hc. rewrite (IH run2 (Nat.pred lo) (Some c) (S n)); try assumption.
    + reflexivity.
    + simpl in Hlo. lia.
    + intros r r' E Hne. pose proof (Hfail r r' E Hne) as H0. simpl in H0.
      now rewrite Nat.add_succ_r in H0.
    + simpl in Hk. now rewrite Nat.add_succ_r in Hk.
Qed.

Lemma span_len_run : forall run,
  forallb p run = true -> span_len p (run ++ s') = List.length run.
Proof.
  induction run as [|c run IH]; simpl; intros H.
  - destruct s' as [|c s'']; [reflexivity|]. simpl. now rewrite maximal.
  - apply andb_true_iff in H. destruct H as [-> H]. now rewrite IH.
Qed.

End GreedyRun.

(** ** One character of the pattern *)

Lemma m_chr_here U c pr s n cs k :
  m U (chr c) (MState pr (c :: s) n cs) k = k (MState (Some c) s (S n) cs).
Proof. simpl. now rewrite N.eqb_refl. Qed.

Lemma m_chr_other U c x pr s n cs k :
  (c =? x)%N = false -> m U (chr c) (MState pr (x :: s) n cs) k = None.
Proof. intros H. simpl. now rewrite H. Qed.

(** ** A substitution that takes the first match found *)

Lemma sub_scan_take U r repl pr a b st' :
  a <> [] ->
  m U r (MState pr (a ++ b) 0 []) Some = Some st' -> pos st' = List.length a ->
  sub_scan U r repl pr (a ++ b) 0 = repl ++ sub_scan U r repl (last_char pr a) b 0.
Proof.
  intros Hne Hm Hp. destruct a as [|c a]; [contradiction|].
  simpl in *. rewrite Hm, Hp. f_equal. apply sub_scan_skip.
Qed.

Lemma last_char_in_run pr (t : text) c :
  t <> [] -> last_char pr t = Some c -> In c t.
Proof.
  intros Hne. rewrite last_char_rev. destruct (rev t) as [|x l] eqn:E.
  - destruct t; [contradiction|]. apply (f_equal (@List.length char)) in E.
    rewrite length_rev in E. discriminate.
  - intros [= ->]. apply in_rev. rewrite E. now left.
Qed.

(** ** The e-mail pattern on a line with one address *)

Lemma space_not_email_local c : isspace c = true -> email_local c = false.
Proof. intros H. unfold email_local. decide_bool. Qed.

Lemma space_not_email_domain c : isspace c = true -> email_domain c = false.
Proof. intros H. unfold email_domain. decide_bool. Qed.

Section EmailLine.

Variable U : Unicode.
Hypothesis HU : standard U.

Variables pre email post : text.
Hypothesis Hpre : forallb filler pre = true.
Hypothesis Hpost : forallb filler post = true.
Hypothesis Hemail : email_shaped email.
Hypothesis Hbefore : ends_with_space pre = true.
Hypothesis Hafter : starts_with_space post = true.

Lemma email_line_chars : forallb email_line_char (pre ++ email ++ post) = true.
Proof.
  destruct Hemail as (loc & label & tld & -> & _ & Hloc & _ & Hlab & Htld & _).
  assert (F : forall t, forallb filler t = true -> forallb email_line_char t = true).
  { intros t. apply forallb_impl. intros c Hc. unfold email_line_char. now rewrite Hc. }
  assert (L : forall t, forallb lower_az t = true -> forallb email_line_char t = true).
  { intros t. apply forallb_impl. intros c Hc. unfold email_line_char, filler.
    rewrite Hc. now rewrite orb_true_r. }
  repeat (rewrite forallb_app || cbn [forallb]).
  change (@forallb N) with (@forallb char).
  rewrite (F pre Hpre), (F post Hpost), (L loc Hloc), (L label Hlab), (L tld Htld).
  reflexivity.
Qed.

Lemma email_line_char_plain c : email_line_char c = true -> plain c = true.
Proof. intros H. unfold email_line_char in H. decide_bool. Qed.

Lemma email_line_not_digit c : email_line_char c = true -> is_digit U c = false.
Proof.
  intros H. rewrite (is_digit_std HU c (email_line_char_plain c H)).
  unfold is_digit, latin1, decimal, latin1_decimal.
  assert (in_range 48 57 c = false) as -> by (unfold email_line_char in H; decide_bool).
  reflexivity.
Qed.

Lemma email_line_not_lt c : email_line_char c = true -> ieq U 60%N c = false.
Proof.
  intros H. rewrite (std_ieq HU); [|reflexivity|now apply email_line_char_plain].
  change (latin1_lower1 60%N) with 60%N. unfold latin1_lower1.
  unfold email_line_char in H.
  destruct (in_range 65 90 c || in_range 192 214 c || in_range 216 222 c) eqn:E; decide_bool.
Qed.

Lemma email_line_avoids (q : char -> bool) :
  (forall c, email_line_char c = true -> q c = false) ->
  forallb (fun c => negb (q c)) (pre ++ email ++ post) = true.
Proof. intros H. apply chars_avoid with email_line_char; [assumption|apply email_line_chars]. Qed.

(** No address starts inside [pre]. *)
Lemma no_email_before pre' s1 pr' st' :
  pre = pre' ++ s1 -> s1 <> [] ->
  ~ matches U EMAIL_PATTERN (MState pr' (s1 ++ email ++ post) 0 []) st'.
Proof.
  intros Epre Hne (m1 & H1 & m2 & H2 & _).
  apply matches_many in H1. destruct H1 as (run & (R1 & _) & A1 & L1 & _).
  apply matches_chr in H2. destruct H2 as ((R2 & _) & _).
  simpl in R1, R2. rewrite R2 in R1.
  assert (Hsp : exists sp, In sp s1 /\ isspace sp = true).
  { unfold ends_with_space in Hbefore. rewrite Epre, last_char_app in Hbefore.
    destruct (last_char (last_char None pre') s1) as [sp|] eqn:E.
    - exists sp. split; [|assumption]. now apply last_char_in_run with (last_char None pre').
    - exfalso. rewrite last_char_rev in E. destruct (rev s1) as [|x l] eqn:Er; [|discriminate].
      destruct s1; [contradiction|]. apply (f_equal (@List.length char)) in Er.
      rewrite length_rev in Er. discriminate. }
  destruct Hsp as (sp & Hin & Hsp).
  assert (Hno : forall c, In c s1 -> c <> 64%N).
  { intros c Hc ->. rewrite forallb_forall in Hpre.
    assert (In 64%N pre) as Hp by (rewrite Epre; apply in_or_app; now right).
    apply Hpre in Hp. discriminate. }
  symmetry in R1. apply split_app in R1.
  destruct R1 as [(q & Hq & Erun & _)|(p2 & Es1 & E2)].
  - rewrite forallb_forall in A1.
    assert (In sp run) as Hr by (rewrite Erun; apply in_or_app; now left).
    apply A1 in Hr. rewrite (space_not_email_local sp Hsp) in Hr. discriminate.
  - destruct p2 as [|c p2].
    + simpl in E2. destruct Hemail as (loc & label & tld & -> & Hl & Hloc & _).
      destruct loc as [|x loc]; [contradiction|]. simpl in E2. injection E2 as <- _.
      simpl in Hloc. discriminate Hloc.
    + simpl in E2. injection E2 as <- _.
      apply (Hno 64%N); [|reflexivity]. rewrite Es1. apply in_or_app. right. now left.
Qed.

Lemma post_maximal (q : char -> bool) :
  (forall c, isspace c = true -> q c = false) ->
  match post with c :: _ => q c = false | [] => True end.
Proof.
  intros H. unfold starts_with_space in Hafter. destruct post; [exact I|]. now apply H.
Qed.

(** The first match found at the address is the address. *)
Lemma email_found pr :
  m U EMAIL_PATTERN (MState pr (email ++ post) 0 []) Some
  = Some (MState (last_char pr email) post (List.length email) []).
Proof.
  destruct Hemail as (loc & label & tld & -> & Hl & Hloc & Hb & Hlab & Htld & Ht2).
  assert (Dl : forall t, forallb lower_az t = true -> forallb email_local t = true).
  { intros t. apply forallb_impl. intros c Hc. unfold email_local. now rewrite Hc. }
  assert (Dd : forall t, forallb lower_az t = true -> forallb email_domain t = true).
  { intros t. apply forallb_impl. intros c Hc. unfold email_domain. now rewrite Hc. }
  set (k3 := fun st => m U (seqs [chr 46; Many lower_az 2 true]) st Some).
  set (k1 := fun st => m U (seqs [chr 64; Many email_domain 1 true; chr 46;
                                  Many lower_az 2 true]) st Some).
  assert (Mlow : match post with c :: _ => lower_az c = false | [] => True end).
  { apply post_maximal. intros c Hc. decide_bool. }
  assert (Mdom : match post with c :: _ => email_domain c = false | [] => True end).
  { apply post_maximal. apply space_not_email_domain. }
  (* the top-level domain *)
  assert (S3 : forall pr3 n3,
             k3 (MState pr3 ((46%N :: tld) ++ post) n3 [])
             = Some (MState (last_char (Some 46%N) tld) post (S n3 + List.length tld) [])).
  { intros pr3 n3. unfold k3, seqs. cbn [fold_right app m].
    rewrite m_chr_here. cbn [prev rest pos caps].
    change (fun st'0 : mstate => Some st'0) with (@Some mstate).
    change (@app N) with (@app char). change (@List.length N) with (@List.length char).
    rewrite many_greedy_all, (span_len_run lower_az post Mlow tld Htld).
    assert (L2 : (2 <=? List.length tld) = true) by (apply Nat.leb_le; exact Ht2).
    rewrite L2.
    rewrite firstn_app, firstn_all, Nat.sub_diag, app_nil_r.
    rewrite skipn_app, skipn_all, Nat.sub_diag. reflexivity. }
  (* the domain label, found by giving back the dot and what follows *)
  assert (S2 : forall pr2 n2,
             many_greedy email_domain 1 pr2 (label ++ (46%N :: tld) ++ post) n2 [] k3
             = Some (MState (last_char (Some 46%N) tld) post
                            (S (n2 + List.length label) + List.length tld) [])).
  { intros pr2 n2. apply many_greedy_backtrack.
    - exact Mdom.
    - now apply Dd.
    - change (forallb email_domain (46%N :: tld) = true). simpl. now apply Dd.
    - destruct label; [contradiction|simpl; lia].
    - intros r r' E Hne. destruct r as [|x r]; [contradiction|].
      injection E as _ E. unfold k3, seqs. cbn [fold_right m].
      destruct r' as [|y r'].
      + cbn [app]. destruct post as [|z post']; [reflexivity|].
        apply m_chr_other.
        unfold starts_with_space in Hafter. clear -Hafter. decide_bool.
      + cbn [app]. apply m_chr_other.
        assert (Hy : lower_az y = true).
        { rewrite E, forallb_app in Htld. apply andb_true_iff in Htld.
          destruct Htld as [_ H]. simpl in H. now apply andb_true_iff in H. }
        clear -Hy. decide_bool.
    - apply S3. }
  (* the local part *)
  change (m U EMAIL_PATTERN (MState pr ((loc ++ 64%N :: label ++ 46%N :: tld) ++ post) 0 []) Some)
    with (many_greedy email_local 1 pr ((loc ++ 64%N :: label ++ 46%N :: tld) ++ post) 0 [] k1).
  replace ((loc ++ 64%N :: label ++ 46%N :: tld) ++ post)
    with (loc ++ [] ++ (64%N :: label ++ (46%N :: tld) ++ post))
    by (repeat (simpl; rewrite <- app_assoc); reflexivity).
  rewrite (@many_greedy_backtrack email_local k1 [] (64%N :: label ++ (46%N :: tld) ++ post)
             eq_refl (MState (last_char (Some 46%N) tld) post
                             (S (S (0 + List.length loc) + List.length label)
                              + List.length tld) [])).
  - f_equal. f_equal.
    + rewrite last_char_app. simpl. rewrite last_char_app. reflexivity.
    + rewrite length_app. simpl. rewrite length_app. simpl. lia.
  - now apply Dl.
  - reflexivity.
  - destruct loc; [contradiction|simpl; lia].
  - intros r r' E Hne. destruct r; [contradiction|discriminate].
  - unfold k1, seqs. cbn [fold_right app m].
    rewrite m_chr_here. apply S2.
Qed.

(** The pass of the e-mail pattern replaces the address and nothing else. *)
Lemma email_pass_takes_address :
  re_sub U EMAIL_PATTERN (str "[REDACTED_EMAIL]") (pre ++ email ++ post)
  = pre ++ str "[REDACTED_EMAIL]" ++ post.
Proof.
  unfold re_sub. rewrite sub_scan_pass by (apply no_email_before).
  f_equal.
  assert (Hne : email <> []).
  { destruct Hemail as (loc & label & tld & -> & Hl & _). destruct loc; [contradiction|discriminate]. }
  rewrite (@sub_scan_take U EMAIL_PATTERN (str "[REDACTED_EMAIL]") _ email post _ Hne
             (email_found _) eq_refl).
  f_equal. apply sub_scan_no_match.
  apply no_match_in_chars with (N.eqb 64); [apply email_needs_at|].
  apply chars_avoid with filler; [|assumption]. intros c Hc. decide_bool.
Qed.

Lemma clean_email_line :
  clean_message U (pre ++ email ++ post) = strip (pre ++ str "[REDACTED_EMAIL]" ++ post).
Proof.
  unfold clean_message, remove_emojis.
  rewrite (@re_sub_unchanged U EMOJI_PATTERN).
  2:{ apply no_match_first with emoji; [first_ok_tac; auto|cbn; lia|].
      apply email_line_avoids. intros c Hc. unfold email_line_char in Hc. decide_bool. }
  rewrite (@re_sub_unchanged U LINK_PATTERN).
  2:{ apply no_match_in_chars with (N.eqb 58); [apply link_needs_colon|].
      apply email_line_avoids. intros c Hc. unfold email_line_char in Hc. decide_bool. }
  rewrite (@re_sub_unchanged U (EDITED_PATTERN U)).
  2:{ apply no_match_first with (ieq U 60%N); [first_ok_tac; auto|cbn; lia|].
      apply email_line_avoids. apply email_line_not_lt. }
  rewrite (@re_sub_unchanged U IBAN_PATTERN).
  2:{ apply no_match_first with upper_az; [first_ok_tac; auto|cbn; lia|].
      apply email_line_avoids. intros c Hc. unfold email_line_char in Hc. decide_bool. }
  rewrite (@re_sub_unchanged U RIB_PATTERN).
  2:{ apply no_match_first with upper_or_digit; [first_ok_tac; auto|cbn; lia|].
      apply email_line_avoids. intros c Hc. unfold email_line_char in Hc. decide_bool. }
  rewrite (@re_sub_unchanged U (CREDIT_CARD_PATTERN U)).
  2:{ apply no_match_first with (is_digit U); [first_ok_tac; auto|cbn; lia|].
      apply email_line_avoids. apply email_line_not_digit. }
  rewrite (@re_sub_unchanged U (PHONE_PATTERN U)).
  2:{ apply no_match_in_chars with (is_digit U); [apply phone_needs_digit|].
      apply email_line_avoids. apply email_line_not_digit. }
  rewrite email_pass_takes_address.
  rewrite (@re_sub_unchanged U BIC_PATTERN); [reflexivity|].
  rewrite <- (app_nil_r (pre ++ str "[REDACTED_EMAIL]" ++ post)).
  apply (bic_pass HU).
  - apply no_match_in_empty. cbn. lia.
  - apply stream_app; [now apply stream_fillers|].
    apply stream_token; [simpl; tauto|now apply stream_fillers].
Qed.

End EmailLine.

(** ** Lines that are headers *)

Lemma matches_chr_here U c pr tail n cs :
  matches U (chr c) (MState pr (c :: tail) n cs) (MState (Some c) tail (S n) cs).
Proof. exists c, tail. split; [reflexivity|]. split; [apply N.eqb_refl|reflexivity]. Qed.

Lemma matches_seq_here U a b st mid st' :
  matches U a st mid -> matches U b mid st' -> matches U (Seq a b) st st'.
Proof. intros Ha Hb. exists mid. split; assumption. Qed.

Lemma matches_chars_here U l : forall pr tail n cs,
  matches U (fold_right (fun c r => Seq (chr c) r) Eps l)
          (MState pr (l ++ tail) n cs)
          (MState (last_char pr l) tail (n + List.length l) cs).
Proof.
  induction l as [|c l IH]; intros pr tail n cs.
  - simpl. now rewrite Nat.add_0_r.
  - cbn [fold_right app List.length]. rewrite Nat.add_succ_r.
    change (last_char pr (c :: l)) with (last_char (Some c) l).
    apply matches_seq_here with (MState (Some c) (l ++ tail) (S n) cs).
    + apply matches_chr_here.
    + apply (IH (Some c) tail (S n) cs).
Qed.

Lemma matches_lit_here U s pr tail n cs :
  matches U (lit s) (MState pr (str s ++ tail) n cs)
          (MState (last_char pr (str s)) tail (n + List.length (str s)) cs).
Proof. apply matches_chars_here. Qed.

Lemma matches_digits_here U k run pr tail n cs :
  digits U k run ->
  matches U (times k (Chr (is_digit U))) (MState pr (run ++ tail) n cs)
          (MState (last_char pr run) tail (n + List.length run) cs).
Proof. intros [L A]. apply matches_rep_chr; [assumption|lia]. Qed.

Lemma matches_many_here U p lo g run pr tail n cs :
  forallb p run = true -> lo <= List.length run ->
  matches U (Many p lo g) (MState pr (run ++ tail) n cs)
          (MState (last_char pr run) tail (n + List.length run) cs).
Proof.
  intros A L. exists run. split; [assumption|]. split; [assumption|].
  split; [|reflexivity]. split; [reflexivity|]. split; reflexivity.
Qed.

Lemma matches_grp_here U a st st1 : matches U a st st1 -> matches U (Grp a) st (capture st st1).
Proof. intros H. exists st1. split; [assumption|reflexivity]. Qed.

Lemma header_line_nested dd mm yyyy hh mi ss sender first_line tail :
  header_line (dd ++ str "/" ++ mm ++ str "/" ++ yyyy) (hh ++ str ":" ++ mi ++ str ":" ++ ss)
              sender first_line ++ tail
  = 91%N :: dd ++ 47%N :: mm ++ 47%N :: yyyy ++ str ", " ++ hh ++ 58%N :: mi ++ 58%N :: ss
    ++ str "] " ++ sender ++ str ": " ++ first_line ++ tail.
Proof. unfold header_line. repeat (simpl; rewrite <- app_assoc). reflexivity. Qed.

Lemma shaped_line_matches U dd mm yyyy hh mi ss sender first_line tail :
  digits U 2 dd -> digits U 2 mm -> digits U 4 yyyy ->
  digits U 2 hh -> digits U 2 mi -> digits U 2 ss ->
  sender <> [] -> forallb dot sender = true -> forallb dot first_line = true ->
  exists st',
    matches U (TIMESTAMP_PATTERN U)
      (start (header_line (dd ++ str "/" ++ mm ++ str "/" ++ yyyy)
                          (hh ++ str ":" ++ mi ++ str ":" ++ ss) sender first_line ++ tail))
      st'.
Proof.
  intros Ddd Dmm Dyy Dhh Dmi Dss Hne Hs Hf.
  rewrite header_line_nested. unfold start, TIMESTAMP_PATTERN.
  unfold seqs at 1. cbn [fold_right].
  eexists.
  eapply matches_seq_here; [apply matches_chr_here|].
  eapply matches_seq_here.
  { apply matches_grp_here. unfold seqs. cbn [fold_right].
    eapply matches_seq_here; [apply (matches_digits_here _ _ _ _ Ddd)|].
    eapply matches_seq_here; [apply matches_chr_here|].
    eapply matches_seq_here; [apply (matches_digits_here _ _ _ _ Dmm)|].
    eapply matches_seq_here; [apply matches_chr_here|].
    eapply matches_seq_here; [apply (matches_digits_here _ _ _ _ Dyy)|].
    reflexivity. }
  unfold capture. cbn [prev rest pos caps].
  eapply matches_seq_here; [apply matches_lit_here|].
  eapply matches_seq_here.
  { apply matches_grp_here. unfold seqs. cbn [fold_right].
    eapply matches_seq_here; [apply (matches_digits_here _ _ _ _ Dhh)|].
    eapply matches_seq_here; [apply matches_chr_here|].
    eapply matches_seq_here; [apply (matches_digits_here _ _ _ _ Dmi)|].
    eapply matches_seq_here; [apply matches_chr_here|].
    eapply matches_seq_here; [apply (matches_digits_here _ _ _ _ Dss)|].
    reflexivity. }
  unfold capture. cbn [prev rest pos caps].
  eapply matches_seq_here; [apply matches_lit_here|].
  eapply matches_seq_here.
  { apply matches_grp_here. apply matches_many_here; [exact Hs|].
    destruct sender; [contradiction|simpl; lia]. }
  unfold capture. cbn [prev rest pos caps].
  eapply matches_seq_here; [apply matches_lit_here|].
  eapply matches_seq_here.
  { apply matches_grp_here. apply matches_many_here; [exact Hf|lia]. }
  reflexivity.
Qed.

Lemma shaped_line_is_header U dd mm yyyy hh mi ss sender first_line tail :
  digits U 2 dd -> digits U 2 mm -> digits U 4 yyyy ->
  digits U 2 hh -> digits U 2 mi -> digits U 2 ss ->
  sender <> [] -> forallb dot sender = true -> forallb dot first_line = true ->
  matches_header U (header_line (dd ++ str "/" ++ mm ++ str "/" ++ yyyy)
                                (hh ++ str ":" ++ mi ++ str ":" ++ ss) sender first_line
                    ++ tail) = true.
Proof.
  intros Ddd Dmm Dyy Dhh Dmi Dss Hne Hs Hf.
  destruct (@shaped_line_matches U dd mm yyyy hh mi ss sender first_line tail
              Ddd Dmm Dyy Dhh Dmi Dss Hne Hs Hf) as (st' & H).
  unfold matches_header, re_match.
  destruct (m U (TIMESTAMP_PATTERN U) _ Some) eqn:E; [reflexivity|].
  exfalso. revert E. apply (m_complete U _ _ _ Some H). discriminate.
Qed.

(** ** The groups of a header without a colon in its sender and text *)

Lemma app_same_length {A} (a a' b b' : list A) :
  a ++ b = a' ++ b' -> List.length a = List.length a' -> a = a' /\ b = b'.
Proof.
  revert a'. induction a as [|x a IH]; intros [|x' a'] E L; simpl in *; try discriminate.
  - now split.
  - injection E as -> E. injection L as L. destruct (IH _ E L) as [-> ->]. now split.
Qed.

Lemma first_separator (x : char) : forall a a' b b',
  a ++ x :: b = a' ++ x :: b' -> ~ In x a -> ~ In x b -> a = a'.
Proof.
  induction a as [|c a IH]; intros [|c' a'] b b' E Ha Hb; simpl in *.
  - reflexivity.
  - injection E as <- E. exfalso. apply Hb. rewrite E. apply in_or_app. right. now left.
  - injection E as -> _. exfalso. apply Ha. now left.
  - injection E as <- E. f_equal. apply (IH a' b b' E); [|assumption].
    intros H. apply Ha. now right.
Qed.

Lemma date_length U dd mm yyyy :
  digits U 2 dd -> digits U 2 mm -> digits U 4 yyyy ->
  List.length (dd ++ str "/" ++ mm ++ str "/" ++ yyyy) = 10.
Proof. intros [L1 _] [L2 _] [L3 _]. rewrite !length_app. simpl. lia. Qed.

Lemma time_length U hh mi ss :
  digits U 2 hh -> digits U 2 mi -> digits U 2 ss ->
  List.length (hh ++ str ":" ++ mi ++ str ":" ++ ss) = 8.
Proof. intros [L1 _] [L2 _] [L3 _]. rewrite !length_app. simpl. lia. Qed.

Lemma header_groups_exact U dd mm yyyy hh mi ss sender body :
  digits U 2 dd -> digits U 2 mm -> digits U 4 yyyy ->
  digits U 2 hh -> digits U 2 mi -> digits U 2 ss ->
  sender <> [] -> forallb dot sender = true -> ~ In 58%N sender ->
  forallb dot body = true -> ~ In 58%N body ->
  re_match U (TIMESTAMP_PATTERN U)
    (header_line (dd ++ str "/" ++ mm ++ str "/" ++ yyyy)
                 (hh ++ str ":" ++ mi ++ str ":" ++ ss) sender body)
  = Some [ dd ++ str "/" ++ mm ++ str "/" ++ yyyy;
           hh ++ str ":" ++ mi ++ str ":" ++ ss; sender; body ].
Proof.
  intros Ddd Dmm Dyy Dhh Dmi Dss Hne Hs Hcs Hb Hcb.
  pose proof (@shaped_line_is_header U dd mm yyyy hh mi ss sender body []
                Ddd Dmm Dyy Dhh Dmi Dss Hne Hs Hb) as Hh.
  rewrite app_nil_r in Hh. unfold matches_header in Hh.
  destruct (re_match U (TIMESTAMP_PATTERN U) _) as [groups|] eqn:E; [|discriminate].
  clear Hh. f_equal. apply header_shape in E.
  inversion E as [dd' mm' yyyy' hh' mi' ss' sender' first_line' tail'
                  Ddd' Dmm' Dyy' Dhh' Dmi' Dss' Hne' Hs' Hf' Hend Eline Egroups].
  clear E. unfold header_line in Eline. simpl in Eline.
  apply app_same_length in Eline;
    [|transitivity 10; [apply (date_length Ddd' Dmm' Dyy')
                       |symmetry; apply (date_length Ddd Dmm Dyy)]].
  destruct Eline as [ED Eline]. simpl in Eline. injection Eline as Eline.
  apply app_same_length in Eline;
    [|transitivity 8; [apply (time_length Dhh' Dmi' Dss')
                      |symmetry; apply (time_length Dhh Dmi Dss)]].
  destruct Eline as [ET Eline]. simpl in Eline. injection Eline as Eline.
  assert (Es : sender' = sender).
  { symmetry. apply (first_separator 58%N _ _ _ _ (eq_sym Eline)); [assumption|].
    intros [H|H]; [discriminate|contradiction]. }
  subst sender'. apply app_inv_head in Eline. injection Eline as Eline.
  assert (Et : tail' = []).
  { destruct tail' as [|c tl]; [reflexivity|]. simpl in Hend. subst c. exfalso.
    rewrite forallb_forall in Hb.
    assert (In NL body) as Hin by (rewrite <- Eline; apply in_or_app; right; now left).
    apply Hb in Hin. discriminate. }
  subst tail'. rewrite app_nil_r in Eline. subst first_line'.
  f_equal; [exact ED|]. f_equal. exact ET.
Qed.
(** What a header line is made of. *)
Lemma header_is_shaped U line :
  matches_header U line = true ->
  exists dd mm yyyy hh mi ss sender first_line tail,
    line = header_line (dd ++ str "/" ++ mm ++ str "/" ++ yyyy)
                       (hh ++ str ":" ++ mi ++ str ":" ++ ss) sender first_line ++ tail
    /\ digits U 2 dd /\ digits U 2 mm /\ digits U 4 yyyy
    /\ digits U 2 hh /\ digits U 2 mi /\ digits U 2 ss
    /\ sender <> [] /\ forallb dot sender = true /\ forallb dot first_line = true.
Proof.
  unfold matches_header.
  destruct (re_match U (TIMESTAMP_PATTERN U) line) as [groups|] eqn:E; [|discriminate].
  intros _. apply header_shape in E.
  destruct E as [dd mm yyyy hh mi ss sender first_line tail].
  exists dd, mm, yyyy, hh, mi, ss, sender, first_line, tail.
  split; [|do 8 (split; [assumption|]); assumption].
  unfold header_line. repeat (simpl; rewrite <- app_assoc). reflexivity.
Qed.

(** ** A header line and a text of plain prose *)

Lemma last_char_nonempty pr (t : text) : t <> [] -> last_char pr t = last_char None t.
Proof.
  intros H. rewrite !last_char_rev. destruct (rev t) eqn:E; [|reflexivity].
  destruct t; [contradiction|]. apply (f_equal (@List.length char)) in E.
  rewrite length_rev in E. discriminate.
Qed.

Lemma ascii_digits_digits U (HU : standard U) n t : ascii_digits n t -> digits U n t.
Proof.
  intros [L A]. split; [assumption|].
  apply forallb_impl with digit_09; [|assumption].
  intros c Hc. now apply (ascii_digit_is_digit HU).
Qed.

Lemma ascii_digits_printable n t : ascii_digits n t -> forallb ascii_printable t = true.
Proof.
  intros [_ A]. apply forallb_impl with digit_09; [|assumption].
  intros c Hc. unfold ascii_printable. decide_bool.
Qed.

Lemma printable_filter U (HU : standard U) t :
  forallb ascii_printable t = true -> filter (isprintable U) t = t.
Proof.
  intros H. apply filter_fixed. apply forallb_impl with ascii_printable; [|assumption].
  intros c Hc. rewrite (std_printable HU).
  - unfold latin1_isprintable. unfold ascii_printable in Hc. now rewrite Hc.
  - unfold ascii_printable in Hc. char_arith.
Qed.

Lemma printable_dot t : forallb ascii_printable t = true -> forallb dot t = true.
Proof.
  apply forallb_impl. intros c Hc. unfold ascii_printable in Hc. decide_bool.
Qed.

Lemma strip_invisible_fixed U (HU : standard U) t :
  forallb ascii_printable t = true -> trimmed t -> strip_invisible U t = t.
Proof.
  intros Hp Ht. unfold strip_invisible. rewrite (printable_filter HU t Hp).
  now apply trimmed_strip.
Qed.

Lemma strip_invisible_line U (HU : standard U) t :
  forallb ascii_printable t = true -> trimmed t -> strip_invisible U (t ++ [NL]) = t.
Proof.
  intros Hp Ht. unfold strip_invisible. rewrite filter_app. simpl.
  rewrite (std_printable HU) by reflexivity.
  change (latin1_isprintable NL) with false. rewrite app_nil_r.
  rewrite (printable_filter HU t Hp). now apply trimmed_strip.
Qed.

(** The safeguard against a trailing header needs a digit. *)
Lemma trailing_needs_digit U st st' :
  matches U (TRAILING_TIMESTAMP U) st st' -> exists c, In c (rest st) /\ is_digit U c = true.
Proof.
  unfold TRAILING_TIMESTAMP. unfold seqs at 1. cbn [fold_right].
  intros (m1 & H1 & m2 & H2 & m3 & H3 & _).
  apply (@matches_consumed U (fun _ => true)) in H1; [|apply all_chars_in].
  destruct H1 as (r1 & (R1 & _) & _).
  apply matches_chr in H2. destruct H2 as ((R2 & _) & _).
  apply matches_digits in H3. destruct H3 as (run & (R3 & _) & [L A] & _).
  destruct run as [|d run]; [discriminate|].
  exists d. split.
  - rewrite R1, R2, R3. apply in_or_app. right. right. now left.
  - simpl in A. now apply andb_true_iff in A.
Qed.

Lemma parse_accepts U first more date_str time_str sender first_line dt full_text log w :
  re_match U (TIMESTAMP_PATTERN U) (strip_invisible U first)
  = Some [date_str; time_str; sender; first_line] ->
  strptime U (date_str ++ str " " ++ time_str) = Some dt ->
  strip (re_sub U (TRAILING_TIMESTAMP U) [] (join [NL] (filter_lines U (first_line :: more))))
  = full_text ->
  full_text <> [] -> is_irrelevant U full_text = false ->
  parse_message_block U (first :: more) log w
  = (Return (Some {| msg_role := if text_eqb (strip sender) USER_NAME then user else assistant;
                     msg_text := full_text;
                     msg_date := isoformat dt;
                     msg_peer := strip sender |}), w).
Proof.
  intros Hm Hdt Ht Hne Hrel. unfold parse_message_block. rewrite Hm, Hdt, Ht.
  destruct full_text as [|c full]; [contradiction|]. rewrite Hrel.
  unfold ret. do 3 f_equal.
  destruct (text_eqb (strip sender) USER_NAME) eqn:E; [|reflexivity].
  apply text_eqb_eq in E. now rewrite E.
Qed.

Lemma filter_lines_one U line cleaned :
  matches_header U (strip_invisible U line) = false ->
  clean_message U (strip_invisible U line) = cleaned -> cleaned <> [] ->
  filter_lines U [line] = [cleaned].
Proof.
  intros Hh Hc Hne. cbn [filter_lines]. rewrite Hh, Hc.
  destruct cleaned; [contradiction|reflexivity].
Qed.

Section WellFormed.

Variable U : Unicode.
Hypothesis HU : standard U.

Variables dd mm yyyy hh mi ss sender body : text.
Hypothesis Hdd : ascii_digits 2 dd.
Hypothesis Hmm : ascii_digits 2 mm.
Hypothesis Hyyyy : ascii_digits 4 yyyy.
Hypothesis Hhh : ascii_digits 2 hh.
Hypothesis Hmi : ascii_digits 2 mi.
Hypothesis Hss : ascii_digits 2 ss.
Hypothesis Hsender : ascii_trimmed sender.
Hypothesis Hcolon : ~ In 58%N sender.
Hypothesis Hbody : ascii_trimmed body.
Hypothesis Hprose : forallb (fun c => negb (redactable U c)) body = true.

Local Abbreviation date_str := (dd ++ str "/" ++ mm ++ str "/" ++ yyyy).
Local Abbreviation time_str := (hh ++ str ":" ++ mi ++ str ":" ++ ss).

Lemma well_formed_printable :
  forallb ascii_printable (header_line date_str time_str sender body) = true.
Proof.
  destruct Hsender as (_ & Ps & _), Hbody as (_ & Pb & _).
  unfold header_line.
  repeat (rewrite forallb_app || cbn [forallb str map list_ascii_of_string]).
  rewrite (ascii_digits_printable Hdd), (ascii_digits_printable Hmm),
    (ascii_digits_printable Hyyyy), (ascii_digits_printable Hhh),
    (ascii_digits_printable Hmi), (ascii_digits_printable Hss), Ps, Pb.
  reflexivity.
Qed.

Lemma well_formed_trimmed : trimmed (header_line date_str time_str sender body).
Proof.
  destruct Hbody as (Nb & _ & _ & Tb).
  split; [reflexivity|].
  unfold header_line. rewrite !last_char_app. now rewrite last_char_nonempty.
Qed.

Lemma body_has_no_digit c : In c body -> is_digit U c = false.
Proof.
  intros Hc. rewrite forallb_forall in Hprose. apply Hprose in Hc.
  apply negb_true_iff in Hc. unfold redactable in Hc.
  destruct (is_digit U c); [|reflexivity]. now rewrite !orb_true_r in Hc.
Qed.

Lemma body_has_no_colon : ~ In 58%N body.
Proof.
  intros Hc. rewrite forallb_forall in Hprose. apply Hprose in Hc.
  apply negb_true_iff in Hc. unfold redactable in Hc. simpl in Hc.
  now rewrite !orb_true_r in Hc.
Qed.

Lemma body_is_no_header : matches_header U body = false.
Proof.
  destruct (matches_header U body) eqn:E; [|reflexivity]. exfalso.
  apply header_is_shaped in E.
  destruct E as (dd' & mm' & yyyy' & hh' & mi' & ss' & s' & f' & tail & E & [L A] & _).
  destruct dd' as [|a dd']; [discriminate|].
  simpl in A. apply andb_true_iff in A. destruct A as [Ha _].
  rewrite (body_has_no_digit a) in Ha; [discriminate|].
  rewrite E. unfold header_line. simpl. right. now left.
Qed.

Lemma well_formed_text :
  strip (re_sub U (TRAILING_TIMESTAMP U) [] (join [NL] (filter_lines U [body]))) = body.
Proof.
  destruct Hbody as (Nb & Pb & Tb).
  rewrite (@filter_lines_one U body body).
  - cbn [join]. rewrite re_sub_unchanged; [now apply trimmed_strip|].
    apply no_match_in_chars with (is_digit U); [apply trailing_needs_digit|].
    apply forallb_forall. intros x Hx. now rewrite (body_has_no_digit x Hx).
  - rewrite (strip_invisible_fixed HU Pb Tb). apply body_is_no_header.
  - rewrite (strip_invisible_fixed HU Pb Tb).
    rewrite (clean_message_untouched U body Hprose). now apply trimmed_strip.
  - assumption.
Qed.

Lemma well_formed_accepted dt log w :
  strptime U (date_str ++ str " " ++ time_str) = Some dt ->
  is_irrelevant U body = false ->
  parse_message_block U [header_line date_str time_str sender body ++ [NL]] log w
  = (Return (Some {| msg_role := if text_eqb sender USER_NAME then user else assistant;
                     msg_text := body;
                     msg_date := isoformat dt;
                     msg_peer := sender |}), w).
Proof.
  intros Hdt Hrel. destruct Hsender as (Ns & Ps & Ts).
  rewrite <- (trimmed_strip Ts) at 2 3.
  apply parse_accepts with date_str time_str body.
  - rewrite (strip_invisible_line HU well_formed_printable well_formed_trimmed).
    apply header_groups_exact;
      try (apply (ascii_digits_digits HU); assumption); try assumption.
    + now apply printable_dot.
    + apply printable_dot. now destruct Hbody as (_ & Pb & _).
    + apply body_has_no_colon.
  - exact Hdt.
  - apply well_formed_text.
  - now destruct Hbody.
  - exact Hrel.
Qed.

End WellFormed.

(** ** [strptime] on ASCII digits *)

Lemma digits_value_ascii U (HU : standard U) t : forall acc,
  forallb digit_09 t = true ->
  digits_value U acc t = Some (fold_left (fun a c => (10 * a + (c - 48))%N) t acc).
Proof.
  induction t as [|c t IH]; intros acc H; simpl in *; [reflexivity|].
  apply andb_true_iff in H. destruct H as [Hc H].
  rewrite (std_decimal HU) by (unfold plain; decide_bool).
  unfold latin1_decimal. unfold digit_09 in Hc. rewrite Hc. now apply IH.
Qed.

Lemma ascii_numeral U (HU : standard U) n t :
  ascii_digits n t -> 1 <= n -> numeral U t (ascii_value t).
Proof.
  intros [L A] Hn. split.
  - intros ->. simpl in L. lia.
  - now apply digits_value_ascii.
Qed.

Lemma two_digits t :
  ascii_digits 2 t ->
  exists a b, t = [a; b] /\ digit_09 a = true /\ digit_09 b = true
              /\ ascii_value t = (10 * (a - 48) + (b - 48))%N.
Proof.
  intros [L A]. destruct t as [|a [|b [|c t]]]; try discriminate.
  simpl in A. apply andb_true_iff in A. destruct A as [Ha A].
  apply andb_true_iff in A. destruct A as [Hb _].
  exists a, b. repeat split; assumption.
Qed.

Lemma matches_two U (p q : char -> bool) a b pr tail n cs :
  p a = true -> q b = true ->
  matches U (Seq (Chr p) (Chr q)) (MState pr (a :: b :: tail) n cs)
          (MState (Some b) tail (S (S n)) cs).
Proof.
  intros Ha Hb. exists (MState (Some a) (b :: tail) (S n) cs). split.
  - exists a, (b :: tail). auto.
  - exists b, tail. auto.
Qed.

Lemma matches_snoc U l a st mid st' :
  matches U (seqs l) st mid -> matches U a mid st' -> matches U (seqs (l ++ [a])) st st'.
Proof.
  revert st. induction l as [|x l IH]; intros st Hl Ha.
  - simpl in Hl. subst mid. exists st'. split; [assumption|reflexivity].
  - destruct Hl as (m1 & Hx & Hl). exists m1. split; [assumption|]. now apply IH.
Qed.

(** *** Steps of the matcher on known characters *)

Lemma m_grp U a st k : m U (Grp a) st k = m U a st (fun st' => k (capture st st')).
Proof. reflexivity. Qed.

Lemma m_alt_first U a b st k res :
  m U a st k = Some res -> m U (Alt a b) st k = Some res.
Proof. intros H. simpl. now rewrite H. Qed.

Lemma m_alt_next U a b st k :
  m U a st k = None -> m U (Alt a b) st k = m U b st k.
Proof. intros H. simpl. now rewrite H. Qed.

Lemma m_two_here U (p q : char -> bool) a b pr tail n cs k :
  p a = true -> q b = true ->
  m U (Seq (Chr p) (Chr q)) (MState pr (a :: b :: tail) n cs) k
  = k (MState (Some b) tail (S (S n)) cs).
Proof. intros Ha Hb. simpl. rewrite Ha. simpl. now rewrite Hb. Qed.

Lemma m_two_not U (p q : char -> bool) a pr tail n cs k :
  p a = false -> m U (Seq (Chr p) (Chr q)) (MState pr (a :: tail) n cs) k = None.
Proof. intros Ha. simpl. now rewrite Ha. Qed.

Lemma capture_two pr (a b : char) tail n cs :
  capture (MState pr (a :: b :: tail) n cs) (MState (Some b) tail (S (S n)) cs)
  = MState (Some b) tail (S (S n)) (cs ++ [[a; b]]).
Proof.
  unfold capture. simpl prev. simpl rest. simpl pos. simpl caps.
  replace (S (S n) - n) with 2 by lia. reflexivity.
Qed.

Lemma rep_req_chr U (p : char -> bool) run : forall pr tail n cs k,
  forallb p run = true ->
  rep_req (m U (Chr p)) (List.length run) (MState pr (run ++ tail) n cs) k
  = k (MState (last_char pr run) tail (n + List.length run) cs).
Proof.
  induction run as [|c run IH]; intros pr tail n cs k H; simpl.
  - now rewrite Nat.add_0_r.
  - simpl in H. apply andb_true_iff in H. destruct H as [Hc H]. rewrite Hc.
    unfold advance. simpl. rewrite IH by assumption. now rewrite Nat.add_succ_r.
Qed.

Lemma m_grp_run U (p : char -> bool) run pr tail n cs k :
  forallb p run = true ->
  m U (Grp (times (List.length run) (Chr p))) (MState pr (run ++ tail) n cs) k
  = k (MState (last_char pr run) tail (n + List.length run) (cs ++ [run])).
Proof.
  intros H. unfold times.
  change (m U (Grp (Rep (Chr p) (List.length run) 0)) (MState pr (run ++ tail) n cs) k)
    with (rep_req (m U (Chr p)) (List.length run) (MState pr (run ++ tail) n cs)
            (fun st' => k (capture (MState pr (run ++ tail) n cs) st'))).
  rewrite rep_req_chr by assumption. f_equal. unfold capture. cbn [prev rest pos caps]. f_equal. f_equal.
  replace (n + List.length run - n) with (List.length run + 0) by lia.
  now rewrite firstn_app_2, app_nil_r.
Qed.

Lemma m_grp_digits U (p : char -> bool) len run pr tail n cs k :
  List.length run = len -> forallb p run = true ->
  m U (Grp (times len (Chr p))) (MState pr (run ++ tail) n cs) k
  = k (MState (last_char pr run) tail (n + List.length run) (cs ++ [run])).
Proof. intros <-. apply m_grp_run. Qed.

Lemma m_seq U a b st k : m U (Seq a b) st k = m U a st (fun st' => m U b st' k).
Proof. reflexivity. Qed.

Lemma m_space_here U x pr tail n cs k res :
  isspace x = false ->
  k (MState (@Some char 32%N) (x :: tail) (S n) cs) = Some res ->
  m U (Many isspace 1 true) (MState pr (32%N :: x :: tail) n cs) k = Some res.
Proof.
  intros Hx Hk. cbn [m prev rest pos caps many_greedy Nat.pred].
  change (isspace 32%N) with true. rewrite Hx. cbv iota. cbn [Nat.pred].
  now rewrite Hk.
Qed.

Lemma days_in_month_le y mo : (days_in_month y mo <= 31)%N.
Proof.
  unfold days_in_month. destruct (mo =? 2)%N; [destruct (is_leap y); lia|].
  destruct ((mo =? 4) || (mo =? 6) || (mo =? 9) || (mo =? 11))%N; lia.
Qed.

(** Two digits that one of the first alternatives of a group takes. *)
Ltac digit_goal :=
  match goal with
  | |- ?b = true =>
      let E := fresh "E" in destruct b eqn:E; [reflexivity|exfalso]
  | |- ?b = false =>
      let E := fresh "E" in destruct b eqn:E; [exfalso|reflexivity]
  end;
  unfold digit_09, in_range in *; bool_to_prop; lia.

Section ValidDate.

Variable U : Unicode.
Hypothesis HU : standard U.

Variables dd mm yyyy hh mi ss : text.
Hypothesis Hdd : ascii_digits 2 dd.
Hypothesis Hmm : ascii_digits 2 mm.
Hypothesis Hyyyy : ascii_digits 4 yyyy.
Hypothesis Hhh : ascii_digits 2 hh.
Hypothesis Hmi : ascii_digits 2 mi.
Hypothesis Hss : ascii_digits 2 ss.

Local Abbreviation stamp :=
  ((dd ++ str "/" ++ mm ++ str "/" ++ yyyy) ++ str " " ++ (hh ++ str ":" ++ mi ++ str ":" ++ ss)).

Lemma stamp_reads :
  reads_date U (dd ++ str "/" ++ mm ++ str "/" ++ yyyy)
             (ascii_value dd) (ascii_value mm) (ascii_value yyyy)
  /\ reads_time U (hh ++ str ":" ++ mi ++ str ":" ++ ss)
                (ascii_value hh) (ascii_value mi) (ascii_value ss).
Proof.
  split.
  - exists dd, mm, yyyy. split; [reflexivity|].
    repeat split; try (apply (ascii_numeral HU) with 2; [assumption|lia]).
    all: try (apply (ascii_numeral HU) with 4; [assumption|lia]).
  - exists hh, mi, ss. split; [reflexivity|].
    repeat split; apply (ascii_numeral HU) with 2; try assumption; lia.
Qed.

Section Groups.

Variables (a b : char) (pr : option char) (tail : text) (n : nat) (cs : list text).
Variables (k : cont) (res : mstate).
Hypothesis Ha : digit_09 a = true.
Hypothesis Hb : digit_09 b = true.
Hypothesis Hk : k (MState (Some b) tail (S (S n)) (cs ++ [[a; b]])) = Some res.

Lemma digit_b : is_digit U b = true.
Proof. now apply (ascii_digit_is_digit HU). Qed.

Lemma day_group :
  (1 <= 10 * (a - 48) + (b - 48) <= 31)%N ->
  m U (Grp (Alt (Seq (chr 51) (one_of 48 49))
           (Alt (Seq (one_of 49 50) (Chr (is_digit U)))
           (Alt (Seq (chr 48) (one_of 49 57))
           (Alt (one_of 49 57)
                (Seq (chr 32) (one_of 49 57)))))))
      (MState pr (a :: b :: tail) n cs) k = Some res.
Proof.
  intros V. unfold chr, one_of. rewrite m_grp. pose proof digit_b as Db.
  destruct (51 =? a)%N eqn:E3.
  - apply m_alt_first. rewrite m_two_here; [|exact E3|digit_goal].
    cbv beta. now rewrite capture_two.
  - rewrite m_alt_next by (apply m_two_not; exact E3).
    destruct (in_range 49 50 a) eqn:E12.
    + apply m_alt_first. rewrite m_two_here; [|exact E12|exact Db].
      cbv beta. now rewrite capture_two.
    + rewrite m_alt_next by (apply m_two_not; exact E12).
      apply m_alt_first. rewrite m_two_here; [|digit_goal|digit_goal].
      cbv beta. now rewrite capture_two.
Qed.

Lemma month_group :
  (1 <= 10 * (a - 48) + (b - 48) <= 12)%N ->
  m U (Grp (Alt (Seq (chr 49) (one_of 48 50))
           (Alt (Seq (chr 48) (one_of 49 57))
                (one_of 49 57))))
      (MState pr (a :: b :: tail) n cs) k = Some res.
Proof.
  intros V. unfold chr, one_of. rewrite m_grp.
  destruct (49 =? a)%N eqn:E1.
  - apply m_alt_first. rewrite m_two_here; [|exact E1|digit_goal].
    cbv beta. now rewrite capture_two.
  - rewrite m_alt_next by (apply m_two_not; exact E1).
    apply m_alt_first. rewrite m_two_here; [|digit_goal|digit_goal].
    cbv beta. now rewrite capture_two.
Qed.

Lemma hour_group :
  (10 * (a - 48) + (b - 48) <= 23)%N ->
  m U (Grp (Alt (Seq (chr 50) (one_of 48 51))
           (Alt (Seq (one_of 48 49) (Chr (is_digit U)))
                (Chr (is_digit U)))))
      (MState pr (a :: b :: tail) n cs) k = Some res.
Proof.
  intros V. unfold chr, one_of. rewrite m_grp. pose proof digit_b as Db.
  destruct (50 =? a)%N eqn:E2.
  - apply m_alt_first. rewrite m_two_here; [|exact E2|digit_goal].
    cbv beta. now rewrite capture_two.
  - rewrite m_alt_next by (apply m_two_not; exact E2).
    apply m_alt_first. rewrite m_two_here; [|digit_goal|exact Db].
    cbv beta. now rewrite capture_two.
Qed.

Lemma minute_group :
  (10 * (a - 48) + (b - 48) <= 59)%N ->
  m U (Grp (Alt (Seq (one_of 48 53) (Chr (is_digit U))) (Chr (is_digit U))))
      (MState pr (a :: b :: tail) n cs) k = Some res.
Proof.
  intros V. unfold chr, one_of. rewrite m_grp. pose proof digit_b as Db.
  apply m_alt_first. rewrite m_two_here; [|digit_goal|exact Db].
  cbv beta. now rewrite capture_two.
Qed.

Lemma second_group :
  (10 * (a - 48) + (b - 48) <= 59)%N ->
  m U (Grp (Alt (Seq (chr 54) (one_of 48 49))
           (Alt (Seq (one_of 48 53) (Chr (is_digit U)))
                (Chr (is_digit U)))))
      (MState pr (a :: b :: tail) n cs) k = Some res.
Proof.
  intros V. unfold chr, one_of. rewrite m_grp. pose proof digit_b as Db.
  rewrite m_alt_next by (apply m_two_not; digit_goal).
  apply m_alt_first. rewrite m_two_here; [|digit_goal|exact Db].
  cbv beta. now rewrite capture_two.
Qed.

End Groups.

(** An invalid date or time is refused. *)
Lemma stamp_refused :
  valid_date (ascii_value yyyy) (ascii_value mm) (ascii_value dd)
  && valid_time (ascii_value hh) (ascii_value mi) (ascii_value ss) = false ->
  strptime U stamp = None.
Proof.
  intros V. destruct (strptime U stamp) as [dt|] eqn:E; [|reflexivity]. exfalso.
  destruct stamp_reads as [Rd Rt].
  destruct (strptime_valid HU Rd Rt E) as (_ & V1 & V2). now rewrite V1, V2 in V.
Qed.

(** A valid date and time is found, whole. *)
Lemma stamp_found :
  valid_date (ascii_value yyyy) (ascii_value mm) (ascii_value dd) = true ->
  valid_time (ascii_value hh) (ascii_value mi) (ascii_value ss) = true ->
  exists st, m U (STRPTIME_REGEX U) (start stamp) Some = Some st
             /\ rest st = [] /\ caps st = [dd; mm; yyyy; hh; mi; ss].
Proof.
  intros Vd Vt. unfold valid_date in Vd. unfold valid_time in Vt.
  pose proof (days_in_month_le (ascii_value yyyy) (ascii_value mm)) as Hdim.
  destruct (two_digits Hdd) as (a1 & b1 & E1 & A1 & B1 & V1).
  destruct (two_digits Hmm) as (a2 & b2 & E2 & A2 & B2 & V2).
  destruct (two_digits Hhh) as (a4 & b4 & E4 & A4 & B4 & V4).
  destruct (two_digits Hmi) as (a5 & b5 & E5 & A5 & B5 & V5).
  destruct (two_digits Hss) as (a6 & b6 & E6 & A6 & B6 & V6).
  destruct Hyyyy as [Ly Ay].
  assert (Dy : forallb (is_digit U) yyyy = true).
  { apply forallb_impl with digit_09; [|assumption].
    intros c Hc. now apply (ascii_digit_is_digit HU). }
  assert (Es : stamp = a1 :: b1 :: 47%N :: a2 :: b2 :: 47%N
                       :: yyyy ++ 32%N :: a4 :: b4 :: 58%N :: a5 :: b5 :: 58%N :: [a6; b6]).
  { rewrite E1, E2, E4, E5, E6. repeat (simpl; rewrite <- app_assoc).
    reflexivity. }
  rewrite Es. rewrite V1, V2 in Vd. rewrite V4, V5, V6 in Vt.
  rewrite V2 in Hdim. bool_to_prop.
  eexists. split; [|split].
  - unfold STRPTIME_REGEX, seqs, start. cbn [fold_right].
    rewrite m_seq. apply day_group; [assumption|assumption| |lia]. cbv beta.
    rewrite m_seq, m_chr_here.
    rewrite m_seq. apply month_group; [assumption|assumption| |lia]. cbv beta.
    rewrite m_seq, m_chr_here.
    rewrite m_seq, (@m_grp_digits U _ 4 yyyy _ _ _ _ _ Ly Dy).
    rewrite m_seq. apply m_space_here; [clear -A4; decide_bool|].
    rewrite m_seq. apply hour_group; [assumption|assumption| |lia]. cbv beta.
    rewrite m_seq, m_chr_here.
    rewrite m_seq. apply minute_group; [assumption|assumption| |lia]. cbv beta.
    rewrite m_seq, m_chr_here.
    rewrite m_seq. apply second_group; [assumption|assumption| |lia]. cbv beta.
    reflexivity.
  - reflexivity.
  - simpl. now rewrite E1, E2, E4, E5, E6.
Qed.

Lemma strptime_stamp :
  strptime U stamp
  = make_datetime (ascii_value yyyy) (ascii_value mm) (ascii_value dd)
                  (ascii_value hh) (ascii_value mi) (ascii_value ss).
Proof.
  unfold make_datetime.
  destruct (valid_date (ascii_value yyyy) (ascii_value mm) (ascii_value dd)
            && valid_time (ascii_value hh) (ascii_value mi) (ascii_value ss)) eqn:V.
  - apply andb_true_iff in V. destruct V as [Vd Vt].
    destruct (stamp_found Vd Vt) as (st & Hm & Hr & Hc).
    unfold strptime. rewrite Hm, Hr, Hc. cbn [map].
    rewrite (py_int_numeral HU (ascii_numeral HU Hdd (Nat.le_succ_diag_r 1))).
    rewrite (py_int_numeral HU (ascii_numeral HU Hmm (Nat.le_succ_diag_r 1))).
    rewrite (py_int_numeral HU (@ascii_numeral U HU 4 yyyy Hyyyy ltac:(lia))).
    rewrite (py_int_numeral HU (ascii_numeral HU Hhh (Nat.le_succ_diag_r 1))).
    rewrite (py_int_numeral HU (ascii_numeral HU Hmi (Nat.le_succ_diag_r 1))).
    rewrite (py_int_numeral HU (ascii_numeral HU Hss (Nat.le_succ_diag_r 1))).
    unfold make_datetime. now rewrite Vd, Vt.
  - now apply stamp_refused.
Qed.

End ValidDate.

(** ** Prose *)

Ltac prose_sets := unfold prose_char, apart_char, prose_punct in *.

Lemma capitalised_suffix pre : forall s1, capitalised (pre ++ s1) = true -> capitalised s1 = true.
Proof.
  induction pre as [|c pre IH]; intros s1 H; [exact H|].
  simpl in H. apply andb_true_iff in H. destruct H as [_ H]. now apply IH.
Qed.

Lemma capitalised_head c t :
  capitalised (c :: t) = true -> upper_az c = true ->
  exists l t', t = l :: t' /\ lower_az l = true.
Proof.
  simpl. intros H Hc. apply andb_true_iff in H. destruct H as [H _].
  rewrite Hc in H. simpl in H. destruct t as [|l t']; [discriminate|]. now exists l, t'.
Qed.

Lemma capitalised_app a : forall b,
  capitalised a = true -> capitalised b = true -> capitalised (a ++ b) = true.
Proof.
  induction a as [|c a IH]; intros b Ha Hb; [exact Hb|].
  simpl in *. apply andb_true_iff in Ha. destruct Ha as [Hc Ha].
  rewrite (IH b Ha Hb), andb_true_r.
  destruct a as [|d a]; [|exact Hc]. simpl in Hc.
  rewrite orb_false_r in Hc. now rewrite Hc.
Qed.

Lemma prose_chars t : prose t = true -> forallb prose_char t = true.
Proof. unfold prose. intros H. now apply andb_true_iff in H. Qed.

Lemma prose_capitalised t : prose t = true -> capitalised t = true.
Proof. unfold prose. intros H. now apply andb_true_iff in H. Qed.

Lemma prose_char_plain c : prose_char c = true -> plain c = true.
Proof. intros H. prose_sets. decide_bool. Qed.

Lemma apart_not_upper_digit c : apart_char c = true -> upper_or_digit c = false.
Proof. intros H. prose_sets. decide_bool. Qed.

Lemma lower_not_upper_digit c : lower_az c = true -> upper_digit_space c = false.
Proof. intros H. decide_bool. Qed.

Lemma prose_not_digit_09 c : prose_char c = true -> digit_09 c = false.
Proof. intros H. prose_sets. decide_bool. Qed.

Lemma prose_not_emoji c : prose_char c = true -> emoji c = false.
Proof. intros H. prose_sets. decide_bool. Qed.

Section ProseFacts.

Variable U : Unicode.
Hypothesis HU : standard U.

Lemma apart_not_word c : apart_char c = true -> is_word U c = false.
Proof.
  intros H. rewrite (is_word_std HU).
  - unfold is_word, latin1, isalnum. prose_sets. decide_bool.
  - prose_sets. decide_bool.
Qed.

Lemma plain_not_digit c : plain c = true -> digit_09 c = false -> is_digit U c = false.
Proof.
  intros Hp H. rewrite (is_digit_std HU c Hp).
  unfold is_digit, latin1, decimal, latin1_decimal. unfold digit_09 in H. now rewrite H.
Qed.

Lemma prose_not_digit c : prose_char c = true -> is_digit U c = false.
Proof.
  intros H. apply plain_not_digit; [now apply prose_char_plain|now apply prose_not_digit_09].
Qed.

Lemma prose_not_lt c : prose_char c = true -> ieq U 60%N c = false.
Proof.
  intros H. rewrite (std_ieq HU); [|reflexivity|now apply prose_char_plain].
  change (latin1_lower1 60%N) with 60%N. unfold latin1_lower1.
  destruct (in_range 65 90 c || in_range 192 214 c || in_range 216 222 c) eqn:E;
    prose_sets; decide_bool.
Qed.

End ProseFacts.

(** ** Texts made of parts *)

Lemma no_match_from_app U r A1 A2 B :
  no_match_from U r A1 (A2 ++ B) -> no_match_from U r A2 B ->
  no_match_from U r (A1 ++ A2) B.
Proof.
  intros H1 H2 pre s1 pr st' E Hne H.
  apply split_app in E. destruct E as [(s & Hs & -> & ->)|(p2 & -> & ->)].
  - rewrite <- app_assoc in H. now apply (H1 pre s pr st').
  - now apply (H2 p2 s1 pr st').
Qed.

Lemma no_match_in_app U r A B :
  no_match_from U r A B -> no_match_in U r B -> no_match_in U r (A ++ B).
Proof.
  intros HA HB pre suf pr st' E H.
  apply split_app in E. destruct E as [(s & Hs & -> & ->)|(p2 & -> & ->)].
  - now apply (HA pre s pr st').
  - now apply (HB p2 suf pr st').
Qed.

Lemma no_match_in_end U r A :
  1 <= min_len r -> no_match_from U r A [] -> no_match_in U r A.
Proof.
  intros Hmin H. rewrite <- (app_nil_r A). apply no_match_in_app; [assumption|].
  now apply no_match_in_empty.
Qed.

Lemma no_match_from_first U q r A B :
  first_ok q r -> 1 <= min_len r ->
  forallb (fun c => negb (q c)) A = true -> no_match_from U r A B.
Proof. intros Hq Hmin HA. exact (@pass_by_first_char U q r A B Hq Hmin HA). Qed.

Lemma no_match_from_nil U r B : no_match_from U r [] B.
Proof. intros pre s1 pr st' E Hne. destruct pre; destruct s1; try discriminate. contradiction. Qed.

(** The scan copies a part in which no match starts. *)
Lemma sub_scan_over U r repl A B pr :
  no_match_from U r A B ->
  sub_scan U r repl pr (A ++ B) 0 = A ++ sub_scan U r repl (last_char pr A) B 0.
Proof. intros H. apply sub_scan_pass. exact H. Qed.

(** ** Patterns that start with two characters of a set *)

Lemma starts_with_two U p n e body st st' :
  matches U (seqs (Bnd :: Rep (Chr p) (S (S n)) e :: body)) st st' ->
  exists c1 c2 s, rest st = c1 :: c2 :: s /\ p c1 = true /\ p c2 = true.
Proof.
  unfold seqs. cbn [fold_right].
  intros (m1 & (_ & ->) & m2 & (k & Hk & Hi) & _).
  destruct k as [|[|k]]; try lia. simpl in Hi.
  destruct Hi as (x & (c1 & s1 & R1 & P1 & ->) & y & (c2 & s2 & R2 & P2 & ->) & _).
  simpl in R2. subst s1. now exists c1, c2, s2.
Qed.

(** No such pattern of capitals and digits matches inside prose, whatever
    follows the prose. *)
Lemma prose_no_match_from U p n e body A B :
  (forall c, p c = true -> upper_or_digit c = true) ->
  prose A = true ->
  no_match_from U (seqs (Bnd :: Rep (Chr p) (S (S n)) e :: body)) A B.
Proof.
  intros Hp HA pre s1 pr st' E Hne H.
  apply starts_with_two in H. destruct H as (c1 & c2 & s & R & P1 & P2). simpl in R.
  destruct s1 as [|x s1]; [contradiction|]. simpl in R. injection R as <- R.
  pose proof (prose_chars _ HA) as Hc. pose proof (prose_capitalised _ HA) as Hcap.
  rewrite E in Hc, Hcap. apply capitalised_suffix in Hcap.
  rewrite forallb_app in Hc. apply andb_true_iff in Hc. destruct Hc as [_ Hc].
  simpl in Hc. apply andb_true_iff in Hc. destruct Hc as [Hx _].
  assert (Hup : upper_az x = true).
  { apply Hp in P1. unfold upper_or_digit in P1.
    rewrite (prose_not_digit_09 _ Hx), orb_false_r in P1. exact P1. }
  destruct (capitalised_head _ _ Hcap Hup) as (l & t' & -> & Hl).
  simpl in R. injection R as <- _. apply Hp in P2.
  pose proof (lower_not_upper_digit _ Hl) as Hn. unfold upper_digit_space in Hn.
  rewrite P2 in Hn. discriminate.
Qed.

Lemma prose_no_match_iban U A B : prose A = true -> no_match_from U IBAN_PATTERN A B.
Proof.
  intros H. apply (@prose_no_match_from U upper_az 0 0); [|assumption].
  intros c Hc. unfold upper_or_digit. now rewrite Hc.
Qed.

Lemma prose_no_match_rib U A B : prose A = true -> no_match_from U RIB_PATTERN A B.
Proof. intros H. apply (@prose_no_match_from U upper_or_digit 8 24); auto. Qed.

Lemma prose_no_match_bic U A B : prose A = true -> no_match_from U BIC_PATTERN A B.
Proof.
  intros H. apply (@prose_no_match_from U upper_az 2 0); [|assumption].
  intros c Hc. unfold upper_or_digit. now rewrite Hc.
Qed.

(** ** Placeholders *)

Lemma token_no_match_long U body tok B :
  chars_in upper_digit_space (seqs body) -> 9 <= min_len (seqs body) ->
  In tok PLACEHOLDERS ->
  no_match_from U (seqs (Bnd :: body ++ [Bnd])) tok B.
Proof.
  intros Hq Hmin Htok pre s1 pr st' E Hne H.
  apply (@matches_bounded U upper_digit_space) in H; [|assumption].
  destruct H as (run & (R & _) & Hall & L & _). simpl in R.
  pose proof (prefix_span upper_digit_space run _ (eq_sym R) Hall) as Hspan.
  assert (Hs : In s1 (tails tok)) by now apply tails_suffix with pre.
  destruct (token_span B Htok Hs Hne) as [H8 _]. lia.
Qed.

Lemma token_no_match_rib U tok B : In tok PLACEHOLDERS -> no_match_from U RIB_PATTERN tok B.
Proof.
  apply (@token_no_match_long U [Rep (Chr upper_or_digit) 10 24]).
  - chars_in_tac.
  - cbn. lia.
Qed.

Lemma token_no_match_bic U (HU : standard U) tok B :
  In tok PLACEHOLDERS -> no_match_from U BIC_PATTERN tok B.
Proof.
  change BIC_PATTERN with (seqs (Bnd :: BIC_BODY ++ [Bnd])).
  assert (Hq : chars_in upper_digit_space (seqs BIC_BODY))
    by (unfold BIC_BODY; chars_in_tac).
  intros Htok pre s1 pr st' E Hne H.
  assert (Hs : In s1 (tails tok)) by now apply tails_suffix with pre.
  apply (@matches_bounded U upper_digit_space) in H; [|assumption].
  destruct H as (run & (R & P & _) & Hall & L & _ & Bd & _). simpl in R, P, L.
  pose proof (prefix_span upper_digit_space run _ (eq_sym R) Hall) as Hspan.
  destruct (token_span B Htok Hs Hne) as [H8 Heq].
  destruct Heq as (tail' & E'); [lia|]. rewrite E' in R.
  destruct (app_length_split run (rest st') (n := 8) (eq_sym R)) as [-> Hrest]; [lia|].
  simpl in Hrest, P. rewrite Hrest, P in Bd. simpl in Bd.
  rewrite (is_word_std HU 68%N eq_refl), (is_word_std HU 95%N eq_refl) in Bd.
  discriminate.
Qed.

Lemma token_chars tok c : In tok PLACEHOLDERS -> In c tok -> placeholder_char c = true.
Proof.
  intros Htok Hc.
  assert (Hs : placeholder_stream (tok ++ [])) by (constructor; [assumption|constructor]).
  rewrite app_nil_r in Hs. apply stream_chars in Hs.
  rewrite forallb_forall in Hs. now apply Hs.
Qed.

(** ** The IBAN pattern on a token with spaces *)

Lemma orelse_none {A} (a : option A) : orelse a None = a.
Proof. now destruct a. Qed.

Lemma upper_digit_not_space c : upper_or_digit c = true -> (32 =? c)%N = false.
Proof. intros H. decide_bool. Qed.

Section IbanUnits.

Variable U : Unicode.

Local Abbreviation UNIT := (Seq (opt (chr 32)) (Chr upper_or_digit)).

(** The pattern reads one character of the token, with its space, in one
    way only. *)
Lemma unit_step u pr tail n cs k :
  upper_or_digit (snd u) = true ->
  m U UNIT (MState pr (unit_text u ++ tail) n cs) k
  = k (MState (Some (snd u)) tail (n + List.length (unit_text u)) cs).
Proof.
  destruct u as [[|] c]; cbn [snd unit_text fst app List.length]; intros Hc.
  - rewrite m_seq. unfold opt. cbn [m rep_req rep_opt]. rewrite m_chr_here.
    cbn [rest prev pos caps advance]. rewrite Hc.
    change (upper_or_digit 32%N) with false. cbn [advance pos caps].
    rewrite orelse_none. unfold advance. cbn [pos caps]. f_equal. f_equal. lia.
  - rewrite m_seq. unfold opt. cbn [m rep_req rep_opt].
    rewrite m_chr_other by now apply upper_digit_not_space.
    cbn [orelse rest prev pos caps advance]. rewrite Hc. unfold advance. cbn [pos caps].
    f_equal. f_equal. lia.
Qed.

Lemma unit_last u pr : last_char pr (unit_text u) = Some (snd u).
Proof. now destruct u as [[|] c]. Qed.

Lemma units_req us : forall pr tail n cs k,
  forallb (fun u => upper_or_digit (snd u)) us = true ->
  rep_req (m U UNIT) (List.length us) (MState pr (flat_map unit_text us ++ tail) n cs) k
  = k (MState (last_char pr (flat_map unit_text us)) tail
              (n + List.length (flat_map unit_text us)) cs).
Proof.
  induction us as [|u us IH]; intros pr tail n cs k H.
  - simpl. now rewrite Nat.add_0_r.
  - cbn [forallb] in H. apply andb_true_iff in H. destruct H as [Hu H].
    cbn [List.length rep_req flat_map]. rewrite <- app_assoc, unit_step by assumption.
    rewrite IH by assumption. rewrite last_char_app, unit_last, length_app.
    f_equal. f_equal. lia.
Qed.

Lemma units_opt us : forall e pr tail n cs k res,
  forallb (fun u => upper_or_digit (snd u)) us = true ->
  List.length us <= e ->
  rep_opt (m U UNIT) (e - List.length us)
          (MState (last_char pr (flat_map unit_text us)) tail
                  (n + List.length (flat_map unit_text us)) cs) k = Some res ->
  rep_opt (m U UNIT) e (MState pr (flat_map unit_text us ++ tail) n cs) k = Some res.
Proof.
  induction us as [|u us IH]; intros e pr tail n cs k res H Hle Hend.
  - simpl in *. now rewrite Nat.sub_0_r, Nat.add_0_r in Hend.
  - cbn [forallb] in H. apply andb_true_iff in H. destruct H as [Hu H].
    destruct e as [|e]; [simpl in Hle; lia|].
    cbn [rep_opt flat_map]. rewrite <- app_assoc, unit_step by assumption.
    rewrite (IH e (Some (snd u)) tail _ cs k res H); [reflexivity|simpl in Hle; lia|].
    cbn [flat_map List.length] in Hend.
    rewrite last_char_app, unit_last, length_app in Hend.
    replace (n + List.length (unit_text u) + List.length (flat_map unit_text us))
      with (n + (List.length (unit_text u) + List.length (flat_map unit_text us))) by lia.
    exact Hend.
Qed.

(** What one character of the token, with its space, takes. *)
Lemma unit_matches st st' :
  matches U UNIT st st' ->
  exists c s', upper_or_digit c = true
               /\ (rest st = c :: s' \/ rest st = 32%N :: c :: s')
               /\ rest st' = s' /\ prev st' = Some c.
Proof.
  intros (x & (i & Hi01 & Hopt) & (c1 & s1 & R1 & P1 & ->)).
  exists c1, s1. split; [assumption|]. split; [|split; reflexivity].
  destruct i as [|[|i]]; [| |lia]; cbn [iter] in Hopt.
  - subst x. now left.
  - destruct Hopt as (y & Hy & ->). apply matches_chr in Hy.
    destruct Hy as ((R0 & _) & _). right. rewrite R0, R1. reflexivity.
Qed.

Hypothesis HU : standard U.

(** After the token, the pattern cannot go on. *)
Lemma units_end e c T n cs :
  upper_or_digit c = true -> starts_apart T = true ->
  e = 0 \/ stops_iban T ->
  rep_opt (m U UNIT) e (MState (Some c) T n cs) (fun st => m U (Seq Bnd Eps) st Some)
  = Some (MState (Some c) T n cs).
Proof.
  intros Hc HT Hstop.
  assert (Hw : is_word U c = true) by now apply (upper_digit_word HU).
  assert (Hk : m U (Seq Bnd Eps) (MState (Some c) T n cs) Some = Some (MState (Some c) T n cs)).
  { cbn [m prev rest word_at]. rewrite Hw. destruct T as [|x T]; [reflexivity|].
    cbn [hd_error word_at starts_apart] in *. now rewrite (apart_not_word HU _ HT). }
  destruct Hstop as [->|Hstop]; [exact Hk|].
  destruct (rep_opt (m U UNIT) e (MState (Some c) T n cs) _) as [res|] eqn:E.
  - apply (@rep_opt_sound (m U UNIT) (matches U UNIT) (m_sound U UNIT)) in E.
    destruct E as (j & st' & _ & Hi & Hres).
    destruct j as [|j]; [cbn [iter] in Hi; subst st'; now rewrite Hk in Hres|].
    exfalso. destruct Hi as (mid & Hunit & Hi).
    apply unit_matches in Hunit.
    destruct Hunit as (c1 & s1 & P1 & [R|R] & Rm & Pm); cbn [rest] in R.
    + subst T. cbn [starts_apart] in HT.
      rewrite (apart_not_upper_digit _ HT) in P1. discriminate.
    + destruct (Hstop c1 s1 R P1) as (l & s'' & -> & Hl).
      pose proof (lower_not_upper_digit _ Hl) as Hnl.
      destruct j as [|j]; cbn [iter] in Hi.
      * subst st'. cbn [m] in Hres. rewrite Pm, Rm in Hres. cbn [word_at hd_error] in Hres.
        rewrite (upper_digit_word HU c1 P1), (lower_word HU l Hl) in Hres. discriminate.
      * destruct Hi as (mid2 & Hunit2 & _). apply unit_matches in Hunit2.
        destruct Hunit2 as (c2 & s2 & P2 & [R2|R2] & _); rewrite Rm in R2.
        -- injection R2 as <- _.
           unfold upper_digit_space in Hnl. rewrite P2 in Hnl. discriminate.
        -- injection R2 as -> _. discriminate.
  - exfalso. revert E.
    apply (@rep_opt_complete (m U UNIT) (matches U UNIT) (m_complete U UNIT) e 0
             (MState (Some c) T n cs) (MState (Some c) T n cs)).
    + lia.
    + reflexivity.
    + rewrite Hk. discriminate.
Qed.

End IbanUnits.

Lemma units_last_class us : forall c0,
  upper_or_digit c0 = true ->
  forallb (fun u => upper_or_digit (snd u)) us = true ->
  exists c, last_char (Some c0) (flat_map unit_text us) = Some c /\ upper_or_digit c = true.
Proof.
  induction us as [|u us IH]; intros c0 H0 H.
  - now exists c0.
  - cbn [forallb] in H. apply andb_true_iff in H. destruct H as [Hu H].
    cbn [flat_map]. rewrite last_char_app, unit_last. now apply IH.
Qed.

Lemma units_count us :
  forallb (fun u => upper_or_digit (snd u)) us = true ->
  List.length (filter upper_or_digit (flat_map unit_text us)) = List.length us.
Proof.
  induction us as [|[[|] c] us IH]; intros H; [reflexivity| |];
    cbn [forallb snd] in H; apply andb_true_iff in H; destruct H as [Hc H];
    cbn [flat_map unit_text fst snd app filter]; rewrite Hc;
    [change (upper_or_digit 32%N) with false|]; cbn [List.length]; now rewrite IH.
Qed.

Lemma spaced_iban_count l1 l2 d1 d2 us :
  upper_az l1 = true -> upper_az l2 = true -> digit_09 d1 = true -> digit_09 d2 = true ->
  forallb (fun u => upper_or_digit (snd u)) us = true ->
  letters_and_digits (l1 :: l2 :: d1 :: d2 :: flat_map unit_text us) = 4 + List.length us.
Proof.
  intros H1 H2 H3 H4 Hus. unfold letters_and_digits. cbn [filter].
  unfold upper_or_digit at 1 2 3 4. rewrite H1, H2, H3, H4, !orb_true_r.
  cbn [orb List.length]. now rewrite units_count.
Qed.

Lemma m_times_two U (p : char -> bool) a b pr tail n cs k :
  p a = true -> p b = true ->
  m U (times 2 (Chr p)) (MState pr (a :: b :: tail) n cs) k
  = k (MState (Some b) tail (S (S n)) cs).
Proof.
  intros Ha Hb. unfold times. cbn [m rep_req rep_opt rest]. rewrite Ha.
  cbn [advance rest pos caps]. rewrite Hb. reflexivity.
Qed.

Lemma m_rep U a lo extra st k :
  m U (Rep a lo extra) st k
  = rep_req (m U a) lo st (fun st' => rep_opt (m U a) extra st' k).
Proof. reflexivity. Qed.

Lemma m_bnd U st k :
  m U Bnd st k
  = if xorb (word_at U (prev st)) (word_at U (hd_error (rest st))) then k st else None.
Proof. reflexivity. Qed.

Section IbanTaken.

Variable U : Unicode.
Hypothesis HU : standard U.

Local Abbreviation UNIT := (Seq (opt (chr 32)) (Chr upper_or_digit)).

Lemma units_taken us1 us2 c0 T n cs :
  upper_or_digit c0 = true ->
  forallb (fun u => upper_or_digit (snd u)) us1 = true ->
  forallb (fun u => upper_or_digit (snd u)) us2 = true ->
  List.length us1 = 11 -> List.length us2 <= 19 ->
  starts_apart T = true ->
  List.length us2 = 19 \/ stops_iban T ->
  m U (Rep UNIT 11 19) (MState (Some c0) (flat_map unit_text (us1 ++ us2) ++ T) n cs)
    (fun st => m U (Seq Bnd Eps) st Some)
  = Some (MState (last_char (Some c0) (flat_map unit_text (us1 ++ us2))) T
                 (n + List.length (flat_map unit_text (us1 ++ us2))) cs).
Proof.
  intros H0 Hu1 Hu2 L1 L2 HT Hstop.
  rewrite m_rep, flat_map_app, <- app_assoc. rewrite <- L1 at 1.
  rewrite units_req by assumption.
  destruct (@units_last_class us1 c0 H0 Hu1) as (c1 & E1 & H1).
  destruct (@units_last_class us2 c1 H1 Hu2) as (c2 & E2 & H2).
  apply units_opt; [assumption|assumption|].
  rewrite last_char_app, length_app, E1, E2, Nat.add_assoc.
  apply units_end; try assumption.
  destruct Hstop as [E|Hs]; [left; lia|now right].
Qed.

(** The pattern takes the whole token, and no more, where what follows
    cannot be part of it. *)
Lemma iban_taken iban pr T :
  spaced_iban iban -> word_at U pr = false -> starts_apart T = true ->
  letters_and_digits iban = 34 \/ stops_iban T ->
  m U IBAN_PATTERN (MState pr (iban ++ T) 0 []) Some
  = Some (MState (last_char pr iban) T (List.length iban) []).
Proof.
  intros (l1 & l2 & d1 & d2 & us & -> & H1 & H2 & H3 & H4 & Hus & L) Hpr HT Hstop.
  rewrite (spaced_iban_count l1 l2 d1 d2 us H1 H2 H3 H4 Hus) in Hstop.
  assert (Ed : upper_or_digit d2 = true) by (unfold upper_or_digit; now rewrite H4, orb_true_r).
  assert (Eu : us = firstn 11 us ++ skipn 11 us) by (symmetry; apply firstn_skipn).
  assert (Hu1 : forallb (fun u => upper_or_digit (snd u)) (firstn 11 us) = true).
  { rewrite Eu, forallb_app in Hus. now apply andb_true_iff in Hus. }
  assert (Hu2 : forallb (fun u => upper_or_digit (snd u)) (skipn 11 us) = true).
  { rewrite Eu, forallb_app in Hus. now apply andb_true_iff in Hus. }
  assert (L1 : List.length (firstn 11 us) = 11) by (rewrite length_firstn; lia).
  assert (L2 : List.length (skipn 11 us) <= 19) by (rewrite length_skipn; lia).
  assert (Hs : List.length (skipn 11 us) = 19 \/ stops_iban T).
  { destruct Hstop as [E|Hs]; [left; rewrite length_skipn; lia|now right]. }
  pose proof (@units_taken (firstn 11 us) (skipn 11 us) d2 T 4 [] Ed Hu1 Hu2 L1 L2 HT Hs) as Hrep.
  rewrite <- Eu in Hrep.
  unfold IBAN_PATTERN, seqs. cbn [fold_right app].
  rewrite m_seq, m_bnd. cbn [prev rest hd_error word_at]. rewrite Hpr.
  assert (W1 : is_word U l1 = true).
  { apply (upper_digit_word HU). unfold upper_or_digit. now rewrite H1. }
  rewrite W1. cbn [xorb].
  rewrite m_seq, m_times_two by assumption.
  rewrite m_seq, m_times_two by assumption.
  rewrite m_seq. rewrite Hrep. reflexivity.
Qed.

End IbanTaken.

(** ** The phone pattern on a number of two groups *)

Lemma ws_or_hyphen_apart c : ws_or_hyphen c = true -> apart_char c = true.
Proof.
  unfold ws_or_hyphen, apart_char. intros H. apply orb_true_iff in H.
  destruct H as [->|H]; [reflexivity|]. apply N.eqb_eq in H. subst c. reflexivity.
Qed.

Lemma ends_apart_not_word U (HU : standard U) A :
  ends_apart A = true -> word_at U (last_char None A) = false.
Proof.
  unfold ends_apart. destruct (last_char None A) as [c|]; [|reflexivity].
  intros H. now apply (apart_not_word HU).
Qed.

Lemma starts_apart_not_word U (HU : standard U) T :
  starts_apart T = true -> word_at U (hd_error T) = false.
Proof.
  destruct T as [|c T]; [reflexivity|]. simpl. intros H. now apply (apart_not_word HU).
Qed.

Section PlainPhone.

Variable U : Unicode.
Hypothesis HU : standard U.

Lemma sep_not_digit c : ws_or_hyphen c = true -> is_digit U c = false.
Proof.
  intros H. apply ws_or_hyphen_apart in H.
  apply (prose_not_digit HU). unfold prose_char. rewrite H. now rewrite !orb_true_r.
Qed.

Lemma group_last g pr :
  forallb digit_09 g = true -> g <> [] ->
  exists c, last_char pr g = Some c /\ digit_09 c = true.
Proof.
  intros H Hne. destruct (exists_last Hne) as (g' & c & ->).
  rewrite last_char_last. exists c. split; [reflexivity|].
  rewrite forallb_app in H. apply andb_true_iff in H. destruct H as [_ H].
  simpl in H. now apply andb_true_iff in H.
Qed.

Lemma phone_found phone pr T :
  two_groups phone -> word_at U pr = false -> starts_apart T = true ->
  matches U (PHONE_PATTERN U) (MState pr (phone ++ T) 0 [])
          (MState (last_char pr phone) T (List.length phone) []).
Proof.
  intros (g1 & sep & g2 & -> & H1 & H2 & L1 & L2 & Hs & Ls) Hpr HT.
  pose proof (ascii_digits_are_digits HU g1 H1) as D1.
  pose proof (ascii_digits_are_digits HU g2 H2) as D2.
  rewrite <- !app_assoc.
  unfold PHONE_PATTERN. unfold seqs at 1. cbn [fold_right].
  exists (MState pr (g1 ++ sep ++ g2 ++ T) 0 []). split.
  { split; [|reflexivity]. cbn [prev rest]. rewrite Hpr.
    destruct g1 as [|a g1]; [simpl in L1; lia|]. simpl in *.
    apply andb_true_iff in H1. destruct H1 as [Ha _].
    now rewrite (ascii_digit_word HU a Ha). }
  exists (MState pr (g1 ++ sep ++ g2 ++ T) 0 []). split; [apply matches_opt_skip|].
  exists (MState pr (g1 ++ sep ++ g2 ++ T) 0 []). split; [apply matches_opt_skip|].
  exists (MState (last_char pr g1) (sep ++ g2 ++ T) (0 + List.length g1) []). split.
  { apply matches_rep_chr; [assumption|lia]. }
  exists (MState (last_char (last_char pr g1) sep) (g2 ++ T)
                 (0 + List.length g1 + List.length sep) []). split.
  { destruct sep as [|s [|s' sep]]; [| |simpl in Ls; lia].
    - cbn [app List.length]. rewrite Nat.add_0_r. apply (@matches_opt_skip U).
    - apply matches_opt_take. exists s, (g2 ++ T). simpl in Hs.
      apply andb_true_iff in Hs. destruct Hs as [Hs _]. repeat split; [assumption|].
      unfold advance. simpl. f_equal. lia. }
  exists (MState (last_char (last_char (last_char pr g1) sep) g2) T
                 (0 + List.length g1 + List.length sep + List.length g2) []). split.
  { apply matches_rep_chr; [assumption|lia]. }
  exists (MState (last_char (last_char (last_char pr g1) sep) g2) T
                 (0 + List.length g1 + List.length sep + List.length g2) []). split.
  { split; [|reflexivity]. cbn [prev rest].
    destruct (@group_last g2 (last_char (last_char pr g1) sep) H2) as (c & -> & Hc).
    { intros ->. simpl in L2. lia. }
    cbn [word_at]. rewrite (ascii_digit_word HU c Hc).
    now rewrite (starts_apart_not_word HU T HT). }
  simpl. rewrite !last_char_app, !length_app. f_equal. lia.
Qed.

Lemma two_groups_chars phone c :
  two_groups phone -> In c phone -> digit_09 c = true \/ ws_or_hyphen c = true.
Proof.
  intros (g1 & sep & g2 & -> & H1 & H2 & _ & _ & Hs & _) Hc.
  rewrite forallb_forall in H1, H2, Hs.
  apply in_app_or in Hc. destruct Hc as [Hc|Hc]; [left; auto|].
  apply in_app_or in Hc. destruct Hc as [Hc|Hc]; [right; auto|left; auto].
Qed.

Lemma two_groups_length phone : two_groups phone -> 6 <= List.length phone <= 9.
Proof.
  intros (g1 & sep & g2 & -> & _ & _ & L1 & L2 & _ & Ls). rewrite !length_app. lia.
Qed.

(** A digit of the number that ends a match is its last digit. *)
Lemma phone_boundary phone run x s1 pr c :
  two_groups phone -> phone = run ++ x :: s1 ->
  last_char pr run = Some c -> is_digit U c = true -> run <> [] ->
  xorb (is_word U c) (is_word U x) = true ->
  List.length run <= 4.
Proof.
  intros (g1 & sep & g2 & -> & H1 & H2 & L1 & L2 & Hs & Ls) E Hc Hd Hne B.
  assert (Hcin : In c run) by (apply last_char_in with pr; assumption).
  assert (Hcls : forall y, In y (g1 ++ sep ++ g2) ->
                           digit_09 y = true \/ ws_or_hyphen y = true).
  { intros y Hy. apply (@two_groups_chars (g1 ++ sep ++ g2)); [|assumption].
    now exists g1, sep, g2. }
  assert (Hcd : digit_09 c = true).
  { destruct (Hcls c) as [H|H]; [rewrite E; apply in_or_app; now left|assumption|].
    rewrite (sep_not_digit c H) in Hd. discriminate. }
  rewrite (ascii_digit_word HU c Hcd) in B.
  assert (Hx : ws_or_hyphen x = true).
  { destruct (Hcls x) as [H|H];
      [rewrite E; apply in_or_app; right; now left| |assumption].
    rewrite (ascii_digit_word HU x H) in B. discriminate. }
  (* the separator is at one place only *)
  apply split_app in E. destruct E as [(s & Hn & -> & Es)|(p2 & -> & Es)].
  - rewrite length_app in L1. lia.
  - destruct p2 as [|y p2].
    + rewrite app_nil_r. lia.
    + exfalso. destruct sep as [|s [|s' sep]]; [| |simpl in Ls; lia].
      * simpl in Es. rewrite forallb_forall in H2.
        assert (Hin : In x g2) by (rewrite Es; right; apply in_or_app; right; now left).
        apply H2 in Hin. pose proof (sep_not_digit x Hx) as Hn.
        rewrite (ascii_digit_is_digit HU x Hin) in Hn. discriminate.
      * simpl in Es. injection Es as <- Es. rewrite forallb_forall in H2.
        assert (Hin : In x g2) by (rewrite Es; apply in_or_app; right; now left).
        apply H2 in Hin. pose proof (sep_not_digit x Hx) as Hn.
        rewrite (ascii_digit_is_digit HU x Hin) in Hn. discriminate.
Qed.

(** Every match at the start of the number takes the number, where no digit
    follows it. *)
Lemma phone_end phone pr T st' :
  two_groups phone -> forallb (fun c => negb (is_digit U c)) T = true ->
  matches U (PHONE_PATTERN U) (MState pr (phone ++ T) 0 []) st' ->
  pos st' = List.length phone.
Proof.
  intros Hph HT H.
  change (PHONE_PATTERN U) with (seqs (Bnd :: PHONE_BODY U ++ [Bnd])) in H.
  apply (@matches_bounded U (fun _ => true)) in H; [|apply all_chars_in].
  destruct H as (run & (R & P & Hp) & _ & L & _ & B & Hbody). simpl in R, P, Hp.
  assert (Lmin : 6 <= List.length run) by (cbn in L; lia). clear L.
  assert (Hne : run <> []) by (intros ->; simpl in Lmin; lia).
  destruct (phone_body_last Hbody) as (c & Hc & Hcd). rewrite P in Hc.
  apply split_app in R. destruct R as [(s & Hn & E & Es)|(p2 & E & Es)].
  - exfalso. destruct s as [|x s]; [contradiction|].
    rewrite P, Es in B. rewrite Hc in B. simpl in B.
    pose proof (@phone_boundary phone run x s pr c Hph E Hc Hcd Hne B). lia.
  - destruct p2 as [|y p2].
    + rewrite app_nil_r in E. now subst run.
    + exfalso. rewrite E, last_char_app in Hc.
      assert (Hin : In c T).
      { rewrite Es. apply in_or_app. left.
        apply last_char_in with (last_char pr phone); [discriminate|assumption]. }
      rewrite forallb_forall in HT. apply HT in Hin. now rewrite Hcd in Hin.
Qed.

End PlainPhone.

(** ** The matcher on runs and on optional characters *)

Lemma m_opt U a st k : m U (opt a) st k = orelse (m U a st k) (k st).
Proof. reflexivity. Qed.

Lemma m_eps U st k : m U Eps st k = k st.
Proof. reflexivity. Qed.

Lemma orelse_first {A} (a b : option A) r : a = Some r -> orelse a b = Some r.
Proof. now intros ->. Qed.

Lemma m_chr_take U (p : char -> bool) x pr s n cs k :
  p x = true -> m U (Chr p) (MState pr (x :: s) n cs) k = k (MState (Some x) s (S n) cs).
Proof. intros H. simpl. now rewrite H. Qed.

Lemma m_chr_stop U (p : char -> bool) pr s n cs k :
  (forall x, hd_error s = Some x -> p x = false) ->
  m U (Chr p) (MState pr s n cs) k = None.
Proof.
  intros H. destruct s as [|x s]; simpl; [reflexivity|]. now rewrite (H x eq_refl).
Qed.

(** What no match of [r] lets the continuation accept, the matcher does not
    find. *)
Lemma m_none U r st k :
  (forall st', matches U r st st' -> k st' = None) -> m U r st k = None.
Proof.
  intros H. destruct (m U r st k) as [res|] eqn:E; [|reflexivity].
  apply m_sound in E. destruct E as (st' & Hm & Hk). rewrite (H st' Hm) in Hk.
  discriminate.
Qed.

(** An optional character that is there is taken first; one that is not
    there is passed over. *)
Lemma opt_chr_take U (p : char -> bool) x pr s n cs k res :
  p x = true -> k (MState (Some x) s (S n) cs) = Some res ->
  m U (opt (Chr p)) (MState pr (x :: s) n cs) k = Some res.
Proof. intros Hx Hk. rewrite m_opt, m_chr_take by assumption. now rewrite Hk. Qed.

Lemma opt_chr_skip U (p : char -> bool) pr s n cs k :
  (forall x, hd_error s = Some x -> p x = false) ->
  m U (opt (Chr p)) (MState pr s n cs) k = k (MState pr s n cs).
Proof. intros H. rewrite m_opt, m_chr_stop by assumption. reflexivity. Qed.

(** A run of characters of the class, as long as the pattern allows or
    ended by a character that is not of the class, is taken whole first. *)
Lemma rep_opt_run U (p : char -> bool) run : forall e pr tail n cs k res,
  forallb p run = true -> List.length run <= e ->
  (List.length run = e \/ forall x, hd_error tail = Some x -> p x = false) ->
  k (MState (last_char pr run) tail (n + List.length run) cs) = Some res ->
  rep_opt (m U (Chr p)) e (MState pr (run ++ tail) n cs) k = Some res.
Proof.
  induction run as [|c run IH]; intros e pr tail n cs k res H L Hstop Hk.
  - cbn [last_char fold_left List.length] in Hk. rewrite Nat.add_0_r in Hk.
    destruct e as [|e]; [exact Hk|].
    destruct Hstop as [Hstop|Hstop]; [discriminate|].
    cbn [app rep_opt]. rewrite m_chr_stop by assumption. exact Hk.
  - destruct e as [|e]; [simpl in L; lia|].
    cbn [forallb] in H. apply andb_true_iff in H. destruct H as [Hc H].
    cbn [app rep_opt]. rewrite m_chr_take by assumption.
    rewrite (IH e (Some c) tail (S n) cs k res); [reflexivity|assumption|simpl in L; lia| |].
    + destruct Hstop as [Hstop|Hstop]; [left; simpl in Hstop; lia|now right].
    + change (last_char pr (c :: run)) with (last_char (Some c) run) in Hk.
      cbn [List.length] in Hk. rewrite Nat.add_succ_r in Hk. exact Hk.
Qed.

Lemma run_taken U (p : char -> bool) lo extra run pr tail n cs k res :
  forallb p run = true -> lo <= List.length run <= lo + extra ->
  (List.length run = lo + extra \/ forall x, hd_error tail = Some x -> p x = false) ->
  k (MState (last_char pr run) tail (n + List.length run) cs) = Some res ->
  m U (Rep (Chr p) lo extra) (MState pr (run ++ tail) n cs) k = Some res.
Proof.
  intros H L Hstop Hk. rewrite m_rep.
  pose proof (firstn_skipn lo run) as E.
  assert (L1 : List.length (firstn lo run) = lo) by (rewrite length_firstn; lia).
  revert E L1. generalize (firstn lo run) (skipn lo run). intros r1 r2 E L1. subst run.
  rewrite forallb_app in H. apply andb_true_iff in H. destruct H as [H1 H2].
  rewrite length_app in L, Hstop, Hk. rewrite last_char_app in Hk.
  rewrite <- app_assoc. rewrite <- L1 at 1. rewrite rep_req_chr by assumption.
  apply rep_opt_run; [assumption|lia| |].
  - destruct Hstop as [Hstop|Hstop]; [left; lia|now right].
  - now rewrite <- Nat.add_assoc.
Qed.

(** What a match of an optional character, and of a run, leaves. *)
Lemma matches_opt_inv U a st st' :
  matches U (opt a) st st' -> st' = st \/ matches U a st st'.
Proof.
  intros (n & Hn & H). destruct n as [|[|n]]; [left; exact H| |lia].
  right. destruct H as (mid & H & E). simpl in E. now subst.
Qed.

Lemma opt_chr_rest U (p : char -> bool) st st' :
  matches U (opt (Chr p)) st st' ->
  rest st' = rest st \/ exists x, rest st = x :: rest st' /\ p x = true.
Proof.
  intros H. apply matches_opt_inv in H. destruct H as [->|(c & s' & Hr & Hc & ->)].
  - now left.
  - right. exists c. now split.
Qed.

Lemma run_rest U (p : char -> bool) lo extra st st' :
  matches U (Rep (Chr p) lo extra) st st' ->
  exists run, rest st = run ++ rest st' /\ forallb p run = true /\ lo <= List.length run.
Proof.
  intros H. pose proof (matches_min_len U _ _ _ H) as L. cbn [min_len] in L.
  destruct (@matches_consumed U p (Rep (Chr p) lo extra)) with (st := st) (st' := st')
    as (run & (R & _ & P) & Hall); [intros c Hc; exact Hc|assumption|].
  exists run. repeat split; [assumption|assumption|lia].
Qed.

(** A run of the class at the start of a group that another character ends
    lies within the group. *)
Lemma run_in_group (p : char -> bool) : forall run X g T,
  run ++ X = g ++ T -> forallb p run = true ->
  (forall x, hd_error T = Some x -> p x = false) ->
  exists g', g = run ++ g' /\ X = g' ++ T.
Proof.
  induction run as [|r run IH]; intros X g T E H HT.
  - exists g. now split.
  - cbn [forallb] in H. apply andb_true_iff in H. destruct H as [Hr H].
    destruct g as [|y g].
    + simpl in E. subst T. rewrite (HT r eq_refl) in Hr. discriminate.
    + simpl in E. injection E as <- E. destruct (IH X g T E H HT) as (g' & -> & ->).
      now exists g'.
Qed.

Lemma not_that (p : char -> bool) c x : p c = false -> p x = true -> (c =? x)%N = false.
Proof.
  intros Hc Hx. destruct (c =? x)%N eqn:E; [|reflexivity].
  apply N.eqb_eq in E. subst x. congruence.
Qed.

(** ** The phone pattern on a number of three or four groups *)

Section PhoneGroups.

Variable U : Unicode.
Hypothesis HU : standard U.

Local Abbreviation AREA :=
  (seqs [opt (chr 40); Rep (Chr (is_digit U)) 2 2; opt (chr 41); opt (Chr ws_or_hyphen)]).
Local Abbreviation LOCAL :=
  (seqs [Rep (Chr (is_digit U)) 3 1; opt (Chr ws_or_hyphen); Rep (Chr (is_digit U)) 3 1;
         Bnd]).
Local Abbreviation COUNTRY :=
  (seqs [opt (chr 43); Rep (Chr (is_digit U)) 1 2; opt (Chr ws_or_hyphen)]).

Lemma phone_pattern_parts :
  PHONE_PATTERN U = Seq Bnd (Seq (opt COUNTRY) (Seq (opt AREA) LOCAL)).
Proof. reflexivity. Qed.

Lemma digit_not_sep x : digit_09 x = true -> ws_or_hyphen x = false.
Proof.
  intros H. destruct (ws_or_hyphen x) eqn:E; [|reflexivity].
  apply (sep_not_digit HU) in E. now rewrite (ascii_digit_is_digit HU x H) in E.
Qed.

Lemma sep_head s Y (p : char -> bool) :
  p s = false -> forall x, hd_error (s :: Y) = Some x -> p x = false.
Proof. now intros H x [= <-]. Qed.

Lemma group_head g Y (p : char -> bool) :
  g <> [] -> (forall x, In x g -> p x = false) ->
  forall x, hd_error (g ++ Y) = Some x -> p x = false.
Proof.
  intros Hne H x Hx. destruct g as [|y g]; [contradiction|].
  simpl in Hx. injection Hx as <-. apply H. now left.
Qed.

Lemma digit_free_head T :
  forallb (fun x => negb (is_digit U x)) T = true ->
  forall x, hd_error T = Some x -> is_digit U x = false.
Proof.
  intros H x Hx. destruct T as [|y T]; [discriminate|]. injection Hx as <-.
  simpl in H. apply andb_true_iff in H. destruct H as [H _].
  now apply negb_true_iff in H.
Qed.

Lemma apart_head T :
  starts_apart T = true -> forall x, hd_error T = Some x -> is_digit U x = false.
Proof.
  intros H x Hx. destruct T as [|y T]; [discriminate|]. injection Hx as <-.
  simpl in H. apply (prose_not_digit HU). unfold prose_char. rewrite H.
  now rewrite !orb_true_r.
Qed.

Lemma group_last_word g pr :
  forallb digit_09 g = true -> g <> [] -> word_at U (last_char pr g) = true.
Proof.
  intros H Hne. destruct (@group_last g pr H Hne) as (c & -> & Hc).
  simpl. now apply (ascii_digit_word HU).
Qed.

Lemma group_first_word g Y :
  forallb digit_09 g = true -> g <> [] -> word_at U (hd_error (g ++ Y)) = true.
Proof.
  intros H Hne. destruct g as [|y g]; [contradiction|]. simpl in *.
  apply andb_true_iff in H. destruct H as [H _]. now apply (ascii_digit_word HU).
Qed.

Lemma group_nonempty lo hi g : digit_group (S lo) hi g -> g <> [].
Proof. intros [_ L] ->. simpl in L. lia. Qed.

(** The two last groups of a number are taken, with what separates them. *)
Lemma local_taken c s d T pr n cs :
  digit_group 3 4 c -> digit_group 3 4 d -> ws_or_hyphen s = true ->
  starts_apart T = true ->
  exists res, m U LOCAL (MState pr (c ++ s :: d ++ T) n cs) Some = Some res
              /\ pos res = n + List.length c + 1 + List.length d.
Proof.
  intros Hc Hd Hs HT. pose proof (group_nonempty Hd) as Nd.
  destruct Hc as [Dc Lc], Hd as [Dd Ld].
  eexists. split.
  - unfold seqs. cbn [fold_right]. rewrite m_seq.
    apply run_taken;
      [now apply (ascii_digits_are_digits HU)|lia
      |right; apply sep_head; now apply (sep_not_digit HU)|].
    rewrite m_seq. apply opt_chr_take; [assumption|].
    rewrite m_seq.
    apply run_taken;
      [now apply (ascii_digits_are_digits HU)|lia|right; now apply apart_head|].
    rewrite m_seq, m_bnd. cbn [prev rest].
    rewrite (group_last_word _ Dd Nd), (starts_apart_not_word HU T HT).
    cbn [xorb negb]. rewrite m_eps. reflexivity.
  - cbn [pos]. lia.
Qed.

(** After the first group, the area code cannot be read from the second:
    too few digits would be left for the two last groups. *)
Lemma area_blocks_local c s d T st st1 st2 :
  rest st = c ++ s :: d ++ T ->
  digit_group 3 4 c -> digit_group 3 4 d -> ws_or_hyphen s = true ->
  forallb (fun x => negb (is_digit U x)) T = true ->
  matches U AREA st st1 -> matches U LOCAL st1 st2 -> False.
Proof.
  intros E Hc Hd Hs HT HA HL.
  pose proof (group_nonempty Hc) as Nc.
  assert (Cc : forall x, In x c -> digit_09 x = true).
  { destruct Hc as [Dc _]. now apply forallb_forall. }
  assert (Cd : forall x, In x d -> digit_09 x = true).
  { destruct Hd as [Dd _]. now apply forallb_forall. }
  destruct Hc as [_ Lc], Hd as [_ Ld].
  pose proof (sep_not_digit HU s Hs) as Ns.
  destruct HA as (m1 & O1 & m2 & R1 & m3 & O2 & m4 & O3 & E4). simpl in E4. subst st1.
  apply opt_chr_rest in O1, O2, O3. apply run_rest in R1.
  (* no opening parenthesis *)
  assert (E1 : rest m1 = c ++ s :: d ++ T).
  { destruct O1 as [O1|(x & O1 & Hx)]; [congruence|exfalso].
    rewrite E in O1. destruct c as [|y c]; [contradiction|]. injection O1 as <- _.
    rewrite (@not_that digit_09 40%N y) in Hx; [discriminate|reflexivity|].
    apply Cc. now left. }
  (* two digits or more of the group *)
  destruct R1 as (run1 & E2 & D1 & L1). rewrite E1 in E2. symmetry in E2.
  apply run_in_group with (p := is_digit U) in E2;
    [|assumption|now apply sep_head].
  destruct E2 as (c' & Ec & E2).
  assert (Cc' : forall x, In x c' -> digit_09 x = true).
  { intros x Hx. apply Cc. rewrite Ec. apply in_or_app. now right. }
  rewrite Ec, length_app in Lc.
  (* no closing parenthesis *)
  assert (E3 : rest m3 = c' ++ s :: d ++ T).
  { destruct O2 as [O2|(x & O2 & Hx)]; [congruence|exfalso].
    rewrite E2 in O2. destruct c' as [|y c'].
    - injection O2 as <- _.
      rewrite (@not_that ws_or_hyphen 41%N s) in Hx; [discriminate|reflexivity|assumption].
    - injection O2 as <- _.
      rewrite (@not_that digit_09 41%N y) in Hx; [discriminate|reflexivity|].
      apply Cc'. now left. }
  (* the separator, when the group is read to its end *)
  assert (E5 : rest m4 = c' ++ s :: d ++ T \/ rest m4 = d ++ T).
  { destruct O3 as [O3|(x & O3 & Hx)]; [left; congruence|right].
    rewrite E3 in O3. destruct c' as [|y c'].
    - now injection O3 as _ <-.
    - exfalso. injection O3 as <- _.
      rewrite (digit_not_sep y) in Hx; [discriminate|]. apply Cc'. now left. }
  destruct HL as (n1 & R2 & n2 & O4 & n3 & R3 & _).
  apply run_rest in R2, R3. apply opt_chr_rest in O4.
  destruct R2 as (run2 & E6 & D2 & L2). destruct R3 as (run3 & E7 & D3 & L3).
  destruct E5 as [E5|E5]; rewrite E5 in E6; symmetry in E6;
    apply run_in_group with (p := is_digit U) in E6;
    try assumption; try (now apply sep_head); try (now apply digit_free_head);
    destruct E6 as (g' & Eg & E6).
  - rewrite Eg, length_app in Lc. lia.
  - rewrite Eg, length_app in Ld.
    assert (Cg : forall x, In x g' -> digit_09 x = true).
    { intros x Hx. apply Cd. rewrite Eg. apply in_or_app. now right. }
    destruct O4 as [O4|(x & O4 & Hx)].
    + rewrite O4, E6 in E7. symmetry in E7.
      apply run_in_group with (p := is_digit U) in E7;
        [|assumption|now apply digit_free_head].
      destruct E7 as (g'' & Eg' & _). rewrite Eg', length_app in Ld. lia.
    + rewrite E6 in O4. destruct g' as [|y g'].
      * simpl in O4. rewrite O4 in HT. simpl in HT.
        apply andb_true_iff in HT. destruct HT as [_ HT].
        destruct run3 as [|r run3]; [simpl in L3; lia|].
        simpl in D3. apply andb_true_iff in D3. destruct D3 as [Hr _].
        rewrite E7 in HT. simpl in HT. rewrite Hr in HT. discriminate.
      * injection O4 as <- _. rewrite (digit_not_sep y) in Hx; [discriminate|].
        apply Cg. now left.
Qed.

Lemma area_none c s d T pr n cs :
  digit_group 3 4 c -> digit_group 3 4 d -> ws_or_hyphen s = true ->
  forallb (fun x => negb (is_digit U x)) T = true ->
  m U AREA (MState pr (c ++ s :: d ++ T) n cs) (fun st' => m U LOCAL st' Some) = None.
Proof.
  intros Hc Hd Hs HT. apply m_none. intros st1 HA. apply m_none. intros st2 HL.
  exfalso.
  exact (@area_blocks_local c s d T (MState pr (c ++ s :: d ++ T) n cs) st1 st2
           eq_refl Hc Hd Hs HT HA HL).
Qed.

(** One digit before a separator is too few for what follows the country
    code. *)
Lemma one_digit_stops x s Y st st' :
  rest st = x :: s :: Y -> digit_09 x = true -> is_digit U s = false ->
  matches U (Seq (opt AREA) LOCAL) st st' -> False.
Proof.
  intros E Hx Hs (m1 & OA & HL).
  assert (Hshort : forall st0 st1 lo extra,
             rest st0 = x :: s :: Y -> 2 <= lo ->
             matches U (Rep (Chr (is_digit U)) lo extra) st0 st1 -> False).
  { intros st0 st1 lo extra E0 Hlo H. apply run_rest in H.
    destruct H as (run & Er & Dr & Lr). rewrite E0 in Er. symmetry in Er.
    apply (@run_in_group (is_digit U) run (rest st1) [x] (s :: Y)) in Er;
      [|assumption|now apply sep_head].
    destruct Er as (g' & Eg & _). apply (f_equal (@List.length char)) in Eg.
    rewrite length_app in Eg. simpl in Eg. lia. }
  apply matches_opt_inv in OA. destruct OA as [->|HA].
  - destruct HL as (n1 & R & _). exact (Hshort st n1 3 1 E (le_S _ _ (le_n 2)) R).
  - destruct HA as (q1 & O1 & q2 & R & _). apply opt_chr_rest in O1.
    assert (E1 : rest q1 = x :: s :: Y).
    { destruct O1 as [O1|(y & O1 & Hy)]; [congruence|exfalso].
      rewrite E in O1. injection O1 as <- _.
      rewrite (@not_that digit_09 40%N x) in Hy; [discriminate|reflexivity|assumption]. }
    exact (Hshort q1 q2 2 2 E1 (le_n 2) R).
Qed.

Ltac flatten_text := repeat first [rewrite <- app_assoc | rewrite <- app_comm_cons].

Lemma digits_not (c : char) g :
  digit_09 c = false -> forallb digit_09 g = true ->
  forall x, In x g -> (c =? x)%N = false.
Proof.
  intros Hc H x Hx. apply not_that with digit_09; [assumption|].
  rewrite forallb_forall in H. now apply H.
Qed.

(** A number of four groups is taken whole: country code, area code and the
    two last groups. *)
Lemma four_groups_taken phone pr T :
  four_groups phone -> word_at U pr = false -> starts_apart T = true ->
  exists res, m U (PHONE_PATTERN U) (MState pr (phone ++ T) 0 []) Some = Some res
              /\ pos res = List.length phone.
Proof.
  intros (a & s1 & b & s2 & c & s3 & d & -> & Ha & Hb & Hc & Hd & H1 & H2 & H3 & _) Hpr HT.
  destruct (@local_taken c s3 d T (Some s2) (S (S (List.length a) + List.length b)) []
              Hc Hd H3 HT) as (res & Hres & Hpos).
  exists res. split.
  2:{ rewrite Hpos. repeat (rewrite length_app; cbn [List.length]). lia. }
  pose proof (group_nonempty Ha) as Na. pose proof (group_nonempty Hb) as Nb.
  destruct Ha as [Da La], Hb as [Db Lb].
  flatten_text. rewrite phone_pattern_parts, m_seq, m_bnd. cbn [prev rest].
  rewrite Hpr, (group_first_word _ Da Na). cbn [xorb].
  rewrite m_seq, m_opt. apply orelse_first.
  unfold seqs at 1. cbn [fold_right]. unfold chr.
  rewrite m_seq, opt_chr_skip
    by (apply group_head; [assumption|now apply digits_not]).
  rewrite m_seq.
  apply run_taken;
    [now apply (ascii_digits_are_digits HU)|lia
    |right; apply sep_head; now apply (sep_not_digit HU)|].
  rewrite m_seq. apply opt_chr_take; [assumption|]. rewrite m_eps.
  rewrite m_seq, m_opt. apply orelse_first.
  unfold seqs at 1. cbn [fold_right]. unfold chr.
  rewrite m_seq, opt_chr_skip
    by (apply group_head; [assumption|now apply digits_not]).
  rewrite m_seq.
  apply run_taken;
    [now apply (ascii_digits_are_digits HU)|lia
    |right; apply sep_head; now apply (sep_not_digit HU)|].
  rewrite m_seq, opt_chr_skip
    by (apply sep_head; apply not_that with ws_or_hyphen; [reflexivity|assumption]).
  rewrite m_seq. apply opt_chr_take; [assumption|]. rewrite m_eps.
  exact Hres.
Qed.

(** A number of three groups is taken whole.  Its first group is read as
    country code when it has three digits at most; of four digits, the
    matcher reads two as country code and two as area code, three leaving
    one digit, which is too few. *)
Lemma three_groups_taken phone pr T :
  three_groups phone -> word_at U pr = false -> starts_apart T = true ->
  forallb (fun x => negb (is_digit U x)) T = true ->
  exists res, m U (PHONE_PATTERN U) (MState pr (phone ++ T) 0 []) Some = Some res
              /\ pos res = List.length phone.
Proof.
  intros (a & s1 & c & s2 & d & -> & Ha & Hc & Hd & H1 & H2) Hpr HT DT.
  destruct (@local_taken c s2 d T (Some s1) (S (List.length a)) [] Hc Hd H2 HT)
    as (res & Hres & Hpos).
  exists res. split.
  2:{ rewrite Hpos. repeat (rewrite length_app; cbn [List.length]). lia. }
  pose proof (group_nonempty Ha) as Na. destruct Ha as [Da La].
  pose proof (sep_not_digit HU s1 H1) as N1.
  flatten_text. rewrite phone_pattern_parts, m_seq, m_bnd. cbn [prev rest].
  rewrite Hpr, (group_first_word _ Da Na). cbn [xorb].
  rewrite m_seq, m_opt. apply orelse_first.
  unfold seqs at 1. cbn [fold_right]. unfold chr.
  rewrite m_seq, opt_chr_skip
    by (apply group_head; [assumption|now apply digits_not]).
  rewrite m_seq.
  destruct (Nat.eq_dec (List.length a) 4) as [L4|L4].
  - destruct a as [|a1 [|a2 [|a3 [|a4 [|a5 a]]]]]; try discriminate L4.
    cbn [forallb] in Da. rewrite !andb_true_iff in Da.
    destruct Da as (D1 & D2 & D3 & D4 & _).
    cbn [app].
    match goal with |- m U _ _ ?k = _ => set (K := k) end.
    rewrite m_rep. cbn [rep_req rep_opt].
    repeat (rewrite m_chr_take by (now apply (ascii_digit_is_digit HU)); cbv beta).
    assert (E3 : K (MState (Some a3) (a4 :: s1 :: c ++ s2 :: d ++ T) 3 []) = None).
    { subst K. cbv beta.
      rewrite m_seq, opt_chr_skip by (apply sep_head; now apply digit_not_sep).
      rewrite m_eps. apply m_none. intros st' H. exfalso.
      exact (@one_digit_stops a4 s1 (c ++ s2 :: d ++ T)
               (MState (Some a3) (a4 :: s1 :: c ++ s2 :: d ++ T) 3 []) st'
               eq_refl D4 N1 H). }
    assert (E2 : K (MState (Some a2) (a3 :: a4 :: s1 :: c ++ s2 :: d ++ T) 2 [])
                 = Some res).
    { subst K. cbv beta.
      rewrite m_seq, opt_chr_skip by (apply sep_head; now apply digit_not_sep).
      rewrite m_eps, m_seq, m_opt. apply orelse_first.
      unfold seqs at 1. cbn [fold_right]. unfold chr.
      rewrite m_seq, opt_chr_skip
        by (apply sep_head; now apply not_that with digit_09).
      rewrite m_seq.
      change (a3 :: a4 :: s1 :: c ++ s2 :: d ++ T)
        with ([a3; a4] ++ s1 :: c ++ s2 :: d ++ T).
      apply run_taken;
        [cbn [forallb];
         now rewrite (ascii_digit_is_digit HU a3 D3), (ascii_digit_is_digit HU a4 D4)
        |cbn [List.length]; lia|right; now apply sep_head|].
      rewrite m_seq, opt_chr_skip
        by (apply sep_head; apply not_that with ws_or_hyphen; [reflexivity|assumption]).
      rewrite m_seq. apply opt_chr_take; [assumption|]. rewrite m_eps.
      exact Hres. }
    rewrite E3, E2. reflexivity.
  - apply run_taken;
      [now apply (ascii_digits_are_digits HU)|lia|right; now apply sep_head|].
    rewrite m_seq. apply opt_chr_take; [assumption|]. rewrite m_eps.
    rewrite m_seq, m_opt, area_none by assumption. exact Hres.
Qed.

End PhoneGroups.

(** ** Plain phone numbers *)

Lemma class_app (P : char -> Prop) (a b : text) :
  (forall x, In x a -> P x) -> (forall x, In x b -> P x) ->
  forall x, In x (a ++ b) -> P x.
Proof. intros Ha Hb x Hx. apply in_app_or in Hx. destruct Hx; auto. Qed.

Lemma class_cons (P : char -> Prop) (s : char) (b : text) :
  P s -> (forall x, In x b -> P x) -> forall x, In x (s :: b) -> P x.
Proof. intros Hs Hb x [<-|Hx]; auto. Qed.

Lemma group_class lo hi g :
  digit_group lo hi g ->
  forall x, In x g -> digit_09 x = true \/ ws_or_hyphen x = true.
Proof. intros [H _] x Hx. left. rewrite forallb_forall in H. now apply H. Qed.

Lemma phone_chars_class phone c :
  plain_phone phone -> In c phone -> digit_09 c = true \/ ws_or_hyphen c = true.
Proof.
  intros [H|[H|H]]; revert c.
  - intros c. now apply two_groups_chars.
  - destruct H as (a & s1 & c1 & s2 & d & -> & Ha & Hc & Hd & H1 & H2).
    repeat first [apply class_app | apply class_cons];
      eauto using group_class.
  - destruct H as (a & s1 & b & s2 & c1 & s3 & d & -> & Ha & Hb & Hc & Hd & H1 & H2 & H3 & _).
    repeat first [apply class_app | apply class_cons];
      eauto using group_class.
Qed.

Lemma plain_phone_nonempty phone : plain_phone phone -> phone <> [].
Proof.
  intros [H|[H|H]] ->.
  - apply two_groups_length in H. simpl in H. lia.
  - destruct H as (a & s1 & c & s2 & d & E & _). now destruct a.
  - destruct H as (a & s1 & b & s2 & c & s3 & d & E & _). now destruct a.
Qed.

(** *** Runs of digits *)

Lemma runs_within_short (p : char -> bool) n t :
  List.length t <= n -> runs_within p n t.
Proof.
  intros L pre run x -> _. rewrite !length_app in L. lia.
Qed.

Lemma runs_within_sep (p : char -> bool) n A s B :
  p s = false -> runs_within p n A -> runs_within p n B ->
  runs_within p n (A ++ s :: B).
Proof.
  intros Hs HA HB pre run x E H.
  apply split_app in E. destruct E as [(s1 & _ & -> & E)|(p2 & -> & E)].
  - apply split_app in E. destruct E as [(t1 & Nt & -> & E)|(p2 & -> & _)].
    + exfalso. destruct t1 as [|y t1]; [contradiction|]. simpl in E. injection E as <- _.
      rewrite forallb_app in H. apply andb_true_iff in H. destruct H as [_ H].
      simpl in H. rewrite Hs in H. discriminate.
    + now apply (HA pre run p2).
  - destruct p2 as [|y p2].
    + destruct run as [|r run]; [simpl; lia|]. simpl in E. injection E as <- _.
      simpl in H. rewrite Hs in H. discriminate.
    + injection E as _ E. now apply (HB p2 run x).
Qed.

Lemma sep_not_upper_digit s : ws_or_hyphen s = true -> upper_or_digit s = false.
Proof. intros H. now apply apart_not_upper_digit, ws_or_hyphen_apart. Qed.

(** Eight digits at most stand together in a plain phone number. *)
Lemma phone_runs phone : plain_phone phone -> runs_within upper_or_digit 8 phone.
Proof.
  intros [H|[H|H]].
  - destruct H as (g1 & sep & g2 & -> & _ & _ & L1 & L2 & Hs & Ls).
    destruct sep as [|s [|s' sep]]; [| |simpl in Ls; lia].
    + apply runs_within_short. rewrite !length_app. simpl. lia.
    + simpl in Hs. apply andb_true_iff in Hs. destruct Hs as [Hs _].
      apply runs_within_sep; [now apply sep_not_upper_digit| |];
        apply runs_within_short; lia.
  - destruct H as (a & s1 & c & s2 & d & -> & Ha & Hc & Hd & H1 & H2).
    repeat (apply runs_within_sep; [now apply sep_not_upper_digit| |]);
      apply runs_within_short;
      match goal with G : digit_group _ _ ?g |- List.length ?g <= _ => destruct G; lia end.
  - destruct H as (a & s1 & b & s2 & c & s3 & d & -> & Ha & Hb & Hc & Hd & H1 & H2 & H3 & _).
    repeat (apply runs_within_sep; [now apply sep_not_upper_digit| |]);
      apply runs_within_short;
      match goal with G : digit_group _ _ ?g |- List.length ?g <= _ => destruct G; lia end.
Qed.

(** *** The number of digits *)

Lemma count_app (p : char -> bool) (a b : text) :
  List.length (filter p (a ++ b)) = List.length (filter p a) + List.length (filter p b).
Proof. now rewrite filter_app, length_app. Qed.

Lemma count_sep (p : char -> bool) s (b : text) :
  p s = false -> List.length (filter p (s :: b)) = List.length (filter p b).
Proof. intros H. simpl. now rewrite H. Qed.

Lemma count_part (p : char -> bool) (pre run x : text) :
  List.length (filter p run) <= List.length (filter p (pre ++ run ++ x)).
Proof. rewrite !count_app. lia. Qed.

Section PhoneFacts.

Variable U : Unicode.
Hypothesis HU : standard U.

(** Thirteen digits at most in a plain phone number. *)
Lemma phone_digit_count phone :
  plain_phone phone -> List.length (filter (is_digit U) phone) <= 13.
Proof.
  intros [H|[H|H]].
  - pose proof (filter_length_le (is_digit U) phone). apply two_groups_length in H. lia.
  - destruct H as (a & s1 & c & s2 & d & -> & [_ La] & [_ Lc] & [_ Ld] & H1 & H2).
    rewrite count_app, (@count_sep (is_digit U) s1 _ (sep_not_digit HU s1 H1)).
    rewrite count_app, (@count_sep (is_digit U) s2 _ (sep_not_digit HU s2 H2)).
    pose proof (filter_length_le (is_digit U) a).
    pose proof (filter_length_le (is_digit U) c).
    pose proof (filter_length_le (is_digit U) d). lia.
  - destruct H as (a & s1 & b & s2 & c & s3 & d & -> & [_ La] & [_ Lb] & [_ Lc] & [_ Ld]
                   & H1 & H2 & H3 & L).
    rewrite count_app, (@count_sep (is_digit U) s1 _ (sep_not_digit HU s1 H1)).
    rewrite count_app, (@count_sep (is_digit U) s2 _ (sep_not_digit HU s2 H2)).
    rewrite count_app, (@count_sep (is_digit U) s3 _ (sep_not_digit HU s3 H3)).
    pose proof (filter_length_le (is_digit U) a).
    pose proof (filter_length_le (is_digit U) b).
    pose proof (filter_length_le (is_digit U) c).
    pose proof (filter_length_le (is_digit U) d). lia.
Qed.

(** A card number has fourteen digits at least. *)
Lemma card_units n : forall st st',
  iter n (matches U (Seq (Chr (is_digit U)) (opt (Chr space_or_hyphen)))) st st' ->
  exists run, consumed run st st' /\ n <= List.length (filter (is_digit U) run).
Proof.
  induction n as [|n IH]; intros st st' H; cbn [iter] in H.
  - subst st'. exists []. split; [apply consumed_refl|simpl; lia].
  - destruct H as (mid & (m1 & (c & s' & Hr & Hc & ->) & HO) & H).
    apply IH in H. destruct H as (run & Hrun & Ln).
    assert (C1 : consumed [c] st (advance c s' st)).
    { unfold consumed. simpl. rewrite Hr. repeat split. lia. }
    apply matches_opt_inv in HO. destruct HO as [->|(x & s'' & Hr' & Hx & ->)].
    + exists ([c] ++ run). split; [now apply consumed_trans with (advance c s' st)|].
      rewrite count_app. simpl. rewrite Hc. simpl. lia.
    + exists (([c] ++ [x]) ++ run). split.
      * apply consumed_trans with (advance x s'' (advance c s' st)); [|assumption].
        apply consumed_trans with (advance c s' st); [assumption|].
        unfold consumed. simpl. simpl in Hr'. rewrite Hr'. repeat split. lia.
      * rewrite !count_app. simpl. rewrite Hc. simpl.
        destruct (is_digit U x); simpl; lia.
Qed.

Lemma card_digits st st' :
  matches U (CREDIT_CARD_PATTERN U) st st' ->
  exists run, consumed run st st' /\ 14 <= List.length (filter (is_digit U) run).
Proof.
  unfold CREDIT_CARD_PATTERN, seqs. cbn [fold_right].
  intros (m1 & (_ & ->) & m2 & (n & Hn & Hit) & m3 & (c & s' & Hr & Hc & ->)
          & m4 & (_ & ->) & E).
  simpl in E. subst st'. apply card_units in Hit. destruct Hit as (run & Hrun & Ln).
  exists (run ++ [c]). split.
  - apply consumed_trans with m2; [assumption|].
    unfold consumed. simpl. rewrite Hr. repeat split. lia.
  - rewrite count_app. simpl. rewrite Hc. simpl. lia.
Qed.

(** The phone pattern takes a plain phone number, whole. *)
Lemma phone_taken phone pr T :
  plain_phone phone -> word_at U pr = false -> starts_apart T = true ->
  forallb (fun x => negb (is_digit U x)) T = true ->
  exists res, m U (PHONE_PATTERN U) (MState pr (phone ++ T) 0 []) Some = Some res
              /\ pos res = List.length phone.
Proof.
  intros [H|[H|H]] Hpr HT DT.
  - destruct (m U (PHONE_PATTERN U) (MState pr (phone ++ T) 0 []) Some) as [res|] eqn:E.
    + exists res. split; [reflexivity|].
      apply m_sound in E. destruct E as (st' & Hm & [= ->]).
      exact (@phone_end U HU phone pr T res H DT Hm).
    + exfalso. revert E.
      apply (@m_complete U (PHONE_PATTERN U) _ _ Some (@phone_found U HU phone pr T H Hpr HT)).
      discriminate.
  - now apply three_groups_taken.
  - now apply four_groups_taken.
Qed.

End PhoneFacts.

(** ** Prose and placeholders *)

Lemma calm_app a b : calm a -> calm b -> calm (a ++ b).
Proof.
  induction 1 as [|p t Hp _ IH|tok t Htok _ IH]; intros Hb; simpl.
  - assumption.
  - rewrite <- app_assoc. apply calm_prose; auto.
  - rewrite <- app_assoc. apply calm_token; auto.
Qed.

Lemma calm_one_prose p : prose p = true -> calm p.
Proof. intros H. rewrite <- (app_nil_r p). apply calm_prose; [assumption|constructor]. Qed.

Lemma calm_avoids (q : char -> bool) t :
  (forall c, prose_char c = true -> q c = false) ->
  (forall c, placeholder_char c = true -> q c = false) ->
  calm t -> forallb (fun c => negb (q c)) t = true.
Proof.
  intros Hp Ht. induction 1 as [|p t H _ IH|tok t Htok _ IH]; [reflexivity| |];
    rewrite forallb_app, IH, andb_true_r; apply forallb_forall; intros c Hc.
  - apply prose_chars in H. rewrite forallb_forall in H. now rewrite (Hp c (H c Hc)).
  - now rewrite (Ht c (@token_chars tok c Htok Hc)).
Qed.

Lemma calm_no_match_from U r :
  (forall p B, prose p = true -> no_match_from U r p B) ->
  (forall tok B, In tok PLACEHOLDERS -> no_match_from U r tok B) ->
  forall A, calm A -> forall B, no_match_from U r A B.
Proof.
  intros Hp Ht A. induction 1 as [|p t H _ IH|tok t Htok _ IH]; intros B.
  - apply no_match_from_nil.
  - apply no_match_from_app; [now apply Hp|apply IH].
  - apply no_match_from_app; [now apply Ht|apply IH].
Qed.

Lemma no_upper_capitalised t :
  forallb (fun c => negb (upper_az c)) t = true -> capitalised t = true.
Proof.
  induction t as [|c t IH]; [reflexivity|]. simpl. intros H.
  apply andb_true_iff in H. destruct H as [-> H]. now rewrite IH.
Qed.

Lemma capitalised_no_match_from_iban U A B :
  capitalised A = true -> no_match_from U IBAN_PATTERN A B.
Proof.
  intros HA pre s1 pr st' E Hne H.
  apply (@starts_with_two U upper_az 0 0) in H.
  destruct H as (c1 & c2 & s & R & P1 & P2). simpl in R.
  destruct s1 as [|x s1]; [contradiction|]. simpl in R. injection R as <- R.
  rewrite E in HA. apply capitalised_suffix in HA.
  destruct (capitalised_head _ _ HA P1) as (l & t' & -> & Hl).
  simpl in R. injection R as <- _.
  pose proof (lower_not_upper_digit _ Hl) as Hn.
  unfold upper_digit_space, upper_or_digit in Hn. rewrite P2 in Hn. discriminate.
Qed.

(** What follows an IBAN in prose cannot be taken with it. *)
Lemma prose_char_upper c : prose_char c = true -> upper_or_digit c = true -> upper_az c = true.
Proof.
  intros Hp Hu. unfold upper_or_digit in Hu.
  now rewrite (prose_not_digit_09 _ Hp), orb_false_r in Hu.
Qed.

Lemma prose_stops_iban p X : prose p = true -> p <> [] -> p <> [32%N] -> stops_iban (p ++ X).
Proof.
  intros Hp Hne H32 c s' E Hc.
  destruct p as [|a [|b p]]; [contradiction| |].
  - simpl in E. injection E as -> _. contradiction.
  - simpl in E. injection E as -> -> <-.
    pose proof (prose_chars _ Hp) as Hch. pose proof (prose_capitalised _ Hp) as Hcap.
    cbn [forallb] in Hch. apply andb_true_iff in Hch. destruct Hch as [_ Hch].
    apply andb_true_iff in Hch. destruct Hch as [Hb _].
    apply (capitalised_suffix [32%N]) in Hcap.
    destruct (capitalised_head _ _ Hcap (prose_char_upper _ Hb Hc)) as (l & t' & -> & Hl).
    exists l, (t' ++ X). split; [reflexivity|assumption].
Qed.

Lemma prose_alone_stops_iban p : prose p = true -> stops_iban p.
Proof.
  intros Hp c s' E Hc.
  destruct (list_eq_dec N.eq_dec p [32%N]) as [->|H32]; [discriminate|].
  rewrite <- (app_nil_r p) in E.
  destruct (@prose_stops_iban p [] Hp) with (c := c) (s' := s') as (l & s'' & -> & Hl);
    try assumption.
  - intros ->. discriminate.
  - now exists l, s''.
Qed.

Lemma starts_apart_app a b : a <> [] -> starts_apart (a ++ b) = starts_apart a.
Proof. now destruct a. Qed.

Lemma ends_apart_app a b : b <> [] -> ends_apart (a ++ b) = ends_apart b.
Proof.
  intros Hne. unfold ends_apart. rewrite last_char_app.
  destruct (exists_last Hne) as (b' & c & ->). now rewrite !last_char_last.
Qed.

(** A link has a slash after its scheme. *)
Lemma link_needs_slash U st st' :
  matches U LINK_PATTERN st st' -> exists c, In c (rest st) /\ (47 =? c)%N = true.
Proof.
  unfold LINK_PATTERN, seqs. cbn [fold_right].
  intros (m1 & H1 & m2 & H2 & m3 & H3 & _).
  apply (@matches_consumed U (fun _ => true)) in H1;
    [|unfold lit; cbn; repeat split; auto].
  apply (@matches_consumed U (fun _ => true)) in H2;
    [|unfold opt, chr; cbn; auto].
  destruct H1 as (r1 & (R1 & _) & _), H2 as (r2 & (R2 & _) & _).
  destruct H3 as (m4 & H3 & m5 & H4 & _).
  apply matches_chr in H3. destruct H3 as ((R3 & _) & _).
  apply matches_chr in H4. destruct H4 as ((R4 & _) & _).
  exists 47%N. split; [|reflexivity]. rewrite R1, R2, R3, R4.
  apply in_or_app. right. apply in_or_app. right. right. now left.
Qed.

(** ** The passes of [clean_message] over prose, an IBAN and a number *)

Section Passes.

Variable U : Unicode.
Hypothesis HU : standard U.

Lemma spaced_iban_nonempty iban : spaced_iban iban -> iban <> [].
Proof. intros (l1 & l2 & d1 & d2 & us & -> & _). discriminate. Qed.

(** The IBAN pass replaces the token and nothing else. *)
Lemma iban_pass_line A iban T :
  no_match_from U IBAN_PATTERN A (iban ++ T) -> ends_apart A = true ->
  spaced_iban iban -> starts_apart T = true ->
  letters_and_digits iban = 34 \/ stops_iban T ->
  no_match_in U IBAN_PATTERN T ->
  re_sub U IBAN_PATTERN (str "[REDACTED_IBAN]") (A ++ iban ++ T)
  = A ++ str "[REDACTED_IBAN]" ++ T.
Proof.
  intros HA EA Hi ST Hstop HT. unfold re_sub.
  rewrite (sub_scan_over (str "[REDACTED_IBAN]") None HA). f_equal.
  rewrite (@sub_scan_take U IBAN_PATTERN (str "[REDACTED_IBAN]") (last_char None A) iban T _
             (spaced_iban_nonempty Hi)
             (@iban_taken U HU iban (last_char None A) T Hi (@ends_apart_not_word U HU A EA) ST Hstop)
             eq_refl).
  f_equal. now apply sub_scan_no_match.
Qed.

(** The phone pass replaces the number and nothing else. *)
Lemma phone_pass_line A phone T :
  no_match_from U (PHONE_PATTERN U) A (phone ++ T) -> ends_apart A = true ->
  plain_phone phone -> starts_apart T = true ->
  forallb (fun c => negb (is_digit U c)) T = true ->
  no_match_in U (PHONE_PATTERN U) T ->
  re_sub U (PHONE_PATTERN U) (str "[REDACTED_PHONE]") (A ++ phone ++ T)
  = A ++ str "[REDACTED_PHONE]" ++ T.
Proof.
  intros HA EA Hp ST DT HT. unfold re_sub.
  rewrite (sub_scan_over (str "[REDACTED_PHONE]") None HA). f_equal.
  destruct (@phone_taken U HU phone (last_char None A) T Hp
              (@ends_apart_not_word U HU A EA) ST DT) as (res & Hres & Hpos).
  rewrite (@sub_scan_take U (PHONE_PATTERN U) (str "[REDACTED_PHONE]") (last_char None A)
             phone T res (plain_phone_nonempty Hp) Hres Hpos).
  f_equal. now apply sub_scan_no_match.
Qed.

(** The number has too few digits together for an account number, and too
    few in all for a card number. *)
Lemma phone_no_match_rib phone B :
  plain_phone phone -> starts_apart B = true -> no_match_from U RIB_PATTERN phone B.
Proof.
  intros Hp HB pre s1 pr st' E Hne H.
  change RIB_PATTERN with (seqs (Bnd :: [Rep (Chr upper_or_digit) 10 24] ++ [Bnd])) in H.
  apply (@matches_bounded U upper_or_digit) in H; [|chars_in_tac].
  destruct H as (run & (R & _) & Hall & L & _). simpl in R. cbn in L.
  pose proof (phone_runs Hp) as Hruns.
  apply split_app in R. destruct R as [(s & Hn & Es & _)|(p2 & Er & EB)].
  - rewrite Es in E. pose proof (Hruns pre run s E Hall). lia.
  - destruct p2 as [|x p2].
    + rewrite app_nil_r in Er. subst run. rewrite <- (app_nil_r s1) in E.
      pose proof (Hruns pre s1 [] E Hall). lia.
    + subst B. simpl in HB. rewrite Er, forallb_app in Hall.
      apply andb_true_iff in Hall. destruct Hall as [_ Hall]. simpl in Hall.
      apply andb_true_iff in Hall. destruct Hall as [Hx _].
      now rewrite (apart_not_upper_digit _ HB) in Hx.
Qed.

Lemma card_last_digit st st' :
  matches U (CREDIT_CARD_PATTERN U) st st' ->
  exists c, prev st' = Some c /\ is_digit U c = true.
Proof.
  unfold CREDIT_CARD_PATTERN, seqs. cbn [fold_right].
  intros (m1 & _ & m2 & _ & m3 & (c & s' & _ & Hc & ->) & m4 & (_ & ->) & E).
  simpl in E. subst st'. now exists c.
Qed.

Lemma phone_no_match_card phone B :
  plain_phone phone -> forallb (fun c => negb (is_digit U c)) B = true ->
  no_match_from U (CREDIT_CARD_PATTERN U) phone B.
Proof.
  intros Hp HB pre s1 pr st' E Hne H.
  destruct (card_last_digit H) as (c & Hc & Hd).
  destruct (card_digits H) as (run & (R & P & _) & L). simpl in R, P.
  pose proof (phone_digit_count HU Hp) as Lp.
  apply split_app in R. destruct R as [(s & Hn & Es & _)|(p2 & Er & EB)].
  - rewrite E, Es in Lp. pose proof (count_part (is_digit U) pre run s). lia.
  - destruct p2 as [|x p2].
    + rewrite app_nil_r in Er. subst run. rewrite E, <- (app_nil_r s1) in Lp.
      pose proof (count_part (is_digit U) pre s1 []). lia.
    + rewrite P, Er, last_char_app in Hc.
      assert (Hin : In c B).
      { rewrite EB. apply in_or_app. left.
        apply last_char_in with (last_char pr s1); [discriminate|assumption]. }
      rewrite forallb_forall in HB. apply HB in Hin. now rewrite Hd in Hin.
Qed.

(** Prose and placeholders hold nothing that the later passes take. *)
Lemma calm_digit_free T : calm T -> forallb (fun c => negb (is_digit U c)) T = true.
Proof.
  apply calm_avoids; [apply (prose_not_digit HU)|apply (placeholder_not_digit HU)].
Qed.

Lemma calm_phone_free T :
  calm T ->
  forallb (fun c => negb ((43 =? c)%N || (40 =? c)%N || is_digit U c)) T = true.
Proof.
  apply calm_avoids; intros c H.
  - rewrite (prose_not_digit HU c H). unfold prose_char, apart_char, prose_punct in H.
    decide_bool.
  - rewrite (placeholder_not_digit HU c H). unfold placeholder_char in H. decide_bool.
Qed.

Lemma phone_first :
  first_ok (fun c => (43 =? c)%N || (40 =? c)%N || is_digit U c) (PHONE_PATTERN U).
Proof. first_ok_tac; intros c Hc; rewrite Hc; now rewrite ?orb_true_r. Qed.

Lemma calm_no_match_from_phone A B : calm A -> no_match_from U (PHONE_PATTERN U) A B.
Proof.
  intros H. apply no_match_from_first with (fun c => (43 =? c)%N || (40 =? c)%N || is_digit U c).
  - apply phone_first.
  - cbn. lia.
  - now apply calm_phone_free.
Qed.

Lemma calm_no_phone T : calm T -> no_match_in U (PHONE_PATTERN U) T.
Proof.
  intros H. apply no_match_in_end; [cbn; lia|]. now apply calm_no_match_from_phone.
Qed.

Lemma calm_no_match_from_card A B : calm A -> no_match_from U (CREDIT_CARD_PATTERN U) A B.
Proof.
  intros H. apply no_match_from_first with (is_digit U).
  - first_ok_tac. auto.
  - cbn. lia.
  - now apply calm_digit_free.
Qed.

Lemma calm_no_match_from_rib A : calm A -> forall B, no_match_from U RIB_PATTERN A B.
Proof.
  apply calm_no_match_from.
  - intros p B. apply prose_no_match_rib.
  - intros tok B. apply token_no_match_rib.
Qed.

Lemma calm_no_match_from_bic A : calm A -> forall B, no_match_from U BIC_PATTERN A B.
Proof.
  apply calm_no_match_from.
  - intros p B. apply prose_no_match_bic.
  - intros tok B. now apply token_no_match_bic.
Qed.

Lemma calm_no_bic T : calm T -> no_match_in U BIC_PATTERN T.
Proof.
  intros H. apply no_match_in_end; [cbn; lia|]. now apply calm_no_match_from_bic.
Qed.

Lemma calm_no_email T : calm T -> no_match_in U EMAIL_PATTERN T.
Proof.
  intros H. apply no_match_in_chars with (N.eqb 64); [apply email_needs_at|].
  apply calm_avoids; [| |assumption]; intros c Hc.
  - unfold prose_char, apart_char, prose_punct in Hc. decide_bool.
  - unfold placeholder_char in Hc. decide_bool.
Qed.

Lemma rib_quiet A phone T :
  calm A -> plain_phone phone -> calm T -> starts_apart T = true ->
  no_match_in U RIB_PATTERN (A ++ phone ++ T).
Proof.
  intros HA Hp HT ST.
  apply no_match_in_app; [now apply calm_no_match_from_rib|].
  apply no_match_in_app; [now apply phone_no_match_rib|].
  apply no_match_in_end; [cbn; lia|]. now apply calm_no_match_from_rib.
Qed.

Lemma card_quiet A phone T :
  calm A -> plain_phone phone -> calm T ->
  no_match_in U (CREDIT_CARD_PATTERN U) (A ++ phone ++ T).
Proof.
  intros HA Hp HT.
  apply no_match_in_app; [now apply calm_no_match_from_card|].
  apply no_match_in_app; [apply phone_no_match_card; [assumption|now apply calm_digit_free]|].
  apply no_match_in_end; [cbn; lia|]. now apply calm_no_match_from_card.
Qed.

(** The characters of the line before any pass. *)
Lemma prose_raw t : prose t = true -> forallb raw_char t = true.
Proof.
  intros H. apply prose_chars in H. revert H. apply forallb_impl.
  intros c Hc. unfold raw_char. now rewrite Hc.
Qed.

Lemma spaced_iban_raw iban : spaced_iban iban -> forallb raw_char iban = true.
Proof.
  intros (l1 & l2 & d1 & d2 & us & -> & H1 & H2 & H3 & H4 & Hus & _).
  assert (Hu : forall c, upper_or_digit c = true -> raw_char c = true).
  { intros c Hc. unfold raw_char. rewrite Hc. apply orb_true_r. }
  cbn [forallb]. rewrite !Hu by (unfold upper_or_digit; rewrite ?H1, ?H2, ?H3, ?H4;
                                 now rewrite ?orb_true_r).
  cbn [andb]. clear -Hus Hu. induction us as [|[[|] c] us IH]; [reflexivity| |];
    cbn [forallb snd] in Hus; apply andb_true_iff in Hus; destruct Hus as [Hc Hus];
    cbn [flat_map unit_text fst snd app forallb]; rewrite (Hu c Hc), (IH Hus);
    reflexivity.
Qed.

Lemma plain_phone_raw phone : plain_phone phone -> forallb raw_char phone = true.
Proof.
  intros Hp. apply forallb_forall. intros c Hc.
  destruct (@phone_chars_class phone c Hp Hc) as [H|H]; unfold raw_char.
  - unfold upper_or_digit. rewrite H. now rewrite !orb_true_r.
  - apply ws_or_hyphen_apart in H. unfold prose_char. rewrite H. now rewrite !orb_true_r.
Qed.

Lemma raw_not_emoji c : raw_char c = true -> emoji c = false.
Proof.
  unfold raw_char. intros H. apply orb_true_iff in H. destruct H as [H|H].
  - now apply prose_not_emoji.
  - decide_bool.
Qed.

Lemma raw_not_slash c : raw_char c = true -> (47 =? c)%N = false.
Proof.
  unfold raw_char. intros H. apply orb_true_iff in H. destruct H as [H|H].
  - unfold prose_char, apart_char, prose_punct in H. decide_bool.
  - decide_bool.
Qed.

Lemma raw_not_lt c : raw_char c = true -> ieq U 60%N c = false.
Proof.
  unfold raw_char. intros H. apply orb_true_iff in H. destruct H as [H|H].
  - now apply (prose_not_lt HU).
  - rewrite (std_ieq HU); [|reflexivity|decide_bool].
    change (latin1_lower1 60%N) with 60%N. unfold latin1_lower1.
    destruct (in_range 65 90 c || in_range 192 214 c || in_range 216 222 c) eqn:E;
      decide_bool.
Qed.

(** Emoji, links and edit marks: nothing to remove in such a line. *)
Lemma raw_first_passes t :
  forallb raw_char t = true ->
  re_sub U (EDITED_PATTERN U) [] (re_sub U LINK_PATTERN [] (re_sub U EMOJI_PATTERN [] t)) = t.
Proof.
  intros H.
  rewrite (@re_sub_unchanged U EMOJI_PATTERN).
  2:{ apply no_match_first with emoji; [first_ok_tac; auto|cbn; lia|].
      apply chars_avoid with raw_char; [apply raw_not_emoji|assumption]. }
  rewrite (@re_sub_unchanged U LINK_PATTERN).
  2:{ apply no_match_in_chars with (N.eqb 47); [apply link_needs_slash|].
      apply chars_avoid with raw_char; [apply raw_not_slash|assumption]. }
  apply re_sub_unchanged.
  apply no_match_first with (ieq U 60%N); [first_ok_tac; auto|cbn; lia|].
  apply chars_avoid with raw_char; [apply raw_not_lt|assumption].
Qed.

End Passes.

(** ** A line of prose with an IBAN and a phone number, in either order *)

Lemma iban_token_listed : In (str "[REDACTED_IBAN]") PLACEHOLDERS.
Proof. simpl. tauto. Qed.

Lemma phone_token_listed : In (str "[REDACTED_PHONE]") PLACEHOLDERS.
Proof. simpl. tauto. Qed.

Lemma plain_phone_capitalised phone : plain_phone phone -> capitalised phone = true.
Proof.
  intros Hp. apply no_upper_capitalised. apply forallb_forall. intros c Hc.
  destruct (@phone_chars_class phone c Hp Hc) as [H|H].
  - apply negb_true_iff. decide_bool.
  - apply ws_or_hyphen_apart in H. apply negb_true_iff.
    pose proof (apart_not_upper_digit _ H) as Hn. unfold upper_or_digit in Hn.
    now apply orb_false_iff in Hn.
Qed.

Section BothRedacted.

Variable U : Unicode.
Hypothesis HU : standard U.

Variables pre iban mid phone post : text.
Hypothesis Hpre : prose pre = true.
Hypothesis Hmid : prose mid = true.
Hypothesis Hpost : prose post = true.
Hypothesis Hiban : spaced_iban iban.
Hypothesis Hphone : plain_phone phone.
Hypothesis Epre : ends_apart pre = true.
Hypothesis Nmid : mid <> [].
Hypothesis Smid : starts_apart mid = true.
Hypothesis Emid : ends_apart mid = true.
Hypothesis Spost : starts_apart post = true.

Local Abbreviation IBAN_MARK := (str "[REDACTED_IBAN]").
Local Abbreviation PHONE_MARK := (str "[REDACTED_PHONE]").

Lemma calm_pre : calm pre. Proof. now apply calm_one_prose. Qed.
Lemma calm_mid : calm mid. Proof. now apply calm_one_prose. Qed.
Lemma calm_post : calm post. Proof. now apply calm_one_prose. Qed.

Lemma calm_marked (mark : text) :
  In mark PLACEHOLDERS -> calm (pre ++ mark ++ mid) /\ calm (mid ++ mark ++ post).
Proof.
  intros H. split.
  - apply calm_app; [apply calm_pre|]. apply calm_token; [assumption|apply calm_mid].
  - apply calm_app; [apply calm_mid|]. apply calm_token; [assumption|apply calm_post].
Qed.

Lemma ends_apart_marked (mark : text) : ends_apart (pre ++ mark ++ mid) = true.
Proof. rewrite app_assoc, ends_apart_app; assumption. Qed.

Lemma starts_apart_marked (X : text) : starts_apart (mid ++ X) = true.
Proof. rewrite starts_apart_app; assumption. Qed.

(** *** The IBAN first *)

Lemma iban_first_raw : forallb raw_char (pre ++ iban ++ mid ++ phone ++ post) = true.
Proof.
  rewrite !forallb_app.
  repeat (apply andb_true_iff; split); auto using prose_raw, spaced_iban_raw, plain_phone_raw.
Qed.

Lemma iban_first_iban_pass :
  letters_and_digits iban = 34 \/ mid <> [32%N] ->
  re_sub U IBAN_PATTERN IBAN_MARK (pre ++ iban ++ mid ++ phone ++ post)
  = pre ++ IBAN_MARK ++ mid ++ phone ++ post.
Proof.
  intros Hroom. apply (iban_pass_line HU).
  - now apply prose_no_match_iban.
  - assumption.
  - assumption.
  - apply starts_apart_marked.
  - destruct Hroom as [H|H]; [now left|right]. now apply prose_stops_iban.
  - apply no_match_in_end; [cbn; lia|]. apply capitalised_no_match_from_iban.
    apply capitalised_app; [now apply prose_capitalised|].
    apply capitalised_app; [now apply plain_phone_capitalised|now apply prose_capitalised].
Qed.

Lemma iban_first_phone_pass :
  re_sub U (PHONE_PATTERN U) PHONE_MARK (pre ++ IBAN_MARK ++ mid ++ phone ++ post)
  = pre ++ IBAN_MARK ++ mid ++ PHONE_MARK ++ post.
Proof.
  destruct (calm_marked iban_token_listed) as [HA _].
  replace (pre ++ IBAN_MARK ++ mid ++ phone ++ post)
    with ((pre ++ IBAN_MARK ++ mid) ++ phone ++ post)
    by (now rewrite <- !app_assoc).
  rewrite (phone_pass_line HU).
  - now rewrite <- !app_assoc.
  - now apply calm_no_match_from_phone.
  - apply ends_apart_marked.
  - assumption.
  - assumption.
  - apply (calm_digit_free HU), calm_post.
  - apply (calm_no_phone HU), calm_post.
Qed.

Lemma iban_first_clean :
  letters_and_digits iban = 34 \/ mid <> [32%N] ->
  clean_message U (pre ++ iban ++ mid ++ phone ++ post)
  = strip (pre ++ IBAN_MARK ++ mid ++ PHONE_MARK ++ post).
Proof.
  intros Hroom. unfold clean_message, remove_emojis.
  rewrite (raw_first_passes HU _ iban_first_raw).
  rewrite (iban_first_iban_pass Hroom).
  destruct (calm_marked iban_token_listed) as [HA _].
  assert (E : pre ++ IBAN_MARK ++ mid ++ phone ++ post
              = (pre ++ IBAN_MARK ++ mid) ++ phone ++ post)
    by (now rewrite <- !app_assoc).
  rewrite (@re_sub_unchanged U RIB_PATTERN).
  2:{ rewrite E. apply rib_quiet; try assumption. apply calm_post. }
  rewrite (@re_sub_unchanged U (CREDIT_CARD_PATTERN U)).
  2:{ rewrite E. apply (card_quiet HU); try assumption. apply calm_post. }
  rewrite iban_first_phone_pass.
  assert (Hc : calm (pre ++ IBAN_MARK ++ mid ++ PHONE_MARK ++ post)).
  { apply calm_app; [apply calm_pre|]. apply calm_token; [apply iban_token_listed|].
    apply (calm_marked phone_token_listed). }
  rewrite (@re_sub_unchanged U EMAIL_PATTERN) by now apply calm_no_email.
  rewrite (@re_sub_unchanged U BIC_PATTERN) by now apply (calm_no_bic HU).
  reflexivity.
Qed.

(** *** The number first *)

Lemma phone_first_raw : forallb raw_char (pre ++ phone ++ mid ++ iban ++ post) = true.
Proof.
  rewrite !forallb_app.
  repeat (apply andb_true_iff; split); auto using prose_raw, spaced_iban_raw, plain_phone_raw.
Qed.

Lemma phone_first_iban_pass :
  re_sub U IBAN_PATTERN IBAN_MARK (pre ++ phone ++ mid ++ iban ++ post)
  = pre ++ phone ++ mid ++ IBAN_MARK ++ post.
Proof.
  replace (pre ++ phone ++ mid ++ iban ++ post)
    with ((pre ++ phone ++ mid) ++ iban ++ post)
    by (now rewrite <- !app_assoc).
  rewrite (iban_pass_line HU).
  - now rewrite <- !app_assoc.
  - apply capitalised_no_match_from_iban.
    apply capitalised_app; [now apply prose_capitalised|].
    apply capitalised_app; [now apply plain_phone_capitalised|now apply prose_capitalised].
  - apply ends_apart_marked.
  - assumption.
  - assumption.
  - right. now apply prose_alone_stops_iban.
  - apply no_match_in_end; [cbn; lia|]. now apply prose_no_match_iban.
Qed.

Lemma phone_first_phone_pass :
  re_sub U (PHONE_PATTERN U) PHONE_MARK (pre ++ phone ++ mid ++ IBAN_MARK ++ post)
  = pre ++ PHONE_MARK ++ mid ++ IBAN_MARK ++ post.
Proof.
  destruct (calm_marked iban_token_listed) as [_ HT].
  apply (phone_pass_line HU).
  - apply (calm_no_match_from_phone HU), calm_pre.
  - assumption.
  - assumption.
  - apply starts_apart_marked.
  - now apply (calm_digit_free HU).
  - now apply (calm_no_phone HU).
Qed.

Lemma phone_first_clean :
  clean_message U (pre ++ phone ++ mid ++ iban ++ post)
  = strip (pre ++ PHONE_MARK ++ mid ++ IBAN_MARK ++ post).
Proof.
  unfold clean_message, remove_emojis.
  rewrite (raw_first_passes HU _ phone_first_raw).
  rewrite phone_first_iban_pass.
  destruct (calm_marked iban_token_listed) as [_ HT].
  rewrite (@re_sub_unchanged U RIB_PATTERN).
  2:{ apply rib_quiet; try assumption; [apply calm_pre|apply starts_apart_marked]. }
  rewrite (@re_sub_unchanged U (CREDIT_CARD_PATTERN U)).
  2:{ apply (card_quiet HU); try assumption. apply calm_pre. }
  rewrite phone_first_phone_pass.
  assert (Hc : calm (pre ++ PHONE_MARK ++ mid ++ IBAN_MARK ++ post)).
  { apply calm_app; [apply calm_pre|]. apply calm_token; [apply phone_token_listed|].
    apply (calm_marked iban_token_listed). }
  rewrite (@re_sub_unchanged U EMAIL_PATTERN) by now apply calm_no_email.
  rewrite (@re_sub_unchanged U BIC_PATTERN) by now apply (calm_no_bic HU).
  reflexivity.
Qed.

End BothRedacted.

(** ** Messages without words *)

Lemma full_text_chars U first_line more c :
  In c (full_text_of U first_line more) -> emoji c = false.
Proof.
  unfold full_text_of. intros Hc. apply strip_incl in Hc. apply re_sub_chars in Hc.
  destruct Hc as [Hc|[]]. apply join_chars in Hc.
  destruct Hc as [[<-|[]]|(p & Hp & Hc)]; [reflexivity|].
  apply filter_lines_cleaned in Hp. destruct Hp as (x & -> & _).
  now apply clean_message_chars with U x.
Qed.

Lemma full_text_fixed U first_line more :
  remove_emojis U (strip (full_text_of U first_line more)) = full_text_of U first_line more.
Proof.
  rewrite trimmed_strip by apply strip_trimmed.
  rewrite remove_emojis_filter. apply filter_fixed.
  apply forallb_forall. intros c Hc. apply negb_true_iff. now apply full_text_chars in Hc.
Qed.

Lemma clean_message_emoji U t : forallb emoji t = true -> clean_message U t = [].
Proof.
  intros H. unfold clean_message. rewrite remove_emojis_filter.
  assert (E : filter (fun c => negb (emoji c)) t = []).
  { induction t as [|c t IH]; simpl in *; [reflexivity|].
    apply andb_true_iff in H. destruct H as [-> H]. now apply IH. }
  rewrite E. reflexivity.
Qed.

Lemma emoji_line_is_no_header U t : forallb emoji t = true -> matches_header U t = false.
Proof.
  intros H. destruct (matches_header U t) eqn:E; [|reflexivity]. exfalso.
  apply header_is_shaped in E.
  destruct E as (dd & mm & yyyy & hh & mi & ss & s & f & tail & -> & _).
  unfold header_line in H. simpl in H. discriminate.
Qed.

Lemma strip_invisible_emoji U t :
  forallb emoji t = true -> forallb emoji (strip_invisible U t) = true.
Proof.
  intros H. unfold strip_invisible. apply strip_forallb.
  rewrite forallb_forall in *. intros c Hc. apply filter_In in Hc. now apply H.
Qed.

Lemma emoji_only_nothing_left U first_line :
  forallb emoji first_line = true -> full_text_of U first_line [] = [].
Proof.
  intros H. apply (strip_invisible_emoji U) in H.
  unfold full_text_of. cbn [filter_lines].
  rewrite (emoji_line_is_no_header U _ H), (clean_message_emoji U _ H). reflexivity.
Qed.

Lemma standard_latin1 : standard latin1.
Proof. split; reflexivity. Qed.

(** * The claims *)

(** C1 (as amended).  The line
    [[05/03/2024, 14:22:10] Iomar: Call me at 06 12 34 56 78] is accepted
    with role "user", and its text is left as it is, [Call me at 06 12 34 56
    78]: the phone pattern needs two groups of three or four digits. *)
Theorem scenario1_accepted_unredacted :
  parse_message_block latin1 [scenario1_line] a_log empty_world
  = (Return (Some {| msg_role := user;
                     msg_text := str "Call me at 06 12 34 56 78";
                     msg_date := str "2024-03-05";
                     msg_peer := str "Iomar" |}),
     empty_world).
Proof. vm_compute. reflexivity. Qed.

(** C1, counterexample: the text of the accepted message is not
    [Call me at [REDACTED_PHONE]]. *)
Lemma scenario1_phone_not_redacted :
  ~ exists msg w',
      parse_message_block latin1 [scenario1_line] a_log empty_world
      = (Return (Some msg), w')
      /\ msg_role msg = user
      /\ msg_text msg = str "Call me at [REDACTED_PHONE]".
Proof.
  intros (msg & w' & H & _ & Ht).
  assert (E : parse_message_block latin1 [scenario1_line] a_log empty_world
              = (Return (Some {| msg_role := user;
                                 msg_text := str "Call me at 06 12 34 56 78";
                                 msg_date := str "2024-03-05";
                                 msg_peer := str "Iomar" |}),
                 empty_world)) by (vm_compute; reflexivity).
  rewrite E in H. injection H as <- _. vm_compute in Ht. discriminate Ht.
Qed.

(** C2 (as amended).  The peer of an accepted message is the trimmed sender
    of that message: the counterparty when the sender is not the
    self-identity (role "assistant"), and the self-identity itself when it is
    (role "user"). *)
Theorem peer_is_trimmed_sender U block log w msg w' :
  parse_message_block U block log w = (Return (Some msg), w') ->
  exists first more date_str time_str sender first_line,
    block = first :: more
    /\ re_match U (TIMESTAMP_PATTERN U) (strip_invisible U first)
       = Some [date_str; time_str; sender; first_line]
    /\ msg_peer msg = strip sender
    /\ (msg_role msg = assistant <-> strip sender <> USER_NAME)
    /\ (msg_role msg = user <-> msg_peer msg = USER_NAME).
Proof.
  intros H. apply parse_accepted in H.
  destruct H as (first & more & d & t & sd & fl & dt & -> & Hm & _ & _ & _ & _ & Hr & Hp & _).
  exists first, more, d, t, sd, fl. repeat split; try assumption.
  - intros Ha E. rewrite E, text_eqb_refl in Hr. congruence.
  - intros Hne. destruct (text_eqb (strip sd) USER_NAME) eqn:E; [|assumption].
    apply text_eqb_eq in E. contradiction.
  - intros Hu. rewrite Hp. destruct (text_eqb (strip sd) USER_NAME) eqn:E.
    + now apply text_eqb_eq.
    + congruence.
  - intros E. rewrite Hp in E. now rewrite E, text_eqb_refl in Hr.
Qed.

Lemma peer_is_trimmed_sender_witness :
  exists first more date_str time_str sender first_line,
    [good_line] = first :: more
    /\ re_match latin1 (TIMESTAMP_PATTERN latin1) (strip_invisible latin1 first)
       = Some [date_str; time_str; sender; first_line]
    /\ str "Alice" = strip sender
    /\ (assistant = assistant <-> strip sender <> USER_NAME)
    /\ (assistant = user <-> str "Alice" = USER_NAME).
Proof.
  apply (@peer_is_trimmed_sender latin1 [good_line] a_log empty_world
           {| msg_role := assistant; msg_text := str "see you tomorrow";
              msg_date := str "2024-03-05"; msg_peer := str "Alice" |} empty_world).
  vm_compute. reflexivity.
Defined.

(** C2, counterexample: the owner's own message is accepted with the
    self-identity as its peer. *)
Lemma self_identity_is_a_peer :
  exists msg w',
    parse_message_block latin1 [scenario1_line] a_log empty_world = (Return (Some msg), w')
    /\ msg_peer msg = USER_NAME.
Proof.
  eexists. eexists. split; [vm_compute; reflexivity|]. reflexivity.
Qed.

(** C3 (as amended).  When the processing of one chat file raises, the batch
    stops there: the exception leaves [process_all_chats]; the output files
    and the printed lines are those that the files listed before had left,
    and so are the logs other than the log of the failing file; and the
    result is the same whatever files are listed after it, none of them
    being processed. *)
Theorem batch_stops_at_first_failure U disk pre f post w w1 e w2 :
  listdir CHAT_FOLDER disk = pre ++ f :: post ->
  process_files U disk pre w = (Return tt, w1) ->
  is_chat_file U f = true ->
  process_chat_file U disk (path_join CHAT_FOLDER f) w1 = (Raise e, w2) ->
  process_all_chats U disk w = (Raise e, w2)
  /\ outputs w2 = outputs w1
  /\ console w2 = console w1
  /\ (forall path, path <> log_path_of (path_join CHAT_FOLDER f) ->
                   lookup path (logs w2) = lookup path (logs w1))
  /\ (forall others, process_files U disk (pre ++ f :: others) w = (Raise e, w2)).
Proof.
  intros Hl Hpre Hf Hraise.
  assert (Hstop : forall others,
             process_files U disk (pre ++ f :: others) w = (Raise e, w2)).
  { intros others. rewrite (process_files_app U disk pre (f :: others) w Hpre).
    now apply process_files_raise. }
  split; [unfold process_all_chats; rewrite Hl; apply Hstop|].
  destruct (process_chat_file_frame _ _ _ _ Hraise) as (Ho & Hc & Hlogs).
  repeat split; assumption.
Qed.

Lemma batch_stops_at_first_failure_witness :
  process_all_chats latin1 good_bad_good empty_world
  = (Raise ValueError,
     World [(str "logs/chat_0_skipped.log", []); (str "logs/chat_1_skipped.log", [])]
           (outputs after_first_chat) (console after_first_chat))
  /\ outputs after_first_chat
     = [(str "cleaned_chats/Bob.json",
         [a_record "2024-03-04" "Bob" [an_entry assistant "hello there"]])].
Proof.
  split; [|reflexivity].
  apply (@batch_stops_at_first_failure latin1 good_bad_good [str "chat_0.txt"]
           (str "chat_1.txt") [str "chat_2.txt"] empty_world after_first_chat);
    vm_compute; reflexivity.
Defined.

(** C3, counterexample: an invalid date in the first file keeps the second
    file, which is fine, from being processed at all. *)
Lemma batch_does_not_continue :
  fst (process_all_chats latin1 bad_then_good empty_world) = Raise ValueError
  /\ outputs (snd (process_all_chats latin1 bad_then_good empty_world)) = []
  /\ lookup (str "logs/chat_2_skipped.log")
            (logs (snd (process_all_chats latin1 bad_then_good empty_world))) = None
  /\ fst (process_all_chats latin1 good_only empty_world) = Return tt
  /\ outputs (snd (process_all_chats latin1 good_only empty_world)) <> [].
Proof. vm_compute. repeat split; discriminate. Qed.

(** C4.  A block whose first line matches the header pattern, and whose date
    and time read as numbers that are no calendar date or no time of day,
    makes [parse_message_block] raise [ValueError] without logging anything,
    and the exception leaves [process_chat_file] for every file that
    contains the line. *)
Theorem invalid_calendar_date_is_fatal U first date_str time_str sender first_line
        d mo y h mi s :
  standard U ->
  re_match U (TIMESTAMP_PATTERN U) (strip_invisible U first)
  = Some [date_str; time_str; sender; first_line] ->
  reads_date U date_str d mo y -> reads_time U time_str h mi s ->
  valid_date y mo d && valid_time h mi s = false ->
  (forall more log w,
      parse_message_block U (first :: more) log w = (Raise ValueError, w))
  /\ (forall disk file_path lines w,
         lookup file_path disk = Some lines -> In first lines ->
         exists w', process_chat_file U disk file_path w = (Raise ValueError, w')).
Proof.
  intros HU Hm Rd Rt Hv.
  pose proof (bad_header_raises HU first Hm Rd Rt Hv) as Hbad.
  split; [exact Hbad|].
  intros disk file_path lines w Hl Hin.
  apply bad_header_stops_file with first lines; auto.
  unfold is_header, matches_header. now rewrite Hm.
Qed.

Lemma invalid_calendar_date_is_fatal_witness :
  parse_message_block latin1 [feb31_line] a_log empty_world = (Raise ValueError, empty_world)
  /\ exists w', process_chat_file latin1 bad_then_good (str "raw_chats/chat_1.txt")
                  empty_world = (Raise ValueError, w').
Proof.
  destruct (@invalid_calendar_date_is_fatal latin1 feb31_line (str "31/02/2024")
              (str "14:22:10") (str "Alice") (str "see you tomorrow")
              31 2 2024 14 22 10 standard_latin1) as [Hparse Hfile].
  - vm_compute. reflexivity.
  - exists (str "31"), (str "02"), (str "2024"). vm_compute.
    repeat split; discriminate.
  - exists (str "14"), (str "22"), (str "10"). vm_compute.
    repeat split; discriminate.
  - vm_compute. reflexivity.
  - split; [apply Hparse|].
    apply (Hfile bad_then_good (str "raw_chats/chat_1.txt") [feb31_line] empty_world).
    + vm_compute. reflexivity.
    + simpl. now left.
Defined.

(** C5 (as amended).  Take a line of prose that holds an IBAN-shaped token,
    with or without spaces inside, and a plain phone number of two, three
    or four groups of digits, in either order, each set apart from the
    prose around it by a character that is no word character, with prose
    between the two.  Both are redacted and nothing else changes but the
    whitespace at the two ends: the IBAN pass replaces the token and leaves
    the number as it is, and the phone pass replaces the number and leaves
    the placeholder as it is.  When the IBAN comes first, what stands
    between must not be a single space, unless the IBAN has its 34 letters
    and digits. *)
Theorem iban_and_phone_both_redacted U pre iban mid phone post :
  standard U ->
  prose pre = true -> prose mid = true -> prose post = true ->
  spaced_iban iban -> plain_phone phone ->
  ends_apart pre = true -> mid <> [] -> starts_apart mid = true ->
  ends_apart mid = true -> starts_apart post = true ->
  (letters_and_digits iban = 34 \/ mid <> [32%N] ->
   re_sub U IBAN_PATTERN (str "[REDACTED_IBAN]") (pre ++ iban ++ mid ++ phone ++ post)
   = pre ++ str "[REDACTED_IBAN]" ++ mid ++ phone ++ post
   /\ re_sub U (PHONE_PATTERN U) (str "[REDACTED_PHONE]")
             (pre ++ str "[REDACTED_IBAN]" ++ mid ++ phone ++ post)
      = pre ++ str "[REDACTED_IBAN]" ++ mid ++ str "[REDACTED_PHONE]" ++ post
   /\ clean_message U (pre ++ iban ++ mid ++ phone ++ post)
      = strip (pre ++ str "[REDACTED_IBAN]" ++ mid ++ str "[REDACTED_PHONE]" ++ post))
  /\ (re_sub U IBAN_PATTERN (str "[REDACTED_IBAN]") (pre ++ phone ++ mid ++ iban ++ post)
      = pre ++ phone ++ mid ++ str "[REDACTED_IBAN]" ++ post
      /\ re_sub U (PHONE_PATTERN U) (str "[REDACTED_PHONE]")
                (pre ++ phone ++ mid ++ str "[REDACTED_IBAN]" ++ post)
         = pre ++ str "[REDACTED_PHONE]" ++ mid ++ str "[REDACTED_IBAN]" ++ post
      /\ clean_message U (pre ++ phone ++ mid ++ iban ++ post)
         = strip (pre ++ str "[REDACTED_PHONE]" ++ mid ++ str "[REDACTED_IBAN]" ++ post)).
Proof.
  intros HU Hpre Hmid Hpost Hiban Hphone Epre Nmid Smid Emid Spost. split.
  - intros Hroom. split; [|split].
    + now apply iban_first_iban_pass.
    + now apply iban_first_phone_pass.
    + now apply iban_first_clean.
  - split; [|split].
    + now apply phone_first_iban_pass.
    + now apply phone_first_phone_pass.
    + now apply phone_first_clean.
Qed.

Lemma iban_and_phone_both_redacted_witness :
  clean_message latin1
    (str "Pay to " ++ spaced_iban_example ++ str ", then call " ++ str "555-123-4567"
     ++ str " today.")
  = strip (str "Pay to " ++ str "[REDACTED_IBAN]" ++ str ", then call "
           ++ str "[REDACTED_PHONE]" ++ str " today.")
  /\ clean_message latin1
       (str "Pay to " ++ str "555-123-4567" ++ str ", then call " ++ spaced_iban_example
        ++ str " today.")
     = strip (str "Pay to " ++ str "[REDACTED_PHONE]" ++ str ", then call "
              ++ str "[REDACTED_IBAN]" ++ str " today.").
Proof.
  destruct (@iban_and_phone_both_redacted latin1 (str "Pay to ") spaced_iban_example
              (str ", then call ") (str "555-123-4567") (str " today.") standard_latin1)
    as [Hfirst Hsecond]; try reflexivity.
  - exists 68%N, 69%N, 56%N, 57%N,
      [ (true, 51%N); (false, 55%N); (false, 48%N); (false, 52%N);
        (true, 48%N); (false, 48%N); (false, 52%N); (false, 52%N);
        (true, 48%N); (false, 53%N); (false, 51%N); (false, 50%N);
        (true, 48%N); (false, 49%N); (false, 51%N); (false, 48%N);
        (true, 48%N); (false, 48%N) ].
    vm_compute. repeat split; lia.
  - right. left. exists (str "555"), 45%N, (str "123"), 45%N, (str "4567").
    vm_compute. repeat split; lia.
  - discriminate.
  - split.
    + apply Hfirst. right. discriminate.
    + apply Hsecond.
Defined.

(** C5, counterexample: a ten-digit number one space after an IBAN is taken
    by the IBAN pattern together with the IBAN, and nothing is left for the
    phone pass; after a longer IBAN the same number is redacted as an account
    number; a number written in pairs of digits is not redacted at all; a
    capital letter between the two lets the IBAN pattern run on into the
    number; and a number of fourteen digits is redacted as a card number. *)
Lemma phone_number_taken_by_other_passes :
  re_sub latin1 IBAN_PATTERN (str "[REDACTED_IBAN]") iban_then_number
  = str "[REDACTED_IBAN]"
  /\ clean_message latin1 iban_then_number = str "[REDACTED_IBAN]"
  /\ clean_message latin1 iban_then_number <> str "[REDACTED_IBAN] [REDACTED_PHONE]"
  /\ clean_message latin1 (iban_example ++ str " 0612345678")
     = str "[REDACTED_IBAN] [REDACTED_RIB]"
  /\ clean_message latin1 (iban_example ++ str " call 06 12 34 56 78")
     = str "[REDACTED_IBAN] call 06 12 34 56 78"
  /\ clean_message latin1 (iban_example ++ str " A 555-1234")
     = str "[REDACTED_IBAN]-1234"
  /\ clean_message latin1 (iban_example ++ str ", call 123 1234 1234 1234")
     = str "[REDACTED_IBAN], call [REDACTED_CARD]".
Proof. vm_compute. repeat split. discriminate. Qed.

(** C6.  Take a block whose header is read with a valid date, so that its
    text reaches the tests of [parse_message_block], and call text what is
    tested: the lines filtered, joined and stripped.  If the text, its emoji
    characters removed, is empty or holds whitespace and characters that are
    no word characters only, the block is discarded and logged: as empty
    after cleaning when the text is empty, and otherwise [is_irrelevant]
    answers yes and it is logged as irrelevant content.  In particular a
    block of one line whose message holds emoji characters only is
    discarded, nothing being left of its text. *)
Theorem wordless_messages_are_discarded U first date_str time_str sender first_line dt :
  re_match U (TIMESTAMP_PATTERN U) (strip_invisible U first)
  = Some [date_str; time_str; sender; first_line] ->
  strptime U (date_str ++ str " " ++ time_str) = Some dt ->
  (forall more log w,
      wordless U (remove_emojis U (full_text_of U first_line more)) = true ->
      (full_text_of U first_line more <> [] ->
       is_irrelevant U (full_text_of U first_line more) = true)
      /\ parse_message_block U (first :: more) log w
         = (Return None,
            snd (log_skip (match full_text_of U first_line more with
                           | [] => str "Empty after cleaning"
                           | _ :: _ => str "Irrelevant content"
                           end)
                          (join [NL] (first :: more)) log w)))
  /\ (forallb emoji first_line = true ->
      full_text_of U first_line [] = []
      /\ forall log w,
           parse_message_block U [first] log w
           = (Return None,
              snd (log_skip (str "Empty after cleaning") (join [NL] [first]) log w))).
Proof.
  intros Hm Hdt.
  assert (Hrel : forall more,
             wordless U (remove_emojis U (full_text_of U first_line more)) = true ->
             full_text_of U first_line more <> [] ->
             is_irrelevant U (full_text_of U first_line more) = true).
  { intros more Hw Hne. apply is_irrelevant_no_words.
    - now rewrite full_text_fixed.
    - rewrite full_text_fixed. rewrite remove_emojis_filter in Hw.
      rewrite filter_fixed in Hw; [exact Hw|].
      apply forallb_forall. intros c Hc. apply negb_true_iff. now apply full_text_chars in Hc. }
  assert (Hparse : forall more log w,
             wordless U (remove_emojis U (full_text_of U first_line more)) = true ->
             parse_message_block U (first :: more) log w
             = (Return None,
                snd (log_skip (match full_text_of U first_line more with
                               | [] => str "Empty after cleaning"
                               | _ :: _ => str "Irrelevant content"
                               end)
                              (join [NL] (first :: more)) log w))).
  { intros more log w Hw. pose proof (Hrel more Hw) as Hi.
    unfold_parse. rewrite Hm, Hdt. fold (full_text_of U first_line more).
    destruct (full_text_of U first_line more) as [|c full]; [reflexivity|].
    rewrite Hi by discriminate. reflexivity. }
  split.
  - intros more log w Hw. split; [now apply Hrel|now apply Hparse].
  - intros He. pose proof (emoji_only_nothing_left U first_line He) as E.
    split; [exact E|]. intros log w.
    rewrite (Hparse [] log w); [now rewrite E|]. now rewrite E.
Qed.

Lemma wordless_messages_are_discarded_witness :
  (is_irrelevant latin1 (str "?!") = true
   /\ parse_message_block latin1 [emoji_only_line; str "?!" ++ [NL]] a_log empty_world
      = (Return None,
         World [(a_log, str "[Irrelevant content] [05/03/2024, 14:22:10] Alice: "
                        ++ [128512%N; NL] ++ [NL] ++ str "?!" ++ [NL; NL])] [] []))
  /\ parse_message_block latin1 [emoji_only_line] a_log empty_world
     = (Return None,
        World [(a_log, str "[Empty after cleaning] [05/03/2024, 14:22:10] Alice: "
                       ++ [128512%N; NL; NL])] [] []).
Proof.
  destruct (@wordless_messages_are_discarded latin1 emoji_only_line (str "05/03/2024")
              (str "14:22:10") (str "Alice") [128512%N] (DateTime 2024 3 5 14 22 10))
    as [Hwordless Hemoji]; [vm_compute; reflexivity|vm_compute; reflexivity|].
  split.
  - destruct (Hwordless [str "?!" ++ [NL]] a_log empty_world) as [Hrel Hparse];
      [vm_compute; reflexivity|].
    split; [apply Hrel; vm_compute; discriminate|exact Hparse].
  - destruct Hemoji as [_ Hparse]; [vm_compute; reflexivity|].
    exact (Hparse a_log empty_world).
Defined.

(** C7 (as amended).  The peer of every emitted record is the first
    assistant sender of the record's date when that date has an assistant
    message; otherwise the first assistant sender of the file whose trimmed
    name is not empty; otherwise "Unknown". *)
Theorem record_peer_resolution U disk file_path w convs pn w' :
  process_chat_file U disk file_path w = (Return (convs, pn), w') ->
  exists msgs,
    accepted_in_file U disk file_path w = (Return msgs, w')
    /\ forall r, In r convs ->
                 meta_peer (meta r) = resolved_peer msgs (meta_date (meta r)).
Proof.
  intros H. apply process_chat_file_returns in H.
  destruct H as (msgs & Hm & -> & _). exists msgs. split; [assumption|].
  intros r Hr. apply conversations_peer with (fold_left aggregate_step msgs (Aggregate [] [] None));
    [|assumption].
  apply (@peers_resolved_fold msgs [] (Aggregate [] [] None) peers_resolved_init).
Qed.

Lemma record_peer_resolution_witness :
  exists msgs,
    accepted_in_file latin1 two_days_chat (str "raw_chats/chat.txt") empty_world
    = (Return msgs, World [(a_log, [])] [] [])
    /\ forall r,
         In r [ {| dialogue := [ {| entry_role := assistant;
                                    entry_text := str "hello there" ++ [NL] ++ str "how are you?" |} ];
                   meta := {| meta_source := SOURCE; meta_date := str "2024-03-05";
                              meta_peer := str "Alice" |} |};
                {| dialogue := [ {| entry_role := user; entry_text := str "good morning" |} ];
                   meta := {| meta_source := SOURCE; meta_date := str "2024-03-06";
                              meta_peer := str "Alice" |} |} ] ->
         meta_peer (meta r) = resolved_peer msgs (meta_date (meta r)).
Proof.
  apply (@record_peer_resolution latin1 two_days_chat (str "raw_chats/chat.txt")
           empty_world _ (str "Alice")).
  vm_compute. reflexivity.
Defined.

(** C7, counterexample: the first assistant sender of the file has an empty
    trimmed name; the record of the next day, which has no assistant
    message, is labelled "Unknown" and not with that sender. *)
Lemma unnamed_sender_is_not_the_fallback :
  exists convs pn w' msgs r,
    process_chat_file latin1 unnamed_sender_chat (str "raw_chats/chat.txt") empty_world
    = (Return (convs, pn), w')
    /\ accepted_in_file latin1 unnamed_sender_chat (str "raw_chats/chat.txt") empty_world
       = (Return msgs, w')
    /\ In r convs
    /\ meta_date (meta r) = str "2024-03-06"
    /\ first_assistant_on (str "2024-03-06") msgs = None
    /\ first_assistant msgs <> None
    /\ meta_peer (meta r) = str "Unknown"
    /\ meta_peer (meta r) <> claimed_peer msgs (meta_date (meta r)).
Proof.
  do 4 eexists.
  exists {| dialogue := [ {| entry_role := user; entry_text := str "good morning" |} ];
            meta := {| meta_source := SOURCE; meta_date := str "2024-03-06";
                       meta_peer := str "Unknown" |} |}.
  split; [vm_compute; reflexivity|].
  split; [vm_compute; reflexivity|].
  split; [vm_compute; auto|].
  vm_compute. repeat split; discriminate.
Qed.

(** C8.  Segmenting the concatenation of two files gives the blocks of the
    first followed by the blocks of the second, provided the first file does
    not end mid-block, that is, the second does not begin with a
    continuation line of the first one's last block.  (Nothing follows the
    second file, so it never ends mid-block.) *)
Theorem segmentation_distributes_over_concatenation U A B :
  ends_mid_block U A B = false ->
  segment U (A ++ B) = segment U A ++ segment U B.
Proof. apply segment_app_when. Qed.

Lemma segmentation_distributes_over_concatenation_witness :
  segment latin1 ([good_line; str "and the day after" ++ [NL]] ++ [scenario1_line])
  = segment latin1 [good_line; str "and the day after" ++ [NL]]
    ++ segment latin1 [scenario1_line].
Proof.
  apply (@segmentation_distributes_over_concatenation latin1).
  vm_compute. reflexivity.
Defined.

(** C9.  Sanitizing a text made of [[REDACTED_*]] placeholders, with
    whitespace between them, returns it unchanged. *)
Theorem sanitizing_placeholders_changes_nothing U t :
  standard U -> redacted_only t -> clean_message U t = t.
Proof. intros HU Ht. now apply clean_message_redacted. Qed.

Lemma redacted_example_ok : redacted_only redacted_example.
Proof.
  apply (@redacted_more (str "[REDACTED_IBAN]") [32%N]
           (str "[REDACTED_PHONE]" ++ [NL] ++ str "[REDACTED_EMAIL]")).
  - vm_compute. auto.
  - reflexivity.
  - apply (@redacted_more (str "[REDACTED_PHONE]") [NL] (str "[REDACTED_EMAIL]")).
    + vm_compute. auto 10.
    + reflexivity.
    + apply redacted_one. vm_compute. auto 10.
    + discriminate.
  - discriminate.
Defined.

Lemma sanitizing_placeholders_changes_nothing_witness :
  clean_message latin1 redacted_example = redacted_example.
Proof.
  apply (@sanitizing_placeholders_changes_nothing latin1 redacted_example).
  - exact standard_latin1.
  - exact redacted_example_ok.
Defined.

(** C10.  The text of an accepted message is never empty; so every record
    that [process_chat_file] emits has a dialogue, and no entry of a
    dialogue has an empty text. *)
Theorem accepted_text_never_empty U disk :
  (forall block log w msg w',
      parse_message_block U block log w = (Return (Some msg), w') -> msg_text msg <> [])
  /\ (forall file_path w convs pn w',
         process_chat_file U disk file_path w = (Return (convs, pn), w') ->
         forall r, In r convs ->
                   dialogue r <> [] /\ Forall (fun e => entry_text e <> []) (dialogue r)).
Proof.
  split.
  - intros block log w msg w' H. apply parse_accepted in H.
    now destruct H as (? & ? & ? & ? & ? & ? & ? & _ & _ & _ & _ & Hne & _).
  - intros file_path w convs pn w' H r Hr.
    apply process_chat_file_returns in H. destruct H as (msgs & Hm & -> & _).
    apply conversations_dialogue_ok with (fold_left aggregate_step msgs (Aggregate [] [] None));
      [|assumption].
    apply aggregate_dialogues_ok; [|constructor].
    unfold accepted_in_file in Hm. apply bind_inv_return in Hm.
    destruct Hm as ([] & w1 & _ & Hm).
    destruct (lookup file_path disk); [|discriminate].
    eapply accepted_messages_nonempty. exact Hm.
Qed.

Lemma accepted_text_never_empty_witness :
  str "see you tomorrow" <> []
  /\ (dialogue {| dialogue := [ {| entry_role := assistant;
                                   entry_text := str "see you tomorrow" |} ];
                  meta := {| meta_source := SOURCE; meta_date := str "2024-03-05";
                             meta_peer := str "Alice" |} |} <> []
      /\ Forall (fun e => entry_text e <> [])
                (dialogue {| dialogue := [ {| entry_role := assistant;
                                              entry_text := str "see you tomorrow" |} ];
                             meta := {| meta_source := SOURCE; meta_date := str "2024-03-05";
                                        meta_peer := str "Alice" |} |})).
Proof.
  destruct (accepted_text_never_empty latin1 good_only) as [Hmsg Hrec]. split.
  - apply (Hmsg [good_line] a_log empty_world
             {| msg_role := assistant; msg_text := str "see you tomorrow";
                msg_date := str "2024-03-05"; msg_peer := str "Alice" |} empty_world).
    vm_compute. reflexivity.
  - apply (Hrec (str "raw_chats/chat_2.txt") empty_world
             [ {| dialogue := [ {| entry_role := assistant;
                                   entry_text := str "see you tomorrow" |} ];
                  meta := {| meta_source := SOURCE; meta_date := str "2024-03-05";
                             meta_peer := str "Alice" |} |} ]
             (str "Alice") (World [(str "logs/chat_2_skipped.log", [])] [] [])).
    + vm_compute. reflexivity.
    + simpl. now left.
Defined.

(** * Further properties

    Properties of the functions of the module that the code shows, each
    numbered, in the order of the source. *)

(** X1.  What [strip_invisible] returns holds printable characters only,
    has no whitespace at either end, and is left unchanged by a second
    call. *)
Theorem strip_invisible_printable_trimmed_idempotent U t :
  forallb (isprintable U) (strip_invisible U t) = true
  /\ trimmed (strip_invisible U t)
  /\ strip_invisible U (strip_invisible U t) = strip_invisible U t.
Proof.
  assert (P : forallb (isprintable U) (strip_invisible U t) = true)
    by (apply strip_forallb, filter_forallb).
  split; [exact P|]. split; [apply strip_trimmed|].
  unfold strip_invisible at 1. rewrite (filter_fixed _ _ P).
  apply strip_idempotent.
Qed.

(** X2.  [remove_emojis] deletes exactly the characters of the eight emoji
    ranges of the module and keeps every other character, in order. *)
Theorem remove_emojis_deletes_emoji_characters U t :
  remove_emojis U t = filter (fun c => negb (emoji c)) t.
Proof. apply remove_emojis_filter. Qed.

(** X3.  What [clean_message] returns has no whitespace at either end and
    holds no emoji character, whatever the text. *)
Theorem clean_message_trimmed_without_emoji U t :
  trimmed (clean_message U t)
  /\ forallb (fun c => negb (emoji c)) (clean_message U t) = true.
Proof.
  split; [apply strip_trimmed|].
  apply forallb_forall. intros c Hc. apply negb_true_iff.
  now apply clean_message_chars with U t.
Qed.

(** X4.  [clean_message] only strips a text that holds no emoji, capital
    letter, digit, colon, at sign or ['<']: no pattern of the module matches
    without one of these. *)
Theorem clean_message_keeps_plain_prose U t :
  forallb (fun c => negb (redactable U c)) t = true ->
  clean_message U t = strip t.
Proof. apply clean_message_untouched. Qed.

Lemma clean_message_keeps_plain_prose_witness :
  clean_message latin1 (str " see you tomorrow, my friend! ")
  = strip (str " see you tomorrow, my friend! ").
Proof.
  apply (@clean_message_keeps_plain_prose latin1 (str " see you tomorrow, my friend! ")).
  vm_compute. reflexivity.
Defined.

(** X5.  On a line of lower-case words and whitespace that holds one e-mail
    address in lower-case letters, set off by whitespace, [clean_message]
    replaces the address by [[REDACTED_EMAIL]] and changes nothing else but
    the whitespace at the two ends. *)
Theorem email_address_is_redacted U pre email post :
  standard U ->
  forallb filler pre = true -> forallb filler post = true ->
  email_shaped email ->
  ends_with_space pre = true -> starts_with_space post = true ->
  clean_message U (pre ++ email ++ post) = strip (pre ++ str "[REDACTED_EMAIL]" ++ post).
Proof. intros. now apply clean_email_line. Qed.

Lemma email_address_is_redacted_witness :
  clean_message latin1 (str "  write to " ++ email_example ++ str " today ")
  = strip (str "  write to " ++ str "[REDACTED_EMAIL]" ++ str " today ").
Proof.
  apply (@email_address_is_redacted latin1 (str "  write to ") email_example (str " today ")
           standard_latin1); try reflexivity.
  exists (str "alice"), (str "example"), (str "org").
  repeat split; try discriminate. simpl. lia.
Defined.

(** X6.  [is_irrelevant] answers yes in four cases and no other: the
    stripped text is a media notice, or a call notice, or one of the six
    acknowledgments whatever the case, or, its emoji characters removed, it
    still has one character at least and none that is a word character,
    whitespace aside. *)
Theorem is_irrelevant_in_four_cases U t :
  is_irrelevant U t
  = existsb (fun pattern => re_fullmatch U pattern (strip t)) (MEDIA_PATTERNS U)
    || re_fullmatch U (CALL_PATTERN U) (strip t)
    || punctuation_only U (filter (fun c => negb (emoji c)) (strip t))
    || existsb (text_eqb (lower_text U (strip t))) ACK_TOKENS.
Proof. apply is_irrelevant_cases. Qed.

(** X7.  A line is a header exactly when it is ['['], two digits, ['/'],
    two digits, ['/'], four digits, a comma and a space, two digits, [':'],
    two digits, [':'], two digits, ['] '], a sender of one character at
    least, [': '] and a text, the sender and the text without a newline;
    anything may follow the text. *)
Theorem header_lines_have_one_shape U line :
  matches_header U line = true
  <-> exists dd mm yyyy hh mi ss sender first_line tail,
        line = header_line (dd ++ str "/" ++ mm ++ str "/" ++ yyyy)
                           (hh ++ str ":" ++ mi ++ str ":" ++ ss) sender first_line ++ tail
        /\ digits U 2 dd /\ digits U 2 mm /\ digits U 4 yyyy
        /\ digits U 2 hh /\ digits U 2 mi /\ digits U 2 ss
        /\ sender <> [] /\ forallb dot sender = true /\ forallb dot first_line = true.
Proof.
  split; [apply header_is_shaped|].
  intros (dd & mm & yyyy & hh & mi & ss & sender & first_line & tail & -> & Ddd & Dmm & Dyy
          & Dhh & Dmi & Dss & Hne & Hs & Hf).
  now apply shaped_line_is_header.
Qed.

(** X8.  [strptime] with the format of the header takes a date and time
    written in ASCII digits, [dd/mm/yyyy hh:mm:ss], exactly when it is a
    date of the calendar, leap years counted, in the years 1 to 9999, and a
    time of the day; it then returns that date and time. *)
Theorem strptime_takes_the_calendar_dates U dd mm yyyy hh mi ss :
  standard U ->
  ascii_digits 2 dd -> ascii_digits 2 mm -> ascii_digits 4 yyyy ->
  ascii_digits 2 hh -> ascii_digits 2 mi -> ascii_digits 2 ss ->
  strptime U ((dd ++ str "/" ++ mm ++ str "/" ++ yyyy) ++ str " "
              ++ (hh ++ str ":" ++ mi ++ str ":" ++ ss))
  = if valid_date (ascii_value yyyy) (ascii_value mm) (ascii_value dd)
       && valid_time (ascii_value hh) (ascii_value mi) (ascii_value ss)
    then Some (DateTime (ascii_value yyyy) (ascii_value mm) (ascii_value dd)
                        (ascii_value hh) (ascii_value mi) (ascii_value ss))
    else None.
Proof. intros. now apply strptime_stamp. Qed.

Lemma strptime_takes_the_calendar_dates_witness :
  strptime latin1 ((str "29" ++ str "/" ++ str "02" ++ str "/" ++ str "2023") ++ str " "
                   ++ (str "10" ++ str ":" ++ str "15" ++ str ":" ++ str "00"))
  = None.
Proof.
  apply (@strptime_takes_the_calendar_dates latin1 (str "29") (str "02") (str "2023")
           (str "10") (str "15") (str "00") standard_latin1);
    split; reflexivity.
Defined.

(** X9.  [parse_message_block] writes to the log exactly when it skips a
    block: a skipped block gets one entry, under one of three reasons, and an
    accepted block or a raised exception leaves every file as it was.  It
    raises [IndexError] on an empty block, and otherwise only [ValueError],
    when the header matches and [strptime] refuses its date and time. *)
Theorem parse_logs_exactly_the_skipped_blocks U block log w r w' :
  parse_message_block U block log w = (r, w') ->
  match r with
  | Return (Some _) => w' = w
  | Return None =>
      exists reason, In reason SKIP_REASONS
                     /\ log_skip reason (join [NL] block) log w = (Return tt, w')
  | Raise e =>
      w' = w
      /\ match block with
         | [] => e = IndexError
         | first :: _ =>
             e = ValueError
             /\ exists date_str time_str sender first_line,
                 re_match U (TIMESTAMP_PATTERN U) (strip_invisible U first)
                 = Some [date_str; time_str; sender; first_line]
                 /\ strptime U (date_str ++ str " " ++ time_str) = None
         end
  end.
Proof. apply parse_outcome. Qed.

Lemma parse_logs_exactly_the_skipped_blocks_witness :
  exists reason,
    In reason SKIP_REASONS
    /\ log_skip reason (join [NL] [str "hello" ++ [NL]]) a_log empty_world
       = (Return tt, World [(a_log, str "[No match] hello" ++ [NL; NL])] [] []).
Proof.
  apply (@parse_logs_exactly_the_skipped_blocks latin1 [str "hello" ++ [NL]] a_log empty_world
           (Return None)).
  vm_compute. reflexivity.
Defined.

(** X10.  The date of an accepted message is the date of its header, a valid
    calendar date, written year first: when the header's date is
    [dd/mm/yyyy] in ASCII digits, the message's date is [yyyy-mm-dd]. *)
Theorem accepted_date_is_the_header_date U block log w msg w' :
  standard U ->
  parse_message_block U block log w = (Return (Some msg), w') ->
  exists first more dd mm yyyy rest_of_line d mo y,
    block = first :: more
    /\ strip_invisible U first
       = str "[" ++ dd ++ str "/" ++ mm ++ str "/" ++ yyyy ++ str ", " ++ rest_of_line
    /\ digits U 2 dd /\ digits U 2 mm /\ digits U 4 yyyy
    /\ numeral U dd d /\ numeral U mm mo /\ numeral U yyyy y
    /\ valid_date y mo d = true
    /\ msg_date msg = zero_padded 4 y ++ str "-" ++ zero_padded 2 mo ++ str "-" ++ zero_padded 2 d
    /\ (forallb digit_09 (dd ++ mm ++ yyyy) = true ->
        msg_date msg = yyyy ++ str "-" ++ mm ++ str "-" ++ dd).
Proof.
  intros HU H. apply parse_accepted in H.
  destruct H as (first & more & ds & ts & sd & fl & dt & -> & Hm & Hdt & _ & _ & _ & _ & _ & Hd & _).
  pose proof (header_shape _ _ Hm) as Hs.
  inversion Hs as [dd mm yyyy hh mi ss sender first_line tail
                   Ddd Dmm Dyy Dhh Dmi Dss Hsn Hsd Hfl Hend Eline Egroups].
  subst ds ts sd fl.
  destruct (digits_numeral Ddd) as (d & Nd); [lia|].
  destruct (digits_numeral Dmm) as (mo & Nmo); [lia|].
  destruct (digits_numeral Dyy) as (y & Ny); [lia|].
  destruct (digits_numeral Dhh) as (h & Nh); [lia|].
  destruct (digits_numeral Dmi) as (mi' & Nmi); [lia|].
  destruct (digits_numeral Dss) as (s & Ns); [lia|].
  assert (Rd : reads_date U (dd ++ str "/" ++ mm ++ str "/" ++ yyyy) d mo y)
    by (now exists dd, mm, yyyy).
  assert (Rt : reads_time U (hh ++ str ":" ++ mi ++ str ":" ++ ss) h mi' s)
    by (now exists hh, mi, ss).
  destruct (strptime_valid HU Rd Rt Hdt) as (-> & Vd & _).
  exists first, more, dd, mm, yyyy,
      ((hh ++ str ":" ++ mi ++ str ":" ++ ss) ++ str "] " ++ sender ++ str ": "
       ++ first_line ++ tail), d, mo, y.
  split; [reflexivity|]. split.
  { rewrite <- Eline. repeat (simpl; rewrite <- app_assoc). reflexivity. }
  do 7 (split; [assumption|]). split; [exact Hd|].
  intros Hascii. apply forallb_app3 in Hascii. destruct Hascii as (Ad & Am & Ay).
    rewrite Hd. unfold isoformat. simpl year. simpl month. simpl day.
    destruct Ddd as [Ld _], Dmm as [Lm _], Dyy as [Ly _].
    rewrite <- Ly at 1. rewrite <- Lm at 1. rewrite <- Ld at 1.
    rewrite (zero_padded_digits HU yyyy Ay (proj2 Ny)).
    rewrite (zero_padded_digits HU mm Am (proj2 Nmo)).
    rewrite (zero_padded_digits HU dd Ad (proj2 Nd)). reflexivity.
Qed.

Lemma accepted_date_is_the_header_date_witness :
  exists d mo y,
    valid_date y mo d = true
    /\ msg_date leap_day_message
       = zero_padded 4 y ++ str "-" ++ zero_padded 2 mo ++ str "-" ++ zero_padded 2 d.
Proof.
  destruct (@accepted_date_is_the_header_date latin1 [leap_day_line] a_log empty_world
              leap_day_message empty_world standard_latin1)
    as (first & more & dd & mm & yyyy & rest_of_line & d & mo & y & _ & _ & _ & _ & _
        & _ & _ & _ & V & E & _).
  - vm_compute. reflexivity.
  - exists d, mo, y. split; assumption.
Defined.

(** X11.  The text of an accepted message has no whitespace at either end,
    holds no emoji character, and is not irrelevant. *)
Theorem accepted_text_is_clean U block log w msg w' :
  parse_message_block U block log w = (Return (Some msg), w') ->
  trimmed (msg_text msg)
  /\ forallb (fun c => negb (emoji c)) (msg_text msg) = true
  /\ is_irrelevant U (msg_text msg) = false.
Proof.
  intros H. split; [|split].
  - apply parse_accepted in H.
    destruct H as (first & more & d & t & sd & fl & dt & _ & _ & _ & -> & _).
    apply strip_trimmed.
  - apply forallb_forall. intros c Hc. apply negb_true_iff.
    eapply accepted_text_chars; eassumption.
  - apply parse_accepted in H.
    now destruct H as (first & more & d & t & sd & fl & dt & _ & _ & _ & _ & _ & Hi & _).
Qed.

Lemma accepted_text_is_clean_witness :
  trimmed (str "see you tomorrow")
  /\ forallb (fun c => negb (emoji c)) (str "see you tomorrow") = true
  /\ is_irrelevant latin1 (str "see you tomorrow") = false.
Proof.
  apply (@accepted_text_is_clean latin1 [leap_day_line] a_log empty_world
           leap_day_message empty_world).
  vm_compute. reflexivity.
Defined.

(** X12.  A block of one line [[dd/mm/yyyy, hh:mm:ss] sender: text] is
    accepted with the text as it stands, the sender as peer and the date
    [yyyy-mm-dd], and nothing is logged, when the digits are ASCII digits of
    a date of the calendar and a time of the day, the sender and the text
    are printable ASCII without whitespace at either end, the sender holds
    no colon, and the text holds nothing a pattern of [clean_message] needs
    and is not irrelevant. *)
Theorem well_formed_message_is_accepted U dd mm yyyy hh mi ss sender body log w :
  standard U ->
  ascii_digits 2 dd -> ascii_digits 2 mm -> ascii_digits 4 yyyy ->
  ascii_digits 2 hh -> ascii_digits 2 mi -> ascii_digits 2 ss ->
  ascii_trimmed sender -> ~ In 58%N sender ->
  ascii_trimmed body -> forallb (fun c => negb (redactable U c)) body = true ->
  valid_date (ascii_value yyyy) (ascii_value mm) (ascii_value dd) = true ->
  valid_time (ascii_value hh) (ascii_value mi) (ascii_value ss) = true ->
  is_irrelevant U body = false ->
  parse_message_block U
    [header_line (dd ++ str "/" ++ mm ++ str "/" ++ yyyy)
                 (hh ++ str ":" ++ mi ++ str ":" ++ ss) sender body ++ [NL]] log w
  = (Return (Some {| msg_role := if text_eqb sender USER_NAME then user else assistant;
                     msg_text := body;
                     msg_date := yyyy ++ str "-" ++ mm ++ str "-" ++ dd;
                     msg_peer := sender |}), w).
Proof.
  intros HU Hdd Hmm Hyyyy Hhh Hmi Hss Hsender Hcolon Hbody Hprose Vd Vt Hrel.
  pose proof (@strptime_stamp U HU dd mm yyyy hh mi ss Hdd Hmm Hyyyy Hhh Hmi Hss) as Hdt.
  unfold make_datetime in Hdt. rewrite Vd, Vt in Hdt. cbn [andb] in Hdt.
  rewrite (@well_formed_accepted U HU dd mm yyyy hh mi ss sender body
             Hdd Hmm Hyyyy Hhh Hmi Hss Hsender Hcolon Hbody Hprose _ log w Hdt Hrel).
  unfold isoformat. cbn [year month day].
  pose proof (zero_padded_digits HU yyyy (proj2 Hyyyy)
                (digits_value_ascii HU yyyy 0 (proj2 Hyyyy))) as Zy.
  pose proof (zero_padded_digits HU mm (proj2 Hmm)
                (digits_value_ascii HU mm 0 (proj2 Hmm))) as Zm.
  pose proof (zero_padded_digits HU dd (proj2 Hdd)
                (digits_value_ascii HU dd 0 (proj2 Hdd))) as Zd.
  rewrite (proj1 Hyyyy) in Zy. rewrite (proj1 Hmm) in Zm. rewrite (proj1 Hdd) in Zd.
  fold (ascii_value yyyy) in Zy. fold (ascii_value mm) in Zm. fold (ascii_value dd) in Zd.
  now rewrite Zy, Zm, Zd.
Qed.

Lemma well_formed_message_is_accepted_witness :
  parse_message_block latin1
    [header_line (str "29" ++ str "/" ++ str "02" ++ str "/" ++ str "2024")
                 (str "23" ++ str ":" ++ str "59" ++ str ":" ++ str "59")
                 (str "Alice") (str "see you tomorrow") ++ [NL]] a_log empty_world
  = (Return (Some {| msg_role := if text_eqb (str "Alice") USER_NAME then user else assistant;
                     msg_text := str "see you tomorrow";
                     msg_date := str "2024" ++ str "-" ++ str "02" ++ str "-" ++ str "29";
                     msg_peer := str "Alice" |}), empty_world).
Proof.
  apply (@well_formed_message_is_accepted latin1 (str "29") (str "02") (str "2024")
           (str "23") (str "59") (str "59") (str "Alice") (str "see you tomorrow")
           a_log empty_world standard_latin1);
    try (split; reflexivity); try reflexivity.
  - repeat split; discriminate.
  - vm_compute. intuition discriminate.
  - repeat split; discriminate.
Defined.

(** X13.  The blocks of a file, put end to end, are the lines of the file
    from its first header line on: no line after it is lost, repeated or
    moved, and the lines before it are dropped.  Every block is a header
    line followed by lines that are not headers. *)
Theorem blocks_partition_the_file U lines :
  List.concat (segment U lines) = from_first_header U lines
  /\ forallb (block_ok U) (segment U lines) = true.
Proof. split; [apply segment_lines|apply segment_shape]. Qed.

(** X14.  The dialogue of every record that [process_chat_file] returns holds
    the accepted messages of the record's date, all of them and no others, in
    the order of the file; and every accepted message has a record for its
    date. *)
Theorem records_group_messages_by_date U disk file_path w convs pn w' :
  process_chat_file U disk file_path w = (Return (convs, pn), w') ->
  exists msgs,
    accepted_in_file U disk file_path w = (Return msgs, w')
    /\ (forall r, In r convs -> dialogue r = dialogue_on (meta_date (meta r)) msgs)
    /\ (forall p, In p msgs -> In (msg_date p) (record_dates convs)).
Proof.
  intros H. apply process_chat_file_returns in H.
  destruct H as (msgs & Hm & -> & _). exists msgs. split; [assumption|].
  pose proof (@grouped_fold msgs [] (Aggregate [] [] None) grouped_init) as G.
  split.
  - intros r. now apply conversations_grouped.
  - intros p. now apply conversations_cover.
Qed.

Lemma records_group_messages_by_date_witness :
  exists msgs,
    accepted_in_file latin1 unordered_days_chat (str "raw_chats/chat.txt") empty_world
    = (Return msgs, chat_log_emptied)
    /\ (forall r, In r unordered_days_records ->
                  dialogue r = dialogue_on (meta_date (meta r)) msgs)
    /\ (forall p, In p msgs -> In (msg_date p) (record_dates unordered_days_records)).
Proof.
  apply (@records_group_messages_by_date latin1 unordered_days_chat (str "raw_chats/chat.txt")
           empty_world unordered_days_records (str "Alice") chat_log_emptied).
  vm_compute. reflexivity.
Defined.

(** X15.  The records that [process_chat_file] returns come in strictly
    increasing order of their dates: one record per date, earliest date
    first, whatever the order of the dates in the file. *)
Theorem records_sorted_by_date U disk file_path w convs pn w' :
  process_chat_file U disk file_path w = (Return (convs, pn), w') ->
  increasing (record_dates convs) = true.
Proof.
  intros H. apply process_chat_file_returns in H.
  destruct H as (msgs & _ & -> & _).
  pose proof (@grouped_fold msgs [] (Aggregate [] [] None) grouped_init) as [Hnd _].
  rewrite conversations_dates. now apply sorted_items_increasing.
Qed.

Lemma records_sorted_by_date_witness :
  increasing (record_dates unordered_days_records) = true.
Proof.
  apply (@records_sorted_by_date latin1 unordered_days_chat (str "raw_chats/chat.txt")
           empty_world unordered_days_records (str "Alice") chat_log_emptied).
  vm_compute. reflexivity.
Defined.

(** X16.  Whatever its outcome, [process_chat_file] changes no file but the
    log file of the chat it reads: the other logs, the output files and the
    console are as before. *)
Theorem process_chat_file_touches_its_log_only U disk file_path w r w' :
  process_chat_file U disk file_path w = (r, w') ->
  same_but_log (log_path_of file_path) w w'.
Proof. apply process_chat_file_frame. Qed.

Lemma process_chat_file_touches_its_log_only_witness :
  same_but_log (log_path_of (str "raw_chats/chat.txt")) used_world
    (World [(str "logs/chat_skipped.log",
             str "[Irrelevant content] [05/03/2024, 10:01:00] Alice: ok" ++ [NL; NL])]
           (outputs used_world) (console used_world)).
Proof.
  apply (@process_chat_file_touches_its_log_only latin1 chat_with_skipped_block
           (str "raw_chats/chat.txt") used_world
           (Return ([a_record "2024-03-05" "Alice" [an_entry assistant "hello there"]],
                    str "Alice"))).
  vm_compute. reflexivity.
Defined.

(** X17.  What [process_chat_file] returns, and what its log file holds
    afterwards, do not depend on the files that were there before: the log of
    an earlier run is discarded, not continued. *)
Theorem process_chat_file_starts_a_fresh_log U disk file_path w1 w2 :
  fst (process_chat_file U disk file_path w1) = fst (process_chat_file U disk file_path w2)
  /\ lookup (log_path_of file_path) (logs (snd (process_chat_file U disk file_path w1)))
     = lookup (log_path_of file_path) (logs (snd (process_chat_file U disk file_path w2))).
Proof. apply process_chat_file_same_log. Qed.

(** X18.  A chat file without any header line gives no record and the peer
    name "Unknown"; its lines are dropped without a log entry, the log file
    being left empty. *)
Theorem file_without_header_gives_nothing U disk file_path lines w :
  lookup file_path disk = Some lines ->
  forallb (fun l => negb (is_header U l)) lines = true ->
  process_chat_file U disk file_path w
  = (Return ([], str "Unknown"),
     World (write (log_path_of file_path) [] (logs w)) (outputs w) (console w)).
Proof. apply process_chat_file_no_header. Qed.

Lemma file_without_header_gives_nothing_witness :
  process_chat_file latin1 chat_without_header (str "raw_chats/chat.txt") used_world
  = (Return ([], str "Unknown"),
     World (write (log_path_of (str "raw_chats/chat.txt")) [] (logs used_world))
           (outputs used_world) (console used_world)).
Proof.
  apply (@file_without_header_gives_nothing latin1 chat_without_header
           (str "raw_chats/chat.txt")
           [str "hello there" ++ [NL]; str "how are you?" ++ [NL]]).
  - reflexivity.
  - vm_compute. reflexivity.
Defined.

(** X19.  The batch treats a folder like the folder without the files that
    are not chat files: a name that does not end in [.txt], or does not hold
    "chat" in some case, changes nothing. *)
Theorem batch_ignores_other_files U disk fs w :
  process_files U disk fs w = process_files U disk (filter (is_chat_file U) fs) w.
Proof. apply process_files_filter. Qed.

(** X20.  When two chat files resolve to the same output file, the second
    one's conversations replace the first one's: after the batch the file
    holds the conversations of the chat processed last, and nothing of the
    other. *)
Theorem later_chat_replaces_earlier_output U disk f1 f2 w0 w0' c1 pn1 c2 pn2 w :
  is_chat_file U f1 = true -> is_chat_file U f2 = true ->
  fst (process_chat_file U disk (path_join CHAT_FOLDER f1) w0) = Return (c1, pn1) ->
  fst (process_chat_file U disk (path_join CHAT_FOLDER f2) w0') = Return (c2, pn2) ->
  output_path_of U pn1 = output_path_of U pn2 ->
  exists w', process_files U disk [f1; f2] w = (Return tt, w')
             /\ lookup (output_path_of U pn1) (outputs w') = Some c2.
Proof.
  intros Hf1 Hf2 H1 H2 Hsame.
  destruct (process_chat_file_same_log U disk (path_join CHAT_FOLDER f1) w0 w) as [E1 _].
  rewrite H1 in E1.
  destruct (process_chat_file U disk (path_join CHAT_FOLDER f1) w) as [r1 w1] eqn:Hp1.
  simpl in E1. subst r1.
  rewrite (@process_files_chat U disk f1 _ w c1 pn1 w1 Hf1 Hp1).
  set (v := World (logs w1) (write (output_path_of U pn1) c1 (outputs w1))
                  (console w1 ++ [(f1, output_path_of U pn1)])).
  destruct (process_chat_file_same_log U disk (path_join CHAT_FOLDER f2) w0' v) as [E2 _].
  rewrite H2 in E2.
  destruct (process_chat_file U disk (path_join CHAT_FOLDER f2) v) as [r2 w2] eqn:Hp2.
  simpl in E2. subst r2.
  rewrite (@process_files_chat U disk f2 _ v c2 pn2 w2 Hf2 Hp2). simpl. eexists. split; [reflexivity|].
  simpl. rewrite Hsame. apply lookup_write_same.
Qed.

Lemma later_chat_replaces_earlier_output_witness :
  exists w',
    process_files latin1 two_chats_one_peer [str "chat_1.txt"; str "chat_2.txt"] empty_world
    = (Return tt, w')
    /\ lookup (output_path_of latin1 (str "Alice")) (outputs w')
       = Some [a_record "2024-03-06" "Alice" [an_entry assistant "see you tomorrow"]].
Proof.
  apply (@later_chat_replaces_earlier_output latin1 two_chats_one_peer
           (str "chat_1.txt") (str "chat_2.txt") empty_world empty_world
           [a_record "2024-03-05" "Alice" [an_entry assistant "hello there"]] (str "Alice")
           [a_record "2024-03-06" "Alice" [an_entry assistant "see you tomorrow"]] (str "Alice"));
    vm_compute; reflexivity.
Defined.

(** X21.  A batch that ends without an exception has printed one line per
    chat file of the folder, in the order of the listing. *)
Theorem batch_prints_one_line_per_chat U disk fs w w' :
  process_files U disk fs w = (Return tt, w') ->
  map fst (console w') = map fst (console w) ++ filter (is_chat_file U) fs.
Proof. apply process_files_console. Qed.

Lemma batch_prints_one_line_per_chat_witness :
  map fst [ (str "chat_1.txt", str "cleaned_chats/Alice.json");
            (str "chat_2.txt", str "cleaned_chats/Alice.json") ]
  = map fst (console empty_world)
    ++ filter (is_chat_file latin1) [str "chat_1.txt"; str "chat_2.txt"; str "notes.md"].
Proof.
  apply (@batch_prints_one_line_per_chat latin1 two_chats_one_peer
           [str "chat_1.txt"; str "chat_2.txt"; str "notes.md"] empty_world
           (World [(str "logs/chat_1_skipped.log", []); (str "logs/chat_2_skipped.log", [])]
                  [(str "cleaned_chats/Alice.json",
                    [a_record "2024-03-06" "Alice" [an_entry assistant "see you tomorrow"]])]
                  [ (str "chat_1.txt", str "cleaned_chats/Alice.json");
                    (str "chat_2.txt", str "cleaned_chats/Alice.json") ])).
  vm_compute. reflexivity.
Defined.

(** X22.  The name of an output file holds no slash, backslash, dot or
    space, whatever the peer name: every character of it is an underscore
    or a character of the peer name that is a word character, a hyphen or
    whitespace.  So the output file lies in the output folder itself. *)
Theorem output_file_stays_in_its_folder U name :
  standard U ->
  (forall c, In c (safe_name_of U name) ->
             c <> 47%N /\ c <> 92%N /\ c <> 46%N /\ c <> 32%N
             /\ name_char U c = true /\ (c = 95%N \/ In c name))
  /\ basename (output_path_of U name) = safe_name_of U name ++ str ".json".
Proof.
  intros HU.
  assert (Hc : forall c, In c (safe_name_of U name) ->
                         c <> 47%N /\ c <> 92%N /\ c <> 46%N /\ c <> 32%N
                         /\ name_char U c = true /\ (c = 95%N \/ In c name)).
  { intros c Hc. apply safe_name_chars in Hc. destruct Hc as (H32 & Hn & Hin).
    assert (P : forall x, (x < 128)%N -> name_char latin1 x = false -> c <> x).
    { intros x Hx Hf ->. unfold name_char in Hn, Hf.
      rewrite (is_word_std HU) in Hn by (unfold plain; apply orb_true_iff; left;
                                          now apply N.ltb_lt).
      now rewrite Hn in Hf. }
    repeat split; try assumption; apply P; reflexivity. }
  split; [exact Hc|].
  unfold output_path_of, path_join. apply (basename_join OUT_FOLDER).
  assert (E : existsb (N.eqb 47) (safe_name_of U name) = false).
  { destruct (existsb (N.eqb 47) (safe_name_of U name)) eqn:E; [|reflexivity].
    apply existsb_exists in E. destruct E as (c & Hin & E). apply N.eqb_eq in E. subst c.
    apply Hc in Hin. now destruct Hin as (H & _). }
  change (existsb (N.eqb 47) (safe_name_of U name ++ str ".json") = false).
  rewrite existsb_app. apply orb_false_iff. split; [exact E|reflexivity].
Qed.

Lemma output_file_stays_in_its_folder_witness :
  basename (output_path_of latin1 (str "../Alice Smith."))
  = safe_name_of latin1 (str "../Alice Smith.") ++ str ".json".
Proof.
  apply (@output_file_stays_in_its_folder latin1 (str "../Alice Smith.") standard_latin1).
Defined.
